(** * ca0s/pipeline: a verification development

    The Go package [pipeline] composes stream processors out of three
    combinators (Fanout, Sequential, Parallel), instruments them with a
    statistics store, traces and a levelled logger, and builds processor
    trees from a declarative descriptor.

    The development follows the package file by file:

    - [Ctx]       the part of [context.Context] the package relies on;
    - [Logging]   the levelled [Log] hook;
    - [Traces]    the traces flag and the [Traceable] capability;
    - [Stats]     the statistics store and the [Track*] hooks;
    - [Runtime]   goroutines, channels and wait groups as a small-step
                  machine;
    - [Pipeline]  the three [Execute] methods written for that machine;
    - [Builder]   [SerializedPipeline.Pipeline];
    - [Runs]      runs of the machine: [steps], [reachable], what a
                  goroutine has taken from a channel, the output;
    - [Network]   goroutines that are [for m := range c] loops, and the
                  invariants that link what they take to what they send;
    - [SeqModel]  the goroutines of [Sequential.Execute] over map leaves;
    - [FanModel]  the goroutines of [Fanout.Execute] over map leaves;
    - [Cancel]    [Cancelled];
    - [StatsCalls] sequences of calls to the [Track*] hooks;
    - [Shape]     the shape of descriptors and of processor trees;
    - [Marshal]   the [MarshalJSON] methods of the composites;
    - [Graph]     [ProcessorGraph]: the Mermaid text of a processor tree.

    Theorems come after all definitions, in modules named after the
    definitions they are about ([LoggingFacts], [StatsFacts],
    [BuilderFacts], [RuntimeFacts], [ShortRuns], [NetworkFacts],
    [SeqFacts], [FanFacts], [ContextFacts], [StatsCallsFacts],
    [ShapeFacts], [TreeFacts], [MarshalFacts], [GraphFacts]). *)

From Stdlib Require Import ZArith String List Lia DecimalString.
From stdpp Require Import base decidable option list gmap strings relations.

Set Warnings "-register-all".

Local Open Scope Z_scope.
Local Open Scope string_scope.
Local Open Scope list_scope.

(* ===================================================================== *)
(** * Definitions                                                         *)
(* ===================================================================== *)

(** ** context.Context: the value chain *)

Module Ctx.

(** Keys are compared with Go's interface equality: same dynamic type and
    same value.  The package uses two key types, the defined type
    [PipelineContextKey] and plain [string] (for [PipelineStatDB]). *)
Inductive key : Type :=
| PipelineContextKey (s : string)
| StringKey (s : string).

#[global] Instance key_eq_dec : EqDecision key.
Proof. solve_decision. Defined.

(** Dynamic values stored in a context.  [VStatDB elem ptr] is a
    [*StatDB[elem]]: [elem] names the instantiation of the type parameter
    and [ptr] is the address, [None] for a nil pointer.  [VOther] stands for
    a value of any other dynamic type. *)
Inductive value : Type :=
| VInt (n : Z)
| VBool (b : bool)
| VStatDB (elem : string) (ptr : option positive)
| VOther (type_name repr : string).

#[global] Instance value_eq_dec : EqDecision value.
Proof. solve_decision. Defined.

(** A context is the chain of [WithValue] nodes above
    [context.Background()], innermost first. *)
Definition Context : Type := list (key * value).

Definition Background : Context := [].

Definition WithValue (ctx : Context) (k : key) (v : value) : Context :=
  (k, v) :: ctx.

(** [ctx.Value(k)]: the innermost binding of [k]; [None] is the nil
    interface returned when no node carries the key. *)
Fixpoint Value (ctx : Context) (k : key) : option value :=
  match ctx with
  | [] => None
  | (k', v) :: parent => if decide (k' = k) then Some v else Value parent k
  end.

End Ctx.

(** ** The logger (the [Log] hook and its level constants) *)

Module Logging.
Import Ctx.

Definition PipeLineLogLevel : key := PipelineContextKey "pipeline_log_level".

(** [iota] is the index of the constant specification inside its [const]
    declaration. *)
Definition iota (spec_index : nat) : Z := Z.of_nat spec_index.

(** [const PipelineLogLevelDisabled = 0] *)
Definition PipelineLogLevelDisabled : Z := 0.

(** [const PipelineLogLevelDebug = iota]: a declaration of its own, so the
    specification has index 0. *)
Definition PipelineLogLevelDebug : Z := iota 0.

Definition WithLogLevel (ctx : Context) (level : Z) : Context :=
  WithValue ctx PipeLineLogLevel (VInt level).

(** [Log]: [msg] is the text [fmt.Sprintf(fmts, args...)] yields; [out] is
    what the standard logger has printed so far, one entry per call to
    [log.Printf] (the logger's own date prefix is left out).  The
    comparison [ctx.Value(PipeLineLogLevel) == PipelineLogLevelDebug]
    converts the untyped constant to [int] and compares interfaces. *)
Definition Log (ctx : Context) (proc_name msg : string) (out : list string)
  : list string :=
  if decide (Value ctx PipeLineLogLevel = Some (VInt PipelineLogLevelDebug))
  then out ++ ["[" +:+ proc_name +:+ "] " +:+ msg]
  else out.

End Logging.

(** ** Traces *)

Module Traces.
Import Ctx.

Definition TracesFlag : key := PipelineContextKey "traces_flag".

Definition WithTraces (ctx : Context) : Context :=
  WithValue ctx TracesFlag (VBool true).

(** [ctx.Value(TracesFlag) == true] *)
Definition HasTracesEnabled (ctx : Context) : bool :=
  bool_decide (Value ctx TracesFlag = Some (VBool true)).

(** [type Traceable interface { AddTrace(string) }]: the method mutates its
    receiver, so it is a state transformer on the item. *)
Class Traceable (Item : Type) := AddTrace : string → Item → Item.

(** An item that keeps its trace as a list of stage names, oldest first;
    the payload is an integer. *)
Record TracedItem : Type := { payload : Z; trace : list string }.

#[global] Instance TracedItem_Traceable : Traceable TracedItem :=
  fun stage it => {| payload := payload it; trace := trace it ++ [stage] |}.

End Traces.

(** ** The statistics store *)

Module Stats.
Import Ctx Traces.

Definition PipelineStatDB : key := StringKey "pipeline_stats_db".

(** [time.Time] as an opaque instant; the zero [time.Time{}] is 0. *)
Definition Time : Type := Z.

(** [atomic.Int64]: a signed 64-bit counter, [Inc] wraps around. *)
Definition int64_wrap (x : Z) : Z :=
  (x + 2 ^ 63) mod 2 ^ 64 - 2 ^ 63.

Definition Int64_Inc (x : Z) : Z := int64_wrap (x + 1).

Record Stats : Type := {
  Input : Z;
  Output : Z;
  Passthrough : Z;
  Failed : Z;
  LastInput : Time;
  LastOutput : Time;
  LastPassthrough : Time;
  LastFailure : Time;
  Started : Time;
  Finished : Time;
  Name : string
}.

Definition NewStats (name : string) : Stats :=
  {| Input := 0; Output := 0; Passthrough := 0; Failed := 0;
     LastInput := 0; LastOutput := 0; LastPassthrough := 0; LastFailure := 0;
     Started := 0; Finished := 0; Name := name |}.

(** The methods of [*Stats]; [now] is the reading of [time.Now()]. *)
Definition Stats_TrackStarted (now : Time) (s : Stats) : Stats :=
  {| Input := Input s; Output := Output s; Passthrough := Passthrough s;
     Failed := Failed s; LastInput := LastInput s; LastOutput := LastOutput s;
     LastPassthrough := LastPassthrough s; LastFailure := LastFailure s;
     Started := now; Finished := Finished s; Name := Name s |}.

Definition Stats_TrackFinished (now : Time) (s : Stats) : Stats :=
  {| Input := Input s; Output := Output s; Passthrough := Passthrough s;
     Failed := Failed s; LastInput := LastInput s; LastOutput := LastOutput s;
     LastPassthrough := LastPassthrough s; LastFailure := LastFailure s;
     Started := Started s; Finished := now; Name := Name s |}.

Definition Stats_TrackOutput (now : Time) (s : Stats) : Stats :=
  {| Input := Input s; Output := Int64_Inc (Output s);
     Passthrough := Passthrough s;
     Failed := Failed s; LastInput := LastInput s; LastOutput := now;
     LastPassthrough := LastPassthrough s; LastFailure := LastFailure s;
     Started := Started s; Finished := Finished s; Name := Name s |}.

Definition Stats_TrackPassthrough (now : Time) (s : Stats) : Stats :=
  {| Input := Input s; Output := Output s;
     Passthrough := Int64_Inc (Passthrough s);
     Failed := Failed s; LastInput := LastInput s; LastOutput := LastOutput s;
     LastPassthrough := now; LastFailure := LastFailure s;
     Started := Started s; Finished := Finished s; Name := Name s |}.

Definition Stats_TrackInput (now : Time) (s : Stats) : Stats :=
  {| Input := Int64_Inc (Input s); Output := Output s;
     Passthrough := Passthrough s;
     Failed := Failed s; LastInput := now; LastOutput := LastOutput s;
     LastPassthrough := LastPassthrough s; LastFailure := LastFailure s;
     Started := Started s; Finished := Finished s; Name := Name s |}.

Definition Stats_TrackFailure (now : Time) (s : Stats) : Stats :=
  {| Input := Input s; Output := Output s; Passthrough := Passthrough s;
     Failed := Int64_Inc (Failed s); LastInput := LastInput s;
     LastOutput := LastOutput s;
     LastPassthrough := LastPassthrough s; LastFailure := now;
     Started := Started s; Finished := Finished s; Name := Name s |}.

(** A [Processor[E]] used as a map key: the interface value is identified
    by the address it points to; [proc_name] is what [Name()] returns. *)
Record ProcRef : Type := { proc_addr : positive; proc_name : string }.

(** [StatDB.items]: [map[Processor[E]]*Stats].  Every [*Stats] is reachable
    through the map only, so the map holds the records themselves. *)
Abbreviation StatDB := (gmap positive Stats).


(** [getStats]: the entry of [p], created on first use. *)
Definition getStats (db : StatDB) (p : ProcRef) : Stats * StatDB :=
  match db !! proc_addr p with
  | Some stats => (stats, db)
  | None =>
      let stats := NewStats (proc_name p) in
      (stats, <[proc_addr p := stats]> db)
  end.

(** The unexported [track*] methods: fetch the entry, update it in place. *)
Definition db_track (upd : Time → Stats → Stats)
    (db : StatDB) (p : ProcRef) (now : Time) : StatDB :=
  let '(stats, db') := getStats db p in
  <[proc_addr p := upd now stats]> db'.

Definition trackStarted := db_track Stats_TrackStarted.
Definition trackFinished := db_track Stats_TrackFinished.
Definition trackInput := db_track Stats_TrackInput.
Definition trackOutput := db_track Stats_TrackOutput.
Definition trackPassthrough := db_track Stats_TrackPassthrough.

(** The stores that exist, by address. *)
Abbreviation Heap := (gmap positive (gmap positive Stats)).

Definition WithStats (elem : string) (ctx : Context) (sdb : option positive)
  : Context :=
  WithValue ctx PipelineStatDB (VStatDB elem sdb).

(** The type assertion of [ctx.Value(PipelineStatDB)] to a pointer to
    [StatDB[E]]: [None] when the assertion
    fails ([ok] false), [Some ptr] when it succeeds; [ptr] may be nil. *)
Definition store_of (elem : string) (ctx : Context)
  : option (option positive) :=
  match Value ctx PipelineStatDB with
  | Some (VStatDB elem' ptr) =>
      if decide (elem' = elem) then Some ptr else None
  | _ => None
  end.

(** How a hook ends: it returns, or it panics (a method called through a
    nil [*StatDB]); either way [a] is the state it leaves behind. *)
Inductive outcome (A : Type) : Type :=
| Returned (a : A)
| Panicked (a : A).
Arguments Returned {A} a.
Arguments Panicked {A} a.

Definition state_of {A} (o : outcome A) : A :=
  match o with Returned a | Panicked a => a end.

Definition returned {A} (o : outcome A) : bool :=
  match o with Returned _ => true | Panicked _ => false end.

(** The common tail of the hooks: look the store up, run one of its
    [track*] methods. *)
Definition with_store (elem : string) (ctx : Context)
    (method : StatDB → ProcRef → Time → StatDB)
    (processor : ProcRef) (now : Time) (h : Heap) : outcome Heap :=
  match store_of elem ctx with
  | None => Returned h
  | Some None => Panicked h
  | Some (Some a) =>
      match h !! a with
      | Some db => Returned (<[a := method db processor now]> h)
      | None => Panicked h
      end
  end.

Definition TrackStarted (elem : string) (ctx : Context) (processor : ProcRef)
    (now : Time) (h : Heap) : outcome Heap :=
  with_store elem ctx trackStarted processor now h.

Definition TrackFinished (elem : string) (ctx : Context) (processor : ProcRef)
    (now : Time) (h : Heap) : outcome Heap :=
  with_store elem ctx trackFinished processor now h.

Definition TrackInput (elem : string) (ctx : Context) (processor : ProcRef)
    (now : Time) (h : Heap) : outcome Heap :=
  with_store elem ctx trackInput processor now h.

Section Hooks_on_items.
Context {Item : Type} `{!Traceable Item}.

Definition with_item (obj : Item) (o : outcome Heap)
  : outcome (Item * Heap) :=
  match o with
  | Returned h => Returned (obj, h)
  | Panicked h => Panicked (obj, h)
  end.

Definition TrackOutput (elem : string) (ctx : Context)
    (processor : ProcRef) (obj : Item) (now : Time) (h : Heap)
  : outcome (Item * Heap) :=
  let obj' :=
    if HasTracesEnabled ctx then AddTrace (proc_name processor) obj
    else obj in
  with_item obj' (with_store elem ctx trackOutput processor now h).

(** [TrackPassthrough] calls [statDB.trackOutput], as the source does. *)
Definition TrackPassthrough (elem : string) (ctx : Context)
    (processor : ProcRef) (obj : Item) (now : Time) (h : Heap)
  : outcome (Item * Heap) :=
  with_item obj (with_store elem ctx trackOutput processor now h).

End Hooks_on_items.

End Stats.

(** ** Goroutines, channels and wait groups *)

Module Runtime.
Import Ctx.

(** A channel value: the nil channel or a reference to a channel made by
    [make(chan E, cap)]. *)
Inductive chan : Type :=
| NilChan
| Chan (id : nat).

#[global] Instance chan_eq_dec : EqDecision chan.
Proof. solve_decision. Defined.

Section Programs.
Context {E : Type}.

(** Calls to the instrumentation hooks.  They touch the statistics store,
    the item's trace and the logger only (modules [Stats], [Traces] and
    [Logging]), never a channel or a wait group; the scheduler below
    runs each as one silent step. *)
Inductive hook : Type :=
| HLog (proc msg : string)
| HTrackStarted (proc : string)
| HTrackFinished (proc : string)
| HTrackInput (proc : string)
| HTrackOutput (proc : string) (item : E).

(** The statements found in the body of a [for m := range ch] loop. *)
Inductive action : Type :=
| ASend (c : chan) (v : E)
| AHook (h : hook).

(** Goroutine code, in continuation-passing form: every constructor but
    [Ret] and [Panic] carries the code that follows it. *)
Inductive prog : Type :=
| Ret                                      (* the goroutine's function returns *)
| Panic (msg : string)                     (* run-time panic *)
| Hook (h : hook) (k : prog)
| MakeChan (cap : nat) (k : chan → prog)   (* make(chan E, cap) *)
| NewWaitGroup (k : nat → prog)            (* wg := sync.WaitGroup{} *)
| WgAdd (wg : nat) (delta : nat) (k : prog)
| WgDone (wg : nat) (k : prog)
| WgWait (wg : nat) (k : prog)
| Go (body : prog) (k : prog)              (* go func() { body }() *)
| Send (c : chan) (v : E) (k : prog)       (* c <- v *)
| Close (c : chan) (k : prog)              (* close(c) *)
| Range (c : chan) (body : E → list action) (k : prog).
                                           (* for m := range c { body m } *)

Definition run_action (a : action) (k : prog) : prog :=
  match a with
  | ASend c v => Send c v k
  | AHook h => Hook h k
  end.

(** One iteration of a loop body, followed by [k]. *)
Definition run_block (b : list action) (k : prog) : prog :=
  foldr run_action k b.

(** *** The scheduler's state *)

(** A channel: capacity, queued items (oldest first) and the closed flag.
    [ch_taken] is a history variable: every item a receiver has taken from
    the channel, in order. *)
Record chan_state : Type := mk_chan {
  ch_cap : nat;
  ch_buf : list E;
  ch_closed : bool;
  ch_taken : list E
}.

Definition new_chan (cap : nat) : chan_state :=
  {| ch_cap := cap; ch_buf := []; ch_closed := false; ch_taken := [] |}.

(** Goroutines by index (spawn order; a finished one stays as [Ret]),
    channels by index (allocation order), wait-group counters by index.
    [crashed] is set by a panic, which ends the whole program.
    [sendlog] is a history variable: every completed send, oldest first,
    as the channel's index and the item. *)
Record state : Type := mk_state {
  threads : list prog;
  chans : list chan_state;
  wgs : list nat;
  crashed : bool;
  sendlog : list (nat * E)
}.

Definition set_thread (i : nat) (p : prog) (s : state) : state :=
  {| threads := <[i := p]> (threads s); chans := chans s;
     wgs := wgs s; crashed := crashed s; sendlog := sendlog s |}.

Definition set_chan (c : nat) (ch : chan_state) (s : state) : state :=
  {| threads := threads s; chans := <[c := ch]> (chans s);
     wgs := wgs s; crashed := crashed s; sendlog := sendlog s |}.

Definition set_wg (w : nat) (n : nat) (s : state) : state :=
  {| threads := threads s; chans := chans s;
     wgs := <[w := n]> (wgs s); crashed := crashed s;
     sendlog := sendlog s |}.

Definition log_send (c : nat) (v : E) (s : state) : state :=
  {| threads := threads s; chans := chans s; wgs := wgs s;
     crashed := crashed s; sendlog := sendlog s ++ [(c, v)] |}.

Definition alloc_chan (cap : nat) (s : state) : state :=
  {| threads := threads s; chans := chans s ++ [new_chan cap];
     wgs := wgs s; crashed := crashed s; sendlog := sendlog s |}.

Definition alloc_wg (s : state) : state :=
  {| threads := threads s; chans := chans s; wgs := wgs s ++ [0%nat];
     crashed := crashed s; sendlog := sendlog s |}.

Definition spawn (body : prog) (s : state) : state :=
  {| threads := threads s ++ [body]; chans := chans s; wgs := wgs s;
     crashed := crashed s; sendlog := sendlog s |}.

Definition crash (s : state) : state :=
  {| threads := threads s; chans := chans s; wgs := wgs s;
     crashed := true; sendlog := sendlog s |}.

(** The channel after a send, a receive and a close. *)
Definition ch_push (v : E) (ch : chan_state) : chan_state :=
  {| ch_cap := ch_cap ch; ch_buf := ch_buf ch ++ [v];
     ch_closed := ch_closed ch; ch_taken := ch_taken ch |}.

Definition ch_pop (v : E) (rest : list E) (ch : chan_state) : chan_state :=
  {| ch_cap := ch_cap ch; ch_buf := rest;
     ch_closed := ch_closed ch; ch_taken := ch_taken ch ++ [v] |}.

Definition ch_handoff (v : E) (ch : chan_state) : chan_state :=
  {| ch_cap := ch_cap ch; ch_buf := ch_buf ch;
     ch_closed := ch_closed ch; ch_taken := ch_taken ch ++ [v] |}.

Definition ch_close (ch : chan_state) : chan_state :=
  {| ch_cap := ch_cap ch; ch_buf := ch_buf ch;
     ch_closed := true; ch_taken := ch_taken ch |}.

(** *** Steps of one goroutine

    [local_step i p s]: goroutine [i], whose code is [p], takes its next
    step alone; [None] when it is blocked or has returned. *)
Definition local_step (i : nat) (p : prog) (s : state) : option state :=
  match p with
  | Ret => None
  | Panic _ => Some (crash s)
  | Hook _ k => Some (set_thread i k s)
  | MakeChan cap k =>
      Some (set_thread i (k (Chan (length (chans s)))) (alloc_chan cap s))
  | NewWaitGroup k =>
      Some (set_thread i (k (length (wgs s))) (alloc_wg s))
  | WgAdd w delta k =>
      match wgs s !! w with
      | Some n => Some (set_thread i k (set_wg w (n + delta)%nat s))
      | None => None
      end
  | WgDone w k =>
      match wgs s !! w with
      | Some (S n) => Some (set_thread i k (set_wg w n s))
      | Some O => Some (crash s)      (* negative WaitGroup counter *)
      | None => None
      end
  | WgWait w k =>
      match wgs s !! w with
      | Some O => Some (set_thread i k s)
      | _ => None
      end
  | Go body k => Some (spawn body (set_thread i k s))
  | Send NilChan _ _ => None          (* blocks forever *)
  | Send (Chan c) v k =>
      match chans s !! c with
      | Some ch =>
          if ch_closed ch then Some (crash s)   (* send on closed channel *)
          else if decide (length (ch_buf ch) < ch_cap ch)%nat then
            Some (set_thread i k
                    (set_chan c (ch_push v ch) (log_send c v s)))
          else None
      | None => None
      end
  | Close NilChan _ => Some (crash s)  (* close of nil channel *)
  | Close (Chan c) k =>
      match chans s !! c with
      | Some ch =>
          if ch_closed ch then Some (crash s)   (* close of closed channel *)
          else Some (set_thread i k (set_chan c (ch_close ch) s))
      | None => None
      end
  | Range NilChan _ _ => None         (* blocks forever *)
  | Range (Chan c) body k =>
      match chans s !! c with
      | Some ch =>
          match ch_buf ch with
          | v :: rest =>
              Some (set_thread i (run_block (body v) (Range (Chan c) body k))
                      (set_chan c (ch_pop v rest ch) s))
          | [] => if ch_closed ch then Some (set_thread i k s) else None
          end
      | None => None
      end
  end.

Definition thread_step (i : nat) (s : state) : option state :=
  threads s !! i ≫= λ p, local_step i p s.

(** [sync_step i j s]: goroutine [i] sends on an unbuffered channel and
    goroutine [j], waiting in a [range] over the same channel, takes the
    item: the two move together. *)
Definition sync_step (i j : nat) (s : state) : option state :=
  match threads s !! i, threads s !! j with
  | Some (Send (Chan c) v k), Some (Range (Chan c') body k') =>
      match chans s !! c with
      | Some ch =>
          if decide (i ≠ j ∧ c = c' ∧ ch_cap ch = 0%nat
                     ∧ ch_closed ch = false)
          then
            Some
              (set_thread j (run_block (body v) (Range (Chan c') body k'))
                 (set_thread i k
                    (set_chan c (ch_handoff v ch) (log_send c v s))))
          else None
      | None => None
      end
  | _, _ => None
  end.

(** One step of the program: any goroutine that can move may move. *)
Definition step (s s' : state) : Prop :=
  crashed s = false ∧
  ∃ i, thread_step i s = Some s' ∨ ∃ j, sync_step i j s = Some s'.

(** The same, as the list of all successor states. *)
Definition successors (s : state) : list state :=
  if crashed s then []
  else
    let ids := seq 0 (length (threads s)) in
    omap (λ i, thread_step i s) ids
    ++ (ids ≫= λ i, omap (λ j, sync_step i j s) ids).

Definition reachable (s0 s : state) : Prop := rtc step s0 s.

Definition is_Ret (p : prog) : bool :=
  match p with Ret => true | _ => false end.

(** Every goroutine has returned. *)
Definition finished (s : state) : bool :=
  negb (crashed s) && forallb is_Ret (threads s).

(** [returned s i]: goroutine [i] has returned. *)
Definition returned (s : state) (i : nat) : Prop := threads s !! i = Some Ret.

Definition chan_at (s : state) (c : nat) : option chan_state := chans s !! c.

End Programs.

Arguments hook : clear implicits.
Arguments action : clear implicits.
Arguments prog : clear implicits.
Arguments chan_state : clear implicits.
Arguments state : clear implicits.

End Runtime.

(** ** Processors and the three composites *)

Module Pipeline.
Import Ctx Runtime.

Section Processors.
Context {E : Type}.

(** A [Processor[E]] value.  A leaf is user code: its name and its
    [Execute] method, which receives the code that follows the call.
    The composites carry their exported fields; of the unexported slices
    only [Parallel.procChans] is kept, because [Fanout] and [Sequential]
    overwrite theirs with a fresh [make] at the start of every call while
    [Parallel.Execute] uses the slice as it finds it.  [NilProcessor] is
    the nil interface value. *)
Inductive Processor : Type :=
| NilProcessor
| Leaf (name : string) (exec : Context → chan → chan → prog E → prog E)
| Fanout (ChainName : string) (Processors : list Processor)
| Sequential (ChainName : string) (Processors : list Processor)
| Parallel (ChainName : string) (Processors : list Processor)
           (procChans : list chan).

Definition Name (p : Processor) : string :=
  match p with
  | NilProcessor => ""                    (* the call panics *)
  | Leaf name _ => name
  | Fanout chain _ => "Fanout/" +:+ chain
  | Sequential chain _ => "Sequential/" +:+ chain
  | Parallel chain _ _ => "Parallel/" +:+ chain
  end.

(** [s[i] = c] on a slice: [None] is the index-out-of-range panic. *)
Definition slice_set (s : list chan) (i : nat) (c : chan)
  : option (list chan) :=
  if decide (i < length s)%nat then Some (<[i := c]> s) else None.

(** [make([]chan E, n)]: [n] nil channels. *)
Definition make_slice (n : nat) : list chan := replicate n NilChan.

(** [s[i]] on a slice, for reading. *)
Definition slice_get (s : list chan) (i : nat) : option chan := s !! i.

Definition index_out_of_range : prog E :=
  Panic "runtime error: index out of range".

(** The goroutine that forwards a child's (or the collector's) items to
    the composite's output, tracking each one. *)
Definition forward_tracked (self : string) (wg : nat) (src dst : chan)
  : prog E :=
  Range src (λ m, [AHook (HTrackOutput self m); ASend dst m])
    (WgDone wg Ret).

(** *** Fanout *)

(** [for _, procInput := range fanout.procInChans { close(procInput) }] *)
Definition close_all (cs : list chan) (k : prog E) : prog E :=
  foldr Close k cs.

(** The dispatcher goroutine. *)
Definition fanout_dispatcher (self : string) (wg : nat) (input : chan)
    (procInChans : list chan) : prog E :=
  Range input
    (λ msg, AHook (HTrackInput self)
              :: map (λ procInput, ASend procInput msg) procInChans)
    (close_all procInChans (WgDone wg Ret)).

(** The goroutine that drains one child's output into the collector. *)
Definition fanout_merge (wg : nat) (procOutput fanoutCollector : chan)
  : prog E :=
  Range procOutput (λ m, [ASend fanoutCollector m]) (WgDone wg Ret).

(** One iteration of [for procIndex, proc := range fanout.Processors],
    after its two channels have been made; [next] is the rest of the
    loop. *)
Definition fanout_iteration
    (exec : Processor → chan → chan → prog E → prog E)
    (wg : nat) (fanoutCollector : chan) (proc : Processor)
    (procIndex : nat) (procInChans procOutChans : list chan)
    (next : list chan → list chan → prog E)
    (procInput procOutput : chan) : prog E :=
  match slice_set procInChans procIndex procInput with
  | None => index_out_of_range
  | Some procInChans' =>
      match slice_set procOutChans procIndex procOutput with
      | None => index_out_of_range
      | Some procOutChans' =>
          WgAdd wg 1
          (Go (exec proc procInput procOutput (WgDone wg Ret))
          (WgAdd wg 1
          (Go (fanout_merge wg procOutput fanoutCollector)
          (next procInChans' procOutChans'))))
      end
  end.

Definition fanout_spawn (exec : Processor → chan → chan → prog E → prog E)
    (wg : nat) (fanoutCollector : chan)
  : list Processor → nat → list chan → list chan
    → (list chan → list chan → prog E) → prog E :=
  fix loop procs procIndex procInChans procOutChans k {struct procs} :=
    match procs with
    | [] => k procInChans procOutChans
    | proc :: rest =>
        MakeChan 200 (λ procInput,
        MakeChan 200 (λ procOutput,
          fanout_iteration exec wg fanoutCollector proc procIndex
            procInChans procOutChans
            (λ ins outs, loop rest (S procIndex) ins outs k)
            procInput procOutput))
    end.

(** What follows the loop: the dispatcher is started, then the joins and
    the closes. *)
Definition fanout_finish (self : string) (wg collectorWg : nat)
    (fanoutCollector input output : chan) (k : prog E)
    (procInChans procOutChans : list chan) : prog E :=
  WgAdd wg 1
  (Go (fanout_dispatcher self wg input procInChans)
  (WgWait wg
  (Close fanoutCollector
  (WgWait collectorWg
  (Hook (HTrackFinished self)
  (Close output k)))))).

Definition Fanout_Execute
    (exec : Processor → chan → chan → prog E → prog E)
    (self : string) (Processors : list Processor)
    (input output : chan) (k : prog E) : prog E :=
  Hook (HLog self "starting")
  (Hook (HTrackStarted self)
  (if decide (length Processors = 0)%nat then Close output k
   else
     NewWaitGroup (λ wg,
     NewWaitGroup (λ collectorWg,
     MakeChan 0 (λ fanoutCollector,
     WgAdd collectorWg 1
     (Go (forward_tracked self collectorWg fanoutCollector output)
     (fanout_spawn exec wg fanoutCollector Processors 0
        (make_slice (length Processors)) (make_slice (length Processors))
        (fanout_finish self wg collectorWg fanoutCollector
           input output k)))))))).

(** *** Sequential *)

(** The feeder goroutine. *)
Definition sequential_feeder (self : string) (wg : nat)
    (input entryChannel : chan) : prog E :=
  Range input (λ msg, [AHook (HTrackInput self); ASend entryChannel msg])
    (Close entryChannel (WgDone wg Ret)).

(** The goroutine that drains the last stage into the output. *)
Definition sequential_drain (self : string) (wg : nat)
    (procOutChans : list chan) (lastIndex : nat) (output : chan)
  : prog E :=
  match slice_get procOutChans lastIndex with
  | None => index_out_of_range
  | Some last => forward_tracked self wg last output
  end.

(** One iteration of [for procIndex, proc := range chain.Processors],
    after [procInput] has been chosen and [procOutput] made; [next] is
    the rest of the loop. *)
Definition sequential_iteration
    (exec : Processor → chan → chan → prog E → prog E)
    (wg : nat) (proc : Processor) (procIndex : nat)
    (procOutChans : list chan) (next : list chan → prog E)
    (procInput procOutput : chan) : prog E :=
  match slice_set procOutChans procIndex procOutput with
  | None => index_out_of_range
  | Some procOutChans' =>
      WgAdd wg 1
      (Go (exec proc procInput procOutput (WgDone wg Ret))
      (next procOutChans'))
  end.

(** [entryChannel] is nil until the first iteration sets it. *)
Definition sequential_spawn
    (exec : Processor → chan → chan → prog E → prog E) (wg : nat)
  : list Processor → nat → list chan → chan
    → (list chan → chan → prog E) → prog E :=
  fix loop procs procIndex procOutChans entryChannel k {struct procs} :=
    match procs with
    | [] => k procOutChans entryChannel
    | proc :: rest =>
        match procIndex with
        | O =>
            MakeChan 0 (λ procInput,
            MakeChan 0
              (sequential_iteration exec wg proc procIndex procOutChans
                 (λ outs, loop rest (S procIndex) outs procInput k)
                 procInput))
        | S prev =>
            match slice_get procOutChans prev with
            | None => index_out_of_range
            | Some procInput =>
                MakeChan 0
                  (sequential_iteration exec wg proc procIndex
                     procOutChans
                     (λ outs, loop rest (S procIndex) outs entryChannel k)
                     procInput)
            end
        end
    end.

(** What follows the loop: feeder, drain, join, close. *)
Definition sequential_finish (self : string) (wg lastIndex : nat)
    (input output : chan) (k : prog E)
    (procOutChans : list chan) (entryChannel : chan) : prog E :=
  WgAdd wg 1
  (Go (sequential_feeder self wg input entryChannel)
  (WgAdd wg 1
  (Go (sequential_drain self wg procOutChans lastIndex output)
  (WgWait wg
  (Hook (HTrackFinished self)
  (Close output k)))))).

Definition Sequential_Execute
    (exec : Processor → chan → chan → prog E → prog E)
    (self : string) (Processors : list Processor)
    (input output : chan) (k : prog E) : prog E :=
  Hook (HLog self "starting")
  (Hook (HTrackStarted self)
  (if decide (length Processors = 0)%nat then Close output k
   else
     NewWaitGroup (λ wg,
     sequential_spawn exec wg Processors 0
       (make_slice (length Processors)) NilChan
       (sequential_finish self wg (length Processors - 1) input output
          k)))).

(** *** Parallel *)

(** One iteration of [for procIndex, proc := range chain.Processors],
    after [procOutput] has been made.  The slice [chain.procChans] is
    indexed here without ever having been made. *)
Definition parallel_iteration
    (exec : Processor → chan → chan → prog E → prog E)
    (self : string) (wg : nat) (input output : chan) (proc : Processor)
    (procIndex : nat) (procChans : list chan)
    (next : list chan → prog E) (procOutput : chan) : prog E :=
  match slice_set procChans procIndex procOutput with
  | None => index_out_of_range
  | Some procChans' =>
      WgAdd wg 1
      (Go (exec proc input procOutput (WgDone wg Ret))
      (WgAdd wg 1
      (Go (forward_tracked self wg procOutput output)
      (next procChans'))))
  end.

Definition parallel_spawn
    (exec : Processor → chan → chan → prog E → prog E)
    (self : string) (wg : nat) (input output : chan)
  : list Processor → nat → list chan → prog E → prog E :=
  fix loop procs procIndex procChans k {struct procs} :=
    match procs with
    | [] => k
    | proc :: rest =>
        MakeChan 0
          (parallel_iteration exec self wg input output proc procIndex
             procChans (λ chans', loop rest (S procIndex) chans' k))
    end.

Definition Parallel_Execute
    (exec : Processor → chan → chan → prog E → prog E)
    (self : string) (Processors : list Processor) (procChans : list chan)
    (input output : chan) (k : prog E) : prog E :=
  Hook (HLog self "starting")
  (Hook (HTrackStarted self)
  (if decide (length Processors = 0)%nat then Close output k
   else
     NewWaitGroup (λ wg,
     parallel_spawn exec self wg input output Processors 0 procChans
       (WgWait wg
       (Hook (HTrackFinished self)
       (Close output k)))))).

(** *** Execute, by dynamic dispatch on the processor

    [Execute p ctx input output k]: the call
    [p.Execute(ctx, input, output)] followed by [k]. *)
Fixpoint Execute (p : Processor) (ctx : Context) (input output : chan)
    (k : prog E) {struct p} : prog E :=
  match p with
  | NilProcessor =>
      Panic "runtime error: invalid memory address or nil pointer dereference"
  | Leaf _ exec => exec ctx input output k
  | Fanout chain procs =>
      Fanout_Execute (λ q, Execute q ctx) ("Fanout/" +:+ chain) procs
        input output k
  | Sequential chain procs =>
      Sequential_Execute (λ q, Execute q ctx) ("Sequential/" +:+ chain)
        procs input output k
  | Parallel chain procs procChans =>
      Parallel_Execute (λ q, Execute q ctx) ("Parallel/" +:+ chain)
        procs procChans input output k
  end.

(** *** Leaves used by the properties

    A leaf that maps every item through [f]:
    [for m := range input { output <- f(m) }; close(output)].  It follows
    the contract written above [type Processor]: read all input, send the
    output, close the output when finished. *)
Definition MapLeaf (name : string) (f : E → E) : Processor :=
  Leaf name (λ _ input output k,
    Range input (λ m, [ASend output (f m)]) (Close output k)).

(** The pass-through leaf forwards every item unchanged. *)
Definition PassThrough (name : string) : Processor := MapLeaf name id.

(** *** Running a pipeline

    The caller makes [input] with room for all items, sends them and
    closes it, makes [output] with capacity [out_cap], and calls
    [p.Execute(ctx, input, output)] on the main goroutine.  [input] is
    channel 0 and [output] is channel 1. *)
Definition input : chan := Chan 0.
Definition output : chan := Chan 1.

Definition init (p : Processor) (ctx : Context) (items : list E)
    (out_cap : nat) : state E :=
  {| threads := [Execute p ctx input output Ret];
     chans := [ {| ch_cap := length items; ch_buf := items;
                   ch_closed := true; ch_taken := [] |};
                new_chan out_cap ];
     wgs := [];
     crashed := false;
     sendlog := [] |}.

End Processors.

Arguments Processor : clear implicits.

End Pipeline.

(** ** Building a processor tree from a descriptor *)

Module Builder.
Import Ctx Runtime Pipeline.

Section Build.
Context {E : Type} {Config : Type}.

(** [SerializedPipeline]: kind, name, opaque configuration, children.
    The unexported [processorFactory] field is set on the root by
    [SetProcessorFactory] and copied into every child just before the
    child is built, so [Pipeline] below takes it as an argument. *)
Inductive SerializedPipeline : Type :=
| Descriptor (Type_ : string) (Name_ : string) (Config_ : Config)
             (Processors_ : list SerializedPipeline).

Definition Name_of (sp : SerializedPipeline) : string :=
  match sp with Descriptor _ name _ _ => name end.

(** An [error] value, by its message. *)
Definition error : Type := string.

(** [ProcessorFactory]: returns a processor and an error, either of
    which may be nil. *)
Definition ProcessorFactory : Type :=
  string → Config → Processor E * option error.

(** [var ErrInvalidType = fmt.Errorf(...)] *)
Definition ErrInvalidType : error := "invalid pipeline type".

(** What [Pipeline] yields: a processor with a nil error, a non-nil
    error, or a panic (the call of a nil factory). *)
Inductive result (A : Type) : Type :=
| Ok (a : A)
| Err (e : error)
| NilFactoryPanic.
Arguments Ok {A} a.
Arguments Err {A} e.
Arguments NilFactoryPanic {A}.

(** The loop [for _, proc := range sp.Processors] shared by the three
    composite kinds: [acc] is the slice grown with [append], and the
    second component lists the names the factory was called with. *)
Definition build_children
    (build : SerializedPipeline → result (Processor E) * list string)
  : list SerializedPipeline → list (Processor E)
    → result (list (Processor E)) * list string :=
  fix loop procs acc {struct procs} :=
    match procs with
    | [] => (Ok acc, [])
    | proc :: rest =>
        match build proc with
        | (Ok builtProc, calls) =>
            let '(r, calls') := loop rest (acc ++ [builtProc]) in
            (r, calls ++ calls')
        | (Err e, calls) => (Err e, calls)
        | (NilFactoryPanic, calls) => (NilFactoryPanic, calls)
        end
    end.

Definition wrap (mk : list (Processor E) → Processor E)
    (r : result (list (Processor E)) * list string)
  : result (Processor E) * list string :=
  match r with
  | (Ok procs, calls) => (Ok (mk procs), calls)
  | (Err e, calls) => (Err e, calls)
  | (NilFactoryPanic, calls) => (NilFactoryPanic, calls)
  end.

(** [sp.Pipeline()], with the log of factory calls. *)
Fixpoint Pipeline (processorFactory : option ProcessorFactory)
    (sp : SerializedPipeline) {struct sp}
  : result (Processor E) * list string :=
  match sp with
  | Descriptor type name cfg procs =>
      if String.eqb type "fanout" then
        wrap (Fanout name)
          (build_children (Pipeline processorFactory) procs [])
      else if String.eqb type "parallel" then
        wrap (λ ps, Parallel name ps [])
          (build_children (Pipeline processorFactory) procs [])
      else if String.eqb type "sequential" then
        wrap (Sequential name)
          (build_children (Pipeline processorFactory) procs [])
      else if String.eqb type "processor" then
        match processorFactory with
        | None => (NilFactoryPanic, [])
        | Some factory =>
            match factory name cfg with
            | (_, Some _) =>
                (Err (name +:+ ": " +:+ ErrInvalidType), [name])
            | (proc, None) => (Ok proc, [name])
            end
        end
      else (Err ErrInvalidType, [])
  end.

(** The four kinds the switch knows. *)
Definition known_kind (type : string) : bool :=
  String.eqb type "fanout" || String.eqb type "parallel"
  || String.eqb type "sequential" || String.eqb type "processor".

Definition composite_kind (type : string) : bool :=
  String.eqb type "fanout" || String.eqb type "parallel"
  || String.eqb type "sequential".

(** [mentions msg name]: the text [name] occurs in [msg]. *)
Definition mentions (msg name : string) : bool :=
  match String.index 0 name msg with Some _ => true | None => false end.

End Build.

Arguments SerializedPipeline : clear implicits.
Arguments result : clear implicits.
Arguments Ok {A} a.
Arguments Err {A} e.
Arguments NilFactoryPanic {A}.

End Builder.


(** ** Runs of a pipeline *)

Module Runs.
Import Ctx Runtime Pipeline.

Section Runs.
Context {E : Type}.

(** [is_run s rest]: from [s] the program can only walk through the
    states of [rest], one after the other, and then cannot move. *)
Fixpoint is_run (s : state E) (rest : list (state E)) : Prop :=
  match rest with
  | [] => successors s = []
  | s' :: rest' => successors s = [s'] ∧ is_run s' rest'
  end.


(** The channel as the caller filled it, and the output channel once it
    has been closed with [buf] queued in it. *)
Definition input_of (items : list E) : chan_state E :=
  {| ch_cap := length items; ch_buf := items; ch_closed := true;
     ch_taken := [] |}.

Definition closed_output (out_cap : nat) (buf : list E) : chan_state E :=
  {| ch_cap := out_cap; ch_buf := buf; ch_closed := true;
     ch_taken := [] |}.

(** A state with the main goroutine alone, about to run [k], and
    nothing sent so far. *)
Definition solo (k : prog E) (chs : list (chan_state E)) (ws : list nat)
    (panicked : bool) : state E :=
  {| threads := [k]; chans := chs; wgs := ws; crashed := panicked;
     sendlog := [] |}.

(** [Execute] has returned on the main goroutine. *)
Definition main_returned (s : state E) : Prop := threads s !! 0%nat = Some Ret.

(** The output channel (channel 1) has been closed. *)
Definition output_closed (s : state E) : bool :=
  match chans s !! 1%nat with
  | Some ch => ch_closed ch
  | None => false
  end.

(** The items queued in the output channel. *)
Definition output_items (s : state E) : list E :=
  match chans s !! 1%nat with
  | Some ch => ch_buf ch
  | None => []
  end.

(** The items receivers have taken from channel [c] so far. *)
Definition taken_from (s : state E) (c : nat) : list E :=
  match chans s !! c with
  | Some ch => ch_taken ch
  | None => []
  end.

(** [steps n s s']: [s'] is [n] steps away from [s]. *)
Definition steps (n : nat) (s s' : state E) : Prop := nsteps step n s s'.

End Runs.
End Runs.

(** ** Networks of loop goroutines

    Every goroutine the composites start, and every leaf of the properties,
    has the same shape: a [for m := range c] loop whose body is a sequence of
    hook calls and sends, followed by a tail of [close] and [wg.Done()]
    calls.  This module describes such goroutines by their loop and their
    position in it, so that a state of the scheduler can be read as the main
    goroutine's code, the positions of the workers, and the data (channels,
    wait groups, history). *)

Module Network.
Import Ctx Runtime Pipeline Runs.

(** The statements after a goroutine's loop. *)
Inductive tact : Type :=
| TClose (c : nat)
| TDone (wg : nat).

#[global] Instance tact_eq_dec : EqDecision tact.
Proof. solve_decision. Defined.

Section Workers.
Context {E : Type}.

Definition run_tact (t : tact) (k : prog E) : prog E :=
  match t with
  | TClose c => Close (Chan c) k
  | TDone wg => WgDone wg k
  end.

Definition tail_prog (t : list tact) : prog E := foldr run_tact Ret t.

(** A worker's code: the channel it ranges over, the loop body, and the
    tail. *)
Record wspec : Type := mk_wspec {
  ws_in : nat;
  ws_body : E → list (action E);
  ws_tail : list tact
}.

Definition wloop (sp : wspec) : prog E :=
  Range (Chan (ws_in sp)) (ws_body sp) (tail_prog (ws_tail sp)).

(** Where a worker stands: at the head of its loop, inside the body with
    [rem] still to run, or in the tail with [rem] still to run
    ([WTail []]: it has returned). *)
Inductive wst : Type :=
| WHead
| WBody (rem : list (action E))
| WTail (rem : list tact).

(** The position after part of a body has run: the head again when
    nothing is left. *)
Definition wbody (rem : list (action E)) : wst :=
  match rem with
  | [] => WHead
  | _ => WBody rem
  end.

Local Abbreviation worker := (wspec * wst)%type.

Definition wprog (w : worker) : prog E :=
  match w.2 with
  | WHead => wloop w.1
  | WBody rem => run_block rem (wloop w.1)
  | WTail rem => tail_prog rem
  end.

(** What is left of a worker's tail. *)
Definition rtail (w : worker) : list tact :=
  match w.2 with
  | WTail rem => rem
  | _ => ws_tail w.1
  end.

(** The data of a state: everything but the goroutines' code. *)
Record data : Type := mk_data {
  d_chans : list (chan_state E);
  d_wgs : list nat;
  d_crashed : bool;
  d_log : list (nat * E)
}.

Definition data_of (s : state E) : data :=
  {| d_chans := chans s; d_wgs := wgs s; d_crashed := crashed s;
     d_log := sendlog s |}.

(** The state whose main goroutine runs [main], whose other goroutines
    are the workers [ws] in spawn order, over the data [d]. *)
Definition conc (main : prog E) (ws : list worker) (d : data) : state E :=
  {| threads := main :: (wprog <$> ws);
     chans := d_chans d; wgs := d_wgs d; crashed := d_crashed d;
     sendlog := d_log d |}.

Definition d_set_chan (c : nat) (ch : chan_state E) (d : data) : data :=
  {| d_chans := <[c := ch]> (d_chans d); d_wgs := d_wgs d;
     d_crashed := d_crashed d; d_log := d_log d |}.

Definition d_set_wg (w n : nat) (d : data) : data :=
  {| d_chans := d_chans d; d_wgs := <[w := n]> (d_wgs d);
     d_crashed := d_crashed d; d_log := d_log d |}.

Definition d_log_send (c : nat) (v : E) (d : data) : data :=
  {| d_chans := d_chans d; d_wgs := d_wgs d;
     d_crashed := d_crashed d; d_log := d_log d ++ [(c, v)] |}.

Definition d_alloc_chan (cap : nat) (d : data) : data :=
  {| d_chans := d_chans d ++ [new_chan cap]; d_wgs := d_wgs d;
     d_crashed := d_crashed d; d_log := d_log d |}.

Definition d_alloc_wg (d : data) : data :=
  {| d_chans := d_chans d; d_wgs := d_wgs d ++ [0%nat];
     d_crashed := d_crashed d; d_log := d_log d |}.

Definition d_crash (d : data) : data :=
  {| d_chans := d_chans d; d_wgs := d_wgs d; d_crashed := true;
     d_log := d_log d |}.

(** Histories read off the data: what has been taken from a channel, what
    is queued in it, and what has been sent on it (taken or queued). *)
Definition taken (d : data) (c : nat) : list E :=
  match d_chans d !! c with Some ch => ch_taken ch | None => [] end.

Definition queued (d : data) (c : nat) : list E :=
  match d_chans d !! c with Some ch => ch_buf ch | None => [] end.

Definition sent (d : data) (c : nat) : list E := taken d c ++ queued d c.

Definition closed (d : data) (c : nat) : bool :=
  match d_chans d !! c with Some ch => ch_closed ch | None => false end.

Definition capacity (d : data) (c : nat) : nat :=
  match d_chans d !! c with Some ch => ch_cap ch | None => O end.

(** No queue holds more than its channel's capacity. *)
Definition bounded (d : data) : Prop :=
  ∀ c ch, d_chans d !! c = Some ch → (length (ch_buf ch) ≤ ch_cap ch)%nat.

(** The items a piece of a loop body sends on channel [c], in order. *)
Definition sends_to (c : nat) (acts : list (action E)) : list E :=
  omap (λ a, match a with
             | ASend (Chan c') v => if decide (c' = c) then Some v else None
             | _ => None
             end) acts.

(** The sends a worker still has to make on [c] in the current
    iteration. *)
Definition pend_to (c : nat) (st : wst) : list E :=
  match st with
  | WBody rem => sends_to c rem
  | _ => []
  end.

(** All sends of a piece of a loop body, as the history logs them. *)
Definition sends_of (acts : list (action E)) : list (nat * E) :=
  omap (λ a, match a with
             | ASend (Chan c) v => Some (c, v)
             | _ => None
             end) acts.

Definition pend_all (st : wst) : list (nat * E) :=
  match st with
  | WBody rem => sends_of rem
  | _ => []
  end.

(** *** Steps of the workers

    [wtrans ws d ws' d']: one step taken by a worker alone, or by two
    workers meeting on an unbuffered channel. *)
Inductive wtrans (ws : list worker) (d : data)
  : list worker → data → Prop :=
| wt_recv j sp ch v rest :
    ws !! j = Some (sp, WHead) →
    d_chans d !! ws_in sp = Some ch → ch_buf ch = v :: rest →
    wtrans ws d (<[j := (sp, wbody (ws_body sp v))]> ws)
      (d_set_chan (ws_in sp) (ch_pop v rest ch) d)
| wt_exit j sp ch :
    ws !! j = Some (sp, WHead) →
    d_chans d !! ws_in sp = Some ch → ch_buf ch = [] →
    ch_closed ch = true →
    wtrans ws d (<[j := (sp, WTail (ws_tail sp))]> ws) d
| wt_hook j sp h rem :
    ws !! j = Some (sp, WBody (AHook h :: rem)) →
    wtrans ws d (<[j := (sp, wbody rem)]> ws) d
| wt_send j sp c v rem ch :
    ws !! j = Some (sp, WBody (ASend (Chan c) v :: rem)) →
    d_chans d !! c = Some ch → ch_closed ch = false →
    (length (ch_buf ch) < ch_cap ch)%nat →
    wtrans ws d (<[j := (sp, wbody rem)]> ws)
      (d_set_chan c (ch_push v ch) (d_log_send c v d))
| wt_send_closed j sp c v rem ch :
    ws !! j = Some (sp, WBody (ASend (Chan c) v :: rem)) →
    d_chans d !! c = Some ch → ch_closed ch = true →
    wtrans ws d ws (d_crash d)
| wt_sync i j spi spj c v rem ch :
    ws !! i = Some (spi, WBody (ASend (Chan c) v :: rem)) →
    ws !! j = Some (spj, WHead) → ws_in spj = c → i ≠ j →
    d_chans d !! c = Some ch → ch_cap ch = 0%nat →
    ch_closed ch = false →
    wtrans ws d
      (<[j := (spj, wbody (ws_body spj v))]> (<[i := (spi, wbody rem)]> ws))
      (d_set_chan c (ch_handoff v ch) (d_log_send c v d))
| wt_close j sp c rem ch :
    ws !! j = Some (sp, WTail (TClose c :: rem)) →
    d_chans d !! c = Some ch → ch_closed ch = false →
    wtrans ws d (<[j := (sp, WTail rem)]> ws)
      (d_set_chan c (ch_close ch) d)
| wt_close_closed j sp c rem ch :
    ws !! j = Some (sp, WTail (TClose c :: rem)) →
    d_chans d !! c = Some ch → ch_closed ch = true →
    wtrans ws d ws (d_crash d)
| wt_done j sp w rem n :
    ws !! j = Some (sp, WTail (TDone w :: rem)) →
    d_wgs d !! w = Some (S n) →
    wtrans ws d (<[j := (sp, WTail rem)]> ws) (d_set_wg w n d)
| wt_done_zero j sp w rem :
    ws !! j = Some (sp, WTail (TDone w :: rem)) →
    d_wgs d !! w = Some O →
    wtrans ws d ws (d_crash d).

(** Code of the main goroutine that neither sends nor receives, so that
    it takes no part in a meeting on an unbuffered channel. *)
Definition quiet (p : prog E) : bool :=
  match p with
  | Send _ _ _ | Range _ _ _ => false
  | _ => true
  end.

(** *** Invariants of the workers *)

(** A worker's position is a position of its own code. *)
Definition wvalid (w : worker) : Prop :=
  match w.2 with
  | WHead => True
  | WBody rem => rem ≠ [] ∧ ∃ v, rem `suffix_of` ws_body w.1 v
  | WTail rem => rem `suffix_of` ws_tail w.1
  end.

(** What worker [j] has sent on [c], with what it is about to send, is
    what its loop body makes of the items it has taken. *)
Definition chain_eq (ws : list worker) (d : data) (j c : nat) : Prop :=
  ∀ sp st, ws !! j = Some (sp, st) →
    sent d c ++ pend_to c st
    = flat_map (λ v, sends_to c (ws_body sp v)) (taken d (ws_in sp)).

(** Channel [c] is closed exactly when worker [j] has run its
    [close(c)]. *)
Definition closed_by (ws : list worker) (d : data) (j c : nat) : Prop :=
  ∀ sp st, ws !! j = Some (sp, st) →
    (closed d c = true ↔ ∃ rem, st = WTail rem ∧ TClose c ∉ rem).

(** A worker that has left its loop has seen its input closed and
    drained. *)
Definition tail_drained (ws : list worker) (d : data) : Prop :=
  ∀ j sp rem, ws !! j = Some (sp, WTail rem) →
    closed d (ws_in sp) = true ∧ queued d (ws_in sp) = [].

(** The [wg.Done()] calls the workers still have to make on [w]. *)
Definition dones_left (w : nat) (ws : list worker) : nat :=
  sum_list ((λ wk, length (filter (λ t, t = TDone w) (rtail wk))) <$> ws).

Definition dones_of (w : nat) (wk : worker) : nat :=
  length (filter (λ t, t = TDone w) (rtail wk)).

(** Counting on a channel with several senders: what a worker owes to
    [c] for the items it has taken, and what it still holds for [c]. *)
Definition owed (c : nat) (d : data) (sp : wspec) : nat :=
  length (flat_map (λ v, sends_to c (ws_body sp v)) (taken d (ws_in sp))).

Definition holding (c : nat) (w : worker) : nat := length (pend_to c w.2).

(** What has been sent on [c], with what the workers hold for it, is
    what they owe to it. *)
Definition count_eq (ws : list worker) (d : data) (c : nat) : Prop :=
  (length (sent d c) + sum_list (holding c <$> ws)
   = sum_list ((λ w, owed c d w.1) <$> ws))%nat.

(** The sends on the channels of [P], all made by worker [j], are in the
    history in the order of [j]'s loop. *)
Definition log_eq (P : nat → Prop) `{!∀ c, Decision (P c)}
    (ws : list worker) (d : data) (j : nat) : Prop :=
  ∀ sp st, ws !! j = Some (sp, st) →
    filter (λ e, P e.1) (d_log d) ++ pend_all st
    = flat_map (λ v, sends_of (ws_body sp v)) (taken d (ws_in sp)).

(** Some worker can take a step. *)
Definition can_move (ws : list worker) (d : data) : Prop :=
  ∃ ws' d', wtrans ws d ws' d'.

(** *** A termination measure

    [wt c] is the weight of an item queued in channel [c]. *)
Definition act_cost (wt : nat → nat) (a : action E) : nat :=
  match a with
  | ASend (Chan c) _ => 1 + wt c
  | _ => 1
  end.

Definition body_cost (wt : nat → nat) (rem : list (action E)) : nat :=
  sum_list (act_cost wt <$> rem).

Definition worker_measure (wt : nat → nat) (w : worker) : nat :=
  match w.2 with
  | WHead => 1 + length (ws_tail w.1)
  | WBody rem => 1 + length (ws_tail w.1) + body_cost wt rem
  | WTail rem => length rem
  end.

Definition queue_measure (wt : nat → nat) (d : data) : nat :=
  sum_list (imap (λ c ch, wt c * length (ch_buf ch))%nat (d_chans d)).

Definition net_measure (wt : nat → nat) (ws : list worker) (d : data)
  : nat :=
  sum_list (worker_measure wt <$> ws) + queue_measure wt d.

(** Every loop body costs less than an item queued in its input. *)
Definition costs_ok (wt : nat → nat) (ws : list worker) : Prop :=
  ∀ j sp st v, ws !! j = Some (sp, st) →
    (body_cost wt (ws_body sp v) < wt (ws_in sp))%nat.

End Workers.

Arguments wspec : clear implicits.
Arguments wst : clear implicits.
Abbreviation worker E := (wspec E * wst E)%type (only parsing).
Arguments data : clear implicits.

End Network.

(** ** The Sequential composite over map leaves, as a network *)

Module SeqModel.
Import Ctx Runtime Pipeline Runs Network.
Local Open Scope nat_scope.

(** Where [Sequential.Execute] stands on the main goroutine. *)
Inductive mpc : Type :=
| MLog | MTrack | MNewWg | MEntry
| MOut (k : nat) | MAdd (k : nat) | MGo (k : nat)
| MAddFeeder | MGoFeeder | MAddDrain | MGoDrain
| MWait | MTrackFinished | MClose | MRet.

#[global] Instance mpc_eq_dec : EqDecision mpc.
Proof. solve_decision. Defined.

Section Model.
Context {E : Type}.
Variables (ctx : Context) (chain : string)
  (stages : list (string * (E → E))) (xs : list E) (out_cap : nat).

(** The children: one map leaf per stage, in order. *)
Definition leaf (st : string * (E → E)) : Processor E := MapLeaf st.1 st.2.
Definition leaves : list (Processor E) := leaf <$> stages.
Definition composite : Processor E := Sequential chain leaves.

Definition N : nat := length leaves.
Definition self : string := "Sequential/" +:+ chain.
Definition exec : Processor E → chan → chan → prog E → prog E :=
  λ q, Execute q ctx.
Definition leaf_at (k : nat) : Processor E := nth k leaves NilProcessor.

(** What the whole chain does to an item. *)
Definition chain_fn : E → E :=
  foldr (λ st g, g ∘ st.2) id stages.

(** *** The goroutines

    Channel 0 is the input, 1 the output, 2 the entry channel, and
    [3 + k] the output of stage [k]; wait group 0 is [wg]. *)
Definition kid_spec (k : nat) (f : E → E) : wspec E :=
  {| ws_in := 2 + k;
     ws_body := λ m, [ASend (Chan (3 + k)) (f m)];
     ws_tail := [TClose (3 + k); TDone 0] |}.

Definition feeder_spec : wspec E :=
  {| ws_in := 0;
     ws_body := λ msg, [AHook (HTrackInput self); ASend (Chan 2) msg];
     ws_tail := [TClose 2; TDone 0] |}.

Definition drain_spec : wspec E :=
  {| ws_in := 2 + N;
     ws_body := λ m, [AHook (HTrackOutput self m); ASend (Chan 1) m];
     ws_tail := [TDone 0] |}.

(** The workers in spawn order: the stages, the feeder, the drain. *)
Definition specs : list (wspec E) :=
  imap (λ k st, kid_spec k st.2) stages ++ [feeder_spec; drain_spec].

(** Worker [j]'s input channel, output channel and function. *)
Definition w_in (j : nat) : nat :=
  if decide (j < N) then (2 + j)
  else if decide (j = N) then 0 else (2 + N).

Definition w_out (j : nat) : nat :=
  if decide (j < N) then (3 + j)
  else if decide (j = N) then 2 else 1.

Definition w_fn (j : nat) : E → E :=
  match stages !! j with
  | Some st => st.2
  | None => id
  end.

(** The workers in the order of the lane: the feeder, the stages, the
    drain; and the channel each reads and writes. *)
Definition widx (p : nat) : nat :=
  if decide (p = 0) then N else if decide (p ≤ N) then p - 1 else N + 1.

Definition cin (p : nat) : nat := if decide (p = 0) then 0 else 1 + p.

Definition cout (p : nat) : nat := if decide (p ≤ N) then 2 + p else 1.

(** What an item has become when it reaches the worker at place [p] of
    the lane. *)
Definition flow (p : nat) : E → E :=
  foldr (λ st g, g ∘ st.2) id (take (p - 1) stages).

(** *** The main goroutine *)

(** [chain.procOutChans] after [k] iterations of the loop. *)
Definition slice_after (k : nat) : list chan :=
  (Chan <$> seq 3 k) ++ replicate (N - k) NilChan.

Definition finish : list chan → chan → prog E :=
  sequential_finish self 0 (N - 1) input output Ret.

(** The loop from iteration [k] on. *)
Definition loop_from (k : nat) : prog E :=
  sequential_spawn exec 0 (drop k leaves) k (slice_after k) (Chan 2)
    finish.

Definition child_call (k : nat) : prog E :=
  exec (leaf_at k) (Chan (2 + k)) (Chan (3 + k)) (WgDone 0 Ret).

Definition wait_prog : prog E :=
  WgWait 0 (Hook (HTrackFinished self) (Close output Ret)).

Definition drain_call : prog E :=
  sequential_drain self 0 (slice_after N) (N - 1) output.

Definition after_hooks : prog E :=
  if decide (length leaves = 0) then Close output Ret
  else
    NewWaitGroup (λ wg,
      sequential_spawn exec wg leaves 0 (make_slice (length leaves))
        NilChan
        (sequential_finish self wg (length leaves - 1) input output Ret)).

Definition main_prog (pc : mpc) : prog E :=
  match pc with
  | MLog => Execute composite ctx input output Ret
  | MTrack => Hook (HTrackStarted self) after_hooks
  | MNewWg => after_hooks
  | MEntry =>
      sequential_spawn exec 0 leaves 0 (make_slice N) NilChan finish
  | MOut k =>
      MakeChan 0
        (sequential_iteration exec 0 (leaf_at k) k (slice_after k)
           (λ outs,
              sequential_spawn exec 0 (drop (S k) leaves) (S k) outs
                (Chan 2) finish)
           (Chan (2 + k)))
  | MAdd k => WgAdd 0 1 (Go (child_call k) (loop_from (S k)))
  | MGo k => Go (child_call k) (loop_from (S k))
  | MAddFeeder => finish (slice_after N) (Chan 2)
  | MGoFeeder =>
      Go (sequential_feeder self 0 input (Chan 2))
         (WgAdd 0 1 (Go drain_call wait_prog))
  | MAddDrain => WgAdd 0 1 (Go drain_call wait_prog)
  | MGoDrain => Go drain_call wait_prog
  | MWait => wait_prog
  | MTrackFinished => Hook (HTrackFinished self) (Close output Ret)
  | MClose => Close output Ret
  | MRet => Ret
  end.

(** The position after [Go] of stage [k]. *)
Definition after_go (k : nat) : mpc :=
  if decide (S k < N) then MOut (S k) else MAddFeeder.

Definition pc_ok (pc : mpc) : Prop :=
  match pc with
  | MOut k | MAdd k | MGo k => (k < N)
  | _ => True
  end.

(** How many workers have been spawned, and how many channels made. *)
Definition nspawned (pc : mpc) : nat :=
  match pc with
  | MLog | MTrack | MNewWg | MEntry => 0
  | MOut k | MAdd k | MGo k => k
  | MAddFeeder | MGoFeeder => N
  | MAddDrain | MGoDrain => N + 1
  | _ => N + 2
  end.

Definition nchans (pc : mpc) : nat :=
  match pc with
  | MLog | MTrack | MNewWg | MEntry => 2
  | MOut k => 3 + k
  | MAdd k | MGo k => 4 + k
  | _ => 3 + N
  end.

(** [wg.Add(1)] calls whose goroutine has not been started yet. *)
Definition pending (pc : mpc) : nat :=
  match pc with
  | MGo _ | MGoFeeder | MGoDrain => 1
  | _ => 0
  end.

Definition before_wg (pc : mpc) : bool :=
  match pc with
  | MLog | MTrack | MNewWg => true
  | _ => false
  end.

Definition after_wait (pc : mpc) : bool :=
  match pc with
  | MTrackFinished | MClose | MRet => true
  | _ => false
  end.

(** *** The invariant *)

Record seq_inv (pc : mpc) (ws : list (worker E)) (d : data E) : Prop := {
  si_crashed : d_crashed d = false;
  si_pc : pc_ok pc;
  si_specs : (λ w, w.1) <$> ws = take (nspawned pc) specs;
  si_valid : Forall wvalid ws;
  si_bounded : bounded d;
  si_nchans : length (d_chans d) = nchans pc;
  si_input :
    ∃ tin inq,
      d_chans d !! 0 = Some (mk_chan (length xs) inq true tin) ∧
      tin ++ inq = xs;
  si_output :
    ∃ outq,
      d_chans d !! 1
      = Some (mk_chan out_cap outq (bool_decide (pc = MRet)) []);
  si_internal :
    ∀ c ch, (2 ≤ c) → d_chans d !! c = Some ch → ch_cap ch = 0;
  si_wgs :
    d_wgs d = if before_wg pc then []
              else [(dones_left 0 ws + pending pc)];
  si_chain : ∀ j, (j < length ws) → chain_eq ws d j (w_out j);
  si_closed :
    ∀ j, (j < length ws) → (j ≤ N) → closed_by ws d j (w_out j);
  si_drained : tail_drained ws d;
  si_unsent :
    ∀ j, (length ws ≤ j) → (j ≤ N + 1) →
         sent d (w_out j) = [] ∧ closed d (w_out j) = false;
  si_untaken :
    ∀ j, (length ws ≤ j) → (j ≤ N + 1) → taken d (w_in j) = [];
  si_done :
    after_wait pc = true →
    ∀ j sp st, ws !! j = Some (sp, st) → st = WTail []
}.

(** *** The termination measure *)

Definition wt (c : nat) : nat :=
  match c with
  | 0 => 6 + 2 * N
  | 1 => 0
  | _ => 3 + 2 * (N + 2 - c)
  end.

Definition main_measure (pc : mpc) : nat :=
  match pc with
  | MLog => 17 + 6 * N
  | MTrack => 16 + 6 * N
  | MNewWg => 15 + 6 * N
  | MEntry => 14 + 6 * N
  | MOut k => 13 + 6 * (N - k)
  | MAdd k => 12 + 6 * (N - k)
  | MGo k => 11 + 6 * (N - k)
  | MAddFeeder => 12
  | MGoFeeder => 11
  | MAddDrain => 7
  | MGoDrain => 6
  | MWait => 3
  | MTrackFinished => 2
  | MClose => 1
  | MRet => 0
  end.

Definition measure (pc : mpc) (ws : list (worker E)) (d : data E) : nat :=
  main_measure pc + net_measure wt ws d.

(** A bound on the length of a run. *)
Definition run_bound : nat := 17 + 6 * N + (6 + 2 * N) * length xs.

(** The data [Execute] starts from. *)
Definition d0 : data E :=
  {| d_chans := [input_of xs; new_chan out_cap]; d_wgs := [];
     d_crashed := false; d_log := [] |}.

End Model.

(** The two "add 1" leaves of the example. *)
Definition add1_stages : list (string * (Z → Z)) :=
  [("add1", λ x, (x + 1)%Z); ("add1", λ x, (x + 1)%Z)].

End SeqModel.
(** ** The Fanout composite over map leaves, as a network *)

Module FanModel.
Import Ctx Runtime Pipeline Runs Network.
Local Open Scope nat_scope.

(** Where [Fanout.Execute] stands on the main goroutine. *)
Inductive fpc : Type :=
| FLog | FTrack | FNewWg | FNewCwg | FCollector | FAddC | FGoC
| FIn (k : nat) | FOut (k : nat)
| FAddKid (k : nat) | FGoKid (k : nat)
| FAddMerge (k : nat) | FGoMerge (k : nat)
| FAddDisp | FGoDisp | FWait | FCloseC | FWaitC
| FTrackFinished | FClose | FRet.

#[global] Instance fpc_eq_dec : EqDecision fpc.
Proof. solve_decision. Defined.

Section Model.
Context {E : Type}.
Variables (ctx : Context) (chain : string)
  (stages : list (string * (E → E))) (xs : list E) (out_cap : nat).

(** The children: one map leaf per entry of [stages], in order. *)
Definition leaf (st : string * (E → E)) : Processor E := MapLeaf st.1 st.2.
Definition leaves : list (Processor E) := leaf <$> stages.
Definition composite : Processor E := Fanout chain leaves.

Definition N : nat := length leaves.
Definition self : string := "Fanout/" +:+ chain.
Definition exec : Processor E → chan → chan → prog E → prog E :=
  λ q, Execute q ctx.
Definition leaf_at (k : nat) : Processor E := nth k leaves NilProcessor.

(** *** The channels

    Channel 0 is the input, 1 the output, 2 the collector; child [k]
    reads channel [cin k] and writes channel [cout k].  Wait group 0 is
    [wg], wait group 1 is [collectorWg]. *)
Definition cin (k : nat) : nat := 3 + 2 * k.
Definition cout (k : nat) : nat := 4 + 2 * k.

(** The children's inputs, in the order of the children. *)
Definition ins : list nat := cin <$> seq 0 N.

(** *** The goroutines *)

Definition collector_spec : wspec E :=
  {| ws_in := 2;
     ws_body := λ m, [AHook (HTrackOutput self m); ASend (Chan 1) m];
     ws_tail := [TDone 1] |}.

Definition kid_spec (k : nat) (f : E → E) : wspec E :=
  {| ws_in := cin k;
     ws_body := λ m, [ASend (Chan (cout k)) (f m)];
     ws_tail := [TClose (cout k); TDone 0] |}.

Definition merge_spec (k : nat) : wspec E :=
  {| ws_in := cout k;
     ws_body := λ m, [ASend (Chan 2) m];
     ws_tail := [TDone 0] |}.

Definition disp_spec : wspec E :=
  {| ws_in := 0;
     ws_body := λ msg,
       AHook (HTrackInput self)
         :: map (λ procInput, ASend procInput msg) (Chan <$> ins);
     ws_tail := (TClose <$> ins) ++ [TDone 0] |}.

(** The child and the merger of every entry, from child [k] on. *)
Fixpoint pairs_from (k : nat) (sts : list (string * (E → E)))
  : list (wspec E) :=
  match sts with
  | [] => []
  | st :: rest => kid_spec k st.2 :: merge_spec k :: pairs_from (S k) rest
  end.

(** The workers in spawn order: the collector, then child and merger of
    every entry, then the dispatcher. *)
Definition specs : list (wspec E) :=
  collector_spec :: pairs_from 0 stages ++ [disp_spec].

(** *** The main goroutine *)

(** [fanout.procInChans] and [fanout.procOutChans] after [k] iterations
    of the loop. *)
Definition ins_after (k : nat) : list chan :=
  (Chan <$> (cin <$> seq 0 k)) ++ replicate (N - k) NilChan.

Definition outs_after (k : nat) : list chan :=
  (Chan <$> (cout <$> seq 0 k)) ++ replicate (N - k) NilChan.

Definition finish : list chan → list chan → prog E :=
  fanout_finish self 0 1 (Chan 2) input output Ret.

(** The loop from iteration [k] on. *)
Definition loop_from (k : nat) : prog E :=
  fanout_spawn exec 0 (Chan 2) (drop k leaves) k
    (ins_after k) (outs_after k) finish.

Definition entry_loop : prog E :=
  fanout_spawn exec 0 (Chan 2) leaves 0 (make_slice N) (make_slice N)
    finish.

Definition collector_call : prog E :=
  forward_tracked self 1 (Chan 2) output.

Definition child_call (k : nat) : prog E :=
  exec (leaf_at k) (Chan (cin k)) (Chan (cout k)) (WgDone 0 Ret).

Definition merge_call (k : nat) : prog E :=
  fanout_merge 0 (Chan (cout k)) (Chan 2).

Definition disp_call : prog E :=
  fanout_dispatcher self 0 input (ins_after N).

Definition after_join : prog E :=
  WgWait 1 (Hook (HTrackFinished self) (Close output Ret)).

Definition wait_prog : prog E := WgWait 0 (Close (Chan 2) after_join).

Definition after_hooks : prog E :=
  if decide (length leaves = 0) then Close output Ret
  else
    NewWaitGroup (λ wg,
    NewWaitGroup (λ collectorWg,
    MakeChan 0 (λ fanoutCollector,
    WgAdd collectorWg 1
    (Go (forward_tracked self collectorWg fanoutCollector output)
    (fanout_spawn exec wg fanoutCollector leaves 0
       (make_slice (length leaves)) (make_slice (length leaves))
       (fanout_finish self wg collectorWg fanoutCollector
          input output Ret)))))).

Definition rest_of_iteration (k : nat) : list chan → list chan → prog E :=
  λ ins' outs',
    fanout_spawn exec 0 (Chan 2) (drop (S k) leaves) (S k) ins' outs'
      finish.

Definition main_prog (pc : fpc) : prog E :=
  match pc with
  | FLog => Execute composite ctx input output Ret
  | FTrack => Hook (HTrackStarted self) after_hooks
  | FNewWg => after_hooks
  | FNewCwg =>
      NewWaitGroup (λ collectorWg,
      MakeChan 0 (λ fanoutCollector,
      WgAdd collectorWg 1
      (Go (forward_tracked self collectorWg fanoutCollector output)
      (fanout_spawn exec 0 fanoutCollector leaves 0
         (make_slice N) (make_slice N)
         (fanout_finish self 0 collectorWg fanoutCollector
            input output Ret)))))
  | FCollector =>
      MakeChan 0 (λ fanoutCollector,
      WgAdd 1 1
      (Go (forward_tracked self 1 fanoutCollector output)
      (fanout_spawn exec 0 fanoutCollector leaves 0
         (make_slice N) (make_slice N)
         (fanout_finish self 0 1 fanoutCollector input output Ret))))
  | FAddC => WgAdd 1 1 (Go collector_call entry_loop)
  | FGoC => Go collector_call entry_loop
  | FIn k =>
      MakeChan 200 (λ procInput,
      MakeChan 200 (λ procOutput,
        fanout_iteration exec 0 (Chan 2) (leaf_at k) k
          (ins_after k) (outs_after k) (rest_of_iteration k)
          procInput procOutput))
  | FOut k =>
      MakeChan 200 (λ procOutput,
        fanout_iteration exec 0 (Chan 2) (leaf_at k) k
          (ins_after k) (outs_after k) (rest_of_iteration k)
          (Chan (cin k)) procOutput)
  | FAddKid k =>
      WgAdd 0 1 (Go (child_call k)
        (WgAdd 0 1 (Go (merge_call k) (loop_from (S k)))))
  | FGoKid k =>
      Go (child_call k) (WgAdd 0 1 (Go (merge_call k) (loop_from (S k))))
  | FAddMerge k => WgAdd 0 1 (Go (merge_call k) (loop_from (S k)))
  | FGoMerge k => Go (merge_call k) (loop_from (S k))
  | FAddDisp => WgAdd 0 1 (Go disp_call wait_prog)
  | FGoDisp => Go disp_call wait_prog
  | FWait => wait_prog
  | FCloseC => Close (Chan 2) after_join
  | FWaitC => after_join
  | FTrackFinished => Hook (HTrackFinished self) (Close output Ret)
  | FClose => Close output Ret
  | FRet => Ret
  end.

(** The position after [go] of the merger of child [k]. *)
Definition after_merge (k : nat) : fpc :=
  if decide (S k < N) then FIn (S k) else FAddDisp.

Definition pc_ok (pc : fpc) : Prop :=
  match pc with
  | FIn k | FOut k | FAddKid k | FGoKid k | FAddMerge k | FGoMerge k =>
      (k < N)
  | _ => True
  end.

(** How many workers have been started, and how many channels and wait
    groups made. *)
Definition nspawned (pc : fpc) : nat :=
  match pc with
  | FLog | FTrack | FNewWg | FNewCwg | FCollector | FAddC | FGoC => 0
  | FIn k | FOut k | FAddKid k | FGoKid k => 1 + 2 * k
  | FAddMerge k | FGoMerge k => 2 + 2 * k
  | FAddDisp | FGoDisp => 1 + 2 * N
  | _ => 2 + 2 * N
  end.

Definition nchans (pc : fpc) : nat :=
  match pc with
  | FLog | FTrack | FNewWg | FNewCwg | FCollector => 2
  | FAddC | FGoC => 3
  | FIn k => 3 + 2 * k
  | FOut k => 4 + 2 * k
  | FAddKid k | FGoKid k | FAddMerge k | FGoMerge k => 5 + 2 * k
  | _ => 3 + 2 * N
  end.

Definition nwgs (pc : fpc) : nat :=
  match pc with
  | FLog | FTrack | FNewWg => 0
  | FNewCwg => 1
  | _ => 2
  end.

(** [Add(1)] calls whose goroutine has not been started yet, on [wg] and
    on [collectorWg]. *)
Definition pending0 (pc : fpc) : nat :=
  match pc with
  | FGoKid _ | FGoMerge _ | FGoDisp => 1
  | _ => 0
  end.

Definition pending1 (pc : fpc) : nat :=
  match pc with
  | FGoC => 1
  | _ => 0
  end.

(** After [wg.Wait()], after [close(fanoutCollector)], after
    [collectorWg.Wait()]. *)
Definition after_wait0 (pc : fpc) : bool :=
  match pc with
  | FCloseC | FWaitC | FTrackFinished | FClose | FRet => true
  | _ => false
  end.

Definition after_close (pc : fpc) : bool :=
  match pc with
  | FWaitC | FTrackFinished | FClose | FRet => true
  | _ => false
  end.

Definition after_wait1 (pc : fpc) : bool :=
  match pc with
  | FTrackFinished | FClose | FRet => true
  | _ => false
  end.

Definition wgs_of (pc : fpc) (ws : list (worker E)) : list nat :=
  match nwgs pc with
  | 0 => []
  | 1 => [0]
  | _ => [dones_left 0 ws + pending0 pc; dones_left 1 ws + pending1 pc]
  end.

(** *** The invariant *)

Record fan_inv (pc : fpc) (ws : list (worker E)) (d : data E) : Prop := {
  fi_crashed : d_crashed d = false;
  fi_pc : pc_ok pc;
  fi_specs : (λ w, w.1) <$> ws = take (nspawned pc) specs;
  fi_valid : Forall wvalid ws;
  fi_bounded : bounded d;
  fi_nchans : length (d_chans d) = nchans pc;
  fi_input :
    ∃ tin inq,
      d_chans d !! 0 = Some (mk_chan (length xs) inq true tin) ∧
      tin ++ inq = xs;
  fi_output :
    ∃ outq,
      d_chans d !! 1
      = Some (mk_chan out_cap outq (bool_decide (pc = FRet)) []);
  fi_collector :
    ∀ ch, d_chans d !! 2 = Some ch →
          ch_cap ch = 0 ∧ ch_closed ch = after_close pc;
  fi_caps : ∀ c ch, (3 ≤ c) → d_chans d !! c = Some ch → ch_cap ch = 200;
  fi_wgs : d_wgs d = wgs_of pc ws;
  fi_chain_col : (0 < length ws) → chain_eq ws d 0 1;
  fi_chain_kid :
    ∀ k, (k < N) → (1 + 2 * k < length ws) →
         chain_eq ws d (1 + 2 * k) (cout k);
  fi_chain_disp :
    ∀ k, (k < N) → (1 + 2 * N < length ws) →
         chain_eq ws d (1 + 2 * N) (cin k);
  fi_count : count_eq ws d 2;
  fi_log : log_eq (λ c, c ∈ ins) ws d (1 + 2 * N);
  fi_closed_kid :
    ∀ k, (k < N) → (1 + 2 * k < length ws) →
         closed_by ws d (1 + 2 * k) (cout k);
  fi_closed_disp :
    ∀ k, (k < N) → (1 + 2 * N < length ws) →
         closed_by ws d (1 + 2 * N) (cin k);
  fi_drained : tail_drained ws d;
  fi_unsent_col : ws = [] → sent d 1 = [];
  fi_unsent_out :
    ∀ k, (k < N) → (length ws ≤ 1 + 2 * k) →
         sent d (cout k) = [] ∧ closed d (cout k) = false;
  fi_unsent_in :
    ∀ k, (k < N) → (length ws ≤ 1 + 2 * N) →
         sent d (cin k) = [] ∧ closed d (cin k) = false;
  fi_unlogged :
    (length ws ≤ 1 + 2 * N) → filter (λ e, e.1 ∈ ins) (d_log d) = [];
  fi_untaken_col : ws = [] → taken d 2 = [];
  fi_untaken_in :
    ∀ k, (k < N) → (length ws ≤ 1 + 2 * k) → taken d (cin k) = [];
  fi_untaken_out :
    ∀ k, (k < N) → (length ws ≤ 2 + 2 * k) → taken d (cout k) = [];
  fi_untaken_input : (length ws ≤ 1 + 2 * N) → taken d 0 = [];
  fi_done0 :
    after_wait0 pc = true →
    ∀ j sp st, (1 ≤ j) → ws !! j = Some (sp, st) → st = WTail [];
  fi_done1 :
    after_wait1 pc = true →
    ∀ sp st, ws !! 0 = Some (sp, st) → st = WTail []
}.

(** *** The termination measure *)

Definition wt (c : nat) : nat :=
  match c with
  | 0 => 2 + N * (5 + 4 * N)
  | 1 => 0
  | 2 => 3
  | _ => 4 + 2 * (2 * N + 3 - c)
  end.

Definition main_measure (pc : fpc) : nat :=
  match pc with
  | FLog => 18 + 13 * N
  | FTrack => 17 + 13 * N
  | FNewWg => 16 + 13 * N
  | FNewCwg => 15 + 13 * N
  | FCollector => 14 + 13 * N
  | FAddC => 13 + 13 * N
  | FGoC => 12 + 13 * N
  | FIn k => 9 + N + 12 * (N - k)
  | FOut k => 8 + N + 12 * (N - k)
  | FAddKid k => 7 + N + 12 * (N - k)
  | FGoKid k => 6 + N + 12 * (N - k)
  | FAddMerge k => 2 + N + 12 * (N - k)
  | FGoMerge k => 1 + N + 12 * (N - k)
  | FAddDisp => 9 + N
  | FGoDisp => 8 + N
  | FWait => 5
  | FCloseC => 4
  | FWaitC => 3
  | FTrackFinished => 2
  | FClose => 1
  | FRet => 0
  end.

Definition measure (pc : fpc) (ws : list (worker E)) (d : data E) : nat :=
  main_measure pc + net_measure wt ws d.

(** A bound on the length of a run. *)
Definition run_bound : nat :=
  18 + 13 * N + (2 + N * (5 + 4 * N)) * length xs.

(** The data [Execute] starts from. *)
Definition d0 : data E :=
  {| d_chans := [input_of xs; new_chan out_cap]; d_wgs := [];
     d_crashed := false; d_log := [] |}.


End Model.

(** Two pass-through children, for the examples. *)
Definition pass_stages : list (string * (Z → Z)) := [("a", id); ("b", id)].

End FanModel.

(** ** Cancellation ([Cancelled]) *)

Module Cancel.
Import Ctx Logging.

(** [Cancelled(ctx, p)].  [err] is what [ctx.Err()] returns at the time
    of the call ([None] is nil): the value chain of [Ctx.Context] does not
    carry it.  [p_name] is [p.Name()], and [out] what the standard logger
    has printed so far.  The result is the boolean and the logger's
    output after the call. *)
Definition Cancelled (ctx : Context) (err : option string)
    (p_name : string) (out : list string) : bool * list string :=
  match err with
  | Some e =>
      (true,
       Log ctx p_name
         ("pipeline has been cancelled, stopping " +:+ p_name
          +:+ ". reason: " +:+ e) out)
  | None => (false, out)
  end.

End Cancel.

(** ** Sequences of calls to the statistics hooks *)

Module StatsCalls.
Import Ctx Traces Stats.

Section Calls.
Context {Item : Type} `{!Traceable Item}.

(** One call to an exported hook of the package. *)
Inductive call : Type :=
| CallTrackStarted (processor : ProcRef)
| CallTrackFinished (processor : ProcRef)
| CallTrackInput (processor : ProcRef)
| CallTrackOutput (processor : ProcRef) (obj : Item)
| CallTrackPassthrough (processor : ProcRef) (obj : Item).

Definition callee (c : call) : ProcRef :=
  match c with
  | CallTrackStarted p | CallTrackFinished p | CallTrackInput p
  | CallTrackOutput p _ | CallTrackPassthrough p _ => p
  end.

Definition heap_only (o : outcome (Item * Heap)) : outcome Heap :=
  match o with
  | Returned (_, h) => Returned h
  | Panicked (_, h) => Panicked h
  end.

(** What a call does to the stores. *)
Definition do_call (elem : string) (ctx : Context) (c : call)
    (now : Time) (h : Heap) : outcome Heap :=
  match c with
  | CallTrackStarted p => TrackStarted elem ctx p now h
  | CallTrackFinished p => TrackFinished elem ctx p now h
  | CallTrackInput p => TrackInput elem ctx p now h
  | CallTrackOutput p obj => heap_only (TrackOutput elem ctx p obj now h)
  | CallTrackPassthrough p obj =>
      heap_only (TrackPassthrough elem ctx p obj now h)
  end.

(** The calls one after the other, each with the reading of the clock
    at its time; a panic ends the program. *)
Fixpoint run_calls (elem : string) (ctx : Context)
    (cs : list (call * Time)) (h : Heap) : outcome Heap :=
  match cs with
  | [] => Returned h
  | (c, now) :: rest =>
      match do_call elem ctx c now h with
      | Returned h' => run_calls elem ctx rest h'
      | Panicked h' => Panicked h'
      end
  end.





(** The [*Stats] method behind each hook. *)
Definition upd_of (c : call) : Time → Stats.Stats → Stats.Stats :=
  match c with
  | CallTrackStarted _ => Stats_TrackStarted
  | CallTrackFinished _ => Stats_TrackFinished
  | CallTrackInput _ => Stats_TrackInput
  | CallTrackOutput _ _ | CallTrackPassthrough _ _ => Stats_TrackOutput
  end.







End Calls.

Arguments call : clear implicits.

End StatsCalls.

(** ** The shape of descriptors and of processor trees *)

Module Shape.
Import Ctx Runtime Pipeline Builder.

Section Shape.
Context {E : Type} {Config : Type}.

(** The names of the [processor] nodes [Pipeline] reaches when nothing
    fails: depth first, children from left to right; the children of a
    node that is no composite are never looked at. *)
Fixpoint leaf_names (sp : SerializedPipeline Config) : list string :=
  match sp with
  | Descriptor type name _ procs =>
      if composite_kind type then flat_map leaf_names procs
      else if String.eqb type "processor" then [name]
      else []
  end.


(** The [Processors] field of a composite. *)
Definition children (p : Processor E) : list (Processor E) :=
  match p with
  | Fanout _ ps | Sequential _ ps | Parallel _ ps _ => ps
  | _ => []
  end.

(** The [ChainName] field of a composite. *)
Definition chain_name (p : Processor E) : string :=
  match p with
  | Fanout n _ | Sequential n _ | Parallel n _ _ => n
  | _ => EmptyString
  end.

(** The kind word of a composite's dynamic type, as the builder and
    the marshaller spell it. *)
Definition kind_word (p : Processor E) : string :=
  match p with
  | Fanout _ _ => "fanout"
  | Sequential _ _ => "sequential"
  | Parallel _ _ _ => "parallel"
  | _ => "processor"
  end.

(** The processors of a tree that are no composites, depth first,
    children from left to right. *)
Fixpoint leaves (p : Processor E) : list (Processor E) :=
  match p with
  | Fanout _ ps | Sequential _ ps | Parallel _ ps _ => flat_map leaves ps
  | _ => [p]
  end.

End Shape.

End Shape.

(** ** Marshalling a processor tree ([MarshalJSON]) *)

Module Marshal.
Import Ctx Runtime Pipeline.

(** The double quote, the line feed and the backslash. *)
Definition dquote : string := String (Ascii.ascii_of_nat 34) EmptyString.
Definition newline : string := String (Ascii.ascii_of_nat 10) EmptyString.
Definition backslash : string := String (Ascii.ascii_of_nat 92) EmptyString.

(** What a marshalling call yields: the bytes written, a non-nil error,
    or a panic (a method called on a nil interface). *)
Inductive encoded : Type :=
| Bytes (text : string)
| Failed (err : string)
| Panics.

Section Marshal.
Context {E : Type}.

(** [json.Marshal(processor)] on a leaf: the bytes and the error, which
    depend on the leaf's own type. *)
Context (json_Marshal : Processor E → string * option string).

(** [fmt.Sprintf] of the three formats with a name in them. *)
Definition name_field (name : string) : string :=
  dquote +:+ "name" +:+ dquote +:+ ": " +:+ dquote +:+ name +:+ dquote
  +:+ ",".

Definition type_field (typename : string) : string :=
  dquote +:+ "type" +:+ dquote +:+ ": " +:+ dquote +:+ typename
  +:+ dquote +:+ ",".

Definition leaf_fields (name : string) : string :=
  dquote +:+ "name" +:+ dquote +:+ ": " +:+ dquote +:+ name +:+ dquote
  +:+ ", " +:+ dquote +:+ "type" +:+ dquote +:+ ": " +:+ dquote
  +:+ "processor" +:+ dquote +:+ ", " +:+ dquote +:+ "cfg" +:+ dquote
  +:+ ": ".

Definition processors_open : string :=
  dquote +:+ "processors" +:+ dquote +:+ ": [".

(** The [default] branch of the type switch: a leaf. *)
Definition marshal_leaf (processor : Processor E) : encoded :=
  match processor with
  | NilProcessor => Panics             (* processor.Name() *)
  | _ =>
      let procBuf := "{" in
      let procBuf := procBuf +:+ leaf_fields (Name processor) in
      match json_Marshal processor with
      | (_, Some err) => Failed err
      | (cfg, None) =>
          let procBuf :=
            if decide (0 < String.length cfg)%nat then procBuf +:+ cfg
            else procBuf +:+ "null" in
          Bytes (procBuf +:+ "}")
      end
  end.

(** The loop [for pos, processor := range processors] of
    [marshalPipelineComponent]; [encode] is the type switch of its
    body, [total] is [len(processors)]. *)
Definition write_processors (encode : Processor E → encoded)
    (total : nat)
  : list (Processor E) → nat → string → encoded :=
  fix loop ps pos writer {struct ps} :=
    match ps with
    | [] => Bytes writer
    | processor :: rest =>
        match encode processor with
        | Bytes enc =>
            let writer := writer +:+ enc in
            loop rest (S pos)
              (if decide (pos < total - 1)%nat
               then writer +:+ "," else writer)
        | Failed err => Failed err
        | Panics => Panics
        end
    end.

Definition marshalPipelineComponent (encode : Processor E → encoded)
    (name typename : string) (processors : list (Processor E))
  : encoded :=
  let writer := EmptyString in
  let writer := writer +:+ "{" in
  let writer := writer +:+ name_field name in
  let writer := writer +:+ type_field typename in
  let writer := writer +:+ processors_open in
  match write_processors encode (length processors) processors 0%nat
          writer with
  | Bytes writer => Bytes ((writer +:+ "]") +:+ "}")
  | Failed err => Failed err
  | Panics => Panics
  end.

(** The type switch, with the three [MarshalJSON] methods in it. *)
Fixpoint encode (processor : Processor E) : encoded :=
  match processor with
  | Parallel chain procs _ =>
      marshalPipelineComponent encode chain "parallel" procs
  | Sequential chain procs =>
      marshalPipelineComponent encode chain "sequential" procs
  | Fanout chain procs =>
      marshalPipelineComponent encode chain "fanout" procs
  | _ => marshal_leaf processor
  end.

Definition Sequential_MarshalJSON (ChainName : string)
    (Processors : list (Processor E)) : encoded :=
  marshalPipelineComponent encode ChainName "sequential" Processors.

Definition Fanout_MarshalJSON (ChainName : string)
    (Processors : list (Processor E)) : encoded :=
  marshalPipelineComponent encode ChainName "fanout" Processors.

Definition Parallel_MarshalJSON (ChainName : string)
    (Processors : list (Processor E)) : encoded :=
  marshalPipelineComponent encode ChainName "parallel" Processors.

(** A leaf that [marshal_leaf] turns into bytes. *)
Definition leaf_ok (p : Processor E) : bool :=
  match p with
  | NilProcessor => false
  | _ => match json_Marshal p with (_, None) => true | _ => false end
  end.

(** How a marshalling call ends, read off the leaves it meets in
    order: bytes when every leaf marshals; the error of the first leaf
    that does not, when that leaf is not nil; a panic when it is. *)
Definition ends_as (ls : list (Processor E)) (r : encoded) : Prop :=
  match r with
  | Bytes _ => Forall (λ l, leaf_ok l = true) ls
  | Failed err =>
      ∃ pre bad post,
        ls = pre ++ bad :: post ∧ Forall (λ l, leaf_ok l = true) pre
        ∧ bad ≠ NilProcessor ∧ (json_Marshal bad).2 = Some err
  | Panics =>
      ∃ pre post,
        ls = pre ++ NilProcessor :: post
        ∧ Forall (λ l, leaf_ok l = true) pre
  end.

End Marshal.

End Marshal.

(** ** The processor graph ([ProcessorGraph]) *)

Module Graph.
Import Ctx Runtime Pipeline Marshal.

(** [fmt.Sprintf("%d", n)] *)
Definition fmt_d (n : Z) : string :=
  DecimalString.NilZero.string_of_int (Z.to_int n).

(** An [io.Writer]: [Write] returns the writer's new state and its
    error. *)
Class Writer (W : Type) := io_Write : W → string → W * option string.

Section Graph.
Context {E : Type}.

(** [rand_Int k] is the [k]-th number [rand.Int()] yields; the
    functions below carry the count of the numbers drawn so far. *)
Context (rand_Int : nat → Z).

Record ProcessorGraph : Type := {
  root : Processor E;
  lines : list string;
  processed : bool
}.

Definition NewProcessorGraph (p : Processor E) : ProcessorGraph :=
  {| root := p; lines := ["graph TD"]; processed := false |}.

Definition randomID (drawn : nat) : string * nat :=
  (fmt_d (rand_Int drawn), S drawn).

(** What a walk yields: [None] is the panic of [node.Name()] on a nil
    processor. *)
Definition walk (A : Type) : Type := option (A * nat * list string).

(** The loop over the children of a Fanout or of a Parallel; [arrow]
    is the edge the two differ in. *)
Definition star_loop
    (processInternal :
       Processor E → nat → list string → walk (string * string))
    (arrow entryNodeID outputNodeID : string)
  : list (Processor E) → nat → list string → walk unit :=
  fix loop ps drawn lines {struct ps} :=
    match ps with
    | [] => Some (tt, drawn, lines)
    | p :: rest =>
        match processInternal p drawn lines with
        | None => None
        | Some ((nodeEntry, nodeOutput), drawn, lines) =>
            let lines :=
              lines ++ [entryNodeID +:+ arrow +:+ nodeEntry] in
            let lines :=
              lines ++ [nodeOutput +:+ arrow +:+ outputNodeID] in
            loop rest drawn lines
        end
    end.

(** The loop over the children of a Sequential; it yields the last
    [prevNode]. *)
Definition chain_loop
    (processInternal :
       Processor E → nat → list string → walk (string * string))
  : list (Processor E) → string → nat → list string → walk string :=
  fix loop ps prevNode drawn lines {struct ps} :=
    match ps with
    | [] => Some (prevNode, drawn, lines)
    | p :: rest =>
        match processInternal p drawn lines with
        | None => None
        | Some ((nodeEntry, nodeOutput), drawn, lines) =>
            let lines := lines ++ [prevNode +:+ " --> " +:+ nodeEntry] in
            loop rest nodeOutput drawn lines
        end
    end.

Fixpoint processInternal (node : Processor E) (drawn : nat)
    (lines : list string) {struct node} : walk (string * string) :=
  match node with
  | Fanout ChainName Processors =>
      let '(entryNodeID, drawn) := randomID drawn in
      let '(outputNodeID, drawn) := randomID drawn in
      let lines :=
        lines ++ [entryNodeID +:+ "[/FanOut/" +:+ ChainName +:+ "\]"] in
      let lines :=
        lines
        ++ [outputNodeID +:+ "[\FanOut/" +:+ ChainName +:+ "/end/]"] in
      match star_loop processInternal " --> " entryNodeID outputNodeID
              Processors drawn lines with
      | None => None
      | Some (_, drawn, lines) =>
          Some ((entryNodeID, outputNodeID), drawn, lines)
      end
  | Parallel ChainName Processors _ =>
      let '(entryNodeID, drawn) := randomID drawn in
      let '(outputNodeID, drawn) := randomID drawn in
      let lines :=
        lines
        ++ [entryNodeID +:+ "[/Parallel/" +:+ ChainName +:+ "\]"] in
      let lines :=
        lines
        ++ [outputNodeID +:+ "[\Parallel/" +:+ ChainName +:+ "/end/]"]
      in
      match star_loop processInternal " -.-> " entryNodeID outputNodeID
              Processors drawn lines with
      | None => None
      | Some (_, drawn, lines) =>
          Some ((entryNodeID, outputNodeID), drawn, lines)
      end
  | Sequential ChainName Processors =>
      let '(entryNodeID, drawn) := randomID drawn in
      let '(outputNodeID, drawn) := randomID drawn in
      let lines :=
        lines
        ++ [entryNodeID +:+ "[/Sequential/" +:+ ChainName +:+ "\]"] in
      let lines :=
        lines
        ++ [outputNodeID +:+ "[\Sequential/" +:+ ChainName
            +:+ "/end/]"] in
      match chain_loop processInternal Processors entryNodeID drawn
              lines with
      | None => None
      | Some (prevNode, drawn, lines) =>
          let lines :=
            lines ++ [prevNode +:+ " --> " +:+ outputNodeID] in
          Some ((entryNodeID, outputNodeID), drawn, lines)
      end
  | Leaf name _ =>
      let '(nodeID, drawn) := randomID drawn in
      let lines := lines ++ [nodeID +:+ "[" +:+ name +:+ "]"] in
      Some ((nodeID, nodeID), drawn, lines)
  | NilProcessor =>
      (* the identifier is drawn, then node.Name() panics *)
      None
  end.

(** [g.process()]: the graph and the count of numbers drawn after the
    call; [None] is a panic. *)
Definition process (g : ProcessorGraph) (drawn : nat)
  : option (ProcessorGraph * nat) :=
  if processed g then Some (g, drawn)
  else
    let '(inputID, drawn) := randomID drawn in
    let '(outputID, drawn) := randomID drawn in
    let lines := lines g ++ [inputID +:+ "[Input]"] in
    let lines := lines ++ [outputID +:+ "[Output]"] in
    match processInternal (root g) drawn lines with
    | None => None
    | Some ((entryNode, lastNode), drawn, lines) =>
        let lines := lines ++ [inputID +:+ " --> " +:+ entryNode] in
        let lines := lines ++ [lastNode +:+ " --> " +:+ outputID] in
        Some ({| root := root g; lines := lines; processed := true |},
              drawn)
    end.

(** [g.String()] *)
Definition String_ (g : ProcessorGraph) (drawn : nat)
  : option (string * ProcessorGraph * nat) :=
  match process g drawn with
  | None => None
  | Some (g, drawn) => Some (String.concat newline (lines g), g, drawn)
  end.

(** The text around the graph in [WriteHTML]'s template. *)
Definition html_head : string :=
  "<html>" +:+ newline
  +:+ "    <body>" +:+ newline
  +:+ "        <script src=" +:+ dquote
  +:+ "https://cdn.jsdelivr.net/npm/mermaid/dist/mermaid.min.js"
  +:+ dquote +:+ "></script>" +:+ newline
  +:+ "        <script>" +:+ newline
  +:+ "            mermaid.initialize({ startOnLoad: true, theme: 'dark' });"
  +:+ newline
  +:+ "        </script>" +:+ newline
  +:+ newline
  +:+ "        <div class=" +:+ dquote +:+ "mermaid" +:+ dquote +:+ ">"
  +:+ newline
  +:+ "            ".

Definition html_tail : string :=
  newline
  +:+ "        </div>" +:+ newline
  +:+ "    </body>" +:+ newline
  +:+ "</html>".

Section Writing.
Context {W : Type} `{!Writer W}.

(** [g.Write(dest)]: the error [dest.Write] returned, the graph, the
    writer and the count of numbers drawn. *)
Definition Write (g : ProcessorGraph) (dest : W) (drawn : nat)
  : option (option string * ProcessorGraph * W * nat) :=
  match String_ g drawn with
  | None => None
  | Some (graph, g, drawn) =>
      let '(dest, err) := io_Write dest graph in
      Some (err, g, dest, drawn)
  end.

Definition WriteHTML (g : ProcessorGraph) (dest : W) (drawn : nat)
  : option (option string * ProcessorGraph * W * nat) :=
  match String_ g drawn with
  | None => None
  | Some (graph, g, drawn) =>
      let template := html_head +:+ graph +:+ html_tail in
      let '(dest, err) := io_Write dest template in
      Some (err, g, dest, drawn)
  end.

End Writing.

(** The number of lines a node adds, and of identifiers it
    draws. *)
Fixpoint node_lines (node : Processor E) : nat :=
  match node with
  | Fanout _ ps | Parallel _ ps _ =>
      (2 + sum_list ((λ p, node_lines p + 2) <$> ps))%nat
  | Sequential _ ps =>
      (3 + sum_list ((λ p, node_lines p + 1) <$> ps))%nat
  | _ => 1%nat
  end.

Fixpoint node_ids (node : Processor E) : nat :=
  match node with
  | Fanout _ ps | Parallel _ ps _ | Sequential _ ps =>
      (2 + sum_list (node_ids <$> ps))%nat
  | _ => 1%nat
  end.

(** The tree holds a nil processor. *)
Fixpoint has_nil (node : Processor E) : bool :=
  match node with
  | NilProcessor => true
  | Leaf _ _ => false
  | Fanout _ ps | Parallel _ ps _ | Sequential _ ps => existsb has_nil ps
  end.

(** The identifiers drawn from the [from]-th number on. *)
Definition ids_drawn (from count : nat) : list string :=
  (λ k, fmt_d (rand_Int k)) <$> seq from count.

(** A line that declares a node, and a line that is an edge. *)
Definition node_line (ids : list string) (l : string) : Prop :=
  ∃ id label, id ∈ ids ∧ l = id +:+ "[" +:+ label +:+ "]".

Definition edge_line (ids : list string) (l : string) : Prop :=
  ∃ a b arrow,
    a ∈ ids ∧ b ∈ ids ∧ (arrow = " --> " ∨ arrow = " -.-> ")
    ∧ l = a +:+ arrow +:+ b.

(** A line of the graph's body: a node or an edge over [ids]. *)
Definition well_formed (ids : list string) (l : string) : Prop :=
  node_line ids l ∨ edge_line ids l.

(** What a walk of [node] that starts with [drawn] numbers drawn and
    the lines [lines] comes to: a panic when the tree holds a nil
    processor; otherwise [node_ids node] more numbers drawn,
    [node_lines node] more lines, each of them well formed over the
    identifiers of this walk, and two of these identifiers as the
    node's entry and exit. *)
Definition walked (node : Processor E) (drawn : nat)
    (lines : list string) (r : walk (string * string)) : Prop :=
  match r with
  | None => has_nil node = true
  | Some ((entry, exit), drawn', lines') =>
      has_nil node = false
      ∧ drawn' = (drawn + node_ids node)%nat
      ∧ entry ∈ ids_drawn drawn (node_ids node)
      ∧ exit ∈ ids_drawn drawn (node_ids node)
      ∧ ∃ added,
          lines' = lines ++ added
          ∧ length added = node_lines node
          ∧ Forall (well_formed (ids_drawn drawn (node_ids node))) added
  end.

End Graph.

(** A writer that keeps what it is given and never fails. *)
#[global] Instance list_writer : Writer (list string) :=
  λ w text, (w ++ [text], None).

Arguments ProcessorGraph : clear implicits.

End Graph.
(* ===================================================================== *)
(** * Theorems                                                            *)
(* ===================================================================== *)

(** ** The logger *)

Module LoggingFacts.
Import Ctx Logging.

Lemma Value_WithValue_eq ctx k v : Value (WithValue ctx k v) k = Some v.
Proof. unfold WithValue. cbn [Value]. by rewrite decide_True. Qed.

Lemma Log_enabled ctx name msg out :
  Value ctx PipeLineLogLevel = Some (VInt 0) →
  Log ctx name msg out = out ++ ["[" +:+ name +:+ "] " +:+ msg].
Proof. intros Hv. unfold Log. by rewrite decide_True. Qed.

Lemma Log_disabled ctx name msg out :
  Value ctx PipeLineLogLevel ≠ Some (VInt 0) →
  Log ctx name msg out = out.
Proof. intros Hv. unfold Log. by rewrite decide_False. Qed.

(** C10.  [PipelineLogLevelDisabled] and [PipelineLogLevelDebug] are both 0.
    [Log] prints its line when the context's log-level value is the integer
    0 and prints nothing otherwise; so a context made with
    [WithLogLevel(ctx, PipelineLogLevelDisabled)] logs, and a context
    without a log-level value never logs. *)
Theorem log_level_disabled_is_debug :
  PipelineLogLevelDisabled = 0 ∧ PipelineLogLevelDebug = 0 ∧
  (∀ ctx name msg out,
     (Value ctx PipeLineLogLevel = Some (VInt 0) →
      Log ctx name msg out = out ++ ["[" +:+ name +:+ "] " +:+ msg]) ∧
     (Value ctx PipeLineLogLevel ≠ Some (VInt 0) →
      Log ctx name msg out = out)) ∧
  (∀ ctx name msg out,
     Log (WithLogLevel ctx PipelineLogLevelDisabled) name msg out
     = out ++ ["[" +:+ name +:+ "] " +:+ msg]) ∧
  (∀ ctx name msg out,
     Value ctx PipeLineLogLevel = None → Log ctx name msg out = out).
Proof.
  split; [reflexivity|]. split; [reflexivity|].
  split; [|split].
  - intros ctx name msg out. split.
    + apply Log_enabled.
    + apply Log_disabled.
  - intros ctx name msg out. apply Log_enabled.
    unfold WithLogLevel. apply Value_WithValue_eq.
  - intros ctx name msg out Hnone. apply Log_disabled. by rewrite Hnone.
Qed.

Lemma log_level_disabled_is_debug_witness :
  Log (WithLogLevel Background PipelineLogLevelDisabled)
      "Fanout/ingest" "starting" []
  = ["[Fanout/ingest] starting"]
  ∧ Log Background "Fanout/ingest" "starting" [] = [].
Proof.
  destruct log_level_disabled_is_debug as (_ & _ & Hiff & Hdis & Hnone).
  split.
  - apply (Hdis Background "Fanout/ingest" "starting" []).
  - apply (Hnone Background "Fanout/ingest" "starting" []). reflexivity.
Defined.

End LoggingFacts.

(** ** The statistics hooks *)

Module StatsFacts.
Import Ctx Traces Stats.

Lemma with_store_absent elem ctx method p now h :
  store_of elem ctx = None →
  with_store elem ctx method p now h = Returned h.
Proof. intros Hs. unfold with_store. by rewrite Hs. Qed.


Lemma with_item_state {Item} (obj : Item) o :
  (state_of (with_item obj o)).1 = obj.
Proof. by destruct o. Qed.

Lemma HasTracesEnabled_spec ctx :
  HasTracesEnabled ctx = true ↔ Value ctx TracesFlag = Some (VBool true).
Proof. unfold HasTracesEnabled. apply bool_decide_eq_true. Qed.

Lemma HasTracesEnabled_WithTraces ctx : HasTracesEnabled (WithTraces ctx) = true.
Proof.
  apply HasTracesEnabled_spec. unfold WithTraces, WithValue. cbn [Value].
  by rewrite decide_True.
Qed.




(** C8.  [TrackOutput] calls [obj.AddTrace(processor.Name())] exactly when
    [HasTracesEnabled(ctx)], that is, when the context's traces flag is
    [true] as [WithTraces] sets it: on an item that keeps its trace as a
    list the trace grows by the processor's name in that case and is
    unchanged otherwise.  When the context holds no statistics store for
    the item type, [TrackOutput], [TrackPassthrough], [TrackStarted],
    [TrackFinished] and [TrackInput] return without a panic and leave every
    store as it was. *)
Theorem TrackOutput_traces_iff_flag :
  (∀ (Item : Type) (T : Traceable Item) elem ctx p (obj : Item) now h,
     (state_of (TrackOutput elem ctx p obj now h)).1
     = if HasTracesEnabled ctx then AddTrace (proc_name p) obj else obj) ∧
  (∀ elem ctx p (obj : TracedItem) now h,
     trace (state_of (TrackOutput elem ctx p obj now h)).1
     = trace obj ++ (if HasTracesEnabled ctx then [proc_name p] else [])) ∧
  (∀ ctx, HasTracesEnabled ctx = true
          ↔ Value ctx TracesFlag = Some (VBool true)) ∧
  (∀ ctx, HasTracesEnabled (WithTraces ctx) = true) ∧
  (∀ (Item : Type) (T : Traceable Item) elem ctx p (obj : Item) now h,
     store_of elem ctx = None →
     TrackOutput elem ctx p obj now h
     = Returned (if HasTracesEnabled ctx
                 then AddTrace (proc_name p) obj else obj, h) ∧
     TrackPassthrough elem ctx p obj now h = Returned (obj, h) ∧
     TrackStarted elem ctx p now h = Returned h ∧
     TrackFinished elem ctx p now h = Returned h ∧
     TrackInput elem ctx p now h = Returned h).
Proof.
  split; [|split; [|split; [|split]]].
  - intros. unfold TrackOutput. apply with_item_state.
  - intros. unfold TrackOutput. rewrite with_item_state.
    destruct (HasTracesEnabled ctx); simpl; [done|].
    by rewrite app_nil_r.
  - apply HasTracesEnabled_spec.
  - apply HasTracesEnabled_WithTraces.
  - intros Item T elem ctx p obj now h Hs.
    unfold TrackOutput, TrackPassthrough, TrackStarted, TrackFinished,
      TrackInput.
    by rewrite !with_store_absent.
Qed.

Lemma TrackOutput_traces_iff_flag_witness :
  let obj := {| payload := 7; trace := ["src"] |} in
  let p := {| proc_addr := 1%positive; proc_name := "Fanout/ingest" |} in
  TrackOutput "item" (WithTraces Background) p obj 42 ∅
  = Returned ({| payload := 7; trace := ["src"; "Fanout/ingest"] |}, ∅)
  ∧ TrackOutput "item" Background p obj 42 ∅ = Returned (obj, ∅)
  ∧ TrackInput "item" (WithTraces Background) p 42 ∅ = Returned ∅.
Proof.
  intros obj p.
  destruct TrackOutput_traces_iff_flag as (_ & _ & _ & _ & Hsilent).
  destruct (Hsilent TracedItem _ "item" (WithTraces Background) p obj 42 ∅
              eq_refl) as (Hout & _ & _ & _ & Hin).
  destruct (Hsilent TracedItem _ "item" Background p obj 42 ∅ eq_refl)
    as (Hout' & _).
  split; [exact Hout | split; [exact Hout' | exact Hin]].
Defined.



End StatsFacts.

(** ** Building processor trees *)

Module BuilderFacts.
Import Ctx Runtime Pipeline Builder.

Section Build.
Context {E : Type} {Config : Type}.
Implicit Types (f : option (@ProcessorFactory E Config)) (cfg : Config)
  (factory : @ProcessorFactory E Config)
  (procs pre post : list (SerializedPipeline Config))
  (bad : SerializedPipeline Config).

Lemma known_kind_false type :
  known_kind type = false →
  String.eqb type "fanout" = false ∧ String.eqb type "parallel" = false ∧
  String.eqb type "sequential" = false ∧ String.eqb type "processor" = false.
Proof.
  unfold known_kind. intros H.
  repeat (apply orb_false_elim in H as [H ?]). auto.
Qed.

Lemma Pipeline_unknown_kind f type name cfg procs :
  known_kind type = false →
  Pipeline f (Descriptor type name cfg procs) = (Err ErrInvalidType, []).
Proof.
  intros (H1 & H2 & H3 & H4)%known_kind_false.
  cbn [Pipeline]. by rewrite H1, H2, H3, H4.
Qed.

Lemma Pipeline_factory_error factory name cfg procs p e :
  factory name cfg = (p, Some e) →
  Pipeline (Some factory) (Descriptor "processor" name cfg procs)
  = (Err (name +:+ ": " +:+ ErrInvalidType), [name]).
Proof. intros Hf. cbn. by rewrite Hf. Qed.

(** Children before the first failing one are built and appended; the
    failing child's error ends the loop, whatever follows it. *)
Lemma build_children_abort f pre bad post acc e calls :
  (∀ c, c ∈ pre → ∃ q, (Pipeline f c).1 = Ok q) →
  Pipeline f bad = (Err e, calls) →
  build_children (Pipeline f) (pre ++ bad :: post) acc
  = (Err e, concat (map (λ c, (Pipeline f c).2) pre) ++ calls).
Proof.
  revert acc. induction pre as [|c pre IH]; intros acc Hpre Hbad.
  - simpl. by rewrite Hbad.
  - destruct (Hpre c) as [q Hq]; [left|].
    simpl. destruct (Pipeline f c) as [r l] eqn:Hc. simpl in Hq. subst r.
    rewrite (IH (acc ++ [q])); [|intros c' Hc'; apply Hpre; by right|done].
    simpl. by rewrite app_assoc.
Qed.

Lemma Pipeline_composite f type name cfg procs :
  composite_kind type = true →
  ∃ mk, Pipeline f (Descriptor type name cfg procs)
        = wrap mk (build_children (Pipeline f) procs []).
Proof.
  unfold composite_kind. intros H. cbn [Pipeline].
  destruct (String.eqb type "fanout"); [by eexists|].
  destruct (String.eqb type "parallel"); [by eexists|].
  destruct (String.eqb type "sequential"); [by eexists|done].
Qed.

Lemma prefix_app_self (s t : string) : String.prefix s (s +:+ t) = true.
Proof.
  induction s as [|a s IH]; simpl.
  - by destruct t.
  - destruct (Ascii.ascii_dec a a); [done|congruence].
Qed.

Lemma mentions_prefix (name rest : string) :
  mentions (name +:+ rest) name = true.
Proof.
  unfold mentions. destruct name as [|c n].
  - by destruct rest.
  - change (String c n +:+ rest) with (String c (n +:+ rest)).
    cbn [String.index].
    change (String c (n +:+ rest)) with (String c n +:+ rest).
    by rewrite prefix_app_self.
Qed.

(** C7, as the code has it.  [Pipeline] is a total function of the
    descriptor and the factory.  A node whose kind is none of the four
    yields the bare [ErrInvalidType], whose text is the constant
    "invalid pipeline type" whatever the node's name.  A [processor]
    node whose factory returns an error yields the error
    "<name>: invalid pipeline type", which mentions the node's name.  In a
    composite node the first child whose construction fails ends the
    loop: its error is returned as it is and no later child is built. *)
Theorem Pipeline_fails_fast :
  ∀ f type name cfg procs,
    (known_kind type = false →
     Pipeline f (Descriptor type name cfg procs)
     = (Err ErrInvalidType, [])) ∧
    (∀ factory p e,
       f = Some factory → type = "processor" →
       factory name cfg = (p, Some e) →
       Pipeline f (Descriptor type name cfg procs)
       = (Err (name +:+ ": " +:+ ErrInvalidType), [name]) ∧
       mentions (name +:+ ": " +:+ ErrInvalidType) name = true) ∧
    (∀ pre bad post e calls,
       composite_kind type = true →
       procs = pre ++ bad :: post →
       (∀ c, c ∈ pre → ∃ q, (Pipeline f c).1 = Ok q) →
       Pipeline f bad = (Err e, calls) →
       Pipeline f (Descriptor type name cfg procs)
       = (Err e, concat (map (λ c, (Pipeline f c).2) pre) ++ calls)).
Proof.
  intros f type name cfg procs. split; [|split].
  - apply Pipeline_unknown_kind.
  - intros factory p e -> -> Hf. split.
    + by apply (Pipeline_factory_error _ _ _ _ p e).
    + apply mentions_prefix.
  - intros pre bad post e calls Hk -> Hpre Hbad.
    destruct (Pipeline_composite f type name cfg (pre ++ bad :: post) Hk)
      as [mk ->].
    by rewrite (build_children_abort f pre bad post [] e calls).
Qed.

End Build.

(** A factory that knows the leaf "double" and rejects every other name. *)
Definition sample_factory : @ProcessorFactory Z unit :=
  λ name _,
    if String.eqb name "double" then (MapLeaf name (λ x, 2 * x), None)
    else (NilProcessor, Some "unknown processor").

Lemma Pipeline_fails_fast_witness :
  Pipeline (Some sample_factory) (Descriptor "bogus" "n1" tt [])
  = (Err ErrInvalidType, [])
  ∧ Pipeline (Some sample_factory) (Descriptor "processor" "n2" tt [])
    = (Err "n2: invalid pipeline type", ["n2"])
  ∧ Pipeline (Some sample_factory)
      (Descriptor "sequential" "chain" tt
         [Descriptor "processor" "double" tt [];
          Descriptor "processor" "n2" tt [];
          Descriptor "processor" "double" tt []])
    = (Err "n2: invalid pipeline type", ["double"; "n2"]).
Proof.
  split; [|split].
  - apply (Pipeline_fails_fast (Some sample_factory) "bogus" "n1" tt []).
    reflexivity.
  - apply (Pipeline_fails_fast (Some sample_factory) "processor" "n2" tt []
             ) with (factory := sample_factory) (p := NilProcessor)
                    (e := "unknown processor"); reflexivity.
  - apply (proj2 (proj2 (Pipeline_fails_fast (Some sample_factory)
             "sequential" "chain" tt _))
             [Descriptor "processor" "double" tt []]
             (Descriptor "processor" "n2" tt [])
             [Descriptor "processor" "double" tt []]
             "n2: invalid pipeline type" ["n2"]).
    + reflexivity.
    + reflexivity.
    + intros c Hc. apply list_elem_of_singleton in Hc as ->.
      eexists. reflexivity.
    + reflexivity.
Defined.

(** C7 as it was stated fails on a node of unknown kind: the error is the
    bare "invalid pipeline type" and does not mention the node's name. *)
Lemma unknown_kind_error_omits_name :
  Pipeline (E := Z) None (Descriptor "bogus" "n1" tt [])
  = (Err "invalid pipeline type", [])
  ∧ ¬ (∃ msg, (Pipeline (E := Z) None (Descriptor "bogus" "n1" tt [])).1
              = Err msg ∧ mentions msg "n1" = true).
Proof.
  split; [reflexivity|].
  intros (msg & Hmsg & Hm). cbn in Hmsg. injection Hmsg as <-.
  vm_compute in Hm. discriminate.
Qed.

End BuilderFacts.

(** ** The scheduler *)

Module RuntimeFacts.
Import Ctx Runtime.

Section Machine.
Context {E : Type}.
Implicit Types (s : state E) (p : prog E).

Lemma thread_step_lt i s s' :
  thread_step i s = Some s' → (i < length (threads s))%nat.
Proof.
  unfold thread_step. destruct (threads s !! i) as [p|] eqn:Hi; [|done].
  intros _. by apply lookup_lt_Some in Hi.
Qed.

Lemma sync_step_lt i j s s' :
  sync_step i j s = Some s' →
  (i < length (threads s))%nat ∧ (j < length (threads s))%nat.
Proof.
  unfold sync_step.
  destruct (threads s !! i) as [p|] eqn:Hi; [|done].
  destruct (threads s !! j) as [q|] eqn:Hj.
  - intros _. split; by eapply lookup_lt_Some.
  - by destruct p as [| | | | | | | | |[]| |].
Qed.

(** [successors] lists exactly the states one step away. *)
Lemma step_successors s s' : step s s' ↔ s' ∈ successors s.
Proof.
  unfold step, successors. split.
  - intros [Hc [i [Hi|[j Hij]]]]; rewrite Hc; apply elem_of_app.
    + left. apply list_elem_of_omap. exists i. split; [|done].
      apply elem_of_seq. apply thread_step_lt in Hi. lia.
    + right. apply list_elem_of_bind. exists i.
      destruct (sync_step_lt _ _ _ _ Hij) as [Hlti Hltj]. split.
      * apply list_elem_of_omap. exists j. split; [|done].
        apply elem_of_seq. lia.
      * apply elem_of_seq. lia.
  - destruct (crashed s); [by intros ?%elem_of_nil|].
    intros [H|H]%elem_of_app; (split; [done|]).
    + apply list_elem_of_omap in H as (i & _ & Hi). eauto.
    + apply list_elem_of_bind in H as (i & H & _).
      apply list_elem_of_omap in H as (j & _ & Hij). eauto.
Qed.

(** A set of states that contains the start and is closed under
    [successors] contains every reachable state. *)
Lemma reachable_closed (l : list (state E)) s0 s :
  s0 ∈ l →
  (∀ a b, a ∈ l → b ∈ successors a → b ∈ l) →
  reachable s0 s → s ∈ l.
Proof.
  intros H0 Hcl Hr. induction Hr as [|a b c Hab _ IH]; [done|].
  apply IH. eapply Hcl; [done|]. by apply step_successors.
Qed.

Lemma reachable_step s0 s s' :
  reachable s0 s → s' ∈ successors s → reachable s0 s'.
Proof.
  intros Hr Hs. eapply rtc_r; [done|]. by apply step_successors.
Qed.

End Machine.
End RuntimeFacts.

(** ** Runs without concurrency: empty composites and the Parallel panic *)

Module ShortRuns.
Import Ctx Runtime Pipeline Runs RuntimeFacts.

Section Runs.
Context {E : Type}.
Implicit Types (s : state E).

Lemma is_run_closed s rest a b :
  is_run s rest → a ∈ s :: rest → b ∈ successors a → b ∈ s :: rest.
Proof.
  revert s. induction rest as [|s' rest IH]; intros s Hrun Ha Hb.
  - apply list_elem_of_singleton in Ha as ->. simpl in Hrun.
    rewrite Hrun in Hb. by apply elem_of_nil in Hb.
  - destruct Hrun as [Hs Hrun].
    apply elem_of_cons in Ha as [->|Ha].
    + rewrite Hs in Hb. apply list_elem_of_singleton in Hb as ->.
      right. left.
    + right. by apply (IH s').
Qed.

Lemma is_run_forward s rest x :
  is_run s rest → x ∈ s :: rest → reachable s x.
Proof.
  revert s. induction rest as [|s' rest IH]; intros s Hrun Hx.
  - apply list_elem_of_singleton in Hx as ->. apply rtc_refl.
  - destruct Hrun as [Hs Hrun].
    apply elem_of_cons in Hx as [->|Hx]; [apply rtc_refl|].
    eapply rtc_l; [|by apply IH].
    apply step_successors. rewrite Hs. left.
Qed.

Lemma last_cons_any (x d : state E) l :
  List.last (x :: l) d = List.last l x.
Proof.
  revert x d. induction l as [|y l IH]; intros x d; [done|].
  change (List.last (x :: y :: l) d) with (List.last (y :: l) d).
  by rewrite (IH y d), (IH y x).
Qed.

(** Every state of a run leads to the run's last state. *)
Lemma is_run_to_last s rest x :
  is_run s rest → x ∈ s :: rest → reachable x (List.last rest s).
Proof.
  revert s x. induction rest as [|s' rest IH]; intros s x Hrun Hx.
  - apply list_elem_of_singleton in Hx as ->. apply rtc_refl.
  - destruct Hrun as [Hs Hrun].
    rewrite last_cons_any.
    apply elem_of_cons in Hx as [->|Hx]; [|by apply IH].
    eapply rtc_l; [|apply IH; [done|left]].
    apply step_successors. rewrite Hs. left.
Qed.

(** The states of a run are exactly the reachable ones. *)
Lemma is_run_reachable s rest x :
  is_run s rest → (reachable s x ↔ x ∈ s :: rest).
Proof.
  intros Hrun. split.
  - apply reachable_closed; [left|].
    intros a b. by apply is_run_closed.
  - by apply is_run_forward.
Qed.


(** [Parallel.Execute] with at least one child, on a [Parallel] whose
    [procChans] is the nil slice it is built with: after the two start
    hooks, the wait group and the first [procOutput], the assignment
    [chain.procChans[0] = procOutput] is out of range and the program
    panics.  This is the whole run. *)
Lemma Parallel_nil_procChans_run ctx chain (p : Processor E) ps items
    out_cap :
  let c2 := [input_of items; new_chan out_cap] in
  let c3 := [input_of items; new_chan out_cap; new_chan 0] in
  ∃ h1 h2 k2 k3,
    init (Parallel chain (p :: ps) []) ctx items out_cap
    = solo (Hook h1 (Hook h2 (NewWaitGroup k2))) c2 [] false ∧
    is_run (init (Parallel chain (p :: ps) []) ctx items out_cap)
      [solo (Hook h2 (NewWaitGroup k2)) c2 [] false;
       solo (NewWaitGroup k2) c2 [] false;
       solo (MakeChan 0 k3) c2 [0%nat] false;
       solo index_out_of_range c3 [0%nat] false;
       solo index_out_of_range c3 [0%nat] true].
Proof. intros c2 c3. do 4 eexists. split; [reflexivity|]. repeat split. Qed.

(** What holds all along that run. *)
Lemma Parallel_nil_procChans_states ctx chain (p : Processor E) ps items
    out_cap s :
  reachable (init (Parallel chain (p :: ps) []) ctx items out_cap) s →
  length (threads s) = 1%nat ∧
  chans s !! 0%nat = Some (input_of items) ∧
  chans s !! 1%nat = Some (new_chan out_cap) ∧
  sendlog s = [] ∧
  threads s !! 0%nat ≠ Some Ret ∧
  finished s = false ∧
  reachable s
    (solo index_out_of_range
       [input_of items; new_chan out_cap; new_chan 0] [0%nat] true).
Proof.
  intros Hs.
  destruct (Parallel_nil_procChans_run ctx chain p ps items out_cap)
    as (h1 & h2 & k2 & k3 & Hs0 & Hrun).
  pose proof (proj1 (is_run_reachable _ _ _ Hrun) Hs) as Hin.
  pose proof (is_run_to_last _ _ _ Hrun Hin) as Hlast.
  simpl in Hlast. clear Hs Hrun.
  rewrite Hs0 in Hin.
  repeat (apply elem_of_cons in Hin as [->|Hin]);
    [..|by apply elem_of_nil in Hin]; by repeat split.
Qed.

End Runs.


(** C1, on the code: a Parallel with two pass-through children, built as
    the package builds it, never delivers an item.  With the input
    [1,2,3,4] every run panics in the first iteration of the spawn loop:
    in every reachable state the main goroutine is the only goroutine (no
    child was started), the four items are still queued in the input,
    the output is empty and open, and the program ends in the panicked
    state. *)
Theorem Parallel_two_passthrough_delivers_nothing :
  let run := Parallel "workers" [PassThrough "a"; PassThrough "b"] [] in
  let s0 := init run Background [1; 2; 3; 4] 4 in
  let panicked :=
    solo index_out_of_range
      [input_of [1; 2; 3; 4]; new_chan 4; new_chan 0] [0%nat] true in
  ∀ s, reachable s0 s →
       length (threads s) = 1%nat ∧
       chans s !! 0%nat = Some (input_of [1; 2; 3; 4]) ∧
       taken_from s 0 = [] ∧
       output_items s = [] ∧ output_closed s = false ∧
       reachable s panicked ∧ crashed panicked = true ∧
       successors panicked = [].
Proof.
  intros run s0 panicked s Hs.
  destruct (Parallel_nil_procChans_states _ _ _ _ _ _ _ Hs)
    as (Hlen & Hin & Hout & _ & _ & _ & Hend).
  unfold taken_from, output_items, output_closed. rewrite Hin, Hout.
  by repeat split.
Qed.

Lemma Parallel_two_passthrough_delivers_nothing_witness :
  let run := Parallel "workers" [PassThrough "a"; PassThrough "b"] [] in
  let s0 := init run Background [1; 2; 3; 4] 4 in
  taken_from s0 0 = [] ∧ output_items s0 = [] ∧ output_closed s0 = false ∧
  ∃ panicked, reachable s0 panicked ∧ crashed panicked = true.
Proof.
  intros run s0.
  destruct (Parallel_two_passthrough_delivers_nothing s0 (rtc_refl _ _))
    as (_ & _ & Htaken & Hitems & Hopen & Hend & Hcrash & _).
  split; [exact Htaken|]. split; [exact Hitems|]. split; [exact Hopen|].
  eexists. split; [exact Hend|exact Hcrash].
Defined.

(** C2, on the code: closing the input of a Parallel that has a child
    never closes the output.  Whatever the children, the items and the
    output capacity, in every reachable state the output is still open and
    [Execute] has not returned, and every run ends in the panic. *)
Theorem Parallel_never_closes_output :
  ∀ (E : Type) ctx chain (p : Processor E) ps (items : list E) out_cap s,
    reachable (init (Parallel chain (p :: ps) []) ctx items out_cap) s →
    output_closed s = false ∧ ¬ main_returned s ∧ finished s = false ∧
    ∃ s', reachable s s' ∧ crashed s' = true ∧ successors s' = [].
Proof.
  intros E ctx chain p ps items out_cap s Hs.
  destruct (Parallel_nil_procChans_states _ _ _ _ _ _ _ Hs)
    as (Hlen & Hin & Hout & _ & Hret & Hfin & Hend).
  unfold output_closed, main_returned. rewrite Hout.
  repeat split; [done..|]. eexists. split; [exact Hend|]. by split.
Qed.

Lemma Parallel_never_closes_output_witness :
  let s0 :=
    init (Parallel "workers" [PassThrough (E := Z) "a"] []) Background [] 0
  in
  output_closed s0 = false ∧ ¬ main_returned s0 ∧ finished s0 = false ∧
  ∃ s', reachable s0 s' ∧ crashed s' = true ∧ successors s' = [].
Proof.
  intros s0.
  apply (Parallel_never_closes_output Z Background "workers"
           (PassThrough "a") [] [] 0 s0).
  apply rtc_refl.
Defined.

(** A pass-through leaf called directly on the input [7]: it takes the
    item, sends it, sees the input closed, closes the output and
    returns. *)
Lemma PassThrough_direct_run :
  ∃ k1 k2,
    is_run (init (PassThrough (E := Z) "c") Background [7] 1)
      [solo k1 [ {| ch_cap := 1; ch_buf := []; ch_closed := true;
                    ch_taken := [7] |}; new_chan 1 ] [] false;
       {| threads := [k2];
          chans := [ {| ch_cap := 1; ch_buf := []; ch_closed := true;
                        ch_taken := [7] |};
                     {| ch_cap := 1; ch_buf := [7]; ch_closed := false;
                        ch_taken := [] |} ];
          wgs := []; crashed := false; sendlog := [(1%nat, 7)] |};
       {| threads := [Close output Ret];
          chans := [ {| ch_cap := 1; ch_buf := []; ch_closed := true;
                        ch_taken := [7] |};
                     {| ch_cap := 1; ch_buf := [7]; ch_closed := false;
                        ch_taken := [] |} ];
          wgs := []; crashed := false; sendlog := [(1%nat, 7)] |};
       {| threads := [Ret];
          chans := [ {| ch_cap := 1; ch_buf := []; ch_closed := true;
                        ch_taken := [7] |};
                     closed_output 1 [7] ];
          wgs := []; crashed := false; sendlog := [(1%nat, 7)] |}].
Proof. do 2 eexists. repeat split. Qed.

(** C3, on the code: wrapping a pass-through leaf in a Parallel does not
    behave like the leaf.  On the input [7] the leaf called directly ends,
    in every run, with the output closed and holding [7]; the Parallel
    around it never puts anything in the output and never closes it:
    every run of it ends in the panic. *)
Theorem Parallel_single_child_differs :
  let direct := init (PassThrough (E := Z) "c") Background [7] 1 in
  let wrapped :=
    init (Parallel "w" [PassThrough (E := Z) "c"] []) Background [7] 1 in
  (∃ done, finished done = true ∧ output_items done = [7] ∧
           output_closed done = true ∧
           ∀ s, reachable direct s → reachable s done) ∧
  (∀ s, reachable wrapped s →
        output_items s = [] ∧ output_closed s = false ∧
        finished s = false ∧
        ∃ s', reachable s s' ∧ crashed s' = true ∧ successors s' = []).
Proof.
  intros direct wrapped. split.
  - destruct PassThrough_direct_run as (k1 & k2 & Hrun).
    eexists. split; [|split; [|split]]; [| | |intros s Hs].
    4: { apply (is_run_to_last _ _ _ Hrun).
         by apply (is_run_reachable _ _ _ Hrun). }
    all: reflexivity.
  - intros s Hs.
    destruct (Parallel_nil_procChans_states _ _ _ _ _ _ _ Hs)
      as (Hlen & Hin & Hout & _ & Hret & Hfin & Hend).
    unfold output_items, output_closed. rewrite Hout.
    repeat split; [done..|]. eexists. split; [exact Hend|]. by split.
Qed.

End ShortRuns.

(** ** Networks of loop goroutines *)

Module NetworkFacts.
Import Ctx Runtime Pipeline Runs Network RuntimeFacts.

Section Workers.
Context {E : Type}.
Implicit Types (ws : list (worker E)) (d : data E) (sp : wspec E)
  (st : wst E) (tp : prog E) (s : state E).

Lemma wprog_wbody sp rem :
  wprog (sp, wbody rem) = run_block rem (wloop sp).
Proof. by destruct rem. Qed.

Lemma conc_set_thread tp ws d j w w' :
  ws !! j = Some w →
  set_thread (S j) (wprog w') (conc tp ws d) = conc tp (<[j := w']> ws) d.
Proof.
  intros Hj. unfold set_thread, conc. simpl. f_equal. f_equal.
  by rewrite list_fmap_insert.
Qed.

Lemma conc_lookup_worker tp ws d j p :
  threads (conc tp ws d) !! S j = Some p →
  ∃ w, ws !! j = Some w ∧ p = wprog w.
Proof.
  simpl. rewrite list_lookup_fmap.
  destruct (ws !! j) as [w|]; [|done]. intros [= <-]. eauto.
Qed.

Lemma conc_crash tp ws d : crash (conc tp ws d) = conc tp ws (d_crash d).
Proof. done. Qed.

(** A step a worker takes alone is one of the steps of [wtrans]. *)
Lemma worker_local_step tp ws d j sp st s' :
  ws !! j = Some (sp, st) → st ≠ WBody [] →
  local_step (S j) (wprog (sp, st)) (conc tp ws d) = Some s' →
  ∃ ws' d', s' = conc tp ws' d' ∧ wtrans ws d ws' d'.
Proof.
  intros Hj Hne Hstep. destruct st as [|[|[[|c] v|h] rem]|[|[c|w] rem]].
  - (* at the head of the loop *)
    cbn in Hstep.
    destruct (d_chans d !! ws_in sp) as [ch|] eqn:Hch; [|done].
    destruct (ch_buf ch) as [|v rest] eqn:Hbuf.
    + destruct (ch_closed ch) eqn:Hcl; [|done]. injection Hstep as <-.
      exists (<[j := (sp, WTail (ws_tail sp))]> ws), d. split.
      * by rewrite <- (conc_set_thread _ _ _ _ _ _ Hj).
      * by eapply wt_exit.
    + injection Hstep as <-.
      exists (<[j := (sp, wbody (ws_body sp v))]> ws),
        (d_set_chan (ws_in sp) (ch_pop v rest ch) d). split.
      * rewrite <- (conc_set_thread _ _ _ _ _ _ Hj), wprog_wbody. done.
      * by eapply wt_recv.
  - done.
  - done.
  - (* a send *)
    cbn in Hstep.
    destruct (d_chans d !! c) as [ch|] eqn:Hch; [|done].
    destruct (ch_closed ch) eqn:Hcl.
    + injection Hstep as <-. exists ws, (d_crash d). split; [done|].
      by eapply wt_send_closed.
    + case_decide as Hroom; [|done]. injection Hstep as <-.
      exists (<[j := (sp, wbody rem)]> ws),
        (d_set_chan c (ch_push v ch) (d_log_send c v d)). split.
      * rewrite <- (conc_set_thread _ _ _ _ _ _ Hj), wprog_wbody. done.
      * by eapply wt_send.
  - (* a hook *)
    cbn in Hstep. injection Hstep as <-.
    exists (<[j := (sp, wbody rem)]> ws), d. split.
    + rewrite <- (conc_set_thread _ _ _ _ _ _ Hj), wprog_wbody. done.
    + by eapply wt_hook.
  - done.
  - (* close *)
    cbn in Hstep.
    destruct (d_chans d !! c) as [ch|] eqn:Hch; [|done].
    destruct (ch_closed ch) eqn:Hcl.
    + injection Hstep as <-. exists ws, (d_crash d). split; [done|].
      by eapply wt_close_closed.
    + injection Hstep as <-.
      exists (<[j := (sp, WTail rem)]> ws),
        (d_set_chan c (ch_close ch) d). split.
      * by rewrite <- (conc_set_thread _ _ _ _ _ _ Hj).
      * by eapply wt_close.
  - (* wg.Done() *)
    cbn in Hstep.
    destruct (d_wgs d !! w) as [[|n]|] eqn:Hw; [| |done].
    + injection Hstep as <-. exists ws, (d_crash d). split; [done|].
      by eapply wt_done_zero.
    + injection Hstep as <-.
      exists (<[j := (sp, WTail rem)]> ws), (d_set_wg w n d). split.
      * by rewrite <- (conc_set_thread _ _ _ _ _ _ Hj).
      * by eapply wt_done.
Qed.

Lemma wprog_is_send sp st c v k :
  wprog (sp, st) = Send c v k → st ≠ WBody [] →
  ∃ rem, st = WBody (ASend c v :: rem) ∧ k = run_block rem (wloop sp).
Proof.
  intros Hp Hne. destruct st as [|[|[c' v'|h] rem]|[|[c'|w] rem]];
    try done.
  cbn in Hp. injection Hp as -> -> <-. eauto.
Qed.

Lemma wprog_is_range sp st c body k :
  wprog (sp, st) = Range c body k → st ≠ WBody [] →
  st = WHead ∧ c = Chan (ws_in sp) ∧ body = ws_body sp
  ∧ k = tail_prog (ws_tail sp).
Proof.
  intros Hp Hne. destruct st as [|[|[c' v'|h] rem]|[|[c'|w] rem]];
    try done.
  cbn in Hp. by injection Hp as <- <- <-.
Qed.

Lemma quiet_not_send tp c v k : quiet tp = true → tp ≠ Send c v k.
Proof. by intros Hq ->. Qed.

Lemma quiet_not_range tp c body k : quiet tp = true → tp ≠ Range c body k.
Proof. by intros Hq ->. Qed.

(** A meeting on an unbuffered channel is a meeting of two workers. *)
Lemma worker_sync_step tp ws d i j s' :
  quiet tp = true → (∀ k sp, ws !! k ≠ Some (sp, WBody [])) →
  sync_step i j (conc tp ws d) = Some s' →
  ∃ ws' d', s' = conc tp ws' d' ∧ wtrans ws d ws' d'.
Proof.
  intros Hq Hne Hstep. unfold sync_step in Hstep.
  destruct (threads (conc tp ws d) !! i) as [pi|] eqn:Hi; [|done].
  destruct pi as [| | | | | | | | |[|c] v k| |]; try done.
  destruct (threads (conc tp ws d) !! j) as [pj|] eqn:Hj; [|done].
  destruct pj as [| | | | | | | | | | |[|c'] body k']; try done.
  destruct (chans (conc tp ws d) !! c) as [ch|] eqn:Hch; [|done].
  case_decide as Hcond; [|done]. injection Hstep as <-.
  destruct Hcond as (Hij & <- & Hcap & Hcl).
  destruct i as [|i].
  { simpl in Hi. injection Hi as ->. done. }
  destruct j as [|j].
  { simpl in Hj. injection Hj as ->. done. }
  apply conc_lookup_worker in Hi as ([spi sti] & Hwi & Hpi).
  apply conc_lookup_worker in Hj as ([spj stj] & Hwj & Hpj).
  symmetry in Hpi, Hpj.
  apply wprog_is_send in Hpi as (rem & -> & ->); [|by intros ->; eapply Hne].
  apply wprog_is_range in Hpj as (-> & [= Hc] & -> & ->);
    [|by intros ->; eapply Hne].
  exists (<[j := (spj, wbody (ws_body spj v))]> (<[i := (spi, wbody rem)]> ws)),
    (d_set_chan c (ch_handoff v ch) (d_log_send c v d)).
  split.
  - assert (<[i := (spi, wbody rem)]> ws !! j = Some (spj, WHead)) as Hwj'.
    { rewrite list_lookup_insert_ne; [done|congruence]. }
    rewrite <- (conc_set_thread _ _ _ _ _ _ Hwj').
    rewrite <- (conc_set_thread _ _ _ _ _ _ Hwi).
    rewrite !wprog_wbody. subst c. done.
  - eapply wt_sync; eauto.
Qed.

(** Every step of a network is a step of the main goroutine or a step of
    the workers. *)
Lemma net_step tp ws d s' :
  quiet tp = true → (∀ k sp, ws !! k ≠ Some (sp, WBody [])) →
  step (conc tp ws d) s' →
  local_step 0 tp (conc tp ws d) = Some s' ∨
  ∃ ws' d', s' = conc tp ws' d' ∧ wtrans ws d ws' d'.
Proof.
  intros Hq Hne [Hc [i [Hi|[j Hij]]]].
  - destruct i as [|i]; [by left|]. right.
    unfold thread_step in Hi.
    destruct (threads (conc tp ws d) !! S i) as [p|] eqn:Hp; [|done].
    apply conc_lookup_worker in Hp as ([sp st] & Hw & ->).
    eapply worker_local_step; [done| |done]. intros ->. by eapply Hne.
  - right. by eapply worker_sync_step.
Qed.

(** *** Reading the data after an update *)

Lemma lookup_set_chan_eq d c ch ch0 :
  d_chans d !! c = Some ch0 → d_chans (d_set_chan c ch d) !! c = Some ch.
Proof.
  intros H. simpl. apply list_lookup_insert_eq. by eapply lookup_lt_Some.
Qed.

Lemma lookup_set_chan_ne d c c' ch :
  c ≠ c' → d_chans (d_set_chan c ch d) !! c' = d_chans d !! c'.
Proof. intros H. simpl. by apply list_lookup_insert_ne. Qed.

Lemma taken_set_chan_eq d c ch ch0 :
  d_chans d !! c = Some ch0 → taken (d_set_chan c ch d) c = ch_taken ch.
Proof. intros H. unfold taken. by erewrite lookup_set_chan_eq. Qed.

Lemma taken_set_chan_ne d c c' ch :
  c ≠ c' → taken (d_set_chan c ch d) c' = taken d c'.
Proof. intros H. unfold taken. by rewrite lookup_set_chan_ne. Qed.

Lemma queued_set_chan_eq d c ch ch0 :
  d_chans d !! c = Some ch0 → queued (d_set_chan c ch d) c = ch_buf ch.
Proof. intros H. unfold queued. by erewrite lookup_set_chan_eq. Qed.

Lemma queued_set_chan_ne d c c' ch :
  c ≠ c' → queued (d_set_chan c ch d) c' = queued d c'.
Proof. intros H. unfold queued. by rewrite lookup_set_chan_ne. Qed.

Lemma closed_set_chan_eq d c ch ch0 :
  d_chans d !! c = Some ch0 → closed (d_set_chan c ch d) c = ch_closed ch.
Proof. intros H. unfold closed. by erewrite lookup_set_chan_eq. Qed.

Lemma closed_set_chan_ne d c c' ch :
  c ≠ c' → closed (d_set_chan c ch d) c' = closed d c'.
Proof. intros H. unfold closed. by rewrite lookup_set_chan_ne. Qed.

Lemma sent_set_chan_ne d c c' ch :
  c ≠ c' → sent (d_set_chan c ch d) c' = sent d c'.
Proof.
  intros H. unfold sent. by rewrite taken_set_chan_ne, queued_set_chan_ne.
Qed.

Lemma taken_lookup d c ch : d_chans d !! c = Some ch → taken d c = ch_taken ch.
Proof. intros H. unfold taken. by rewrite H. Qed.

Lemma queued_lookup d c ch : d_chans d !! c = Some ch → queued d c = ch_buf ch.
Proof. intros H. unfold queued. by rewrite H. Qed.

Lemma closed_lookup d c ch :
  d_chans d !! c = Some ch → closed d c = ch_closed ch.
Proof. intros H. unfold closed. by rewrite H. Qed.

Lemma sent_lookup d c ch :
  d_chans d !! c = Some ch → sent d c = ch_taken ch ++ ch_buf ch.
Proof. intros H. unfold sent. by rewrite (taken_lookup _ _ ch), (queued_lookup _ _ ch). Qed.

(** Taking an item out of a queue does not change what was sent. *)
Lemma sent_pop d c ch v rest c' :
  d_chans d !! c = Some ch → ch_buf ch = v :: rest →
  sent (d_set_chan c (ch_pop v rest ch) d) c' = sent d c'.
Proof.
  intros Hch Hbuf. destruct (decide (c = c')) as [<-|Hne].
  - unfold sent. erewrite taken_set_chan_eq, queued_set_chan_eq by done.
    rewrite (taken_lookup _ _ ch), (queued_lookup _ _ ch) by done.
    simpl. by rewrite Hbuf, <- app_assoc.
  - by apply sent_set_chan_ne.
Qed.

Lemma taken_log_send d c v c' : taken (d_log_send c v d) c' = taken d c'.
Proof. done. Qed.
Lemma queued_log_send d c v c' : queued (d_log_send c v d) c' = queued d c'.
Proof. done. Qed.
Lemma sent_log_send d c v c' : sent (d_log_send c v d) c' = sent d c'.
Proof. done. Qed.
Lemma closed_log_send d c v c' : closed (d_log_send c v d) c' = closed d c'.
Proof. done. Qed.

Lemma taken_alloc_chan d cap c : taken (d_alloc_chan cap d) c = taken d c.
Proof.
  unfold taken. simpl.
  destruct (decide (c < length (d_chans d))%nat) as [Hlt|Hge].
  - by rewrite lookup_app_l.
  - rewrite lookup_app_r by lia. rewrite (lookup_ge_None_2 (d_chans d)) by lia.
    by destruct (c - length (d_chans d))%nat as [|[|]].
Qed.

Lemma queued_alloc_chan d cap c : queued (d_alloc_chan cap d) c = queued d c.
Proof.
  unfold queued. simpl.
  destruct (decide (c < length (d_chans d))%nat) as [Hlt|Hge].
  - by rewrite lookup_app_l.
  - rewrite lookup_app_r by lia. rewrite (lookup_ge_None_2 (d_chans d)) by lia.
    by destruct (c - length (d_chans d))%nat as [|[|]].
Qed.

Lemma closed_alloc_chan d cap c : closed (d_alloc_chan cap d) c = closed d c.
Proof.
  unfold closed. simpl.
  destruct (decide (c < length (d_chans d))%nat) as [Hlt|Hge].
  - by rewrite lookup_app_l.
  - rewrite lookup_app_r by lia. rewrite (lookup_ge_None_2 (d_chans d)) by lia.
    by destruct (c - length (d_chans d))%nat as [|[|]].
Qed.

Lemma sent_alloc_chan d cap c : sent (d_alloc_chan cap d) c = sent d c.
Proof. unfold sent. by rewrite taken_alloc_chan, queued_alloc_chan. Qed.

(** *** What the workers' steps keep *)

Lemma insert_keeps_spec ws j sp st st' :
  ws !! j = Some (sp, st) →
  (λ w, w.1) <$> <[j := (sp, st')]> ws = (λ w, w.1) <$> ws.
Proof.
  intros Hj. rewrite list_fmap_insert.
  apply list_insert_id. by rewrite list_lookup_fmap, Hj.
Qed.

Lemma wtrans_specs ws d ws' d' :
  wtrans ws d ws' d' → (λ w, w.1) <$> ws' = (λ w, w.1) <$> ws.
Proof.
  destruct 1; try done; try by eapply insert_keeps_spec.
  erewrite insert_keeps_spec; [by eapply insert_keeps_spec|].
  by rewrite list_lookup_insert_ne.
Qed.

Lemma wtrans_length ws d ws' d' :
  wtrans ws d ws' d' → length ws' = length ws.
Proof.
  intros H%wtrans_specs. apply (f_equal length) in H.
  by rewrite !length_fmap in H.
Qed.

Lemma wtrans_spec_at ws d ws' d' k sp st :
  wtrans ws d ws' d' → ws' !! k = Some (sp, st) →
  ∃ st0, ws !! k = Some (sp, st0).
Proof.
  intros H%wtrans_specs Hk.
  apply (f_equal (λ l, l !! k)) in H. rewrite !list_lookup_fmap, Hk in H.
  destruct (ws !! k) as [[sp0 st0]|]; [|done].
  simpl in H. injection H as ->. eauto.
Qed.

Lemma wvalid_wbody_whole sp v : wvalid (sp, wbody (ws_body sp v)).
Proof.
  unfold wvalid, wbody. simpl. destruct (ws_body sp v) eqn:Hb; [done|].
  split; [done|]. exists v. by rewrite Hb.
Qed.

Lemma wvalid_wbody_rest sp a rem :
  wvalid (sp, WBody (a :: rem)) → wvalid (sp, wbody rem).
Proof.
  unfold wvalid. simpl. intros [_ [v Hv]]. destruct rem as [|b rem]; [done|].
  simpl. split; [done|]. exists v.
  eapply suffix_cons_l. exact Hv.
Qed.

Lemma wvalid_tail_rest sp t rem :
  wvalid (sp, WTail (t :: rem)) → wvalid (sp, WTail rem).
Proof. unfold wvalid. simpl. apply suffix_cons_l. Qed.

Lemma Forall_insert_lookup {A} (P : A → Prop) (l : list A) i x :
  Forall P l → P x → Forall P (<[i := x]> l).
Proof.
  intros Hl Hx. destruct (decide (i < length l)%nat) as [Hlt|Hge].
  - by apply Forall_insert.
  - by rewrite list_insert_ge by lia.
Qed.

Lemma wtrans_valid ws d ws' d' :
  wtrans ws d ws' d' → Forall wvalid ws → Forall wvalid ws'.
Proof.
  intros Htr Hv.
  assert (∀ j w, ws !! j = Some w → wvalid w) as Hat
    by (intros j w Hj; by eapply (Forall_lookup_1 _ _ _ _ Hv)).
  destruct Htr; try done.
  - apply Forall_insert_lookup; [done|]. apply wvalid_wbody_whole.
  - apply Forall_insert_lookup; [done|]. unfold wvalid. simpl. reflexivity.
  - apply Forall_insert_lookup; [done|].
    eapply wvalid_wbody_rest. by eapply Hat.
  - apply Forall_insert_lookup; [done|].
    eapply wvalid_wbody_rest. by eapply Hat.
  - apply Forall_insert_lookup; [apply Forall_insert_lookup; [done|]|].
    + eapply wvalid_wbody_rest. by eapply Hat.
    + apply wvalid_wbody_whole.
  - apply Forall_insert_lookup; [done|].
    eapply wvalid_tail_rest. by eapply Hat.
  - apply Forall_insert_lookup; [done|].
    eapply wvalid_tail_rest. by eapply Hat.
Qed.

Lemma wvalid_not_empty_body ws :
  Forall wvalid ws → ∀ k sp, ws !! k ≠ Some (sp, WBody []).
Proof.
  intros Hv k sp Hk. apply (Forall_lookup_1 _ _ _ _ Hv) in Hk.
  unfold wvalid in Hk. simpl in Hk. by destruct Hk.
Qed.

(** A step of the workers needs a worker that has not returned. *)
Lemma wtrans_active ws d ws' d' :
  wtrans ws d ws' d' → ∃ j sp st, ws !! j = Some (sp, st) ∧ st ≠ WTail [].
Proof. destruct 1; eauto 10. Qed.

(** *** What the workers' steps change in the data *)

Lemma wtrans_chans_length ws d ws' d' :
  wtrans ws d ws' d' → length (d_chans d') = length (d_chans d).
Proof. destruct 1; simpl; by rewrite ?length_insert. Qed.

Lemma wtrans_wgs_length ws d ws' d' :
  wtrans ws d ws' d' → length (d_wgs d') = length (d_wgs d).
Proof. destruct 1; simpl; by rewrite ?length_insert. Qed.

Lemma capacity_set_chan d c ch ch0 c' :
  d_chans d !! c = Some ch0 → ch_cap ch = ch_cap ch0 →
  capacity (d_set_chan c ch d) c' = capacity d c'.
Proof.
  intros Hch Hcap. unfold capacity. destruct (decide (c = c')) as [<-|Hne].
  - erewrite lookup_set_chan_eq by done. by rewrite Hch.
  - by rewrite lookup_set_chan_ne.
Qed.

Lemma wtrans_capacity ws d ws' d' c :
  wtrans ws d ws' d' → capacity d' c = capacity d c.
Proof.
  destruct 1; try done;
    by (erewrite capacity_set_chan; [done|eassumption|done]).
Qed.

Lemma wtrans_bounded ws d ws' d' :
  wtrans ws d ws' d' → bounded d → bounded d'.
Proof.
  intros Htr Hb c ch'.
  destruct Htr as [j sp ch v rest Hj Hch Hbuf| |
                 |j sp c0 v rem ch Hj Hch ? ?|
                 |i j spi spj c0 v rem ch Hi Hj Hin Hij Hch ? ?|
                 j sp c0 rem ch Hj Hch ?| | |]; try apply Hb.
  - destruct (decide (ws_in sp = c)) as [<-|Hne].
    + erewrite lookup_set_chan_eq by done. intros [= <-]. simpl.
      apply Hb in Hch. rewrite Hbuf in Hch. simpl in Hch. lia.
    + rewrite lookup_set_chan_ne by done. apply Hb.
  - destruct (decide (c0 = c)) as [<-|Hne].
    + erewrite lookup_set_chan_eq by done. intros [= <-]. simpl.
      rewrite length_app. simpl. lia.
    + rewrite lookup_set_chan_ne by done. apply Hb.
  - destruct (decide (c0 = c)) as [<-|Hne].
    + erewrite lookup_set_chan_eq by done. intros [= <-]. simpl.
      by apply Hb in Hch.
    + rewrite lookup_set_chan_ne by done. apply Hb.
  - destruct (decide (c0 = c)) as [<-|Hne].
    + erewrite lookup_set_chan_eq by done. intros [= <-]. simpl.
      by apply Hb in Hch.
    + rewrite lookup_set_chan_ne by done. apply Hb.
Qed.

Lemma bounded_unbuffered d c ch :
  bounded d → d_chans d !! c = Some ch → ch_cap ch = 0%nat → ch_buf ch = [].
Proof.
  intros Hb Hch Hcap. apply Hb in Hch. rewrite Hcap in Hch.
  destruct (ch_buf ch); [done|simpl in Hch; lia].
Qed.

(** A receive appends to what was taken from the worker's input. *)
Lemma wtrans_taken ws d ws' d' c :
  wtrans ws d ws' d' →
  taken d' c = taken d c ∨
  ∃ j sp v, ws !! j = Some (sp, WHead) ∧ ws_in sp = c ∧
            taken d' c = taken d c ++ [v].
Proof.
  destruct 1 as [j sp ch v rest Hj Hch Hbuf| | |j sp c0 v rem ch Hj Hch ? ?|
                 |i j spi spj c0 v rem ch Hi Hj Hin Hij Hch ? ?|
                 j sp c0 rem ch Hj Hch ?| | |]; try by left.
  - destruct (decide (ws_in sp = c)) as [<-|Hne].
    + right. exists j, sp, v. split; [done|]. split; [done|].
      erewrite taken_set_chan_eq by done. by rewrite (taken_lookup _ _ ch).
    + left. by rewrite taken_set_chan_ne.
  - left. destruct (decide (c0 = c)) as [<-|Hne].
    + erewrite taken_set_chan_eq by done.
      by rewrite (taken_lookup _ _ ch).
    + by rewrite taken_set_chan_ne.
  - destruct (decide (c0 = c)) as [<-|Hne].
    + right. exists j, spj, v. split; [done|]. split; [done|].
      erewrite taken_set_chan_eq by done.
      by rewrite (taken_lookup _ _ ch).
    + left. by rewrite taken_set_chan_ne.
  - left. destruct (decide (c0 = c)) as [<-|Hne].
    + erewrite taken_set_chan_eq by done. by rewrite (taken_lookup _ _ ch).
    + by rewrite taken_set_chan_ne.
Qed.

(** A send appends to what was sent on the channel. *)
Lemma wtrans_sent ws d ws' d' c :
  wtrans ws d ws' d' → bounded d →
  sent d' c = sent d c ∨
  ∃ j sp v rem, ws !! j = Some (sp, WBody (ASend (Chan c) v :: rem)) ∧
                sent d' c = sent d c ++ [v].
Proof.
  intros Htr Hb.
  destruct Htr as [j sp ch v rest Hj Hch Hbuf| |
                 |j sp c0 v rem ch Hj Hch ? ?|
                 |i j spi spj c0 v rem ch Hi Hj Hin Hij Hch Hcap ?|
                 j sp c0 rem ch Hj Hch ?| | |]; try by left.
  - left. by eapply sent_pop.
  - destruct (decide (c0 = c)) as [<-|Hne].
    + right. exists j, sp, v, rem. split; [done|].
      unfold sent. erewrite taken_set_chan_eq, queued_set_chan_eq by done.
      rewrite (taken_lookup _ _ ch), (queued_lookup _ _ ch) by done.
      simpl. by rewrite app_assoc.
    + left. by rewrite sent_set_chan_ne.
  - destruct (decide (c0 = c)) as [<-|Hne].
    + right. exists i, spi, v, rem. split; [done|].
      unfold sent. erewrite taken_set_chan_eq, queued_set_chan_eq by done.
      rewrite (taken_lookup _ _ ch), (queued_lookup _ _ ch) by done.
      simpl. rewrite (bounded_unbuffered _ _ _ Hb Hch Hcap).
      by rewrite !app_nil_r.
    + left. by rewrite sent_set_chan_ne.
  - left. destruct (decide (c0 = c)) as [<-|Hne].
    + unfold sent. erewrite taken_set_chan_eq, queued_set_chan_eq by done.
      by rewrite (taken_lookup _ _ ch), (queued_lookup _ _ ch).
    + by rewrite sent_set_chan_ne.
Qed.

(** A [close] closes; nothing reopens a channel. *)
Lemma wtrans_closed ws d ws' d' c :
  wtrans ws d ws' d' →
  closed d' c = closed d c ∨
  ∃ j sp rem, ws !! j = Some (sp, WTail (TClose c :: rem)) ∧
              closed d c = false ∧ closed d' c = true.
Proof.
  destruct 1 as [j sp ch v rest Hj Hch Hbuf| | |j sp c0 v rem ch Hj Hch ? ?|
                 |i j spi spj c0 v rem ch Hi Hj Hin Hij Hch ? ?|
                 j sp c0 rem ch Hj Hch ?| | |]; try by left.
  - left. destruct (decide (ws_in sp = c)) as [<-|Hne].
    + erewrite closed_set_chan_eq by done. by rewrite (closed_lookup _ _ ch).
    + by rewrite closed_set_chan_ne.
  - left. destruct (decide (c0 = c)) as [<-|Hne].
    + erewrite closed_set_chan_eq by done.
      by rewrite (closed_lookup _ _ ch).
    + by rewrite closed_set_chan_ne.
  - left. destruct (decide (c0 = c)) as [<-|Hne].
    + erewrite closed_set_chan_eq by done.
      by rewrite (closed_lookup _ _ ch).
    + by rewrite closed_set_chan_ne.
  - destruct (decide (c0 = c)) as [<-|Hne].
    + right. exists j, sp, rem. split; [done|].
      erewrite closed_set_chan_eq by done.
      by rewrite (closed_lookup _ _ ch).
    + left. by rewrite closed_set_chan_ne.
Qed.

Lemma wtrans_closed_mono ws d ws' d' c :
  wtrans ws d ws' d' → closed d c = true → closed d' c = true.
Proof.
  intros Htr Hc. destruct (wtrans_closed _ _ _ _ c Htr)
    as [->|(? & ? & ? & ? & ? & ?)]; congruence.
Qed.

(** Nothing is queued in a closed channel by a step that does not
    panic. *)
Lemma wtrans_queued_closed ws d ws' d' c :
  wtrans ws d ws' d' → closed d c = true → queued d c = [] →
  queued d' c = [].
Proof.
  intros Htr Hc Hq.
  destruct Htr as [j sp ch v rest Hj Hch Hbuf| |
                 |j sp c0 v rem ch Hj Hch Hcl ?|
                 |i j spi spj c0 v rem ch Hi Hj Hin Hij Hch Hcap Hcl|
                 j sp c0 rem ch Hj Hch ?| | |]; try done.
  - destruct (decide (ws_in sp = c)) as [<-|Hne].
    + rewrite (queued_lookup _ _ ch), Hbuf in Hq by done. done.
    + by rewrite queued_set_chan_ne.
  - destruct (decide (c0 = c)) as [<-|Hne].
    + rewrite (closed_lookup _ _ ch) in Hc by done. congruence.
    + by rewrite queued_set_chan_ne.
  - destruct (decide (c0 = c)) as [<-|Hne].
    + rewrite (closed_lookup _ _ ch) in Hc by done. congruence.
    + by rewrite queued_set_chan_ne.
  - destruct (decide (c0 = c)) as [<-|Hne].
    + erewrite queued_set_chan_eq by done.
      by rewrite (queued_lookup _ _ ch) in Hq.
    + by rewrite queued_set_chan_ne.
Qed.

(** A [wg.Done()] decrements; nothing else touches a wait group. *)
Lemma wtrans_wgs ws d ws' d' w :
  wtrans ws d ws' d' →
  d_wgs d' !! w = d_wgs d !! w ∨
  ∃ j sp rem n, ws !! j = Some (sp, WTail (TDone w :: rem)) ∧
                ws' = <[j := (sp, WTail rem)]> ws ∧
                d_wgs d !! w = Some (S n) ∧ d_wgs d' !! w = Some n.
Proof.
  destruct 1 as [| | | | | | | |j sp w0 rem n Hj Hw|]; try by left.
  destruct (decide (w0 = w)) as [<-|Hne].
  - right. exists j, sp, rem, n. repeat split; [done..|].
    simpl. apply list_lookup_insert_eq. by eapply lookup_lt_Some.
  - left. simpl. by rewrite list_lookup_insert_ne.
Qed.

(** A send is logged; nothing else is. *)
Lemma wtrans_log ws d ws' d' :
  wtrans ws d ws' d' →
  d_log d' = d_log d ∨
  ∃ j sp c v rem, ws !! j = Some (sp, WBody (ASend (Chan c) v :: rem)) ∧
                  ws' !! j = Some (sp, wbody rem) ∧
                  d_log d' = d_log d ++ [(c, v)].
Proof.
  destruct 1 as [| | |j sp c0 v rem ch Hj Hch ? ?|
                 |i j spi spj c0 v rem ch Hi Hj Hin Hij Hch Hcap Hcl|
                 | | |]; try by left.
  - right. exists j, sp, c0, v, rem. split; [done|]. split; [|done].
    apply list_lookup_insert_eq. by eapply lookup_lt_Some.
  - right. exists i, spi, c0, v, rem. split; [done|]. split; [|done].
    rewrite list_lookup_insert_ne by done.
    apply list_lookup_insert_eq. by eapply lookup_lt_Some.
Qed.

(** *** Histories under the single updates *)

Lemma taken_pop d c0 ch v rest c :
  d_chans d !! c0 = Some ch →
  taken (d_set_chan c0 (ch_pop v rest ch) d) c
  = if decide (c0 = c) then taken d c ++ [v] else taken d c.
Proof.
  intros Hch. case_decide as Hc.
  - subst c. erewrite taken_set_chan_eq by done.
    by rewrite (taken_lookup _ _ ch).
  - by rewrite taken_set_chan_ne.
Qed.

Lemma taken_push d c0 ch v c :
  d_chans d !! c0 = Some ch →
  taken (d_set_chan c0 (ch_push v ch) (d_log_send c0 v d)) c = taken d c.
Proof.
  intros Hch. destruct (decide (c0 = c)) as [<-|Hne].
  - erewrite taken_set_chan_eq by done. by rewrite (taken_lookup _ _ ch).
  - by rewrite taken_set_chan_ne.
Qed.

Lemma taken_handoff d c0 ch v c :
  d_chans d !! c0 = Some ch →
  taken (d_set_chan c0 (ch_handoff v ch) (d_log_send c0 v d)) c
  = if decide (c0 = c) then taken d c ++ [v] else taken d c.
Proof.
  intros Hch. case_decide as Hc.
  - subst c. erewrite taken_set_chan_eq by done.
    by rewrite (taken_lookup _ _ ch).
  - by rewrite taken_set_chan_ne.
Qed.

Lemma taken_close d c0 ch c :
  d_chans d !! c0 = Some ch →
  taken (d_set_chan c0 (ch_close ch) d) c = taken d c.
Proof.
  intros Hch. destruct (decide (c0 = c)) as [<-|Hne].
  - erewrite taken_set_chan_eq by done. by rewrite (taken_lookup _ _ ch).
  - by rewrite taken_set_chan_ne.
Qed.

Lemma sent_push d c0 ch v c :
  d_chans d !! c0 = Some ch →
  sent (d_set_chan c0 (ch_push v ch) (d_log_send c0 v d)) c
  = if decide (c0 = c) then sent d c ++ [v] else sent d c.
Proof.
  intros Hch. case_decide as Hc.
  - subst c. unfold sent.
    erewrite taken_set_chan_eq, queued_set_chan_eq by done.
    rewrite (taken_lookup _ _ ch), (queued_lookup _ _ ch) by done.
    simpl. by rewrite app_assoc.
  - by rewrite sent_set_chan_ne.
Qed.

Lemma sent_handoff d c0 ch v c :
  d_chans d !! c0 = Some ch → ch_buf ch = [] →
  sent (d_set_chan c0 (ch_handoff v ch) (d_log_send c0 v d)) c
  = if decide (c0 = c) then sent d c ++ [v] else sent d c.
Proof.
  intros Hch Hbuf. case_decide as Hc.
  - subst c. unfold sent.
    erewrite taken_set_chan_eq, queued_set_chan_eq by done.
    rewrite (taken_lookup _ _ ch), (queued_lookup _ _ ch) by done.
    simpl. by rewrite Hbuf, !app_nil_r.
  - by rewrite sent_set_chan_ne.
Qed.

Lemma sent_close d c0 ch c :
  d_chans d !! c0 = Some ch →
  sent (d_set_chan c0 (ch_close ch) d) c = sent d c.
Proof.
  intros Hch. destruct (decide (c0 = c)) as [<-|Hne].
  - unfold sent. erewrite taken_set_chan_eq, queued_set_chan_eq by done.
    by rewrite (taken_lookup _ _ ch), (queued_lookup _ _ ch).
  - by rewrite sent_set_chan_ne.
Qed.

Lemma pend_to_wbody c (rem : list (action E)) :
  pend_to c (wbody rem) = sends_to c rem.
Proof. by destruct rem. Qed.

Lemma pend_all_wbody (rem : list (action E)) :
  pend_all (wbody rem) = sends_of rem.
Proof. by destruct rem. Qed.

Lemma sends_to_send c c0 v (rem : list (action E)) :
  sends_to c (ASend (Chan c0) v :: rem)
  = if decide (c0 = c) then v :: sends_to c rem else sends_to c rem.
Proof. unfold sends_to. simpl. by case_decide. Qed.

Lemma sends_to_hook c h (rem : list (action E)) :
  sends_to c (AHook h :: rem) = sends_to c rem.
Proof. done. Qed.

Lemma flat_map_snoc {A B} (f : A → list B) l x :
  flat_map f (l ++ [x]) = flat_map f l ++ f x.
Proof. rewrite flat_map_app. simpl. by rewrite app_nil_r. Qed.

(** *** The invariants under the workers' steps *)

Ltac at_worker H j a :=
  destruct (decide (j = a)) as [->|?];
  [rewrite list_lookup_insert_eq in H
     by (rewrite ?length_insert; eapply lookup_lt_Some; eassumption)
  |rewrite list_lookup_insert_ne in H by done].

(** Worker [j] is the only sender on [c] and the only receiver on its
    input, and [c] is not its input: each step keeps [chain_eq]. *)
Lemma chain_eq_step ws d ws' d' j c :
  wtrans ws d ws' d' → bounded d →
  (∀ i sp v rem,
     ws !! i = Some (sp, WBody (ASend (Chan c) v :: rem)) → i = j) →
  (∀ i spi sti spj stj,
     ws !! i = Some (spi, sti) → ws !! j = Some (spj, stj) →
     ws_in spi = ws_in spj → i = j) →
  (∀ sp st, ws !! j = Some (sp, st) → ws_in sp ≠ c) →
  chain_eq ws d j c → chain_eq ws' d' j c.
Proof.
  intros Htr Hb Hsend Hrecv Hio Heq sp st' Hj'.
  destruct (wtrans_spec_at _ _ _ _ _ _ _ Htr Hj') as [st Hj].
  specialize (Heq sp st Hj). specialize (Hio sp st Hj).
  assert (∀ i spi sti, ws !! i = Some (spi, sti) →
                       ws_in spi = ws_in sp → i = j) as Hrecv'
    by (intros; eapply Hrecv; eauto).
  clear Hrecv. rename Hrecv' into Hrecv.
  destruct Htr as [a spa ch v rest Ha Hch Hbuf|a spa ch Ha Hch Hbuf Hcl
                 |a spa h rem Ha
                 |a spa c0 v rem ch Ha Hch Hcl Hroom
                 |a spa c0 v rem ch Ha Hch Hcl
                 |a b spa spb c0 v rem ch Ha Hb' Hin Hab Hch Hcap Hcl
                 |a spa c0 rem ch Ha Hch Hcl
                 |a spa c0 rem ch Ha Hch Hcl
                 |a spa w rem n Ha Hw
                 |a spa w rem Ha Hw].
  - (* receive *)
    rewrite (sent_pop _ _ _ _ _ _ Hch Hbuf), (taken_pop _ _ _ _ _ _ Hch).
    at_worker Hj' j a.
    + injection Hj' as <- <-. rewrite Ha in Hj. injection Hj as <-.
      rewrite decide_True by done.
      rewrite flat_map_snoc, pend_to_wbody, <- Heq. simpl.
      by rewrite app_nil_r.
    + rewrite Hj in Hj'. injection Hj' as <-.
      rewrite decide_False; [done|]. intros Hc. apply n.
      symmetry. by eapply Hrecv.
  - (* leaving the loop *)
    at_worker Hj' j a.
    + injection Hj' as <- <-. rewrite Ha in Hj. by injection Hj as <-.
    + rewrite Hj in Hj'. by injection Hj' as <-.
  - (* hook *)
    at_worker Hj' j a.
    + injection Hj' as <- <-. rewrite Ha in Hj. injection Hj as <-.
      by rewrite pend_to_wbody.
    + rewrite Hj in Hj'. by injection Hj' as <-.
  - (* buffered send *)
    rewrite (sent_push _ _ _ _ _ Hch), (taken_push _ _ _ _ _ Hch).
    at_worker Hj' j a.
    + injection Hj' as <- <-. rewrite Ha in Hj. injection Hj as <-.
      rewrite pend_to_wbody. cbn [pend_to] in Heq.
      rewrite sends_to_send in Heq. case_decide; [|done].
      by rewrite <- app_assoc.
    + rewrite Hj in Hj'. injection Hj' as <-.
      rewrite decide_False; [done|]. intros ->. apply n. symmetry.
      by eapply Hsend.
  - (* send on a closed channel *)
    rewrite Hj in Hj'. injection Hj' as <-. exact Heq.
  - (* meeting *)
    rewrite (sent_handoff _ _ _ _ _ Hch
               (bounded_unbuffered _ _ _ Hb Hch Hcap)),
      (taken_handoff _ _ _ _ _ Hch).
    at_worker Hj' j b.
    + (* the receiver *)
      injection Hj' as <- <-. rewrite Hb' in Hj. injection Hj as <-.
      rewrite (decide_True (P := c0 = ws_in spb)) by done.
      rewrite decide_False by congruence.
      rewrite flat_map_snoc, pend_to_wbody, <- Heq. simpl.
      by rewrite app_nil_r.
    + at_worker Hj' j a.
      * (* the sender *)
        injection Hj' as <- <-. rewrite Ha in Hj. injection Hj as <-.
        rewrite pend_to_wbody. cbn [pend_to] in Heq.
        rewrite sends_to_send in Heq.
        rewrite (decide_False (P := c0 = ws_in spa)).
        2:{ intros Hc. apply n. symmetry. eapply Hrecv; [exact Hb'|].
            congruence. }
        case_decide; [|done]. by rewrite <- app_assoc.
      * rewrite Hj in Hj'. injection Hj' as <-.
        rewrite decide_False.
        2:{ intros ->. apply n0. symmetry. by eapply Hsend. }
        rewrite decide_False; [done|].
        intros Hc. apply n. symmetry. eapply Hrecv; [exact Hb'|].
        congruence.
  - (* close *)
    rewrite (sent_close _ _ _ _ Hch), (taken_close _ _ _ _ Hch).
    at_worker Hj' j a.
    + injection Hj' as <- <-. rewrite Ha in Hj. by injection Hj as <-.
    + rewrite Hj in Hj'. by injection Hj' as <-.
  - rewrite Hj in Hj'. injection Hj' as <-. exact Heq.
  - (* wg.Done() *)
    at_worker Hj' j a.
    + injection Hj' as <- <-. rewrite Ha in Hj. by injection Hj as <-.
    + rewrite Hj in Hj'. by injection Hj' as <-.
  - rewrite Hj in Hj'. injection Hj' as <-. exact Heq.
Qed.

Lemma wbody_not_tail (rem : list (action E)) r : wbody rem ≠ WTail r.
Proof. by destruct rem. Qed.

(** A worker found in its tail was there before the step, or has just
    left its loop on a closed and drained input. *)
Lemma wtrans_tail_origin ws d ws' d' j sp rem' :
  wtrans ws d ws' d' → ws' !! j = Some (sp, WTail rem') →
  (∃ rem, ws !! j = Some (sp, WTail rem)) ∨
  (ws !! j = Some (sp, WHead) ∧ closed d (ws_in sp) = true ∧
   queued d (ws_in sp) = [] ∧ d' = d).
Proof.
  intros Htr Hj'.
  destruct Htr as [a spa ch v rest Ha Hch Hbuf|a spa ch Ha Hch Hbuf Hcl
                 |a spa h rem Ha
                 |a spa c0 v rem ch Ha Hch Hcl Hroom
                 |a spa c0 v rem ch Ha Hch Hcl
                 |a b spa spb c0 v rem ch Ha Hb' Hin Hab Hch Hcap Hcl
                 |a spa c0 rem ch Ha Hch Hcl
                 |a spa c0 rem ch Ha Hch Hcl
                 |a spa w rem n Ha Hw
                 |a spa w rem Ha Hw]; try (left; by eauto).
  - at_worker Hj' j a; [|left; by eauto].
    injection Hj' as _ Hst. by apply wbody_not_tail in Hst.
  - at_worker Hj' j a; [|left; by eauto].
    injection Hj' as <- <-. right.
    by rewrite (closed_lookup _ _ ch), (queued_lookup _ _ ch).
  - at_worker Hj' j a; [|left; by eauto].
    injection Hj' as _ Hst. by apply wbody_not_tail in Hst.
  - at_worker Hj' j a; [|left; by eauto].
    injection Hj' as _ Hst. by apply wbody_not_tail in Hst.
  - at_worker Hj' j b.
    { injection Hj' as _ Hst. by apply wbody_not_tail in Hst. }
    at_worker Hj' j a; [|left; by eauto].
    injection Hj' as _ Hst. by apply wbody_not_tail in Hst.
  - at_worker Hj' j a; [|left; by eauto].
    injection Hj' as <- <-. left. eauto.
  - at_worker Hj' j a; [|left; by eauto].
    injection Hj' as <- <-. left. eauto.
Qed.

Lemma tail_drained_step ws d ws' d' :
  wtrans ws d ws' d' → tail_drained ws d → tail_drained ws' d'.
Proof.
  intros Htr Hd j sp rem' Hj'.
  destruct (wtrans_tail_origin _ _ _ _ _ _ _ Htr Hj')
    as [[rem Hj]|(Hj & Hc & Hq & ->)]; [|done].
  destruct (Hd _ _ _ Hj) as [Hc Hq]. split.
  - by eapply wtrans_closed_mono.
  - by eapply wtrans_queued_closed.
Qed.

Lemma suffix_cons_NoDup {A} (x : A) l t :
  (x :: l) `suffix_of` t → NoDup t → x ∉ l.
Proof.
  intros [k ->] Hnd. apply NoDup_app in Hnd as (_ & _ & Hnd).
  by apply NoDup_cons in Hnd as [? _].
Qed.

(** Worker [j] is the only one to close [c], closes it once, and stands
    at a position of its own code: each step keeps [closed_by]. *)
Lemma closed_by_step ws d ws' d' j c :
  wtrans ws d ws' d' →
  (∀ i sp rem, ws !! i = Some (sp, WTail (TClose c :: rem)) → i = j) →
  (∀ sp st, ws !! j = Some (sp, st) →
            wvalid (sp, st) ∧ NoDup (ws_tail sp) ∧ TClose c ∈ ws_tail sp) →
  closed_by ws d j c → closed_by ws' d' j c.
Proof.
  intros Htr Hsole Hcode Hcl sp st' Hj'.
  destruct (wtrans_spec_at _ _ _ _ _ _ _ Htr Hj') as [st Hj].
  specialize (Hcl sp st Hj). destruct (Hcode sp st Hj) as (Hv & Hnd & Hin).
  assert (∀ rem, st = WHead ∨ st = WBody rem → closed d c = false) as Hopen.
  { intros rem Hst. apply not_true_is_false. intros Hc.
    apply Hcl in Hc as (r & -> & _). by destruct Hst. }
  destruct Htr as [a spa ch v rest Ha Hch Hbuf|a spa ch Ha Hch Hbuf Hcl'
                 |a spa h rem Ha
                 |a spa c0 v rem ch Ha Hch Hcl' Hroom
                 |a spa c0 v rem ch Ha Hch Hcl'
                 |a b spa spb c0 v rem ch Ha Hb' Hin' Hab Hch Hcap Hcl'
                 |a spa c0 rem ch Ha Hch Hcl'
                 |a spa c0 rem ch Ha Hch Hcl'
                 |a spa w rem n Ha Hw
                 |a spa w rem Ha Hw].
  - assert (closed (d_set_chan (ws_in spa) (ch_pop v rest ch) d) c
            = closed d c) as ->.
    { destruct (decide (ws_in spa = c)) as [<-|Hne].
      - erewrite closed_set_chan_eq by done.
        by rewrite (closed_lookup _ _ ch).
      - by rewrite closed_set_chan_ne. }
    at_worker Hj' j a.
    + injection Hj' as <- <-. rewrite Ha in Hj. injection Hj as <-.
      rewrite (Hopen [] (or_introl eq_refl)). split; [done|].
      intros (r & Hr & _). by apply wbody_not_tail in Hr.
    + rewrite Hj in Hj'. by injection Hj' as <-.
  - at_worker Hj' j a.
    + injection Hj' as <- <-. rewrite Ha in Hj. injection Hj as <-.
      rewrite (Hopen [] (or_introl eq_refl)). split; [done|].
      intros (r & [= <-] & Hr). done.
    + rewrite Hj in Hj'. by injection Hj' as <-.
  - at_worker Hj' j a.
    + injection Hj' as <- <-. rewrite Ha in Hj. injection Hj as <-.
      rewrite (Hopen _ (or_intror eq_refl)). split; [done|].
      intros (r & Hr & _). by apply wbody_not_tail in Hr.
    + rewrite Hj in Hj'. by injection Hj' as <-.
  - assert (closed (d_set_chan c0 (ch_push v ch) (d_log_send c0 v d)) c
            = closed d c) as ->.
    { destruct (decide (c0 = c)) as [<-|Hne].
      - erewrite closed_set_chan_eq by done.
        by rewrite (closed_lookup _ _ ch).
      - by rewrite closed_set_chan_ne. }
    at_worker Hj' j a.
    + injection Hj' as <- <-. rewrite Ha in Hj. injection Hj as <-.
      rewrite (Hopen _ (or_intror eq_refl)). split; [done|].
      intros (r & Hr & _). by apply wbody_not_tail in Hr.
    + rewrite Hj in Hj'. by injection Hj' as <-.
  - rewrite Hj in Hj'. injection Hj' as <-. exact Hcl.
  - assert (closed (d_set_chan c0 (ch_handoff v ch) (d_log_send c0 v d)) c
            = closed d c) as ->.
    { destruct (decide (c0 = c)) as [<-|Hne].
      - erewrite closed_set_chan_eq by done.
        by rewrite (closed_lookup _ _ ch).
      - by rewrite closed_set_chan_ne. }
    at_worker Hj' j b.
    { injection Hj' as <- <-. rewrite Hb' in Hj. injection Hj as <-.
      rewrite (Hopen [] (or_introl eq_refl)). split; [done|].
      intros (r & Hr & _). by apply wbody_not_tail in Hr. }
    at_worker Hj' j a.
    + injection Hj' as <- <-. rewrite Ha in Hj. injection Hj as <-.
      rewrite (Hopen _ (or_intror eq_refl)). split; [done|].
      intros (r & Hr & _). by apply wbody_not_tail in Hr.
    + rewrite Hj in Hj'. by injection Hj' as <-.
  - (* close *)
    at_worker Hj' j a.
    + injection Hj' as <- <-. rewrite Ha in Hj. injection Hj as <-.
      destruct (decide (c0 = c)) as [->|Hne].
      * erewrite closed_set_chan_eq by done. simpl. split; [|done].
        intros _. exists rem. split; [done|].
        unfold wvalid in Hv. simpl in Hv.
        by eapply suffix_cons_NoDup.
      * rewrite closed_set_chan_ne by done. rewrite Hcl. split.
        -- intros (r & [= <-] & Hr). exists rem. split; [done|].
           intros ?. apply Hr. by right.
        -- intros (r & [= <-] & Hr). eexists. split; [done|].
           intros [?|?]%elem_of_cons; [congruence|done].
    + rewrite Hj in Hj'. injection Hj' as <-.
      rewrite closed_set_chan_ne; [done|].
      intros ->. apply n. symmetry. by eapply Hsole.
  - rewrite Hj in Hj'. injection Hj' as <-. exact Hcl.
  - at_worker Hj' j a.
    + injection Hj' as <- <-. rewrite Ha in Hj. injection Hj as <-.
      change (closed (d_set_wg w n d) c) with (closed d c).
      rewrite Hcl. split.
      * intros (r & [= <-] & Hr). exists rem. split; [done|].
        intros ?. apply Hr. by right.
      * intros (r & [= <-] & Hr). eexists. split; [done|].
        intros [?|?]%elem_of_cons; [done|done].
    + rewrite Hj in Hj'. by injection Hj' as <-.
  - rewrite Hj in Hj'. injection Hj' as <-. exact Hcl.
Qed.

(** *** Sums over the workers and over the channels *)

Lemma sum_list_insert {A} (f : A → nat) (l : list A) j x y :
  l !! j = Some x →
  (sum_list (f <$> <[j := y]> l) + f x = sum_list (f <$> l) + f y)%nat.
Proof.
  revert j. induction l as [|a l IH]; intros [|j] Hj; try done.
  - injection Hj as ->. csimpl. lia.
  - csimpl in *. specialize (IH j Hj). lia.
Qed.

Lemma sum_list_imap_insert {A} (f : nat → A → nat) (l : list A) j x y :
  l !! j = Some x →
  (sum_list (imap f (<[j := y]> l)) + f j x
   = sum_list (imap f l) + f j y)%nat.
Proof.
  revert f j. induction l as [|a l IH]; intros f [|j] Hj; try done.
  - injection Hj as ->. csimpl. lia.
  - csimpl in *. specialize (IH (f ∘ S) j Hj). csimpl in IH. lia.
Qed.

Lemma sum_list_app_one {A} (f : A → nat) (l : list A) x :
  sum_list (f <$> (l ++ [x])) = (sum_list (f <$> l) + f x)%nat.
Proof. rewrite fmap_app, sum_list_with_app. csimpl. lia. Qed.

Lemma sum_list_imap_app_one {A} (f : nat → A → nat) (l : list A) x :
  sum_list (imap f (l ++ [x]))
  = (sum_list (imap f l) + f (length l) x)%nat.
Proof.
  rewrite imap_app, sum_list_with_app. csimpl.
  replace (length l + 0)%nat with (length l) by lia. lia.
Qed.

Lemma dones_left_eq w ws : dones_left w ws = sum_list (dones_of w <$> ws).
Proof. done. Qed.

Lemma dones_of_wbody w sp rem st :
  st = WHead ∨ (∃ r, st = WBody r) →
  dones_of w (sp, wbody rem) = dones_of w (sp, st).
Proof. intros [->|[r ->]]; by destruct rem. Qed.

Lemma dones_of_tail_close w sp c rem :
  dones_of w (sp, WTail (TClose c :: rem)) = dones_of w (sp, WTail rem).
Proof.
  unfold dones_of.
  change (rtail (sp, WTail (TClose c :: rem))) with (TClose c :: rem).
  by rewrite filter_cons_False.
Qed.

Lemma dones_of_tail_done w w0 sp rem :
  dones_of w (sp, WTail (TDone w0 :: rem))
  = ((if decide (w0 = w) then 1 else 0) + dones_of w (sp, WTail rem))%nat.
Proof.
  unfold dones_of.
  change (rtail (sp, WTail (TDone w0 :: rem))) with (TDone w0 :: rem).
  case_decide as Hw.
  - subst. by rewrite filter_cons_True.
  - rewrite filter_cons_False; [done|]. congruence.
Qed.

(** The counter of a wait group and the number of [wg.Done()] calls
    still to come go down together. *)
Lemma wtrans_dones ws d ws' d' w :
  wtrans ws d ws' d' →
  (dones_left w ws' = dones_left w ws ∧ d_wgs d' !! w = d_wgs d !! w) ∨
  (∃ n, d_wgs d !! w = Some (S n) ∧ d_wgs d' !! w = Some n ∧
        dones_left w ws = S (dones_left w ws')).
Proof.
  rewrite !dones_left_eq.
  destruct 1 as [a spa ch v rest Ha Hch Hbuf|a spa ch Ha Hch Hbuf Hcl
                 |a spa h rem Ha
                 |a spa c0 v rem ch Ha Hch Hcl Hroom
                 |a spa c0 v rem ch Ha Hch Hcl
                 |a b spa spb c0 v rem ch Ha Hb' Hin Hab Hch Hcap Hcl
                 |a spa c0 rem ch Ha Hch Hcl
                 |a spa c0 rem ch Ha Hch Hcl
                 |a spa w0 rem n Ha Hw
                 |a spa w0 rem Ha Hw]; try (left; by split).
  - left. split; [|done].
    pose proof (sum_list_insert (dones_of w) _ _ _
                  (spa, wbody (ws_body spa v)) Ha) as Hs.
    rewrite (dones_of_wbody _ _ _ WHead) in Hs by (by left). lia.
  - left. split; [|done].
    pose proof (sum_list_insert (dones_of w) _ _ _
                  (spa, WTail (ws_tail spa)) Ha) as Hs.
    change (dones_of w (spa, WTail (ws_tail spa)))
      with (dones_of w (spa, WHead)) in Hs. lia.
  - left. split; [|done].
    pose proof (sum_list_insert (dones_of w) _ _ _
                  (spa, wbody rem) Ha) as Hs.
    rewrite (dones_of_wbody _ _ _ (WBody (AHook h :: rem))) in Hs
      by (right; eauto). lia.
  - left. split; [|done].
    pose proof (sum_list_insert (dones_of w) _ _ _
                  (spa, wbody rem) Ha) as Hs.
    rewrite (dones_of_wbody _ _ _ (WBody (ASend (Chan c0) v :: rem))) in Hs
      by (right; eauto). lia.
  - left. split; [|done].
    pose proof (sum_list_insert (dones_of w) _ _ _
                  (spa, wbody rem) Ha) as Hs.
    rewrite (dones_of_wbody _ _ _ (WBody (ASend (Chan c0) v :: rem))) in Hs
      by (right; eauto).
    assert (<[a := (spa, wbody rem)]> ws !! b = Some (spb, WHead)) as Hb2
      by (by rewrite list_lookup_insert_ne).
    pose proof (sum_list_insert (dones_of w) _ _ _
                  (spb, wbody (ws_body spb v)) Hb2) as Hs2.
    rewrite (dones_of_wbody _ _ _ WHead) in Hs2 by (by left). lia.
  - left. split; [|done].
    pose proof (sum_list_insert (dones_of w) _ _ _
                  (spa, WTail rem) Ha) as Hs.
    rewrite dones_of_tail_close in Hs. lia.
  - pose proof (sum_list_insert (dones_of w) _ _ _
                  (spa, WTail rem) Ha) as Hs.
    rewrite dones_of_tail_done in Hs.
    destruct (decide (w0 = w)) as [->|Hne].
    + right. exists n. split; [done|]. split; [|lia].
      simpl. apply list_lookup_insert_eq. by eapply lookup_lt_Some.
    + left. split; [lia|]. simpl. by rewrite list_lookup_insert_ne.
Qed.

(** *** The termination measure *)

Lemma worker_measure_wbody wt sp rem :
  worker_measure wt (sp, wbody rem)
  = (1 + length (ws_tail sp) + body_cost wt rem)%nat.
Proof. destruct rem; unfold worker_measure, body_cost; simpl; lia. Qed.

Lemma queue_measure_set_chan wt d c ch ch0 :
  d_chans d !! c = Some ch0 →
  (queue_measure wt (d_set_chan c ch d) + wt c * length (ch_buf ch0)
   = queue_measure wt d + wt c * length (ch_buf ch))%nat.
Proof.
  intros Hch. unfold queue_measure. simpl.
  apply (sum_list_imap_insert
           (λ c ch, wt c * length (ch_buf ch))%nat _ _ _ _ Hch).
Qed.

Lemma wm_head wt sp :
  worker_measure wt (sp, WHead) = S (length (ws_tail sp)).
Proof. done. Qed.

Lemma wm_body wt sp rem :
  worker_measure wt (sp, WBody rem)
  = S (length (ws_tail sp) + body_cost wt rem).
Proof. done. Qed.

Lemma wm_tail wt sp (rem : list tact) :
  worker_measure wt (sp, WTail rem) = length rem.
Proof. done. Qed.

Lemma body_cost_cons wt (a : action E) rem :
  body_cost wt (a :: rem) = (act_cost wt a + body_cost wt rem)%nat.
Proof. done. Qed.

(** Every step of the workers that does not panic lowers the measure. *)
Lemma wtrans_measure wt ws d ws' d' :
  wtrans ws d ws' d' → costs_ok wt ws → d_crashed d = false →
  d_crashed d' = false →
  (net_measure wt ws' d' < net_measure wt ws d)%nat.
Proof.
  intros Htr Hcost Hc Hc'. unfold net_measure.
  destruct Htr as [a spa ch v rest Ha Hch Hbuf|a spa ch Ha Hch Hbuf Hcl
                 |a spa h rem Ha
                 |a spa c0 v rem ch Ha Hch Hcl Hroom
                 |a spa c0 v rem ch Ha Hch Hcl
                 |a b spa spb c0 v rem ch Ha Hb' Hin Hab Hch Hcap Hcl
                 |a spa c0 rem ch Ha Hch Hcl
                 |a spa c0 rem ch Ha Hch Hcl
                 |a spa w0 rem n Ha Hw
                 |a spa w0 rem Ha Hw]; try done.
  - pose proof (sum_list_insert (worker_measure wt) _ _ _
                  (spa, wbody (ws_body spa v)) Ha) as Hs.
    rewrite worker_measure_wbody, wm_head in Hs.
    pose proof (queue_measure_set_chan wt _ _ (ch_pop v rest ch) _ Hch)
      as Hq.
    rewrite Hbuf in Hq. cbn [ch_pop ch_buf length] in Hq.
    pose proof (Hcost _ _ _ v Ha) as Hlt. nia.
  - pose proof (sum_list_insert (worker_measure wt) _ _ _
                  (spa, WTail (ws_tail spa)) Ha) as Hs.
    rewrite wm_head, wm_tail in Hs. lia.
  - pose proof (sum_list_insert (worker_measure wt) _ _ _
                  (spa, wbody rem) Ha) as Hs.
    rewrite worker_measure_wbody, wm_body, body_cost_cons in Hs.
    cbn [act_cost] in Hs. lia.
  - pose proof (sum_list_insert (worker_measure wt) _ _ _
                  (spa, wbody rem) Ha) as Hs.
    rewrite worker_measure_wbody, wm_body, body_cost_cons in Hs.
    cbn [act_cost] in Hs.
    pose proof (queue_measure_set_chan wt (d_log_send c0 v d) _
                  (ch_push v ch) _ Hch) as Hq.
    cbn [ch_push ch_buf] in Hq. rewrite length_app in Hq.
    cbn [length] in Hq.
    change (queue_measure wt (d_log_send c0 v d))
      with (queue_measure wt d) in Hq. nia.
  - pose proof (sum_list_insert (worker_measure wt) _ _ _
                  (spa, wbody rem) Ha) as Hs.
    rewrite worker_measure_wbody, wm_body, body_cost_cons in Hs.
    cbn [act_cost] in Hs.
    assert (<[a := (spa, wbody rem)]> ws !! b = Some (spb, WHead)) as Hb2
      by (by rewrite list_lookup_insert_ne).
    pose proof (sum_list_insert (worker_measure wt) _ _ _
                  (spb, wbody (ws_body spb v)) Hb2) as Hs2.
    rewrite worker_measure_wbody, wm_head in Hs2.
    pose proof (queue_measure_set_chan wt (d_log_send c0 v d) _
                  (ch_handoff v ch) _ Hch) as Hq.
    cbn [ch_handoff ch_buf] in Hq.
    change (queue_measure wt (d_log_send c0 v d))
      with (queue_measure wt d) in Hq.
    pose proof (Hcost _ _ _ v Hb') as Hlt. rewrite Hin in Hlt. lia.
  - pose proof (sum_list_insert (worker_measure wt) _ _ _
                  (spa, WTail rem) Ha) as Hs.
    rewrite !wm_tail in Hs. cbn [length] in Hs.
    pose proof (queue_measure_set_chan wt d _ (ch_close ch) _ Hch) as Hq.
    cbn [ch_close ch_buf] in Hq. lia.
  - pose proof (sum_list_insert (worker_measure wt) _ _ _
                  (spa, WTail rem) Ha) as Hs.
    rewrite !wm_tail in Hs. cbn [length] in Hs.
    change (queue_measure wt (d_set_wg w0 n d)) with (queue_measure wt d).
    lia.
Qed.

(** *** Steps of the main goroutine, on the data *)

Lemma conc_set_main tp tp' ws d :
  set_thread 0 tp' (conc tp ws d) = conc tp' ws d.
Proof. done. Qed.

Lemma conc_spawn tp ws d (w : worker E) :
  spawn (wprog w) (conc tp ws d) = conc tp (ws ++ [w]) d.
Proof. unfold spawn, conc. simpl. by rewrite fmap_app. Qed.

Lemma conc_alloc_chan tp ws d cap :
  alloc_chan cap (conc tp ws d) = conc tp ws (d_alloc_chan cap d).
Proof. done. Qed.

Lemma conc_alloc_wg tp ws d :
  alloc_wg (conc tp ws d) = conc tp ws (d_alloc_wg d).
Proof. done. Qed.

Lemma conc_set_wg tp ws d w n :
  set_wg w n (conc tp ws d) = conc tp ws (d_set_wg w n d).
Proof. done. Qed.

Lemma conc_set_chan tp ws d c ch :
  set_chan c ch (conc tp ws d) = conc tp ws (d_set_chan c ch d).
Proof. done. Qed.

Lemma net_measure_spawn wt ws d sp :
  net_measure wt (ws ++ [(sp, WHead)]) d
  = (net_measure wt ws d + S (length (ws_tail sp)))%nat.
Proof.
  unfold net_measure. rewrite sum_list_app_one, wm_head. lia.
Qed.

Lemma net_measure_alloc_chan wt ws d cap :
  net_measure wt ws (d_alloc_chan cap d) = net_measure wt ws d.
Proof.
  unfold net_measure, queue_measure. cbn [d_alloc_chan d_chans].
  rewrite sum_list_imap_app_one. cbn [new_chan ch_buf length]. lia.
Qed.

Lemma net_measure_close wt ws d c ch :
  d_chans d !! c = Some ch →
  net_measure wt ws (d_set_chan c (ch_close ch) d) = net_measure wt ws d.
Proof.
  intros Hch. unfold net_measure.
  pose proof (queue_measure_set_chan wt d _ (ch_close ch) _ Hch) as Hq.
  cbn [ch_close ch_buf] in Hq. lia.
Qed.

(** Conversely, every step of the workers is a step of the program. *)
Lemma worker_thread_step tp ws d j w :
  ws !! j = Some w →
  thread_step (S j) (conc tp ws d)
  = local_step (S j) (wprog w) (conc tp ws d).
Proof.
  intros Hj. unfold thread_step. cbn [threads conc].
  change ((tp :: (wprog <$> ws)) !! S j) with ((wprog <$> ws) !! j).
  by rewrite list_lookup_fmap, Hj.
Qed.

Lemma wtrans_step tp ws d ws' d' :
  d_crashed d = false → wtrans ws d ws' d' →
  step (conc tp ws d) (conc tp ws' d').
Proof.
  intros Hc Htr. split; [done|].
  destruct Htr as [a spa ch v rest Ha Hch Hbuf|a spa ch Ha Hch Hbuf Hcl
                 |a spa h rem Ha
                 |a spa c0 v rem ch Ha Hch Hcl Hroom
                 |a spa c0 v rem ch Ha Hch Hcl
                 |a b spa spb c0 v rem ch Ha Hb' Hin Hab Hch Hcap Hcl
                 |a spa c0 rem ch Ha Hch Hcl
                 |a spa c0 rem ch Ha Hch Hcl
                 |a spa w0 rem n Ha Hw
                 |a spa w0 rem Ha Hw].
  - exists (S a). left. rewrite (worker_thread_step _ _ _ _ _ Ha).
    cbn. rewrite Hch, Hbuf.
    rewrite <- (conc_set_thread _ _ _ _ _ _ Ha), wprog_wbody. done.
  - exists (S a). left. rewrite (worker_thread_step _ _ _ _ _ Ha).
    cbn. rewrite Hch, Hbuf, Hcl.
    by rewrite <- (conc_set_thread _ _ _ _ _ _ Ha).
  - exists (S a). left. rewrite (worker_thread_step _ _ _ _ _ Ha).
    cbn. rewrite <- (conc_set_thread _ _ _ _ _ _ Ha), wprog_wbody. done.
  - exists (S a). left. rewrite (worker_thread_step _ _ _ _ _ Ha).
    cbn. rewrite Hch, Hcl, decide_True by done.
    rewrite <- (conc_set_thread _ _ _ _ _ _ Ha), wprog_wbody. done.
  - exists (S a). left. rewrite (worker_thread_step _ _ _ _ _ Ha).
    cbn. by rewrite Hch, Hcl.
  - exists (S a). right. exists (S b). unfold sync_step.
    cbn [threads conc].
    change ((tp :: (wprog <$> ws)) !! S a) with ((wprog <$> ws) !! a).
    change ((tp :: (wprog <$> ws)) !! S b) with ((wprog <$> ws) !! b).
    rewrite !list_lookup_fmap, Ha, Hb'. cbn. rewrite Hin, Hch.
    rewrite decide_True by (repeat split; congruence).
    assert (<[a := (spa, wbody rem)]> ws !! b = Some (spb, WHead)) as Hb2
      by (by rewrite list_lookup_insert_ne).
    rewrite <- (conc_set_thread _ _ _ _ _ _ Hb2).
    rewrite <- (conc_set_thread _ _ _ _ _ _ Ha).
    rewrite !wprog_wbody. unfold wloop. rewrite Hin. done.
  - exists (S a). left. rewrite (worker_thread_step _ _ _ _ _ Ha).
    cbn. rewrite Hch, Hcl.
    by rewrite <- (conc_set_thread _ _ _ _ _ _ Ha).
  - exists (S a). left. rewrite (worker_thread_step _ _ _ _ _ Ha).
    cbn. by rewrite Hch, Hcl.
  - exists (S a). left. rewrite (worker_thread_step _ _ _ _ _ Ha).
    cbn. rewrite Hw.
    by rewrite <- (conc_set_thread _ _ _ _ _ _ Ha).
  - exists (S a). left. rewrite (worker_thread_step _ _ _ _ _ Ha).
    cbn. by rewrite Hw.
Qed.

(** The steps the main goroutine takes alone, on a network. *)
Lemma main_step_hook tp ws d h k :
  local_step 0 (Hook h k) (conc tp ws d) = Some (conc k ws d).
Proof. done. Qed.

Lemma main_step_make_chan tp ws d cap k :
  local_step 0 (MakeChan cap k) (conc tp ws d)
  = Some (conc (k (Chan (length (d_chans d)))) ws (d_alloc_chan cap d)).
Proof. done. Qed.

Lemma main_step_new_wg tp ws d k :
  local_step 0 (NewWaitGroup k) (conc tp ws d)
  = Some (conc (k (length (d_wgs d))) ws (d_alloc_wg d)).
Proof. done. Qed.

Lemma main_step_wg_add tp ws d w n delta k :
  d_wgs d !! w = Some n →
  local_step 0 (WgAdd w delta k) (conc tp ws d)
  = Some (conc k ws (d_set_wg w (n + delta) d)).
Proof. intros Hw. cbn. by rewrite Hw. Qed.

Lemma main_step_go tp ws d (w : worker E) k :
  local_step 0 (Go (wprog w) k) (conc tp ws d)
  = Some (conc k (ws ++ [w]) d).
Proof.
  cbn [local_step]. by rewrite conc_set_main, conc_spawn.
Qed.

Lemma main_step_wait tp ws d w k s' :
  local_step 0 (WgWait w k) (conc tp ws d) = Some s' →
  d_wgs d !! w = Some 0%nat ∧ s' = conc k ws d.
Proof.
  cbn. destruct (d_wgs d !! w) as [[|n]|]; try done.
  by intros [= <-].
Qed.

Lemma main_step_wait_zero tp ws d w k :
  d_wgs d !! w = Some 0%nat →
  local_step 0 (WgWait w k) (conc tp ws d) = Some (conc k ws d).
Proof. intros Hw. cbn. by rewrite Hw. Qed.

Lemma main_step_close tp ws d c ch k :
  d_chans d !! c = Some ch → ch_closed ch = false →
  local_step 0 (Close (Chan c) k) (conc tp ws d)
  = Some (conc k ws (d_set_chan c (ch_close ch) d)).
Proof. intros Hch Hcl. cbn. by rewrite Hch, Hcl. Qed.

Lemma main_step_is_step tp ws d s' :
  d_crashed d = false → local_step 0 tp (conc tp ws d) = Some s' →
  step (conc tp ws d) s'.
Proof. intros Hc Hs. split; [done|]. exists 0%nat. by left. Qed.

Lemma net_measure_set_wg wt ws d w n :
  net_measure wt ws (d_set_wg w n d) = net_measure wt ws d.
Proof. done. Qed.

Lemma net_measure_alloc_wg wt ws d :
  net_measure wt ws (d_alloc_wg d) = net_measure wt ws d.
Proof. done. Qed.

Lemma dones_left_app_one w ws (wk : worker E) :
  dones_left w (ws ++ [wk]) = (dones_left w ws + dones_of w wk)%nat.
Proof. by rewrite !dones_left_eq, sum_list_app_one. Qed.

(** *** Counting on a channel with several senders *)

Lemma sum_list_change {A} (f g : A → nat) (l : list A) j x :
  l !! j = Some x →
  (∀ i y, l !! i = Some y → i ≠ j → g y = f y) →
  (sum_list (g <$> l) + f x = sum_list (f <$> l) + g x)%nat.
Proof.
  revert j. induction l as [|a l IH]; intros [|j] Hj Hext; try done.
  - injection Hj as ->. csimpl.
    assert (g <$> l = f <$> l) as ->; [|lia].
    apply list_fmap_ext. intros i y Hy. by apply (Hext (S i)).
  - csimpl. rewrite (Hext 0%nat a) by done.
    assert (∀ i y, l !! i = Some y → i ≠ j → g y = f y) as Hext'.
    { intros i y Hy Hi. apply (Hext (S i)); [done|lia]. }
    specialize (IH j Hj Hext'). lia.
Qed.

Lemma sum_owed_insert c d ws j sp st st' :
  ws !! j = Some (sp, st) →
  sum_list ((λ w, owed c d w.1) <$> <[j := (sp, st')]> ws)
  = sum_list ((λ w, owed c d w.1) <$> ws).
Proof.
  intros Hj.
  pose proof (sum_list_insert (λ w, owed c d w.1) _ _ _ (sp, st') Hj).
  simpl in *. lia.
Qed.

Lemma owed_ext c d d' sp :
  taken d' (ws_in sp) = taken d (ws_in sp) → owed c d' sp = owed c d sp.
Proof. unfold owed. by intros ->. Qed.

Lemma sum_owed_ext c d d' ws :
  (∀ c', taken d' c' = taken d c') →
  sum_list ((λ w, owed c d' w.1) <$> ws)
  = sum_list ((λ w, owed c d w.1) <$> ws).
Proof.
  intros Ht. f_equal. apply list_fmap_ext. intros i w _.
  by apply owed_ext.
Qed.

Lemma owed_snoc c d d' sp v :
  taken d' (ws_in sp) = taken d (ws_in sp) ++ [v] →
  owed c d' sp = (owed c d sp + length (sends_to c (ws_body sp v)))%nat.
Proof.
  unfold owed. intros ->. by rewrite flat_map_snoc, length_app.
Qed.

Lemma holding_wbody c sp (rem : list (action E)) :
  holding c (sp, wbody rem) = length (sends_to c rem).
Proof. unfold holding. cbn [snd]. by rewrite pend_to_wbody. Qed.

Lemma holding_send c sp c0 v (rem : list (action E)) :
  holding c (sp, WBody (ASend (Chan c0) v :: rem))
  = ((if decide (c0 = c) then 1 else 0) + length (sends_to c rem))%nat.
Proof.
  unfold holding. cbn [snd pend_to]. rewrite sends_to_send.
  by case_decide.
Qed.

(** A receive by worker [a] of [v] from its input. *)
Lemma count_receive c ws d d' a sp :
  ∀ v,
  (∀ i j spi sti spj stj,
     ws !! i = Some (spi, sti) → ws !! j = Some (spj, stj) →
     ws_in spi = ws_in spj → i = j) →
  ws !! a = Some (sp, WHead) →
  (∀ c', taken d' c'
         = if decide (ws_in sp = c') then taken d c' ++ [v]
           else taken d c') →
  (sum_list ((λ w, owed c d' w.1) <$> ws)
   = sum_list ((λ w, owed c d w.1) <$> ws)
     + length (sends_to c (ws_body sp v)))%nat.
Proof.
  intros v Hin Ha Ht.
  assert (∀ i y, ws !! i = Some y → i ≠ a →
                 owed c d' y.1 = owed c d y.1) as Hext.
  { intros i [spi sti] Hi Hne. apply owed_ext. cbn [fst].
    rewrite Ht, decide_False; [done|]. intros Heq. apply Hne.
    symmetry. by eapply Hin. }
  pose proof (sum_list_change (λ w, owed c d w.1) (λ w, owed c d' w.1)
                ws a _ Ha Hext) as Hs.
  cbn [fst] in Hs.
  rewrite (owed_snoc c d d' sp v) in Hs by (by rewrite Ht, decide_True).
  lia.
Qed.

Lemma count_eq_step ws d ws' d' c :
  wtrans ws d ws' d' → bounded d →
  (∀ i j spi sti spj stj,
     ws !! i = Some (spi, sti) → ws !! j = Some (spj, stj) →
     ws_in spi = ws_in spj → i = j) →
  count_eq ws d c → count_eq ws' d' c.
Proof.
  intros Htr Hb Hin Heq. unfold count_eq in *.
  destruct Htr as [a spa ch v rest Ha Hch Hbuf|a spa ch Ha Hch Hbuf Hcl
                 |a spa h rem Ha
                 |a spa c0 v rem ch Ha Hch Hcl Hroom
                 |a spa c0 v rem ch Ha Hch Hcl
                 |a b spa spb c0 v rem ch Ha Hb' Hinb Hab Hch Hcap Hcl
                 |a spa c0 rem ch Ha Hch Hcl
                 |a spa c0 rem ch Ha Hch Hcl
                 |a spa w rem n Ha Hw
                 |a spa w rem Ha Hw]; try exact Heq.
  - (* receive *)
    rewrite (sent_pop _ _ _ _ _ _ Hch Hbuf), (sum_owed_insert _ _ _ _ _ _ _ Ha).
    pose proof (sum_list_insert (holding c) _ _ _
                  (spa, wbody (ws_body spa v)) Ha) as Hh.
    rewrite holding_wbody in Hh. change (holding c (spa, WHead)) with 0%nat in Hh.
    rewrite (count_receive c ws d _ a spa v Hin Ha)
      by (intros c'; apply (taken_pop _ _ _ _ _ _ Hch)).
    lia.
  - (* leaving the loop *)
    rewrite (sum_owed_insert _ _ _ _ _ _ _ Ha).
    pose proof (sum_list_insert (holding c) _ _ _
                  (spa, WTail (ws_tail spa)) Ha) as Hh.
    change (holding c (spa, WHead)) with 0%nat in Hh.
    change (holding c (spa, WTail (ws_tail spa))) with 0%nat in Hh. lia.
  - (* hook *)
    rewrite (sum_owed_insert _ _ _ _ _ _ _ Ha).
    pose proof (sum_list_insert (holding c) _ _ _ (spa, wbody rem) Ha)
      as Hh.
    rewrite holding_wbody in Hh.
    change (holding c (spa, WBody (AHook h :: rem)))
      with (length (sends_to c rem)) in Hh. lia.
  - (* buffered send *)
    rewrite (sum_owed_insert _ _ _ _ _ _ _ Ha).
    rewrite (sum_owed_ext c d) by (intros c'; apply (taken_push _ _ _ _ _ Hch)).
    pose proof (sum_list_insert (holding c) _ _ _ (spa, wbody rem) Ha)
      as Hh.
    rewrite holding_wbody, holding_send in Hh.
    rewrite (sent_push _ _ _ _ _ Hch).
    case_decide; rewrite ?length_app; simpl; lia.
  - (* meeting *)
    assert (<[a := (spa, wbody rem)]> ws !! b = Some (spb, WHead)) as Hb2
      by (by rewrite list_lookup_insert_ne).
    rewrite (sum_owed_insert _ _ _ _ _ _ _ Hb2).
    rewrite (sum_owed_insert _ _ _ _ _ _ _ Ha).
    pose proof (sum_list_insert (holding c) _ _ _
                  (spb, wbody (ws_body spb v)) Hb2) as Hh2.
    pose proof (sum_list_insert (holding c) _ _ _ (spa, wbody rem) Ha)
      as Hh.
    rewrite holding_wbody in Hh2.
    change (holding c (spb, WHead)) with 0%nat in Hh2.
    rewrite holding_wbody, holding_send in Hh.
    rewrite (count_receive c ws d _ b spb v Hin Hb').
    2:{ intros c'. rewrite Hinb. apply (taken_handoff _ _ _ _ _ Hch). }
    rewrite (sent_handoff _ _ _ _ _ Hch
               (bounded_unbuffered _ _ _ Hb Hch Hcap)).
    case_decide; rewrite ?length_app; simpl; lia.
  - (* close *)
    rewrite (sum_owed_insert _ _ _ _ _ _ _ Ha).
    rewrite (sum_owed_ext c d) by (intros c'; apply (taken_close _ _ _ _ Hch)).
    rewrite (sent_close _ _ _ _ Hch).
    pose proof (sum_list_insert (holding c) _ _ _ (spa, WTail rem) Ha)
      as Hh.
    change (holding c (spa, WTail rem)) with 0%nat in Hh.
    change (holding c (spa, WTail (TClose c0 :: rem))) with 0%nat in Hh.
    lia.
  - (* wg.Done() *)
    rewrite (sum_owed_insert _ _ _ _ _ _ _ Ha).
    pose proof (sum_list_insert (holding c) _ _ _ (spa, WTail rem) Ha)
      as Hh.
    change (holding c (spa, WTail rem)) with 0%nat in Hh.
    change (holding c (spa, WTail (TDone w :: rem))) with 0%nat in Hh.
    rewrite (sum_owed_ext c d (d_set_wg w n d)) by done.
    change (sent (d_set_wg w n d) c) with (sent d c). lia.
Qed.

(** *** The order of one worker's sends in the history *)

Lemma filter_snoc_True {A} (P : A → Prop) `{!∀ x, Decision (P x)} l x :
  P x → filter P (l ++ [x]) = filter P l ++ [x].
Proof. intros HP. by rewrite filter_app, filter_cons_True. Qed.

Lemma filter_snoc_False {A} (P : A → Prop) `{!∀ x, Decision (P x)} l x :
  ¬ P x → filter P (l ++ [x]) = filter P l.
Proof.
  intros HP. by rewrite filter_app, filter_cons_False, app_nil_r.
Qed.

Lemma log_eq_step (P : nat → Prop) `{!∀ c, Decision (P c)}
    ws d ws' d' j :
  wtrans ws d ws' d' →
  (∀ i sp c v rem,
     ws !! i = Some (sp, WBody (ASend (Chan c) v :: rem)) → P c → i = j) →
  (∀ sp c v rem,
     ws !! j = Some (sp, WBody (ASend (Chan c) v :: rem)) → P c) →
  (∀ i spi sti spj stj,
     ws !! i = Some (spi, sti) → ws !! j = Some (spj, stj) →
     ws_in spi = ws_in spj → i = j) →
  log_eq P ws d j → log_eq P ws' d' j.
Proof.
  intros Htr Hsend Hown Hrecv Heq sp st' Hj'.
  destruct (wtrans_spec_at _ _ _ _ _ _ _ Htr Hj') as [st Hj].
  specialize (Heq sp st Hj).
  assert (∀ i spi sti, ws !! i = Some (spi, sti) →
                       ws_in spi = ws_in sp → i = j) as Hrecv'
    by (intros; eapply Hrecv; eauto).
  clear Hrecv. rename Hrecv' into Hrecv.
  destruct Htr as [a spa ch v rest Ha Hch Hbuf|a spa ch Ha Hch Hbuf Hcl
                 |a spa h rem Ha
                 |a spa c0 v rem ch Ha Hch Hcl Hroom
                 |a spa c0 v rem ch Ha Hch Hcl
                 |a b spa spb c0 v rem ch Ha Hb' Hin Hab Hch Hcap Hcl
                 |a spa c0 rem ch Ha Hch Hcl
                 |a spa c0 rem ch Ha Hch Hcl
                 |a spa w rem n Ha Hw
                 |a spa w rem Ha Hw].
  - (* receive *)
    rewrite (taken_pop _ _ _ _ _ _ Hch).
    change (d_log (d_set_chan (ws_in spa) (ch_pop v rest ch) d))
      with (d_log d).
    at_worker Hj' j a.
    + injection Hj' as <- <-. rewrite Ha in Hj. injection Hj as <-.
      rewrite decide_True by done.
      rewrite flat_map_snoc, pend_all_wbody, <- Heq. simpl.
      by rewrite app_nil_r.
    + rewrite Hj in Hj'. injection Hj' as <-.
      rewrite decide_False; [done|]. intros Hc. apply n.
      symmetry. by eapply Hrecv.
  - (* leaving the loop *)
    at_worker Hj' j a.
    + injection Hj' as <- <-. rewrite Ha in Hj. by injection Hj as <-.
    + rewrite Hj in Hj'. by injection Hj' as <-.
  - (* hook *)
    at_worker Hj' j a.
    + injection Hj' as <- <-. rewrite Ha in Hj. injection Hj as <-.
      by rewrite pend_all_wbody.
    + rewrite Hj in Hj'. by injection Hj' as <-.
  - (* buffered send *)
    rewrite (taken_push _ _ _ _ _ Hch).
    change (d_log (d_set_chan c0 (ch_push v ch) (d_log_send c0 v d)))
      with (d_log d ++ [(c0, v)]).
    at_worker Hj' j a.
    + injection Hj' as <- <-. rewrite Ha in Hj. injection Hj as <-.
      rewrite filter_snoc_True by (by eapply Hown).
      rewrite pend_all_wbody, <- app_assoc. exact Heq.
    + rewrite Hj in Hj'. injection Hj' as <-.
      rewrite filter_snoc_False; [done|].
      intros HP. apply n. symmetry. by eapply Hsend.
  - (* send on a closed channel *)
    rewrite Hj in Hj'. injection Hj' as <-. exact Heq.
  - (* meeting *)
    rewrite (taken_handoff _ _ _ _ _ Hch).
    change (d_log (d_set_chan c0 (ch_handoff v ch) (d_log_send c0 v d)))
      with (d_log d ++ [(c0, v)]).
    at_worker Hj' j b.
    + (* the receiver *)
      injection Hj' as <- <-. rewrite Hb' in Hj. injection Hj as <-.
      rewrite decide_True by done.
      rewrite filter_snoc_False.
      2:{ intros HP. apply Hab. by eapply Hsend. }
      rewrite flat_map_snoc, pend_all_wbody, <- Heq. simpl.
      by rewrite app_nil_r.
    + rewrite decide_False.
      2:{ intros Hc. apply n. symmetry. eapply Hrecv; [exact Hb'|].
          congruence. }
      at_worker Hj' j a.
      * (* the sender *)
        injection Hj' as <- <-. rewrite Ha in Hj. injection Hj as <-.
        rewrite filter_snoc_True by (by eapply Hown).
        rewrite pend_all_wbody, <- app_assoc. exact Heq.
      * rewrite Hj in Hj'. injection Hj' as <-.
        rewrite filter_snoc_False; [done|].
        intros HP. apply n0. symmetry. by eapply Hsend.
  - (* close *)
    rewrite (taken_close _ _ _ _ Hch).
    change (d_log (d_set_chan c0 (ch_close ch) d)) with (d_log d).
    at_worker Hj' j a.
    + injection Hj' as <- <-. rewrite Ha in Hj. by injection Hj as <-.
    + rewrite Hj in Hj'. by injection Hj' as <-.
  - rewrite Hj in Hj'. injection Hj' as <-. exact Heq.
  - (* wg.Done() *)
    at_worker Hj' j a.
    + injection Hj' as <- <-. rewrite Ha in Hj. by injection Hj as <-.
    + rewrite Hj in Hj'. by injection Hj' as <-.
  - rewrite Hj in Hj'. injection Hj' as <-. exact Heq.
Qed.

(** *** Small facts used by the composites *)

Lemma dones_of_le w ws j (wk : worker E) :
  ws !! j = Some wk → (dones_of w wk ≤ dones_left w ws)%nat.
Proof.
  intros Hj. rewrite dones_left_eq.
  revert j Hj. induction ws as [|a ws IH]; intros [|j] Hj; try done.
  - injection Hj as ->. csimpl. lia.
  - csimpl. specialize (IH j Hj). lia.
Qed.

Lemma chan_eta (ch : chan_state E) :
  ch = mk_chan (ch_cap ch) (ch_buf ch) (ch_closed ch) (ch_taken ch).
Proof. by destruct ch. Qed.

Lemma lookup_chan d c :
  (c < length (d_chans d))%nat →
  d_chans d !! c
  = Some (mk_chan (capacity d c) (queued d c) (closed d c) (taken d c)).
Proof.
  intros Hlt. destruct (lookup_lt_is_Some_2 _ _ Hlt) as [ch Hch].
  unfold capacity, queued, closed, taken. rewrite Hch.
  f_equal. apply chan_eta.
Qed.

Lemma flat_map_one {A B} (f : A → B) (g : A → list B) (l : list A) :
  (∀ x, g x = [f x]) → flat_map g l = f <$> l.
Proof.
  intros Hg. induction l as [|a l IH]; [done|].
  simpl. by rewrite Hg, IH.
Qed.

Lemma sum_list_pos {A} (f : A → nat) (l : list A) :
  sum_list (f <$> l) ≠ 0%nat → ∃ j x, l !! j = Some x ∧ f x ≠ 0%nat.
Proof.
  induction l as [|a l IH]; [done|]. csimpl. intros Hs.
  destruct (decide (f a = 0%nat)) as [Ha|Ha].
  - destruct IH as (j & x & Hj & Hx); [lia|]. by exists (S j), x.
  - by exists 0%nat, a.
Qed.

(** A worker that has returned stays so. *)
Lemma wtrans_returned ws d ws' d' j sp :
  wtrans ws d ws' d' → ws !! j = Some (sp, WTail []) →
  ws' !! j = Some (sp, WTail []).
Proof.
  intros Htr Hj.
  destruct Htr as [a spa ch v rest Ha Hch Hbuf|a spa ch Ha Hch Hbuf Hcl
                 |a spa h rem Ha
                 |a spa c0 v rem ch Ha Hch Hcl Hroom
                 |a spa c0 v rem ch Ha Hch Hcl
                 |a b spa spb c0 v rem ch Ha Hb' Hin Hab Hch Hcap Hcl
                 |a spa c0 rem ch Ha Hch Hcl
                 |a spa c0 rem ch Ha Hch Hcl
                 |a spa w rem n Ha Hw
                 |a spa w rem Ha Hw]; try done;
    rewrite ?list_lookup_insert_ne; try done; congruence.
Qed.

(** Without a sender, a receiver or a closer at work on it, a channel
    keeps its history. *)
Lemma wtrans_sent_same ws d ws' d' c :
  wtrans ws d ws' d' → bounded d →
  (∀ i sp v rem, ws !! i ≠ Some (sp, WBody (ASend (Chan c) v :: rem))) →
  sent d' c = sent d c.
Proof.
  intros Htr Hb Hno.
  destruct (wtrans_sent _ _ _ _ c Htr Hb)
    as [?|(i & sp & v & rem & Hi & _)]; [done|].
  by destruct (Hno i sp v rem).
Qed.

Lemma wtrans_taken_same ws d ws' d' c :
  wtrans ws d ws' d' →
  (∀ i sp, ws !! i = Some (sp, WHead) → ws_in sp ≠ c) →
  taken d' c = taken d c.
Proof.
  intros Htr Hno.
  destruct (wtrans_taken _ _ _ _ c Htr)
    as [?|(i & sp & v & Hi & Hc & _)]; [done|].
  by destruct (Hno i sp Hi).
Qed.

Lemma wtrans_closed_same ws d ws' d' c :
  wtrans ws d ws' d' →
  (∀ i sp rem, ws !! i ≠ Some (sp, WTail (TClose c :: rem))) →
  closed d' c = closed d c.
Proof.
  intros Htr Hno.
  destruct (wtrans_closed _ _ _ _ c Htr)
    as [?|(i & sp & rem & Hi & _)]; [done|].
  by destruct (Hno i sp rem).
Qed.

(** *** The invariants when the main goroutine starts a worker, makes a
    channel or closes one *)

Lemma lookup_snoc_cases {A} (l : list A) (x y : A) j :
  (l ++ [x]) !! j = Some y →
  ((j < length l)%nat ∧ l !! j = Some y) ∨ (j = length l ∧ y = x).
Proof.
  intros Hj. apply lookup_app_Some in Hj as [Hj|[Hge Hj]].
  - left. split; [by eapply lookup_lt_Some|done].
  - right. apply list_lookup_singleton_Some in Hj as [Hj <-].
    split; [lia|done].
Qed.

Lemma chain_eq_spawn ws d j c sp :
  ((j < length ws)%nat → chain_eq ws d j c) →
  (j = length ws → sent d c = [] ∧ taken d (ws_in sp) = []) →
  chain_eq (ws ++ [(sp, WHead)]) d j c.
Proof.
  intros Hold Hnew sp' st' Hj.
  apply lookup_snoc_cases in Hj as [[Hlt Hj]|[Hj [= -> ->]]].
  - by apply Hold.
  - destruct (Hnew Hj) as [-> ->]. done.
Qed.

Lemma closed_by_spawn ws d j c sp :
  ((j < length ws)%nat → closed_by ws d j c) →
  (j = length ws → closed d c = false) →
  closed_by (ws ++ [(sp, WHead)]) d j c.
Proof.
  intros Hold Hnew sp' st' Hj.
  apply lookup_snoc_cases in Hj as [[Hlt Hj]|[Hj [= -> ->]]].
  - exact (Hold Hlt _ _ Hj).
  - rewrite (Hnew Hj). split; [done|]. by intros (rem & ? & _).
Qed.

Lemma log_eq_spawn (P : nat → Prop) `{!∀ c, Decision (P c)} ws d j sp :
  ((j < length ws)%nat → log_eq P ws d j) →
  (j = length ws →
   filter (λ e, P e.1) (d_log d) = [] ∧ taken d (ws_in sp) = []) →
  log_eq P (ws ++ [(sp, WHead)]) d j.
Proof.
  intros Hold Hnew sp' st' Hj.
  apply lookup_snoc_cases in Hj as [[Hlt Hj]|[Hj [= -> ->]]].
  - by apply Hold.
  - destruct (Hnew Hj) as [-> ->]. done.
Qed.

Lemma count_eq_spawn ws d c sp :
  count_eq ws d c → owed c d sp = 0%nat →
  count_eq (ws ++ [(sp, WHead)]) d c.
Proof.
  unfold count_eq. intros Heq H0.
  rewrite !sum_list_app_one. cbn [fst]. rewrite H0.
  change (holding c (sp, WHead)) with 0%nat. lia.
Qed.

Lemma tail_drained_spawn ws d sp :
  tail_drained ws d → tail_drained (ws ++ [(sp, WHead)]) d.
Proof.
  intros Hold j sp' rem Hj.
  apply lookup_snoc_cases in Hj as [[Hlt Hj]|[Hj [=]]].
  by eapply Hold.
Qed.

Lemma owed_no_sends c d sp :
  (∀ v, sends_to c (ws_body sp v) = []) → owed c d sp = 0%nat.
Proof.
  intros Hno. unfold owed.
  induction (taken d (ws_in sp)) as [|v l IH]; [done|].
  simpl. by rewrite Hno.
Qed.

Lemma owed_untaken c d sp : taken d (ws_in sp) = [] → owed c d sp = 0%nat.
Proof. unfold owed. by intros ->. Qed.

Lemma chain_eq_alloc ws d j c cap :
  chain_eq ws d j c → chain_eq ws (d_alloc_chan cap d) j c.
Proof.
  intros Heq sp st Hj. rewrite sent_alloc_chan, taken_alloc_chan.
  by apply Heq.
Qed.

Lemma closed_by_alloc ws d j c cap :
  closed_by ws d j c → closed_by ws (d_alloc_chan cap d) j c.
Proof.
  intros Heq sp st Hj. rewrite closed_alloc_chan. exact (Heq _ _ Hj).
Qed.

Lemma count_eq_alloc ws d c cap :
  count_eq ws d c → count_eq ws (d_alloc_chan cap d) c.
Proof.
  unfold count_eq. intros Heq. rewrite sent_alloc_chan.
  by rewrite (sum_owed_ext c d) by (intros c'; apply taken_alloc_chan).
Qed.

Lemma log_eq_alloc (P : nat → Prop) `{!∀ c, Decision (P c)} ws d j cap :
  log_eq P ws d j → log_eq P ws (d_alloc_chan cap d) j.
Proof.
  intros Heq sp st Hj. rewrite taken_alloc_chan. by apply Heq.
Qed.

Lemma tail_drained_alloc ws d cap :
  tail_drained ws d → tail_drained ws (d_alloc_chan cap d).
Proof.
  intros Hold j sp rem Hj. rewrite closed_alloc_chan, queued_alloc_chan.
  by eapply Hold.
Qed.

Lemma bounded_alloc d cap : bounded d → bounded (d_alloc_chan cap d).
Proof.
  intros Hb c ch Hch. cbn [d_alloc_chan d_chans] in Hch.
  apply lookup_app_Some in Hch as [Hch|[_ Hch]]; [by apply (Hb c)|].
  apply list_lookup_singleton_Some in Hch as [_ <-]. simpl. lia.
Qed.

Lemma queued_close d c0 ch c :
  d_chans d !! c0 = Some ch →
  queued (d_set_chan c0 (ch_close ch) d) c = queued d c.
Proof.
  intros Hch. destruct (decide (c0 = c)) as [<-|Hne].
  - by rewrite (queued_set_chan_eq _ _ _ _ Hch), (queued_lookup _ _ _ Hch).
  - by rewrite queued_set_chan_ne.
Qed.

Lemma closed_close d c0 ch c :
  d_chans d !! c0 = Some ch →
  closed (d_set_chan c0 (ch_close ch) d) c
  = if decide (c0 = c) then true else closed d c.
Proof.
  intros Hch. case_decide as Hc.
  - subst c. by rewrite (closed_set_chan_eq _ _ _ _ Hch).
  - by rewrite closed_set_chan_ne.
Qed.

Lemma chain_eq_close ws d j c c0 ch :
  d_chans d !! c0 = Some ch →
  chain_eq ws d j c → chain_eq ws (d_set_chan c0 (ch_close ch) d) j c.
Proof.
  intros Hch Heq sp st Hj.
  rewrite (sent_close _ _ _ _ Hch), (taken_close _ _ _ _ Hch).
  by apply Heq.
Qed.

Lemma count_eq_close ws d c c0 ch :
  d_chans d !! c0 = Some ch →
  count_eq ws d c → count_eq ws (d_set_chan c0 (ch_close ch) d) c.
Proof.
  unfold count_eq. intros Hch Heq. rewrite (sent_close _ _ _ _ Hch).
  by rewrite (sum_owed_ext c d)
    by (intros c'; apply (taken_close _ _ _ _ Hch)).
Qed.

Lemma log_eq_close (P : nat → Prop) `{!∀ c, Decision (P c)}
    ws d j c0 ch :
  d_chans d !! c0 = Some ch →
  log_eq P ws d j → log_eq P ws (d_set_chan c0 (ch_close ch) d) j.
Proof.
  intros Hch Heq sp st Hj. rewrite (taken_close _ _ _ _ Hch).
  by apply Heq.
Qed.

Lemma closed_by_close ws d j c c0 ch :
  d_chans d !! c0 = Some ch → c0 ≠ c →
  closed_by ws d j c → closed_by ws (d_set_chan c0 (ch_close ch) d) j c.
Proof.
  intros Hch Hne Heq sp st Hj. rewrite closed_set_chan_ne by done.
  exact (Heq _ _ Hj).
Qed.

Lemma tail_drained_close ws d c0 ch :
  d_chans d !! c0 = Some ch →
  tail_drained ws d → tail_drained ws (d_set_chan c0 (ch_close ch) d).
Proof.
  intros Hch Hold j sp rem Hj.
  destruct (Hold _ _ _ Hj) as [Hc Hq].
  rewrite (closed_close _ _ _ _ Hch), (queued_close _ _ _ _ Hch).
  split; [by case_decide|done].
Qed.

Lemma bounded_close d c0 ch :
  d_chans d !! c0 = Some ch → bounded d →
  bounded (d_set_chan c0 (ch_close ch) d).
Proof.
  intros Hch Hb c ch' Hc. destruct (decide (c0 = c)) as [<-|Hne].
  - rewrite (lookup_set_chan_eq _ _ _ _ Hch) in Hc. injection Hc as <-.
    exact (Hb c0 ch Hch).
  - rewrite lookup_set_chan_ne in Hc by done. by apply (Hb c).
Qed.

End Workers.
End NetworkFacts.

(** ** The Sequential composite *)

Module SeqFacts.
Import Ctx Runtime Pipeline Runs Network RuntimeFacts NetworkFacts SeqModel.
Local Open Scope nat_scope.

Section Model.
Context {E : Type}.
Variables (ctx : Context) (chain : string)
  (stages : list (string * (E → E))) (xs : list E) (out_cap : nat).
Hypothesis stages_nonempty : stages ≠ [].
Hypothesis out_room : length xs ≤ out_cap.

Local Abbreviation N := (N stages).
Local Abbreviation leaves := (leaves stages).
Local Abbreviation specs := (specs chain stages).
Local Abbreviation w_in := (w_in stages).
Local Abbreviation w_out := (w_out stages).
Local Abbreviation w_fn := (w_fn stages).
Local Abbreviation main_prog := (main_prog ctx chain stages).
Local Abbreviation seq_inv := (seq_inv chain stages xs out_cap).
Local Abbreviation slice_after := (slice_after stages).
Local Abbreviation loop_from := (loop_from ctx chain stages).
Local Abbreviation after_go := (after_go stages).
Local Abbreviation kid_spec := (@kid_spec E).
Local Abbreviation feeder_spec := (@feeder_spec E chain).
Local Abbreviation drain_spec := (@drain_spec E chain stages).

Implicit Types (ws : list (worker E)) (d : data E) (pc : mpc).

(** *** The stages and their code *)

Lemma N_stages : N = length stages.
Proof. unfold SeqModel.N, SeqModel.leaves. by rewrite length_fmap. Qed.

Lemma N_pos : 0 < N.
Proof. rewrite N_stages. destruct stages; [done|simpl; lia]. Qed.

Lemma specs_length : length specs = N + 2.
Proof.
  unfold SeqModel.specs. rewrite length_app, length_imap, N_stages.
  simpl. lia.
Qed.

Lemma specs_kid k st :
  stages !! k = Some st → specs !! k = Some (kid_spec k st.2).
Proof.
  intros Hk. unfold SeqModel.specs.
  rewrite lookup_app_l by (rewrite length_imap; by eapply lookup_lt_Some).
  by rewrite list_lookup_imap, Hk.
Qed.

Lemma specs_feeder : specs !! N = Some feeder_spec.
Proof.
  unfold SeqModel.specs.
  rewrite lookup_app_r by (rewrite length_imap, N_stages; lia).
  rewrite length_imap, N_stages. by rewrite Nat.sub_diag.
Qed.

Lemma specs_drain : specs !! (N + 1) = Some drain_spec.
Proof.
  unfold SeqModel.specs.
  rewrite lookup_app_r by (rewrite length_imap, N_stages; lia).
  rewrite length_imap, N_stages.
  by replace (length stages + 1 - length stages) with 1 by lia.
Qed.

(** Every worker, by its index. *)
Lemma specs_cases j sp :
  specs !! j = Some sp →
  (∃ st, j < N ∧ stages !! j = Some st ∧ sp = kid_spec j st.2) ∨
  (j = N ∧ sp = feeder_spec) ∨ (j = N + 1 ∧ sp = drain_spec).
Proof.
  intros Hj. pose proof (lookup_lt_Some _ _ _ Hj) as Hlt.
  rewrite specs_length in Hlt.
  destruct (decide (j < N)) as [Hk|Hk].
  - left. rewrite N_stages in Hk.
    destruct (lookup_lt_is_Some_2 stages j Hk) as [st Hst].
    exists st. rewrite N_stages. split; [done|]. split; [done|].
    rewrite (specs_kid _ _ Hst) in Hj. by injection Hj.
  - right. destruct (decide (j = N)) as [->|Hne].
    + left. rewrite specs_feeder in Hj. by injection Hj.
    + right. assert (j = N + 1) as -> by lia.
      rewrite specs_drain in Hj. by injection Hj.
Qed.

Lemma spec_in j sp : specs !! j = Some sp → ws_in sp = w_in j.
Proof.
  intros [(st & Hk & Hst & ->)|[[-> ->]|[-> ->]]]%specs_cases;
    unfold SeqModel.w_in; repeat case_decide; simpl; lia.
Qed.

(** The sends of a loop body: one item, on the worker's output. *)
Lemma spec_sends j sp v c :
  specs !! j = Some sp →
  sends_to c (ws_body sp v)
  = if decide (c = w_out j) then [w_fn j v] else [].
Proof.
  intros [(st & Hk & Hst & ->)|[[-> ->]|[-> ->]]]%specs_cases;
    unfold SeqModel.w_out, SeqModel.w_fn.
  - rewrite Hst. cbn [ws_body SeqModel.kid_spec].
    rewrite sends_to_send.
    repeat case_decide; try done; lia.
  - rewrite (lookup_ge_None_2 stages) by (rewrite N_stages; lia).
    cbn [ws_body SeqModel.feeder_spec].
    rewrite sends_to_hook, sends_to_send.
    repeat case_decide; try done; lia.
  - rewrite (lookup_ge_None_2 stages) by (rewrite N_stages; lia).
    cbn [ws_body SeqModel.drain_spec].
    rewrite sends_to_hook, sends_to_send.
    repeat case_decide; try done; lia.
Qed.

Lemma spec_body_actions j sp v a :
  specs !! j = Some sp → a ∈ ws_body sp v →
  (∃ h, a = AHook h) ∨ a = ASend (Chan (w_out j)) (w_fn j v).
Proof.
  intros [(st & Hk & Hst & ->)|[[-> ->]|[-> ->]]]%specs_cases Ha;
    unfold SeqModel.w_out, SeqModel.w_fn; simpl in Ha.
  - rewrite Hst. apply list_elem_of_singleton in Ha as ->. right.
    repeat case_decide; try done; lia.
  - rewrite (lookup_ge_None_2 stages) by (rewrite N_stages; lia).
    apply elem_of_cons in Ha as [->|Ha]; [left; eauto|].
    apply list_elem_of_singleton in Ha as ->. right.
    repeat case_decide; try done; lia.
  - rewrite (lookup_ge_None_2 stages) by (rewrite N_stages; lia).
    apply elem_of_cons in Ha as [->|Ha]; [left; eauto|].
    apply list_elem_of_singleton in Ha as ->. right.
    repeat case_decide; try done; lia.
Qed.

Lemma spec_tail j sp :
  specs !! j = Some sp →
  ws_tail sp = if decide (j ≤ N) then [TClose (w_out j); TDone 0]
               else [TDone 0].
Proof.
  intros [(st & Hk & Hst & ->)|[[-> ->]|[-> ->]]]%specs_cases;
    unfold SeqModel.w_out; simpl; repeat case_decide; try done; try lia.
Qed.

Lemma w_out_inj i j : i ≤ N + 1 → j ≤ N + 1 → w_out i = w_out j → i = j.
Proof. unfold SeqModel.w_out. repeat case_decide; lia. Qed.

Lemma w_in_inj i j : i ≤ N + 1 → j ≤ N + 1 → w_in i = w_in j → i = j.
Proof. unfold SeqModel.w_in. repeat case_decide; lia. Qed.

Lemma w_in_out i : w_in i ≠ w_out i.
Proof. unfold SeqModel.w_in, SeqModel.w_out. repeat case_decide; lia. Qed.

(** *** What the invariant says about a worker *)

Lemma nspawned_le pc : pc_ok stages pc → nspawned stages pc ≤ N + 2.
Proof. destruct pc; simpl; lia. Qed.

Lemma inv_length pc ws d : seq_inv pc ws d → length ws = nspawned stages pc.
Proof.
  intros Hinv. pose proof (si_specs _ _ _ _ _ _ _ Hinv) as Hs.
  apply (f_equal length) in Hs. rewrite length_fmap, length_take in Hs.
  pose proof (nspawned_le _ (si_pc _ _ _ _ _ _ _ Hinv)).
  rewrite specs_length in Hs. lia.
Qed.

Lemma inv_spec pc ws d j sp st :
  seq_inv pc ws d → ws !! j = Some (sp, st) →
  specs !! j = Some sp ∧ j < length ws ∧ j ≤ N + 1.
Proof.
  intros Hinv Hj. pose proof (si_specs _ _ _ _ _ _ _ Hinv) as Hs.
  apply (f_equal (λ l, l !! j)) in Hs.
  rewrite list_lookup_fmap, Hj in Hs. simpl in Hs. symmetry in Hs.
  apply lookup_take_Some in Hs as [Hs Hlt]. split; [done|].
  split; [by eapply lookup_lt_Some|].
  apply lookup_lt_Some in Hs. rewrite specs_length in Hs. lia.
Qed.

Lemma inv_wvalid pc ws d j sp st :
  seq_inv pc ws d → ws !! j = Some (sp, st) → wvalid (sp, st).
Proof.
  intros Hinv Hj.
  by eapply (Forall_lookup_1 _ _ _ _ (si_valid _ _ _ _ _ _ _ Hinv)).
Qed.

(** A worker sends on its own output only. *)
Lemma sender_chan pc ws d i sp c v rem :
  seq_inv pc ws d →
  ws !! i = Some (sp, WBody (ASend (Chan c) v :: rem)) → c = w_out i.
Proof.
  intros Hinv Hi. destruct (inv_spec _ _ _ _ _ _ Hinv Hi) as (Hsp & _ & _).
  pose proof (inv_wvalid _ _ _ _ _ _ Hinv Hi) as Hv.
  destruct Hv as [_ [v' Hsuf]]. simpl in Hsuf.
  assert (ASend (Chan c) v ∈ ws_body sp v') as Hin.
  { destruct Hsuf as [k ->]. apply elem_of_app. right. left. }
  apply (spec_body_actions _ _ _ _ Hsp) in Hin as [[h ?]|Heq]; [done|].
  by injection Heq.
Qed.

(** A worker closes its own output only, and the drain closes
    nothing. *)
Lemma closer_chan pc ws d i sp c rem :
  seq_inv pc ws d →
  ws !! i = Some (sp, WTail (TClose c :: rem)) → c = w_out i ∧ i ≤ N.
Proof.
  intros Hinv Hi. destruct (inv_spec _ _ _ _ _ _ Hinv Hi) as (Hsp & _ & _).
  pose proof (inv_wvalid _ _ _ _ _ _ Hinv Hi) as Hv.
  unfold wvalid in Hv. simpl in Hv. rewrite (spec_tail _ _ Hsp) in Hv.
  assert (TClose c ∈ (if decide (i ≤ N)
                      then [TClose (w_out i); TDone 0] else [TDone 0]))
    as Hin.
  { destruct Hv as [k ->]. apply elem_of_app. right. left. }
  case_decide.
  - apply elem_of_cons in Hin as [[= ->]|Hin]; [done|].
    by apply list_elem_of_singleton in Hin.
  - by apply list_elem_of_singleton in Hin.
Qed.

Lemma doner_wg pc ws d i sp w rem :
  seq_inv pc ws d →
  ws !! i = Some (sp, WTail (TDone w :: rem)) → w = 0.
Proof.
  intros Hinv Hi. destruct (inv_spec _ _ _ _ _ _ Hinv Hi) as (Hsp & _ & _).
  pose proof (inv_wvalid _ _ _ _ _ _ Hinv Hi) as Hv.
  unfold wvalid in Hv. simpl in Hv. rewrite (spec_tail _ _ Hsp) in Hv.
  assert (TDone w ∈ (if decide (i ≤ N)
                     then [TClose (w_out i); TDone 0] else [TDone 0]))
    as Hin.
  { destruct Hv as [k ->]. apply elem_of_app. right. left. }
  case_decide.
  - apply elem_of_cons in Hin as [?|Hin]; [done|].
    apply list_elem_of_singleton in Hin. by injection Hin.
  - apply list_elem_of_singleton in Hin. by injection Hin.
Qed.


(** No step of the workers panics. *)
Lemma seq_no_crash pc ws d ws' d' :
  seq_inv pc ws d → wtrans ws d ws' d' → d_crashed d' = false.
Proof.
  intros Hinv Htr. pose proof (si_crashed _ _ _ _ _ _ _ Hinv) as Hc.
  destruct Htr as [a spa ch v rest Ha Hch Hbuf|a spa ch Ha Hch Hbuf Hcl
                 |a spa h rem Ha
                 |a spa c0 v rem ch Ha Hch Hcl Hroom
                 |a spa c0 v rem ch Ha Hch Hcl
                 |a b spa spb c0 v rem ch Ha Hb' Hin Hab Hch Hcap Hcl
                 |a spa c0 rem ch Ha Hch Hcl
                 |a spa c0 rem ch Ha Hch Hcl
                 |a spa w0 rem n Ha Hw
                 |a spa w0 rem Ha Hw]; try done; exfalso.
  - (* send on a closed channel *)
    pose proof (sender_chan _ _ _ _ _ _ _ _ Hinv Ha) as ->.
    destruct (inv_spec _ _ _ _ _ _ Hinv Ha) as (Hsp & Hlt & Hle).
    destruct (decide (a ≤ N)) as [HaN|HaN].
    + pose proof (si_closed _ _ _ _ _ _ _ Hinv a Hlt HaN _ _ Ha) as Hcb.
      rewrite (closed_lookup _ _ ch) in Hcb by done.
      apply Hcb in Hcl as (r & Hr & _). done.
    + assert (w_out a = 1) as Hout
        by (unfold SeqModel.w_out; repeat case_decide; lia).
      rewrite Hout in Hch.
      destruct (si_output _ _ _ _ _ _ _ Hinv) as (outq & Ho).
      rewrite Ho in Hch. injection Hch as <-. simpl in Hcl.
      apply bool_decide_eq_true in Hcl as ->.
      by pose proof (si_done _ _ _ _ _ _ _ Hinv eq_refl _ _ _ Ha).
  - (* close of a closed channel *)
    destruct (closer_chan _ _ _ _ _ _ _ Hinv Ha) as [-> HaN].
    destruct (inv_spec _ _ _ _ _ _ Hinv Ha) as (Hsp & Hlt & Hle).
    pose proof (si_closed _ _ _ _ _ _ _ Hinv a Hlt HaN _ _ Ha) as Hcb.
    rewrite (closed_lookup _ _ ch) in Hcb by done.
    apply Hcb in Hcl as (r & [= <-] & Hr). apply Hr. left.
  - (* negative counter *)
    pose proof (doner_wg _ _ _ _ _ _ _ Hinv Ha) as ->.
    pose proof (si_wgs _ _ _ _ _ _ _ Hinv) as Hwg.
    destruct (before_wg pc); rewrite Hwg in Hw; [done|].
    injection Hw as Hw.
    pose proof (dones_of_le 0 _ _ _ Ha) as Hle.
    rewrite dones_of_tail_done in Hle. simpl in Hle. lia.
Qed.



(** Nobody but the sender of a channel changes what was sent on it, and
    so on for receivers and closers. *)
Lemma seq_sent_frame pc ws d ws' d' c :
  seq_inv pc ws d → wtrans ws d ws' d' →
  (∀ i, i < length ws → w_out i ≠ c) → sent d' c = sent d c.
Proof.
  intros Hinv Htr Hno.
  destruct (wtrans_sent _ _ _ _ c Htr (si_bounded _ _ _ _ _ _ _ Hinv))
    as [?|(i & sp & v & rem & Hi & _)]; [done|].
  pose proof (sender_chan _ _ _ _ _ _ _ _ Hinv Hi) as Hc.
  destruct (inv_spec _ _ _ _ _ _ Hinv Hi) as (_ & Hlt & _).
  by destruct (Hno i Hlt).
Qed.

Lemma seq_taken_frame pc ws d ws' d' c :
  seq_inv pc ws d → wtrans ws d ws' d' →
  (∀ i, i < length ws → w_in i ≠ c) → taken d' c = taken d c.
Proof.
  intros Hinv Htr Hno.
  destruct (wtrans_taken _ _ _ _ c Htr)
    as [?|(i & sp & v & Hi & Hc & _)]; [done|].
  destruct (inv_spec _ _ _ _ _ _ Hinv Hi) as (Hsp & Hlt & _).
  rewrite (spec_in _ _ Hsp) in Hc. by destruct (Hno i Hlt).
Qed.

Lemma seq_closed_frame pc ws d ws' d' c :
  seq_inv pc ws d → wtrans ws d ws' d' →
  (∀ i, i < length ws → i ≤ N → w_out i ≠ c) → closed d' c = closed d c.
Proof.
  intros Hinv Htr Hno.
  destruct (wtrans_closed _ _ _ _ c Htr)
    as [?|(i & sp & rem & Hi & _)]; [done|].
  destruct (closer_chan _ _ _ _ _ _ _ Hinv Hi) as [Hc HiN].
  destruct (inv_spec _ _ _ _ _ _ Hinv Hi) as (_ & Hlt & _).
  by destruct (Hno i Hlt HiN).
Qed.

(** The invariant holds after every step of the workers. *)
Lemma seq_inv_wtrans pc ws d ws' d' :
  seq_inv pc ws d → wtrans ws d ws' d' → seq_inv pc ws' d'.
Proof.
  intros Hinv Htr.
  pose proof (seq_no_crash _ _ _ _ _ Hinv Htr) as Hcrash.
  pose proof (wtrans_length _ _ _ _ Htr) as Hlen.
  pose proof (wtrans_chans_length _ _ _ _ Htr) as Hclen.
  pose proof (si_nchans _ _ _ _ _ _ _ Hinv) as Hn.
  assert (2 ≤ nchans stages pc) as Hn2 by (destruct pc; simpl; lia).
  constructor.
  - done.
  - apply Hinv.
  - rewrite (wtrans_specs _ _ _ _ Htr). apply Hinv.
  - eapply wtrans_valid; [done|apply Hinv].
  - eapply wtrans_bounded; [done|apply Hinv].
  - by rewrite Hclen.
  - (* the input *)
    destruct (si_input _ _ _ _ _ _ _ Hinv) as (tin & inq & Hch & Hxs).
    exists (taken d' 0), (queued d' 0).
    rewrite (lookup_chan d' 0) by lia.
    rewrite (wtrans_capacity _ _ _ _ 0 Htr).
    rewrite (wtrans_closed_mono _ _ _ _ 0 Htr)
      by (by rewrite (closed_lookup _ _ _ Hch)).
    unfold capacity. rewrite Hch. simpl. split; [done|].
    change (taken d' 0 ++ queued d' 0) with (sent d' 0).
    rewrite (seq_sent_frame _ _ _ _ _ 0 Hinv Htr).
    + by rewrite (sent_lookup _ _ _ Hch).
    + intros i _. unfold SeqModel.w_out. repeat case_decide; lia.
  - (* the output *)
    destruct (si_output _ _ _ _ _ _ _ Hinv) as (outq & Hch).
    exists (queued d' 1).
    rewrite (lookup_chan d' 1) by lia.
    rewrite (wtrans_capacity _ _ _ _ 1 Htr).
    rewrite (seq_taken_frame _ _ _ _ _ 1 Hinv Htr)
      by (intros i _; unfold SeqModel.w_in; repeat case_decide; lia).
    rewrite (seq_closed_frame _ _ _ _ _ 1 Hinv Htr)
      by (intros i _ ?; unfold SeqModel.w_out; repeat case_decide; lia).
    unfold capacity, taken, closed. by rewrite Hch.
  - (* the unbuffered channels *)
    intros c ch Hc Hch.
    pose proof (wtrans_capacity _ _ _ _ c Htr) as Hcap.
    unfold capacity in Hcap. rewrite Hch in Hcap.
    pose proof (lookup_lt_Some _ _ _ Hch) as Hlt. rewrite Hclen in Hlt.
    destruct (lookup_lt_is_Some_2 _ _ Hlt) as [ch0 Hch0].
    rewrite Hch0 in Hcap. rewrite Hcap.
    by eapply (si_internal _ _ _ _ _ _ _ Hinv).
  - (* the wait group *)
    pose proof (si_wgs _ _ _ _ _ _ _ Hinv) as Hwg.
    pose proof (wtrans_wgs_length _ _ _ _ Htr) as Hwl.
    destruct (before_wg pc).
    + rewrite Hwg in Hwl. by destruct (d_wgs d').
    + rewrite Hwg in Hwl. simpl in Hwl.
      destruct (d_wgs d') as [|x [|]] eqn:Hd'; try done. f_equal.
      destruct (wtrans_dones _ _ _ _ 0 Htr) as [[Hd Hw]|(n & Hw & Hw' & Hd)].
      * rewrite Hwg, Hd' in Hw. simpl in Hw. injection Hw as ->. lia.
      * rewrite Hwg in Hw. rewrite Hd' in Hw'. simpl in Hw, Hw'.
        injection Hw as Hw. injection Hw' as ->. lia.
  - (* what each worker has sent *)
    intros j Hj. rewrite Hlen in Hj.
    eapply chain_eq_step; [done|apply Hinv| | | |].
    + intros i sp v rem Hi.
      pose proof (sender_chan _ _ _ _ _ _ _ _ Hinv Hi) as Hc.
      destruct (inv_spec _ _ _ _ _ _ Hinv Hi) as (_ & Hlt & Hle).
      apply w_out_inj; [done| |done].
      pose proof (inv_length _ _ _ Hinv).
      pose proof (nspawned_le _ (si_pc _ _ _ _ _ _ _ Hinv)). lia.
    + intros i spi sti spj stj Hi Hj' Hin.
      destruct (inv_spec _ _ _ _ _ _ Hinv Hi) as (Hspi & _ & Hle).
      destruct (inv_spec _ _ _ _ _ _ Hinv Hj') as (Hspj & _ & Hle').
      rewrite (spec_in _ _ Hspi), (spec_in _ _ Hspj) in Hin.
      by apply w_in_inj.
    + intros sp st Hj'.
      destruct (inv_spec _ _ _ _ _ _ Hinv Hj') as (Hsp & _ & _).
      rewrite (spec_in _ _ Hsp). apply w_in_out.
    + by apply (si_chain _ _ _ _ _ _ _ Hinv).
  - (* who has closed what *)
    intros j Hj HjN. rewrite Hlen in Hj.
    eapply closed_by_step; [done| | |].
    + intros i sp rem Hi.
      destruct (closer_chan _ _ _ _ _ _ _ Hinv Hi) as [Hc HiN].
      apply w_out_inj; [lia|lia|done].
    + intros sp st Hj'.
      destruct (inv_spec _ _ _ _ _ _ Hinv Hj') as (Hsp & _ & _).
      split; [by eapply inv_wvalid|].
      rewrite (spec_tail _ _ Hsp), decide_True by done. split.
      * apply NoDup_cons. split; [|apply NoDup_singleton].
        by intros ?%list_elem_of_singleton.
      * left.
    + by apply (si_closed _ _ _ _ _ _ _ Hinv).
  - eapply tail_drained_step; [done|apply Hinv].
  - (* channels whose sender is not started *)
    intros j Hj HjN. rewrite Hlen in Hj.
    destruct (si_unsent _ _ _ _ _ _ _ Hinv j Hj HjN) as [Hs Hc].
    split.
    + rewrite (seq_sent_frame _ _ _ _ _ _ Hinv Htr); [done|].
      intros i Hi Heq. apply w_out_inj in Heq; lia.
    + rewrite (seq_closed_frame _ _ _ _ _ _ Hinv Htr); [done|].
      intros i Hi _ Heq. apply w_out_inj in Heq; lia.
  - (* channels whose receiver is not started *)
    intros j Hj HjN. rewrite Hlen in Hj.
    rewrite (seq_taken_frame _ _ _ _ _ _ Hinv Htr).
    + by apply (si_untaken _ _ _ _ _ _ _ Hinv).
    + intros i Hi Heq. apply w_in_inj in Heq; lia.
  - (* after the join nothing moves *)
    intros Haw. exfalso.
    destruct (wtrans_active _ _ _ _ Htr) as (j & sp & st & Hj & Hst).
    by pose proof (si_done _ _ _ _ _ _ _ Hinv Haw _ _ _ Hj).
Qed.

(** *** The code of the main goroutine, position by position *)

Lemma slice_after_length k : k ≤ N → length (slice_after k) = N.
Proof.
  intros Hk. unfold SeqModel.slice_after.
  rewrite length_app, length_fmap, length_seq, length_replicate. lia.
Qed.

Lemma slice_after_0 : slice_after 0 = make_slice N.
Proof.
  unfold SeqModel.slice_after, make_slice. simpl.
  by rewrite Nat.sub_0_r.
Qed.

Lemma slice_set_after k :
  k < N → slice_set (slice_after k) k (Chan (3 + k))
          = Some (slice_after (S k)).
Proof.
  intros Hk. unfold slice_set.
  rewrite decide_True by (rewrite slice_after_length; lia). f_equal.
  unfold SeqModel.slice_after.
  rewrite insert_app_r_alt by (rewrite length_fmap, length_seq; lia).
  rewrite length_fmap, length_seq, Nat.sub_diag.
  replace (N - k) with (S (N - S k)) by lia.
  rewrite seq_S, fmap_app, <- app_assoc. done.
Qed.

Lemma slice_get_after k :
  slice_get (slice_after (S k)) k = Some (Chan (3 + k)).
Proof.
  unfold slice_get, SeqModel.slice_after.
  rewrite lookup_app_l by (rewrite length_fmap, length_seq; lia).
  rewrite list_lookup_fmap, lookup_seq_lt by lia. done.
Qed.

Lemma leaves_lookup k st : stages !! k = Some st → leaves !! k = Some (leaf st).
Proof. intros Hk. unfold SeqModel.leaves. by rewrite list_lookup_fmap, Hk. Qed.

Lemma stage_at k : k < N → ∃ st, stages !! k = Some st.
Proof. rewrite N_stages. apply lookup_lt_is_Some_2. Qed.

Lemma leaf_at_stage k st : stages !! k = Some st → leaf_at stages k = leaf st.
Proof.
  intros Hk. unfold SeqModel.leaf_at.
  by apply nth_lookup_Some, leaves_lookup.
Qed.

Lemma leaves_drop k :
  k < N → drop k leaves = leaf_at stages k :: drop (S k) leaves.
Proof.
  intros Hk. destruct (stage_at k Hk) as [st Hst].
  rewrite (leaf_at_stage _ _ Hst). apply drop_S. by apply leaves_lookup.
Qed.

Lemma main_prog_entry :
  main_prog MEntry
  = MakeChan 0 (λ procInput,
      MakeChan 0
        (sequential_iteration (exec ctx) 0 (leaf_at stages 0) 0
           (slice_after 0)
           (λ outs,
              sequential_spawn (exec ctx) 0 (drop 1 leaves) 1 outs
                procInput (finish chain stages))
           procInput)).
Proof.
  cbn [SeqModel.main_prog]. rewrite slice_after_0.
  pose proof (leaves_drop 0 N_pos) as Hl. rewrite drop_0 in Hl.
  by rewrite Hl.
Qed.

Lemma loop_from_next k :
  S k < N → loop_from (S k) = main_prog (MOut (S k)).
Proof.
  intros Hk. unfold SeqModel.loop_from.
  rewrite (leaves_drop (S k) Hk). cbn [sequential_spawn].
  by rewrite slice_get_after.
Qed.

Lemma loop_from_end : loop_from N = main_prog MAddFeeder.
Proof.
  unfold SeqModel.loop_from.
  rewrite drop_ge by (by unfold SeqModel.N). done.
Qed.

Lemma loop_from_after_go k :
  k < N → loop_from (S k) = main_prog (after_go k).
Proof.
  intros Hk. unfold SeqModel.after_go. case_decide.
  - by apply loop_from_next.
  - assert (S k = N) as -> by lia. apply loop_from_end.
Qed.

Lemma child_call_wprog k st :
  stages !! k = Some st →
  child_call ctx stages k = wprog (kid_spec k st.2, WHead).
Proof.
  intros Hk. unfold SeqModel.child_call. by rewrite (leaf_at_stage _ _ Hk).
Qed.

Lemma feeder_wprog :
  sequential_feeder (self chain) 0 input (Chan 2)
  = wprog (feeder_spec, WHead).
Proof. done. Qed.

Lemma drain_call_wprog :
  drain_call chain stages = wprog (drain_spec, WHead).
Proof.
  pose proof N_pos as HN. pose proof (slice_get_after (N - 1)) as Hg.
  replace (S (N - 1)) with N in Hg by lia.
  replace (3 + (N - 1)) with (2 + N) in Hg by lia.
  unfold SeqModel.drain_call, sequential_drain.
  by rewrite Hg.
Qed.

Lemma iteration_step k :
  k < N →
  sequential_iteration (exec ctx) 0 (leaf_at stages k) k (slice_after k)
    (λ outs,
       sequential_spawn (exec ctx) 0 (drop (S k) leaves) (S k) outs
         (Chan 2) (finish chain stages))
    (Chan (2 + k)) (Chan (3 + k))
  = main_prog (MAdd k).
Proof.
  intros Hk. unfold sequential_iteration. by rewrite slice_set_after.
Qed.

(** *** The invariant under the steps of the main goroutine *)

(** Steps that touch neither a channel nor a worker. *)
Lemma seq_inv_same_chans pc pc' ws d d' :
  seq_inv pc ws d → d_chans d' = d_chans d → d_crashed d' = false →
  pc_ok stages pc' → nspawned stages pc' = nspawned stages pc →
  nchans stages pc' = nchans stages pc → pc ≠ MRet → pc' ≠ MRet →
  d_wgs d' = (if before_wg pc' then []
              else [dones_left 0 ws + pending pc']) →
  (after_wait pc' = true →
   ∀ j sp st, ws !! j = Some (sp, st) → st = WTail []) →
  seq_inv pc' ws d'.
Proof.
  intros Hinv Hch Hcr Hok Hns Hnc Hne Hne' Hwg Hdone.
  destruct d as [chs wg cr lg], d' as [chs' wg' cr' lg'].
  simpl in Hch, Hcr, Hwg. subst chs' cr'.
  destruct Hinv as [H1 H2 H3 H4 H5 H6 H7 H8 H9 H10 H11 H12 H13 H14 H15 H16].
  constructor; try done.
  - by rewrite Hns.
  - simpl in *. by rewrite Hnc.
  - destruct H8 as [outq H8]. exists outq.
    rewrite bool_decide_eq_false_2 in H8 by done.
    by rewrite bool_decide_eq_false_2 by done.
Qed.

Lemma spec_dones j sp : specs !! j = Some sp → dones_of 0 (sp, WHead) = 1.
Proof.
  intros Hsp. unfold dones_of, rtail. cbn [fst snd].
  rewrite (spec_tail _ _ Hsp). by case_decide.
Qed.

(** [go]: the next goroutine is started. *)
Lemma seq_inv_spawn pc pc' ws d sp :
  seq_inv pc ws d → specs !! (length ws) = Some sp →
  pc_ok stages pc' → nspawned stages pc' = S (nspawned stages pc) →
  nchans stages pc' = nchans stages pc → pc ≠ MRet → pc' ≠ MRet →
  before_wg pc = false → before_wg pc' = false →
  pending pc = 1 → pending pc' = 0 → after_wait pc' = false →
  seq_inv pc' (ws ++ [(sp, WHead)]) d.
Proof.
  intros Hinv Hsp Hok Hns Hnc Hne Hne' Hb Hb' Hp Hp' Haw.
  pose proof (inv_length _ _ _ Hinv) as Hlen.
  pose proof (lookup_lt_Some _ _ _ Hsp) as HltN.
  rewrite specs_length in HltN.
  constructor.
  - apply Hinv.
  - done.
  - rewrite fmap_app, Hns, (si_specs _ _ _ _ _ _ _ Hinv). cbn [fmap list_fmap fst].
    rewrite Hlen in Hsp. by rewrite (take_S_r _ _ _ Hsp).
  - apply Forall_app. split; [apply Hinv|]. by apply Forall_singleton.
  - apply Hinv.
  - rewrite Hnc. apply Hinv.
  - apply Hinv.
  - destruct (si_output _ _ _ _ _ _ _ Hinv) as [outq Ho]. exists outq.
    rewrite bool_decide_eq_false_2 in Ho by done.
    by rewrite bool_decide_eq_false_2 by done.
  - apply Hinv.
  - rewrite (si_wgs _ _ _ _ _ _ _ Hinv), Hb, Hb', Hp, Hp'.
    rewrite dones_left_app_one, (spec_dones _ _ Hsp). f_equal. lia.
  - intros j Hj. rewrite length_app in Hj. cbn [length] in Hj.
    intros sp' st' Hj'.
    destruct (decide (j < length ws)) as [Hlt|Hnlt].
    + rewrite lookup_app_l in Hj' by done.
      by apply (si_chain _ _ _ _ _ _ _ Hinv j Hlt).
    + assert (j = length ws) as -> by lia.
      rewrite lookup_app_r, Nat.sub_diag in Hj' by done.
      injection Hj' as <- <-. cbn [pend_to].
      destruct (si_unsent _ _ _ _ _ _ _ Hinv (length ws)) as [Hs _];
        [done|lia|].
      rewrite Hs, (spec_in _ _ Hsp).
      by rewrite (si_untaken _ _ _ _ _ _ _ Hinv (length ws)) by lia.
  - intros j Hj HjN. rewrite length_app in Hj. cbn [length] in Hj.
    intros sp' st' Hj'.
    destruct (decide (j < length ws)) as [Hlt|Hnlt].
    + rewrite lookup_app_l in Hj' by done.
      exact (si_closed _ _ _ _ _ _ _ Hinv j Hlt HjN _ _ Hj').
    + assert (j = length ws) as -> by lia.
      rewrite lookup_app_r, Nat.sub_diag in Hj' by done.
      injection Hj' as <- <-.
      destruct (si_unsent _ _ _ _ _ _ _ Hinv (length ws)) as [_ Hc];
        [done|lia|].
      rewrite Hc. split; [done|]. by intros (rem & ? & _).
  - intros j sp' rem Hj.
    destruct (decide (j < length ws)) as [Hlt|Hnlt].
    + rewrite lookup_app_l in Hj by done.
      by eapply (si_drained _ _ _ _ _ _ _ Hinv).
    + apply lookup_lt_Some in Hj as Hjlt.
      rewrite length_app in Hjlt. cbn [length] in Hjlt.
      assert (j = length ws) as -> by lia.
      rewrite lookup_app_r, Nat.sub_diag in Hj by done. done.
  - intros j Hj HjN. rewrite length_app in Hj.
    apply (si_unsent _ _ _ _ _ _ _ Hinv); lia.
  - intros j Hj HjN. rewrite length_app in Hj.
    apply (si_untaken _ _ _ _ _ _ _ Hinv); lia.
  - by rewrite Haw.
Qed.

(** [make(chan E)]: one more unbuffered channel. *)
Lemma seq_inv_alloc_chan pc pc' ws d :
  seq_inv pc ws d → pc_ok stages pc' →
  nspawned stages pc' = nspawned stages pc →
  nchans stages pc' = S (nchans stages pc) → pc ≠ MRet → pc' ≠ MRet →
  before_wg pc' = before_wg pc → pending pc' = pending pc →
  after_wait pc' = false →
  seq_inv pc' ws (d_alloc_chan 0 d).
Proof.
  intros Hinv Hok Hns Hnc Hne Hne' Hb Hp Haw.
  pose proof (si_nchans _ _ _ _ _ _ _ Hinv) as Hn.
  assert (2 ≤ nchans stages pc) as Hn2 by (destruct pc; simpl; lia).
  constructor.
  - apply Hinv.
  - done.
  - rewrite Hns. apply Hinv.
  - apply Hinv.
  - intros c ch Hch. cbn [d_alloc_chan d_chans] in Hch.
    apply lookup_app_Some in Hch as [Hch|[_ Hch]].
    + by apply (si_bounded _ _ _ _ _ _ _ Hinv c).
    + apply list_lookup_singleton_Some in Hch as [_ <-]. simpl. lia.
  - cbn [d_alloc_chan d_chans]. rewrite length_app, Hnc, Hn. simpl. lia.
  - destruct (si_input _ _ _ _ _ _ _ Hinv) as (tin & inq & Hch & Hxs).
    exists tin, inq. split; [|done]. cbn [d_alloc_chan d_chans].
    by rewrite lookup_app_l by lia.
  - destruct (si_output _ _ _ _ _ _ _ Hinv) as [outq Ho]. exists outq.
    cbn [d_alloc_chan d_chans]. rewrite lookup_app_l by lia.
    rewrite bool_decide_eq_false_2 in Ho by done.
    by rewrite bool_decide_eq_false_2 by done.
  - intros c ch Hc Hch. cbn [d_alloc_chan d_chans] in Hch.
    apply lookup_app_Some in Hch as [Hch|[_ Hch]].
    + by apply (si_internal _ _ _ _ _ _ _ Hinv c).
    + by apply list_lookup_singleton_Some in Hch as [_ <-].
  - rewrite Hb, Hp. apply Hinv.
  - intros j Hj sp st Hw. rewrite sent_alloc_chan, taken_alloc_chan.
    by apply (si_chain _ _ _ _ _ _ _ Hinv j Hj).
  - intros j Hj HjN sp st Hw. rewrite closed_alloc_chan.
    exact (si_closed _ _ _ _ _ _ _ Hinv j Hj HjN _ _ Hw).
  - intros j sp rem Hw. rewrite closed_alloc_chan, queued_alloc_chan.
    by eapply (si_drained _ _ _ _ _ _ _ Hinv).
  - intros j Hj HjN. rewrite sent_alloc_chan, closed_alloc_chan.
    by apply (si_unsent _ _ _ _ _ _ _ Hinv).
  - intros j Hj HjN. rewrite taken_alloc_chan.
    by apply (si_untaken _ _ _ _ _ _ _ Hinv).
  - by rewrite Haw.
Qed.

(** [close(output)], the last statement of [Execute]. *)
Lemma seq_inv_close_output ws d ch :
  seq_inv MClose ws d → d_chans d !! 1 = Some ch →
  seq_inv MRet ws (d_set_chan 1 (ch_close ch) d).
Proof.
  intros Hinv Hch.
  pose proof (inv_length _ _ _ Hinv) as Hlen. cbn [nspawned] in Hlen.
  assert (∀ j sp st, ws !! j = Some (sp, st) → ws_in sp ≠ 1) as Hin.
  { intros j sp st Hj.
    destruct (inv_spec _ _ _ _ _ _ Hinv Hj) as (Hsp & _ & _).
    rewrite (spec_in _ _ Hsp). unfold SeqModel.w_in.
    repeat case_decide; lia. }
  constructor.
  - apply Hinv.
  - done.
  - apply Hinv.
  - apply Hinv.
  - intros c ch' Hc. destruct (decide (c = 1)) as [->|Hne].
    + rewrite (lookup_set_chan_eq _ _ _ _ Hch) in Hc. injection Hc as <-.
      exact (si_bounded _ _ _ _ _ _ _ Hinv 1 ch Hch).
    + rewrite lookup_set_chan_ne in Hc by done.
      by apply (si_bounded _ _ _ _ _ _ _ Hinv c).
  - cbn [d_set_chan d_chans]. rewrite length_insert. apply Hinv.
  - destruct (si_input _ _ _ _ _ _ _ Hinv) as (tin & inq & Hi & Hxs).
    exists tin, inq. split; [|done].
    by rewrite lookup_set_chan_ne by done.
  - destruct (si_output _ _ _ _ _ _ _ Hinv) as [outq Ho]. exists outq.
    rewrite (lookup_set_chan_eq _ _ _ _ Hch).
    rewrite Hch in Ho. injection Ho as ->. done.
  - intros c ch' Hc Hc'. rewrite lookup_set_chan_ne in Hc' by lia.
    by apply (si_internal _ _ _ _ _ _ _ Hinv c).
  - apply Hinv.
  - intros j Hj sp st Hw. rewrite (sent_close _ _ _ _ Hch).
    rewrite (taken_close _ _ _ _ Hch).
    by apply (si_chain _ _ _ _ _ _ _ Hinv j Hj).
  - intros j Hj HjN sp st Hw. rewrite closed_set_chan_ne.
    + exact (si_closed _ _ _ _ _ _ _ Hinv j Hj HjN _ _ Hw).
    + unfold SeqModel.w_out. repeat case_decide; lia.
  - intros j sp rem Hw.
    rewrite closed_set_chan_ne, queued_set_chan_ne
      by (symmetry; by eapply Hin).
    by eapply (si_drained _ _ _ _ _ _ _ Hinv).
  - intros j Hj HjN. lia.
  - intros j Hj HjN. lia.
  - intros _. by apply (si_done _ _ _ _ _ _ _ Hinv).
Qed.

(** *** One step of the main goroutine *)

Local Abbreviation measure := (SeqModel.measure stages).
Local Abbreviation wt := (SeqModel.wt stages).

Lemma main_prog_new_wg :
  main_prog MNewWg
  = NewWaitGroup (λ wg,
      sequential_spawn (exec ctx) wg leaves 0 (make_slice N) NilChan
        (sequential_finish (self chain) wg (N - 1) input output Ret)).
Proof.
  cbn [SeqModel.main_prog]. unfold SeqModel.after_hooks.
  rewrite decide_False; [done|]. pose proof N_pos as HN.
  unfold SeqModel.N in HN. lia.
Qed.

(** A worker that owes no [wg.Done()] has returned. *)
Lemma no_dones_returned pc ws d j sp st :
  seq_inv pc ws d → ws !! j = Some (sp, st) → dones_left 0 ws = 0 →
  st = WTail [].
Proof.
  intros Hinv Hj H0.
  pose proof (dones_of_le 0 _ _ _ Hj) as Hle. rewrite H0 in Hle.
  destruct (inv_spec _ _ _ _ _ _ Hinv Hj) as (Hsp & _ & _).
  pose proof (spec_dones _ _ Hsp) as H1.
  pose proof (inv_wvalid _ _ _ _ _ _ Hinv Hj) as Hv.
  destruct st as [|r|rem].
  - lia.
  - change (dones_of 0 (sp, WBody r)) with (dones_of 0 (sp, WHead)) in Hle.
    lia.
  - unfold wvalid in Hv. cbn [fst snd] in Hv.
    rewrite (spec_tail _ _ Hsp) in Hv. destruct Hv as [k Hk].
    unfold dones_of, rtail in Hle. cbn [fst snd] in Hle.
    case_decide.
    + destruct k as [|x [|y [|z k]]]; simplify_eq/=; try done; lia.
    + destruct k as [|x [|y k]]; simplify_eq/=; try done; lia.
Qed.

Lemma seq_main_step pc ws d s' :
  seq_inv pc ws d →
  local_step 0 (main_prog pc) (conc (main_prog pc) ws d) = Some s' →
  ∃ pc' ws' d',
    s' = conc (main_prog pc') ws' d' ∧ seq_inv pc' ws' d' ∧
    measure pc' ws' d' < measure pc ws d.
Proof.
  intros Hinv Hstep.
  pose proof (si_wgs _ _ _ _ _ _ _ Hinv) as Hwg.
  pose proof (si_nchans _ _ _ _ _ _ _ Hinv) as Hn.
  pose proof (inv_length _ _ _ Hinv) as Hlen.
  pose proof (si_pc _ _ _ _ _ _ _ Hinv) as Hok.
  pose proof (si_crashed _ _ _ _ _ _ _ Hinv) as Hcr.
  pose proof N_pos as HN.
  unfold SeqModel.measure.
  destruct pc as [| | | |k|k|k| | | | | | | |];
    cbn [before_wg pending nchans nspawned pc_ok] in Hwg, Hn, Hlen, Hok.
  - (* Log *)
    change (main_prog MLog)
      with (Hook (HLog (self chain) "starting") (main_prog MTrack))
      in Hstep.
    rewrite main_step_hook in Hstep. injection Hstep as <-.
    exists MTrack, ws, d. split; [done|]. split.
    + apply (seq_inv_same_chans _ _ _ _ _ Hinv); try done.
    + cbn [main_measure]. lia.
  - (* TrackStarted *)
    change (main_prog MTrack)
      with (Hook (HTrackStarted (self chain)) (main_prog MNewWg)) in Hstep.
    rewrite main_step_hook in Hstep. injection Hstep as <-.
    exists MNewWg, ws, d. split; [done|]. split.
    + apply (seq_inv_same_chans _ _ _ _ _ Hinv); try done.
    + cbn [main_measure]. lia.
  - (* wg := sync.WaitGroup{} *)
    rewrite main_prog_new_wg, main_step_new_wg, Hwg in Hstep.
    injection Hstep as <-.
    exists MEntry, ws, (d_alloc_wg d). split; [done|]. split.
    + apply (seq_inv_same_chans _ _ _ _ _ Hinv); try done.
      cbn [d_alloc_wg d_wgs before_wg pending]. rewrite Hwg.
      destruct ws; [done|done].
    + rewrite net_measure_alloc_wg. cbn [main_measure]. lia.
  - (* the entry channel *)
    rewrite main_prog_entry, main_step_make_chan, Hn in Hstep.
    injection Hstep as <-.
    exists (MOut 0), ws, (d_alloc_chan 0 d). split; [done|]. split.
    + apply (seq_inv_alloc_chan _ _ _ _ Hinv); try done.
    + rewrite net_measure_alloc_chan. cbn [main_measure]. lia.
  - (* procOutput := make(chan E) *)
    cbn [SeqModel.main_prog] in Hstep.
    rewrite main_step_make_chan, Hn in Hstep.
    rewrite (iteration_step k Hok) in Hstep.
    injection Hstep as <-.
    exists (MAdd k), ws, (d_alloc_chan 0 d). split; [done|]. split.
    + apply (seq_inv_alloc_chan _ _ _ _ Hinv); try done.
    + rewrite net_measure_alloc_chan. cbn [main_measure]. lia.
  - (* wg.Add(1) *)
    change (main_prog (MAdd k)) with (WgAdd 0 1 (main_prog (MGo k)))
      in Hstep.
    rewrite (main_step_wg_add _ _ _ 0 (dones_left 0 ws + 0)) in Hstep
      by (by rewrite Hwg).
    injection Hstep as <-.
    exists (MGo k), ws, (d_set_wg 0 (dones_left 0 ws + 0 + 1) d).
    split; [done|]. split.
    + apply (seq_inv_same_chans _ _ _ _ _ Hinv); try done.
      cbn [d_set_wg d_wgs before_wg pending]. rewrite Hwg.
      cbn. f_equal. lia.
    + rewrite net_measure_set_wg. cbn [main_measure]. lia.
  - (* go proc.Execute *)
    destruct (stage_at k Hok) as [st Hst].
    cbn [SeqModel.main_prog] in Hstep.
    rewrite (child_call_wprog _ _ Hst), (loop_from_after_go k Hok) in Hstep.
    rewrite main_step_go in Hstep. injection Hstep as <-.
    exists (after_go k), (ws ++ [(kid_spec k st.2, WHead)]), d.
    split; [done|]. split.
    + apply (seq_inv_spawn _ _ _ _ _ Hinv); try done.
      * rewrite Hlen. by apply specs_kid.
      * unfold SeqModel.after_go. case_decide; simpl; lia.
      * unfold SeqModel.after_go. case_decide; simpl; lia.
      * unfold SeqModel.after_go. case_decide; simpl; lia.
      * unfold SeqModel.after_go. by case_decide.
      * unfold SeqModel.after_go. by case_decide.
      * unfold SeqModel.after_go. by case_decide.
      * unfold SeqModel.after_go. by case_decide.
    + rewrite net_measure_spawn. cbn [kid_spec ws_tail length].
      unfold SeqModel.after_go. case_decide; cbn [main_measure]; lia.
  - (* wg.Add(1) for the feeder *)
    change (main_prog MAddFeeder) with (WgAdd 0 1 (main_prog MGoFeeder))
      in Hstep.
    rewrite (main_step_wg_add _ _ _ 0 (dones_left 0 ws + 0)) in Hstep
      by (by rewrite Hwg).
    injection Hstep as <-.
    exists MGoFeeder, ws, (d_set_wg 0 (dones_left 0 ws + 0 + 1) d).
    split; [done|]. split.
    + apply (seq_inv_same_chans _ _ _ _ _ Hinv); try done.
      cbn [d_set_wg d_wgs before_wg pending]. rewrite Hwg.
      cbn. f_equal. lia.
    + rewrite net_measure_set_wg. cbn [main_measure]. lia.
  - (* go feeder *)
    change (main_prog MGoFeeder)
      with (Go (wprog (feeder_spec, WHead)) (main_prog MAddDrain))
      in Hstep.
    rewrite main_step_go in Hstep. injection Hstep as <-.
    exists MAddDrain, (ws ++ [(feeder_spec, WHead)]), d.
    split; [done|]. split.
    + apply (seq_inv_spawn _ _ _ _ _ Hinv); try done.
      * rewrite Hlen. apply specs_feeder.
      * simpl. lia.
    + rewrite net_measure_spawn. cbn [feeder_spec ws_tail length].
      cbn [main_measure]. lia.
  - (* wg.Add(1) for the drain *)
    change (main_prog MAddDrain) with (WgAdd 0 1 (main_prog MGoDrain))
      in Hstep.
    rewrite (main_step_wg_add _ _ _ 0 (dones_left 0 ws + 0)) in Hstep
      by (by rewrite Hwg).
    injection Hstep as <-.
    exists MGoDrain, ws, (d_set_wg 0 (dones_left 0 ws + 0 + 1) d).
    split; [done|]. split.
    + apply (seq_inv_same_chans _ _ _ _ _ Hinv); try done.
      cbn [d_set_wg d_wgs before_wg pending]. rewrite Hwg.
      cbn. f_equal. lia.
    + rewrite net_measure_set_wg. cbn [main_measure]. lia.
  - (* go drain *)
    cbn [SeqModel.main_prog] in Hstep.
    rewrite drain_call_wprog in Hstep.
    rewrite main_step_go in Hstep. injection Hstep as <-.
    exists MWait, (ws ++ [(drain_spec, WHead)]), d.
    split; [done|]. split.
    + apply (seq_inv_spawn _ _ _ _ _ Hinv); try done.
      * rewrite Hlen. apply specs_drain.
      * simpl. lia.
    + rewrite net_measure_spawn. cbn [drain_spec ws_tail length].
      cbn [main_measure]. lia.
  - (* wg.Wait() *)
    change (main_prog MWait) with (WgWait 0 (main_prog MTrackFinished))
      in Hstep.
    apply main_step_wait in Hstep as [Hw ->].
    rewrite Hwg in Hw. injection Hw as Hw.
    exists MTrackFinished, ws, d. split; [done|]. split.
    + apply (seq_inv_same_chans _ _ _ _ _ Hinv); try done.
      intros _ j sp st Hj.
      eapply no_dones_returned; [done|done|lia].
    + cbn [main_measure]. lia.
  - (* TrackFinished *)
    change (main_prog MTrackFinished)
      with (Hook (HTrackFinished (self chain)) (main_prog MClose))
      in Hstep.
    rewrite main_step_hook in Hstep. injection Hstep as <-.
    exists MClose, ws, d. split; [done|]. split.
    + apply (seq_inv_same_chans _ _ _ _ _ Hinv); try done.
      intros _. by apply (si_done _ _ _ _ _ _ _ Hinv).
    + cbn [main_measure]. lia.
  - (* close(output) *)
    destruct (si_output _ _ _ _ _ _ _ Hinv) as [outq Ho].
    change (main_prog MClose) with (Close (Chan 1) (main_prog MRet))
      in Hstep.
    rewrite (main_step_close _ _ _ _ _ _ Ho) in Hstep by done.
    injection Hstep as <-.
    eexists MRet, ws, _. split; [done|]. split.
    + by apply seq_inv_close_output.
    + rewrite (net_measure_close _ _ _ _ _ Ho). cbn [main_measure]. lia.
  - done.
Qed.

(** *** Every step keeps the invariant and lowers the measure *)

Lemma seq_quiet pc : quiet (main_prog pc) = true.
Proof.
  destruct pc; try done.
  - by rewrite main_prog_new_wg.
  - by rewrite main_prog_entry.
Qed.

Lemma wt_internal c : 2 ≤ c → wt c = 3 + 2 * (N + 2 - c).
Proof. by destruct c as [|[|c]]; [lia|lia|]. Qed.

Lemma seq_costs_ok pc ws d : seq_inv pc ws d → costs_ok wt ws.
Proof.
  intros Hinv j sp st v Hj.
  destruct (inv_spec _ _ _ _ _ _ Hinv Hj) as (Hsp & _ & _).
  apply specs_cases in Hsp as [(st' & Hlt & Hst & ->)|[[-> ->]|[-> ->]]].
  - cbn [SeqModel.kid_spec ws_body ws_in].
    rewrite body_cost_cons. change (body_cost wt []) with 0.
    cbn [act_cost]. rewrite !wt_internal by lia. lia.
  - cbn [SeqModel.feeder_spec ws_body ws_in].
    rewrite !body_cost_cons. change (body_cost wt []) with 0.
    cbn [act_cost]. rewrite (wt_internal 2) by lia.
    change (wt 0) with (6 + 2 * N). lia.
  - cbn [SeqModel.drain_spec ws_body ws_in].
    rewrite !body_cost_cons. change (body_cost wt []) with 0.
    cbn [act_cost]. rewrite (wt_internal (2 + N)) by lia.
    change (wt 1) with 0. lia.
Qed.

Lemma seq_step pc ws d s' :
  seq_inv pc ws d → step (conc (main_prog pc) ws d) s' →
  ∃ pc' ws' d',
    s' = conc (main_prog pc') ws' d' ∧ seq_inv pc' ws' d' ∧
    measure pc' ws' d' < measure pc ws d.
Proof.
  intros Hinv Hs.
  apply net_step in Hs as [Hm|(ws' & d' & -> & Htr)].
  - by eapply seq_main_step.
  - exists pc, ws', d'. split; [done|].
    split; [by eapply seq_inv_wtrans|].
    pose proof (wtrans_measure wt _ _ _ _ Htr (seq_costs_ok _ _ _ Hinv)
                  (si_crashed _ _ _ _ _ _ _ Hinv)
                  (seq_no_crash _ _ _ _ _ Hinv Htr)).
    unfold SeqModel.measure. lia.
  - apply seq_quiet.
  - eapply wvalid_not_empty_body, Hinv.
Qed.

Lemma seq_init :
  init (composite chain stages) ctx xs out_cap
  = conc (main_prog MLog) [] (d0 xs out_cap).
Proof. done. Qed.

Lemma seq_inv_init : seq_inv MLog [] (d0 xs out_cap).
Proof.
  constructor; try done.
  - intros [|[|c]] ch Hc; simplify_eq/=; lia.
  - by exists [], xs.
  - by exists [].
  - intros c ch Hc Hch. by destruct c as [|[|c]]; [lia|lia|].
  - intros j _ _. unfold SeqModel.w_out. by repeat case_decide.
  - intros j _ _. unfold SeqModel.w_in. by repeat case_decide.
Qed.

(** A run of [n] steps ends in a state of the invariant, [n] lower in
    the measure. *)
Lemma seq_run n pc ws d s' :
  seq_inv pc ws d → steps n (conc (main_prog pc) ws d) s' →
  ∃ pc' ws' d',
    s' = conc (main_prog pc') ws' d' ∧ seq_inv pc' ws' d' ∧
    n + measure pc' ws' d' ≤ measure pc ws d.
Proof.
  revert pc ws d. induction n as [|n IH]; intros pc ws d Hinv Hrun.
  - inversion Hrun; subst. exists pc, ws, d. split; [done|].
    split; [done|lia].
  - inversion Hrun as [|? ? s1 ? Hs Hrest]; subst.
    destruct (seq_step _ _ _ _ Hinv Hs) as (pc1 & ws1 & d1 & -> & H1 & Hm).
    destruct (IH _ _ _ H1 Hrest) as (pc2 & ws2 & d2 & -> & H2 & Hm2).
    exists pc2, ws2, d2. split; [done|]. split; [done|lia].
Qed.

(** *** The lane: feeder, stages, drain *)

Local Abbreviation widx := (SeqModel.widx stages).
Local Abbreviation cout := (SeqModel.cout stages).
Local Abbreviation flow := (SeqModel.flow stages).

Ltac lane :=
  pose proof N_pos;
  unfold SeqModel.widx, SeqModel.cin, SeqModel.cout, SeqModel.w_in,
    SeqModel.w_out in *;
  repeat case_decide; lia.

Lemma widx_in p : p ≤ N + 1 → w_in (widx p) = cin p.
Proof. intros. lane. Qed.

Lemma widx_out p : p ≤ N + 1 → w_out (widx p) = cout p.
Proof. intros. lane. Qed.

Lemma widx_le p : widx p ≤ N + 1.
Proof. lane. Qed.

Lemma widx_closer p : p ≤ N → widx p ≤ N.
Proof. intros. lane. Qed.

Lemma cout_cin p : p ≤ N → cout p = cin (S p).
Proof. intros. lane. Qed.

Lemma widx_inj p q : p ≤ N + 1 → q ≤ N + 1 → widx p = widx q → p = q.
Proof. intros. lane. Qed.

Lemma widx_place j : j ≤ N + 1 → ∃ p, p ≤ N + 1 ∧ widx p = j.
Proof.
  intros Hj. destruct (decide (j < N)); [|destruct (decide (j = N))].
  - exists (S j). lane.
  - exists 0. lane.
  - exists (N + 1). lane.
Qed.

Lemma chain_snoc (l : list (string * (E → E))) st x :
  foldr (λ st g, g ∘ st.2) id (l ++ [st]) x
  = st.2 (foldr (λ st g, g ∘ st.2) id l x).
Proof.
  revert x. induction l as [|a l IH]; intros x; [done|].
  simpl. apply IH.
Qed.

Lemma flow_0 x : flow 0 x = x.
Proof. done. Qed.

Lemma flow_last : flow (N + 1) = chain_fn stages.
Proof.
  unfold SeqModel.flow, SeqModel.chain_fn.
  rewrite take_ge; [done|]. rewrite <- N_stages. lia.
Qed.

Lemma flow_next p x : p ≤ N + 1 → flow (S p) x = w_fn (widx p) (flow p x).
Proof.
  intros Hp. unfold SeqModel.flow, SeqModel.w_fn.
  destruct (decide (p = 0)) as [->|Hp0];
    [|destruct (decide (p ≤ N)) as [HpN|HpN]].
  - assert (widx 0 = N) as -> by lane.
    rewrite (lookup_ge_None_2 stages N) by (rewrite N_stages; lia). done.
  - destruct p as [|q]; [done|].
    assert (widx (S q) = q) as -> by lane.
    destruct (stage_at q) as [st Hst]; [lia|]. rewrite Hst.
    replace (S (S q) - 1) with (S q) by lia.
    replace (S q - 1) with q by lia.
    rewrite (take_S_r _ _ _ Hst). apply chain_snoc.
  - assert (widx p = N + 1) as -> by lane.
    rewrite (lookup_ge_None_2 stages (N + 1)) by (rewrite N_stages; lia).
    rewrite !take_ge by (rewrite <- N_stages; lia). done.
Qed.


(** What a worker has sent, with the item in its hands, is the image of
    what it has taken. *)
Lemma chain_map pc ws d j sp st :
  seq_inv pc ws d → ws !! j = Some (sp, st) →
  sent d (w_out j) ++ pend_to (w_out j) st = w_fn j <$> taken d (w_in j).
Proof.
  intros Hinv Hj.
  destruct (inv_spec _ _ _ _ _ _ Hinv Hj) as (Hsp & Hlt & _).
  rewrite (si_chain _ _ _ _ _ _ _ Hinv j Hlt _ _ Hj).
  rewrite (spec_in _ _ Hsp). apply flat_map_one. intros v.
  by rewrite (spec_sends _ _ _ _ Hsp), decide_True.
Qed.

Lemma flow_fmap p (l : list E) :
  p ≤ N + 1 → w_fn (widx p) <$> (flow p <$> l) = flow (S p) <$> l.
Proof.
  intros Hp. rewrite <- list_fmap_compose. apply list_fmap_ext.
  intros _ x _. simpl. by rewrite flow_next.
Qed.

Lemma flow_sent pc ws d p :
  seq_inv pc ws d → p ≤ N + 1 →
  taken d (cin p) `prefix_of` (flow p <$> xs) →
  sent d (cout p) `prefix_of` (flow (S p) <$> xs).
Proof.
  intros Hinv Hp [k Hk]. rewrite <- (widx_out p Hp).
  destruct (decide (widx p < length ws)) as [Hlt|Hnlt].
  - destruct (lookup_lt_is_Some_2 _ _ Hlt) as [[sp st] Hj].
    pose proof (chain_map _ _ _ _ _ _ Hinv Hj) as Hc.
    rewrite (widx_in p Hp) in Hc.
    rewrite <- (flow_fmap p) by done. rewrite Hk, fmap_app, <- Hc.
    rewrite <- app_assoc. by eexists.
  - destruct (si_unsent _ _ _ _ _ _ _ Hinv (widx p)) as [-> _];
      [lia|apply widx_le|]. apply prefix_nil.
Qed.

Lemma flow_taken pc ws d p :
  seq_inv pc ws d → p ≤ N + 1 →
  taken d (cin p) `prefix_of` (flow p <$> xs).
Proof.
  intros Hinv. induction p as [|p IH]; intros Hp.
  - destruct (si_input _ _ _ _ _ _ _ Hinv) as (tin & inq & Hch & Hxs).
    change (cin 0) with 0. rewrite (taken_lookup _ _ _ Hch). simpl.
    exists inq. rewrite <- Hxs. apply list_fmap_id.
  - etrans; [|apply (flow_sent _ _ _ p Hinv); [lia|apply IH; lia]].
    rewrite (cout_cin p) by lia. by eexists.
Qed.


(** *** After the join *)

Lemma final_worker pc ws d p :
  seq_inv pc ws d → after_wait pc = true → p ≤ N + 1 →
  ∃ sp, ws !! widx p = Some (sp, WTail []).
Proof.
  intros Hinv Haw Hp.
  assert (widx p < length ws) as Hlt.
  { rewrite (inv_length _ _ _ Hinv). pose proof (widx_le p).
    destruct pc; try done; simpl; lia. }
  destruct (lookup_lt_is_Some_2 _ _ Hlt) as [[sp st] Hj].
  exists sp. by rewrite (si_done _ _ _ _ _ _ _ Hinv Haw _ _ _ Hj) in Hj.
Qed.

Lemma final_flow pc ws d p :
  seq_inv pc ws d → after_wait pc = true → p ≤ N + 1 →
  taken d (cin p) = flow p <$> xs ∧ sent d (cout p) = flow (S p) <$> xs.
Proof.
  intros Hinv Haw.
  assert (∀ p, p ≤ N + 1 → taken d (cin p) = sent d (cin p)) as Hdrained.
  { intros q Hq. destruct (final_worker _ _ _ q Hinv Haw Hq) as [sp Hj].
    destruct (si_drained _ _ _ _ _ _ _ Hinv _ _ _ Hj) as [_ Hq0].
    destruct (inv_spec _ _ _ _ _ _ Hinv Hj) as (Hsp & _ & _).
    rewrite (spec_in _ _ Hsp), (widx_in q Hq) in Hq0.
    unfold sent. by rewrite Hq0, app_nil_r. }
  assert (∀ p, p ≤ N + 1 → taken d (cin p) = flow p <$> xs →
               sent d (cout p) = flow (S p) <$> xs) as Hsent.
  { intros q Hq Ht. destruct (final_worker _ _ _ q Hinv Haw Hq) as [sp Hj].
    pose proof (chain_map _ _ _ _ _ _ Hinv Hj) as Hc.
    rewrite (widx_in q Hq), (widx_out q Hq), Ht in Hc.
    cbn [pend_to] in Hc. rewrite app_nil_r in Hc.
    by rewrite Hc, flow_fmap. }
  induction p as [|p IH]; intros Hp.
  - assert (taken d (cin 0) = flow 0 <$> xs) as Ht.
    { rewrite (Hdrained 0) by lia. change (cin 0) with 0.
      destruct (si_input _ _ _ _ _ _ _ Hinv) as (tin & inq & Hch & Hxs).
      rewrite (sent_lookup _ _ _ Hch). simpl. rewrite Hxs.
      symmetry. apply list_fmap_id. }
    split; [done|]. by apply Hsent.
  - destruct IH as [_ IH]; [lia|].
    assert (taken d (cin (S p)) = flow (S p) <$> xs) as Ht.
    { rewrite (Hdrained (S p)) by lia.
      by rewrite <- (cout_cin p) by lia. }
    split; [done|]. by apply Hsent.
Qed.



Lemma final_finished ws d :
  seq_inv MRet ws d → finished (conc (main_prog MRet) ws d) = true.
Proof.
  intros Hinv. unfold finished. cbn [crashed conc threads].
  rewrite (si_crashed _ _ _ _ _ _ _ Hinv). cbn [negb andb forallb is_Ret].
  apply forallb_forall. intros q Hq. apply in_map_iff in Hq.
  destruct Hq as ([sp st] & <- & Hin). apply list_elem_of_In in Hin.
  apply list_elem_of_lookup in Hin as [j Hj].
  by rewrite (si_done _ _ _ _ _ _ _ Hinv eq_refl _ _ _ Hj).
Qed.

(** *** No deadlock *)

Lemma wait_worker ws d p :
  seq_inv MWait ws d → ∃ sp st, ws !! widx p = Some (sp, st).
Proof.
  intros Hinv.
  assert (widx p < length ws) as Hlt.
  { rewrite (inv_length _ _ _ Hinv). pose proof (widx_le p). simpl. lia. }
  destruct (lookup_lt_is_Some_2 _ _ Hlt) as [[sp st] Hj]. eauto.
Qed.

Lemma wait_chan ws d c :
  seq_inv MWait ws d → c < 3 + N → ∃ ch, d_chans d !! c = Some ch.
Proof.
  intros Hinv Hc. apply lookup_lt_is_Some_2.
  by rewrite (si_nchans _ _ _ _ _ _ _ Hinv).
Qed.

(** The statement a worker is about to run in its loop body. *)
Lemma body_head pc ws d i sp a rem :
  seq_inv pc ws d → ws !! i = Some (sp, WBody (a :: rem)) →
  (∃ h, a = AHook h) ∨ (∃ v, a = ASend (Chan (w_out i)) v).
Proof.
  intros Hinv Hi. destruct (inv_spec _ _ _ _ _ _ Hinv Hi) as (Hsp & _ & _).
  pose proof (inv_wvalid _ _ _ _ _ _ Hinv Hi) as Hv.
  destruct Hv as [_ [v' Hsuf]]. cbn [fst snd] in Hsuf.
  assert (a ∈ ws_body sp v') as Hin.
  { destruct Hsuf as [k ->]. apply elem_of_app. right. left. }
  apply (spec_body_actions _ _ _ _ Hsp) in Hin as [[h ?]|Heq]; eauto.
Qed.

Lemma tail_can_move ws d j sp t rem :
  seq_inv MWait ws d → ws !! j = Some (sp, WTail (t :: rem)) →
  can_move ws d.
Proof.
  intros Hinv Hj. destruct t as [c|w].
  - destruct (closer_chan _ _ _ _ _ _ _ Hinv Hj) as [-> HjN].
    destruct (inv_spec _ _ _ _ _ _ Hinv Hj) as (Hsp & Hlt & Hle).
    destruct (wait_chan ws d (w_out j) Hinv) as [ch Hch]; [lane|].
    destruct (ch_closed ch) eqn:Hcl.
    + exfalso.
      pose proof (si_closed _ _ _ _ _ _ _ Hinv j Hlt HjN _ _ Hj) as Hcb.
      rewrite (closed_lookup _ _ _ Hch) in Hcb.
      apply Hcb in Hcl as (r & [= <-] & Hr). apply Hr. left.
    + eexists _, _. by eapply wt_close.
  - pose proof (doner_wg _ _ _ _ _ _ _ Hinv Hj) as ->.
    pose proof (si_wgs _ _ _ _ _ _ _ Hinv) as Hwg.
    cbn [before_wg pending] in Hwg.
    pose proof (dones_of_le 0 _ _ _ Hj) as Hle.
    rewrite dones_of_tail_done in Hle. simpl in Hle.
    destruct (dones_left 0 ws) as [|n] eqn:Hn; [lia|].
    eexists _, _. eapply wt_done; [done|]. by rewrite Hwg.
Qed.

Lemma head_can_move ws d p sp :
  seq_inv MWait ws d → p ≤ N + 1 → ws !! widx p = Some (sp, WHead) →
  can_move ws d.
Proof.
  intros Hinv. revert sp. induction p as [|p IH]; intros sp Hp Hj.
  - (* the feeder reads the input, which the caller has closed *)
    destruct (inv_spec _ _ _ _ _ _ Hinv Hj) as (Hsp & _ & _).
    pose proof (spec_in _ _ Hsp) as Hin.
    rewrite (widx_in 0) in Hin by lia. change (cin 0) with 0 in Hin.
    destruct (si_input _ _ _ _ _ _ _ Hinv) as (tin & inq & Hch & Hxs).
    rewrite <- Hin in Hch. destruct inq as [|v rest].
    + eexists _, _. by eapply (wt_exit _ _ _ _ _ Hj Hch).
    + eexists _, _. by eapply (wt_recv _ _ _ _ _ _ _ Hj Hch).
  - (* the reader of an unbuffered channel *)
    destruct (inv_spec _ _ _ _ _ _ Hinv Hj) as (Hsp & _ & _).
    pose proof (spec_in _ _ Hsp) as Hin.
    rewrite (widx_in (S p)) in Hin by lia.
    rewrite <- (cout_cin p) in Hin by lia.
    destruct (wait_chan ws d (cout p) Hinv) as [ch Hch]; [lane|].
    assert (ch_cap ch = 0) as Hcap.
    { eapply (si_internal _ _ _ _ _ _ _ Hinv (cout p)); [lane|done]. }
    pose proof (bounded_unbuffered _ _ _ (si_bounded _ _ _ _ _ _ _ Hinv)
                  Hch Hcap) as Hbuf.
    destruct (ch_closed ch) eqn:Hcl.
    { rewrite <- Hin in Hch. eexists _, _.
      by eapply (wt_exit _ _ _ _ _ Hj Hch). }
    destruct (wait_worker ws d p Hinv) as (spu & stu & Hu).
    pose proof (lookup_lt_Some _ _ _ Hu) as Hlt.
    pose proof (si_closed _ _ _ _ _ _ _ Hinv (widx p) Hlt
                  (widx_closer p ltac:(lia)) _ _ Hu) as Hcb.
    rewrite (widx_out p) in Hcb by lia.
    rewrite (closed_lookup _ _ _ Hch), Hcl in Hcb.
    destruct stu as [|[|a rem]|[|t rem]].
    + eapply IH; [lia|done].
    + by destruct (inv_wvalid _ _ _ _ _ _ Hinv Hu) as [? _].
    + destruct (body_head _ _ _ _ _ _ _ Hinv Hu) as [[h ->]|[v ->]].
      * eexists _, _. by eapply wt_hook.
      * rewrite (widx_out p) in Hu by lia.
        eexists _, _. eapply (wt_sync _ _ _ _ _ _ _ _ _ _ Hu Hj); try done.
        intros Heq. rewrite Heq in Hu. congruence.
    + exfalso. destruct Hcb as [_ Hcb].
      assert (false = true) as Habs; [|done].
      apply Hcb. exists []. split; [done|]. by intros ?%elem_of_nil.
    + by eapply tail_can_move.
Qed.

Lemma send_can_move ws d m p sp v rem :
  seq_inv MWait ws d → p + m = N + 1 →
  ws !! widx p = Some (sp, WBody (ASend (Chan (cout p)) v :: rem)) →
  can_move ws d.
Proof.
  intros Hinv. revert p sp v rem.
  induction m as [|m IH]; intros p sp v rem Hp Hj.
  - (* the drain: the output has room for every item *)
    assert (p = N + 1) as -> by lia.
    assert (cout (N + 1) = 1) as Hc by lane. rewrite Hc in Hj.
    destruct (si_output _ _ _ _ _ _ _ Hinv) as [outq Ho].
    pose proof (chain_map _ _ _ _ _ _ Hinv Hj) as Hm.
    rewrite (widx_out (N + 1)), Hc in Hm by lia.
    cbn [pend_to] in Hm. rewrite sends_to_send, decide_True in Hm by done.
    rewrite (sent_lookup _ _ _ Ho) in Hm. simpl in Hm.
    apply (f_equal length) in Hm.
    rewrite length_app, length_fmap in Hm. simpl in Hm.
    pose proof (prefix_length _ _
                  (flow_taken _ _ _ (N + 1) Hinv (le_n _))) as Hle.
    rewrite (widx_in (N + 1)) in Hm by lia.
    rewrite length_fmap in Hle.
    eexists _, _. eapply (wt_send _ _ _ _ _ _ _ _ Hj Ho); [done|].
    simpl. lia.
  - (* a stage or the feeder: the next worker of the lane takes it *)
    destruct (inv_spec _ _ _ _ _ _ Hinv Hj) as (Hsp & Hlt & _).
    destruct (wait_chan ws d (cout p) Hinv) as [ch Hch]; [lane|].
    assert (ch_cap ch = 0) as Hcap.
    { eapply (si_internal _ _ _ _ _ _ _ Hinv (cout p)); [lane|done]. }
    assert (ch_closed ch = false) as Hcl.
    { apply not_true_is_false. intros Hcl.
      pose proof (si_closed _ _ _ _ _ _ _ Hinv (widx p) Hlt
                    (widx_closer p ltac:(lia)) _ _ Hj) as Hcb.
      rewrite (widx_out p) in Hcb by lia.
      rewrite (closed_lookup _ _ _ Hch) in Hcb.
      by apply Hcb in Hcl as (r & ? & _). }
    destruct (wait_worker ws d (S p) Hinv) as (spr & str & Hr).
    destruct (inv_spec _ _ _ _ _ _ Hinv Hr) as (Hspr & _ & _).
    pose proof (spec_in _ _ Hspr) as Hin.
    rewrite (widx_in (S p)) in Hin by lia.
    rewrite <- (cout_cin p) in Hin by lia.
    destruct str as [|[|a rem']|[|t rem']].
    + eexists _, _. eapply (wt_sync _ _ _ _ _ _ _ _ _ _ Hj Hr); try done.
      intros Heq. rewrite Heq in Hj. congruence.
    + by destruct (inv_wvalid _ _ _ _ _ _ Hinv Hr) as [? _].
    + destruct (body_head _ _ _ _ _ _ _ Hinv Hr) as [[h ->]|[v' ->]].
      * eexists _, _. by eapply wt_hook.
      * rewrite (widx_out (S p)) in Hr by lia.
        eapply (IH (S p)); [lia|done].
    + exfalso.
      destruct (si_drained _ _ _ _ _ _ _ Hinv _ _ _ Hr) as [Hcl' _].
      rewrite Hin, (closed_lookup _ _ _ Hch) in Hcl'. congruence.
    + by eapply tail_can_move.
Qed.


(** While [wg.Wait()] blocks, some worker can move. *)
Lemma wait_can_move ws d :
  seq_inv MWait ws d → dones_left 0 ws ≠ 0 → can_move ws d.
Proof.
  intros Hinv Hd. rewrite dones_left_eq in Hd.
  apply sum_list_pos in Hd as (j & [sp st] & Hj & Hdj).
  destruct (inv_spec _ _ _ _ _ _ Hinv Hj) as (Hsp & _ & Hle).
  destruct (widx_place j Hle) as (p & Hp & <-).
  destruct st as [|[|a rem]|[|t rem]].
  - by eapply head_can_move.
  - by destruct (inv_wvalid _ _ _ _ _ _ Hinv Hj) as [? _].
  - destruct (body_head _ _ _ _ _ _ _ Hinv Hj) as [[h ->]|[v ->]].
    + eexists _, _. by eapply wt_hook.
    + rewrite (widx_out p) in Hj by lia.
      eapply (send_can_move _ _ (N + 1 - p) p); [done|lia|done].
  - done.
  - by eapply tail_can_move.
Qed.

(** Away from [wg.Wait()] the main goroutine can move. *)
Lemma seq_main_enabled pc ws d :
  seq_inv pc ws d → pc ≠ MRet → (pc = MWait → dones_left 0 ws = 0) →
  ∃ s', local_step 0 (main_prog pc) (conc (main_prog pc) ws d) = Some s'.
Proof.
  intros Hinv Hne Hw.
  pose proof (si_wgs _ _ _ _ _ _ _ Hinv) as Hwg.
  destruct pc as [| | | |k|k|k| | | | | | | |];
    cbn [before_wg pending] in Hwg; try (eexists; reflexivity).
  - rewrite main_prog_new_wg. eexists. reflexivity.
  - rewrite main_prog_entry. eexists. reflexivity.
  - change (main_prog (MAdd k)) with (WgAdd 0 1 (main_prog (MGo k))).
    eexists. apply main_step_wg_add. by rewrite Hwg.
  - change (main_prog MAddFeeder) with (WgAdd 0 1 (main_prog MGoFeeder)).
    eexists. apply main_step_wg_add. by rewrite Hwg.
  - change (main_prog MAddDrain) with (WgAdd 0 1 (main_prog MGoDrain)).
    eexists. apply main_step_wg_add. by rewrite Hwg.
  - change (main_prog MWait) with (WgWait 0 (main_prog MTrackFinished)).
    eexists. apply main_step_wait_zero. by rewrite Hwg, Hw.
  - destruct (si_output _ _ _ _ _ _ _ Hinv) as [outq Ho].
    change (main_prog MClose) with (Close (Chan 1) (main_prog MRet)).
    eexists. by apply (main_step_close _ _ _ _ _ _ Ho).
  - done.
Qed.

(** Until [Execute] has returned, the program can take a step. *)
Lemma seq_progress pc ws d :
  seq_inv pc ws d → pc ≠ MRet → ∃ s', step (conc (main_prog pc) ws d) s'.
Proof.
  intros Hinv Hne.
  pose proof (si_crashed _ _ _ _ _ _ _ Hinv) as Hcr.
  destruct (decide (pc = MWait ∧ dones_left 0 ws ≠ 0)) as [[-> Hd]|Hno].
  - destruct (wait_can_move _ _ Hinv Hd) as (ws' & d' & Htr).
    eexists. by apply wtrans_step.
  - destruct (seq_main_enabled _ _ _ Hinv Hne) as [s' Hs].
    + intros ->. destruct (decide (dones_left 0 ws = 0)); [done|].
      destruct Hno. done.
    + exists s'. by apply main_step_is_step.
Qed.

(** *** Runs from the start *)

Lemma measure_init : measure MLog [] (d0 xs out_cap) = run_bound stages xs.
Proof.
  unfold SeqModel.measure, net_measure, queue_measure, SeqModel.run_bound.
  cbn [main_measure d0 d_chans imap sum_list sum_list_with fmap list_fmap].
  cbn [input_of new_chan ch_buf length]. unfold SeqModel.wt. simpl. lia.
Qed.

Lemma seq_run_start n s :
  steps n (init (composite chain stages) ctx xs out_cap) s →
  ∃ pc ws d,
    s = conc (main_prog pc) ws d ∧ seq_inv pc ws d ∧
    n + measure pc ws d ≤ run_bound stages xs.
Proof.
  intros Hrun. rewrite seq_init in Hrun.
  apply (seq_run _ _ _ _ _ seq_inv_init) in Hrun.
  by rewrite measure_init in Hrun.
Qed.

(** From every state of the invariant some run reaches the end. *)
Lemma seq_completes m pc ws d :
  seq_inv pc ws d → measure pc ws d ≤ m →
  ∃ ws' d',
    reachable (conc (main_prog pc) ws d) (conc (main_prog MRet) ws' d')
    ∧ seq_inv MRet ws' d'.
Proof.
  revert pc ws d. induction m as [|m IH]; intros pc ws d Hinv Hm;
    (destruct (decide (pc = MRet)) as [->|Hne];
     [exists ws, d; split; [apply rtc_refl|done]|]);
    destruct (seq_progress _ _ _ Hinv Hne) as [s' Hs];
    destruct (seq_step _ _ _ _ Hinv Hs) as (pc1 & ws1 & d1 & -> & H1 & Hlt).
  - lia.
  - destruct (IH _ _ _ H1) as (ws' & d' & Hr & Hf); [lia|].
    exists ws', d'. split; [|done]. by eapply rtc_l.
Qed.



(** *** When every goroutine has returned *)

(** Only the last position of the main goroutine is a return. *)
Lemma finished_main pc ws d :
  finished (conc (main_prog pc) ws d) = true → pc = MRet.
Proof.
  unfold finished. cbn [conc threads forallb]. intros Hf.
  apply andb_prop in Hf as [_ Hf]. apply andb_prop in Hf as [Hf _].
  destruct pc; try done.
  - by rewrite main_prog_new_wg in Hf.
  - by rewrite main_prog_entry in Hf.
Qed.

Lemma final_dones ws d : seq_inv MRet ws d → dones_left 0 ws = 0.
Proof.
  intros Hinv.
  destruct (decide (dones_left 0 ws = 0)) as [?|Hne]; [done|].
  rewrite dones_left_eq in Hne.
  apply sum_list_pos in Hne as (j & [sp st] & Hj & Hd). exfalso.
  apply Hd. by rewrite (si_done _ _ _ _ _ _ _ Hinv eq_refl _ _ _ Hj).
Qed.

(** Every channel is closed, every channel but the output is empty,
    and the channel in front of stage [k] has carried what the first
    [k] stages make of the input. *)
Lemma final_chan ws d c ch :
  seq_inv MRet ws d → d_chans d !! c = Some ch →
  ch_closed ch = true ∧ (c ≠ 1 → ch_buf ch = []) ∧
  (∀ k, c = 2 + k →
        ch_cap ch = 0 ∧ ch_taken ch = chain_fn (take k stages) <$> xs).
Proof.
  intros Hinv Hc.
  pose proof (lookup_lt_Some _ _ _ Hc) as Hlt.
  rewrite (si_nchans _ _ _ _ _ _ _ Hinv) in Hlt. cbn [nchans] in Hlt.
  destruct (decide (c = 1)) as [->|Hc1].
  { destruct (si_output _ _ _ _ _ _ _ Hinv) as [outq Ho].
    rewrite Ho in Hc. injection Hc as <-. cbn [ch_closed].
    split; [done|]. split; [done|].
    intros k Hk. lia. }
  set (p := if decide (c = 0) then 0 else c - 1).
  assert (p ≤ N + 1) as Hp by (unfold p; case_decide; lia).
  assert (cin p = c) as Hcin
    by (unfold p, SeqModel.cin; repeat case_decide; lia).
  destruct (final_worker _ _ _ p Hinv eq_refl Hp) as [sp Hj].
  destruct (inv_spec _ _ _ _ _ _ Hinv Hj) as (Hsp & _ & _).
  destruct (si_drained _ _ _ _ _ _ _ Hinv _ _ _ Hj) as [Hcl Hq].
  rewrite (spec_in _ _ Hsp), (widx_in p Hp), Hcin in Hcl, Hq.
  rewrite (closed_lookup _ _ _ Hc) in Hcl.
  rewrite (queued_lookup _ _ _ Hc) in Hq.
  split; [done|]. split; [done|]. intros k ->.
  split; [by apply (si_internal _ _ _ _ _ _ _ Hinv (2 + k)); [lia|]|].
  destruct (final_flow _ _ _ p Hinv eq_refl Hp) as [Ht _].
  rewrite Hcin, (taken_lookup _ _ _ Hc) in Ht. rewrite Ht.
  unfold p. rewrite decide_False by lia.
  unfold SeqModel.flow, SeqModel.chain_fn.
  by replace (2 + k - 1 - 1) with k by lia.
Qed.

Lemma final_counts ws d :
  seq_inv MRet ws d →
  length (threads (conc (main_prog MRet) ws d)) = 3 + N ∧
  length (d_chans d) = 3 + N ∧ d_wgs d = [0].
Proof.
  intros Hinv. split; [|split].
  - cbn [conc threads length]. rewrite length_fmap.
    rewrite (inv_length _ _ _ Hinv). simpl. lia.
  - by rewrite (si_nchans _ _ _ _ _ _ _ Hinv).
  - rewrite (si_wgs _ _ _ _ _ _ _ Hinv). cbn [before_wg pending].
    by rewrite (final_dones _ _ Hinv).
Qed.

(** Some run reaches a state in which every goroutine has returned. *)
Lemma seq_reaches_end :
  ∃ n s,
    steps n (init (composite chain stages) ctx xs out_cap) s ∧
    finished s = true.
Proof.
  destruct (seq_completes _ MLog [] (d0 xs out_cap) seq_inv_init
              (le_n _)) as (ws' & d' & Hr & Hf).
  rewrite <- seq_init in Hr. apply rtc_nsteps_1 in Hr as [n Hn].
  exists n, (conc (main_prog MRet) ws' d').
  split; [done|]. by apply final_finished.
Qed.

(** *** One item per goroutine *)

Lemma sends_to_suffix c (rem body : list (action E)) :
  rem `suffix_of` body →
  length (sends_to c rem) ≤ length (sends_to c body).
Proof.
  intros [k ->]. unfold sends_to. rewrite omap_app, length_app. lia.
Qed.

(** A worker holds at most one item for its output. *)
Lemma pend_one pc ws d j sp st :
  seq_inv pc ws d → ws !! j = Some (sp, st) →
  length (pend_to (w_out j) st) ≤ 1.
Proof.
  intros Hinv Hj.
  destruct (inv_spec _ _ _ _ _ _ Hinv Hj) as (Hsp & _ & _).
  pose proof (inv_wvalid _ _ _ _ _ _ Hinv Hj) as Hv.
  destruct st as [|rem|rem]; cbn [pend_to length]; try lia.
  destruct Hv as [_ [v Hsuf]]. cbn [fst] in Hsuf.
  etrans; [by apply sends_to_suffix|].
  rewrite (spec_sends _ _ _ _ Hsp), decide_True by done. done.
Qed.

(** An unbuffered channel holds nothing. *)
Lemma internal_empty pc ws d c :
  seq_inv pc ws d → 2 ≤ c → queued d c = [].
Proof.
  intros Hinv Hc. unfold queued.
  destruct (d_chans d !! c) as [ch|] eqn:Hch; [|done].
  pose proof (si_bounded _ _ _ _ _ _ _ Hinv _ _ Hch) as Hb.
  rewrite (si_internal _ _ _ _ _ _ _ Hinv _ _ Hc Hch) in Hb.
  destruct (ch_buf ch); [done|simpl in Hb; lia].
Qed.

(** The worker at place [p] of the lane has taken at most one item more
    than it has sent. *)
Lemma lane_holds_one pc ws d p :
  seq_inv pc ws d → p ≤ N + 1 →
  length (taken d (cin p)) ≤ length (sent d (cout p)) + 1.
Proof.
  intros Hinv Hp.
  destruct (decide (widx p < length ws)) as [Hlt|Hnlt].
  - destruct (lookup_lt_is_Some_2 _ _ Hlt) as [[sp st] Hj].
    pose proof (chain_map _ _ _ _ _ _ Hinv Hj) as Hc.
    pose proof (pend_one _ _ _ _ _ _ Hinv Hj) as Hone.
    rewrite (widx_in p Hp), (widx_out p Hp) in Hc.
    rewrite (widx_out p Hp) in Hone.
    apply (f_equal length) in Hc.
    rewrite length_app, length_fmap in Hc. lia.
  - pose proof (si_untaken _ _ _ _ _ _ _ Hinv (widx p)) as Hu.
    rewrite (widx_in p Hp) in Hu. rewrite Hu; [simpl; lia|lia|].
    apply widx_le.
Qed.

Lemma lane_link pc ws d p :
  seq_inv pc ws d → p ≤ N →
  length (taken d (cin p)) ≤ length (taken d (cin (S p))) + 1.
Proof.
  intros Hinv Hp.
  pose proof (lane_holds_one _ _ _ p Hinv ltac:(lia)) as Hl.
  rewrite (cout_cin p Hp) in Hl. unfold sent in Hl.
  rewrite (internal_empty _ _ _ (cin (S p)) Hinv) in Hl
    by (unfold SeqModel.cin; case_decide; lia).
  by rewrite app_nil_r in Hl.
Qed.

Lemma lane_ahead pc ws d p :
  seq_inv pc ws d → p ≤ N + 1 →
  length (taken d 0) ≤ length (taken d (cin p)) + p.
Proof.
  intros Hinv. induction p as [|p IH]; intros Hp.
  - change (cin 0) with 0. lia.
  - pose proof (lane_link _ _ _ p Hinv ltac:(lia)). specialize (IH ltac:(lia)).
    lia.
Qed.

(** The composite is never more than [N + 2] items ahead of its
    output. *)
Lemma seq_in_flight pc ws d :
  seq_inv pc ws d →
  length (taken d 0) ≤ length (queued d 1) + N + 2.
Proof.
  intros Hinv.
  pose proof (lane_ahead _ _ _ (N + 1) Hinv (le_n _)) as Ha.
  pose proof (lane_holds_one _ _ _ (N + 1) Hinv (le_n _)) as Hl.
  assert (cout (N + 1) = 1) as Hc by lane. rewrite Hc in Hl.
  destruct (si_output _ _ _ _ _ _ _ Hinv) as [outq Ho].
  rewrite (sent_lookup _ _ _ Ho) in Hl.
  rewrite (queued_lookup _ _ _ Ho). simpl in *. lia.
Qed.

End Model.



(** When a Sequential over map leaves has come to rest (every goroutine
    has returned) it has left nothing behind.  It has started one
    goroutine per child and two more, the feeder and the drain; it has
    made one channel per child and one more, all unbuffered; its wait
    group is back at 0; every channel is closed, the input and the
    channels it made are empty, and the channel in front of child [k]
    (the drain, for [k = N]) has carried what the first [k] children make
    of the whole input, in the order of the input. *)
Theorem Sequential_shuts_down_cleanly {E : Type} (ctx : Context)
    (chain : string) (stages : list (string * (E → E))) (xs : list E)
    (out_cap : nat) :
  stages ≠ [] → length xs ≤ out_cap →
  ∀ n s,
    steps n (init (composite chain stages) ctx xs out_cap) s →
    finished s = true →
    length (threads s) = 3 + N stages ∧
    length (chans s) = 3 + N stages ∧
    wgs s = [0] ∧
    (∀ c ch, chan_at s c = Some ch →
             ch_closed ch = true ∧ (c ≠ 1 → ch_buf ch = [])) ∧
    (∀ k ch, chan_at s (2 + k) = Some ch →
             ch_cap ch = 0 ∧
             ch_taken ch = chain_fn (take k stages) <$> xs).
Proof.
  intros Hne Hroom n s Hrun Hfin.
  destruct (seq_run_start ctx chain stages xs out_cap Hne Hroom n s Hrun)
    as (pc & ws & d & -> & Hinv & _).
  apply (finished_main ctx chain stages xs out_cap Hne Hroom) in Hfin
    as ->.
  destruct (final_counts ctx chain stages xs out_cap Hroom ws d Hinv)
    as (Hth & Hch & Hwg).
  split; [exact Hth|]. split; [exact Hch|]. split; [exact Hwg|]. split.
  - intros c ch Hc.
    destruct (final_chan chain stages xs out_cap Hne Hroom ws d c ch Hinv
                Hc) as (H1 & H2 & _).
    by split.
  - intros k ch Hc.
    destruct (final_chan chain stages xs out_cap Hne Hroom ws d (2 + k)
                ch Hinv Hc) as (_ & _ & H3).
    by apply H3.
Qed.

Lemma Sequential_shuts_down_cleanly_witness :
  let s0 := init (composite "lane" add1_stages) Background [1; 2; 3]%Z 3 in
  ∃ n s,
    steps n s0 s ∧ finished s = true ∧
    length (threads s) = 5 ∧ length (chans s) = 5 ∧ wgs s = [0] ∧
    ∀ ch, chan_at s 3 = Some ch →
          ch_cap ch = 0 ∧ ch_taken ch = [2; 3; 4]%Z.
Proof.
  intros s0.
  assert (add1_stages ≠ []) as Hne by done.
  assert (length [1; 2; 3]%Z ≤ 3) as Hroom by (simpl; lia).
  destruct (seq_reaches_end Background "lane" add1_stages [1; 2; 3]%Z 3
              Hne Hroom) as (n & s & Hrun & Hfin).
  exists n, s. split; [exact Hrun|]. split; [exact Hfin|].
  destruct (Sequential_shuts_down_cleanly Background "lane" add1_stages
              [1; 2; 3]%Z 3 Hne Hroom n s Hrun Hfin)
    as (H1 & H2 & H3 & _ & H5).
  split; [exact H1|]. split; [exact H2|]. split; [exact H3|].
  intros ch Hch. exact (H5 1 ch Hch).
Defined.

(** A Sequential over map leaves holds at most one item per goroutine.
    In every state a run can reach, the channels it has made are
    unbuffered and hold nothing; the feeder has taken at most one item
    more from the input than the first child has taken from the entry
    channel, every child at most one more than the next has taken from
    it, and the drain at most one more than is in the output.  So the
    composite has never taken more than [N + 2] items from its input
    beyond those it has delivered. *)
Theorem Sequential_holds_one_item_per_goroutine {E : Type} (ctx : Context)
    (chain : string) (stages : list (string * (E → E))) (xs : list E)
    (out_cap : nat) :
  stages ≠ [] → length xs ≤ out_cap →
  ∀ n s,
    steps n (init (composite chain stages) ctx xs out_cap) s →
    (∀ c ch, 2 ≤ c → chan_at s c = Some ch →
             ch_cap ch = 0 ∧ ch_buf ch = []) ∧
    length (taken_from s 0) ≤ length (taken_from s 2) + 1 ∧
    (∀ k, k < N stages →
          length (taken_from s (2 + k))
          ≤ length (taken_from s (3 + k)) + 1) ∧
    length (taken_from s (2 + N stages)) ≤ length (output_items s) + 1 ∧
    length (taken_from s 0) ≤ length (output_items s) + N stages + 2.
Proof.
  intros Hne Hroom n s Hrun.
  destruct (seq_run_start ctx chain stages xs out_cap Hne Hroom n s Hrun)
    as (pc & ws & d & -> & Hinv & _).
  change (taken_from (conc (main_prog ctx chain stages pc) ws d))
    with (taken d).
  change (output_items (conc (main_prog ctx chain stages pc) ws d))
    with (queued d 1).
  assert (0 < N stages) as Hpos.
  { unfold N, leaves. rewrite length_fmap. destruct stages; [done|].
    simpl. lia. }
  split; [|split; [|split; [|split]]].
  - intros c ch Hc Hch. change (d_chans d !! c = Some ch) in Hch.
    split; [by apply (si_internal _ _ _ _ _ _ _ Hinv c)|].
    pose proof (internal_empty chain stages xs out_cap Hroom pc ws d c Hinv
                  Hc) as Hq.
    by rewrite (queued_lookup _ _ _ Hch) in Hq.
  - apply (lane_link chain stages xs out_cap Hne Hroom pc ws d 0 Hinv).
    lia.
  - intros k Hk.
    pose proof (lane_link chain stages xs out_cap Hne Hroom pc ws d (S k)
                  Hinv ltac:(lia)) as Hl.
    unfold cin in Hl. rewrite !decide_False in Hl by lia. exact Hl.
  - pose proof (lane_holds_one chain stages xs out_cap Hne Hroom pc ws d
                  (N stages + 1) Hinv (le_n _)) as Hl.
    unfold cin, cout in Hl.
    rewrite !decide_False in Hl by lia.
    replace (1 + (N stages + 1)) with (2 + N stages) in Hl by lia.
    destruct (si_output _ _ _ _ _ _ _ Hinv) as [outq Ho].
    rewrite (sent_lookup _ _ _ Ho) in Hl.
    rewrite (queued_lookup _ _ _ Ho). simpl in *. lia.
  - by apply (seq_in_flight chain stages xs out_cap Hne Hroom pc ws d).
Qed.

Lemma Sequential_holds_one_item_per_goroutine_witness :
  let s0 := init (composite "lane" add1_stages) Background [1; 2; 3]%Z 3 in
  ∃ n s,
    steps n s0 s ∧ finished s = true ∧
    length (taken_from s 0) ≤ length (output_items s) + 4.
Proof.
  intros s0.
  assert (add1_stages ≠ []) as Hne by done.
  assert (length [1; 2; 3]%Z ≤ 3) as Hroom by (simpl; lia).
  destruct (seq_reaches_end Background "lane" add1_stages [1; 2; 3]%Z 3
              Hne Hroom) as (n & s & Hrun & Hfin).
  exists n, s. split; [exact Hrun|]. split; [exact Hfin|].
  destruct (Sequential_holds_one_item_per_goroutine Background "lane"
              add1_stages [1; 2; 3]%Z 3 Hne Hroom n s Hrun)
    as (_ & _ & _ & _ & H5).
  change (N add1_stages) with 2 in H5. lia.
Defined.

End SeqFacts.
(** ** The Fanout composite *)

Module FanFacts.
Import Ctx Runtime Pipeline Runs Network RuntimeFacts NetworkFacts FanModel.
Local Open Scope nat_scope.

Section Model.
Context {E : Type}.
Variables (ctx : Context) (chain : string)
  (stages : list (string * (E → E))) (xs : list E) (out_cap : nat).
Hypothesis stages_nonempty : stages ≠ [].
Hypothesis out_room : N stages * length xs ≤ out_cap.

Local Abbreviation N := (N stages).
Local Abbreviation leaves := (leaves stages).
Local Abbreviation ins := (ins stages).
Local Abbreviation specs := (specs chain stages).
Local Abbreviation main_prog := (main_prog ctx chain stages).
Local Abbreviation fan_inv := (fan_inv chain stages xs out_cap).
Local Abbreviation ins_after := (ins_after stages).
Local Abbreviation outs_after := (outs_after stages).
Local Abbreviation loop_from := (loop_from ctx chain stages).
Local Abbreviation after_merge := (after_merge stages).
Local Abbreviation collector_spec := (@collector_spec E chain).
Local Abbreviation kid_spec := (@kid_spec E).
Local Abbreviation merge_spec := (@merge_spec E).
Local Abbreviation disp_spec := (@disp_spec E chain stages).

Implicit Types (ws : list (worker E)) (d : data E) (pc : fpc).

Ltac chans := unfold cin, cout in *; lia.

(** *** The workers and their code *)

Lemma fan_N_stages : N = length stages.
Proof. unfold FanModel.N, FanModel.leaves. by rewrite length_fmap. Qed.

Lemma fan_N_pos : 0 < N.
Proof. rewrite fan_N_stages. destruct stages; [done|simpl; lia]. Qed.

Lemma fan_pairs_length k (sts : list (string * (E → E))) :
  length (pairs_from k sts) = 2 * length sts.
Proof.
  revert k. induction sts as [|st sts IH]; intros k; [done|].
  cbn [pairs_from length]. rewrite IH. lia.
Qed.

Lemma lookup_cons2 {A} (a b : A) l n : (a :: b :: l) !! S (S n) = l !! n.
Proof. done. Qed.

Lemma fan_pairs_kid k0 (sts : list (string * (E → E))) k st :
  sts !! k = Some st →
  pairs_from k0 sts !! (2 * k) = Some (kid_spec (k0 + k) st.2).
Proof.
  revert k0 k. induction sts as [|a sts IH]; intros k0 [|k] Hk; try done.
  - injection Hk as ->. cbn [pairs_from]. by rewrite (Nat.add_0_r k0).
  - cbn [pairs_from]. replace (2 * S k) with (S (S (2 * k))) by lia.
    rewrite lookup_cons2, (IH (S k0) k Hk).
    do 2 f_equal. lia.
Qed.

Lemma fan_pairs_merge k0 (sts : list (string * (E → E))) k st :
  sts !! k = Some st →
  pairs_from k0 sts !! (1 + 2 * k) = Some (merge_spec (k0 + k)).
Proof.
  revert k0 k. induction sts as [|a sts IH]; intros k0 [|k] Hk; try done.
  - cbn [pairs_from]. by rewrite (Nat.add_0_r k0).
  - cbn [pairs_from]. replace (1 + 2 * S k) with (S (S (1 + 2 * k))) by lia.
    rewrite lookup_cons2, (IH (S k0) k Hk).
    do 2 f_equal. lia.
Qed.

Lemma fan_pairs_cases k0 (sts : list (string * (E → E))) i sp :
  pairs_from k0 sts !! i = Some sp →
  ∃ k st, sts !! k = Some st ∧
    ((i = 2 * k ∧ sp = kid_spec (k0 + k) st.2) ∨
     (i = 1 + 2 * k ∧ sp = merge_spec (k0 + k))).
Proof.
  revert k0 i. induction sts as [|a sts IH]; intros k0 i Hi; [done|].
  cbn [pairs_from] in Hi. destruct i as [|[|i]].
  - injection Hi as <-. exists 0, a. split; [done|]. left.
    by rewrite (Nat.add_0_r k0).
  - injection Hi as <-. exists 0, a. split; [done|]. right.
    by rewrite (Nat.add_0_r k0).
  - rewrite lookup_cons2 in Hi.
    destruct (IH (S k0) i Hi) as (k & st & Hk & Hc).
    exists (S k), st. split; [done|].
    replace (k0 + S k) with (S k0 + k) by lia.
    destruct Hc as [[-> ->]|[-> ->]]; [left|right]; (split; [lia|done]).
Qed.

Lemma fan_specs_length : length specs = 2 + 2 * N.
Proof.
  unfold FanModel.specs. cbn [length].
  rewrite length_app, fan_pairs_length, fan_N_stages. simpl. lia.
Qed.

Lemma fan_specs_collector : specs !! 0 = Some collector_spec.
Proof. done. Qed.

Lemma fan_specs_kid k st :
  stages !! k = Some st → specs !! (1 + 2 * k) = Some (kid_spec k st.2).
Proof.
  intros Hk. unfold FanModel.specs.
  change ((?a :: ?l) !! (1 + 2 * k)) with (l !! (2 * k)).
  pose proof (lookup_lt_Some _ _ _ Hk).
  rewrite lookup_app_l by (rewrite fan_pairs_length; lia).
  by rewrite (fan_pairs_kid 0 _ _ _ Hk).
Qed.

Lemma fan_stage_at k : k < N → ∃ st, stages !! k = Some st.
Proof. rewrite fan_N_stages. apply lookup_lt_is_Some_2. Qed.

Lemma fan_specs_merge k : k < N → specs !! (2 + 2 * k) = Some (merge_spec k).
Proof.
  intros Hk. destruct (fan_stage_at k Hk) as [st Hst].
  unfold FanModel.specs.
  change ((?a :: ?l) !! (2 + 2 * k)) with (l !! (1 + 2 * k)).
  pose proof (lookup_lt_Some _ _ _ Hst).
  rewrite lookup_app_l by (rewrite fan_pairs_length; lia).
  by rewrite (fan_pairs_merge 0 _ _ _ Hst).
Qed.

Lemma fan_specs_disp : specs !! (1 + 2 * N) = Some disp_spec.
Proof.
  unfold FanModel.specs.
  change ((?a :: ?l) !! (1 + 2 * N)) with (l !! (2 * N)).
  rewrite lookup_app_r by (rewrite fan_pairs_length, fan_N_stages; lia).
  rewrite fan_pairs_length, fan_N_stages. by rewrite Nat.sub_diag.
Qed.

Lemma fan_specs_cases j sp :
  specs !! j = Some sp →
  (j = 0 ∧ sp = collector_spec) ∨
  (∃ k st, stages !! k = Some st ∧ j = 1 + 2 * k ∧ sp = kid_spec k st.2) ∨
  (∃ k, k < N ∧ j = 2 + 2 * k ∧ sp = merge_spec k) ∨
  (j = 1 + 2 * N ∧ sp = disp_spec).
Proof.
  intros Hj. unfold FanModel.specs in Hj. destruct j as [|j].
  { injection Hj as <-. by left. }
  right. cbn [lookup list_lookup] in Hj.
  apply lookup_app_Some in Hj as [Hj|[Hge Hj]].
  - apply fan_pairs_cases in Hj as (k & st & Hk & [[-> ->]|[-> ->]]).
    + left. exists k, st. split; [done|]. split; [lia|done].
    + right. left. exists k. split; [|split; [lia|done]].
      rewrite fan_N_stages. by eapply lookup_lt_Some.
  - right. right. apply list_lookup_singleton_Some in Hj as [Hj <-].
    rewrite fan_pairs_length, <- fan_N_stages in Hge, Hj.
    split; [lia|done].
Qed.

(** The input channel of every worker. *)
Lemma fan_spec_in j sp :
  specs !! j = Some sp →
  (j = 0 ∧ ws_in sp = 2) ∨
  (∃ k, k < N ∧ j = 1 + 2 * k ∧ ws_in sp = cin k) ∨
  (∃ k, k < N ∧ j = 2 + 2 * k ∧ ws_in sp = cout k) ∨
  (j = 1 + 2 * N ∧ ws_in sp = 0).
Proof.
  intros Hj.
  apply fan_specs_cases in Hj
    as [[-> ->]|[(k & st & Hk & -> & ->)|[(k & Hk & -> & ->)|[-> ->]]]].
  - by left.
  - right. left. exists k. split; [|done].
    rewrite fan_N_stages. by eapply lookup_lt_Some.
  - right. right. left. by exists k.
  - by do 3 right.
Qed.

Lemma fan_in_inj i j spi spj :
  specs !! i = Some spi → specs !! j = Some spj →
  ws_in spi = ws_in spj → i = j.
Proof.
  intros Hi Hj Heq.
  apply fan_spec_in in Hi
    as [[-> Hi]|[(k & Hk & -> & Hi)|[(k & Hk & -> & Hi)|[-> Hi]]]];
    apply fan_spec_in in Hj
      as [[-> Hj]|[(k' & Hk' & -> & Hj)|[(k' & Hk' & -> & Hj)|[-> Hj]]]];
    rewrite Hi, Hj in Heq; chans.
Qed.

(** *** The children's inputs *)

Lemma fan_ins_elem c : c ∈ ins ↔ ∃ k, k < N ∧ c = cin k.
Proof.
  unfold FanModel.ins. rewrite list_elem_of_fmap. split.
  - intros (k & -> & Hk). apply elem_of_seq in Hk. exists k. split; [lia|done].
  - intros (k & Hk & ->). exists k. split; [done|].
    apply elem_of_seq. lia.
Qed.

Lemma fan_ins_NoDup : NoDup ins.
Proof.
  unfold FanModel.ins. apply NoDup_fmap_2; [|apply NoDup_seq].
  intros a b. unfold cin. lia.
Qed.

Lemma fan_ins_length : length ins = N.
Proof. unfold FanModel.ins. by rewrite length_fmap, length_seq. Qed.

Lemma sends_to_all c (v : E) (l : list nat) :
  NoDup l →
  sends_to c (map (λ procInput, ASend procInput v) (Chan <$> l))
  = if decide (c ∈ l) then [v] else [].
Proof.
  induction 1 as [|a l Ha Hl IH]; [done|].
  cbn [map fmap list_fmap]. rewrite sends_to_send.
  change (list_fmap nat chan Chan l) with (Chan <$> l). rewrite IH.
  destruct (decide (a = c)) as [->|Hne].
  - rewrite decide_False by done.
    rewrite decide_True; [done|]. left.
  - case_decide as Hin.
    + rewrite decide_True; [done|]. by right.
    + rewrite decide_False; [done|].
      intros [?|?]%elem_of_cons; [congruence|done].
Qed.


Lemma fan_disp_sends c v :
  sends_to c (ws_body disp_spec v) = if decide (c ∈ ins) then [v] else [].
Proof.
  cbn [FanModel.disp_spec ws_body]. rewrite sends_to_hook.
  apply sends_to_all, fan_ins_NoDup.
Qed.


Lemma fan_disp_tail_NoDup : NoDup (ws_tail disp_spec).
Proof.
  cbn [FanModel.disp_spec ws_tail]. apply NoDup_app. split; [|split].
  - apply NoDup_fmap_2; [|apply fan_ins_NoDup]. by intros a b [= ->].
  - intros t Ht Ht'. apply list_elem_of_fmap in Ht as (c & -> & _).
    by apply list_elem_of_singleton in Ht'.
  - apply NoDup_singleton.
Qed.

Lemma fan_disp_tail_close c : TClose c ∈ ws_tail disp_spec ↔ c ∈ ins.
Proof.
  cbn [FanModel.disp_spec ws_tail]. rewrite elem_of_app, list_elem_of_fmap.
  split.
  - intros [(c' & [= ->] & Hc)|Hc]; [done|].
    by apply list_elem_of_singleton in Hc.
  - intros Hc. left. by exists c.
Qed.

Lemma fan_disp_tail_done w : TDone w ∈ ws_tail disp_spec → w = 0.
Proof.
  cbn [FanModel.disp_spec ws_tail]. rewrite elem_of_app, list_elem_of_fmap.
  intros [(c' & ? & _)|Hc]; [done|].
  apply list_elem_of_singleton in Hc. by injection Hc.
Qed.

(** *** What the invariant says about a worker *)

Ltac fields H :=
  pose proof H as
    [Hcr Hpc Hsp Hval Hbd Hnch Hinp Hout Hcol Hcaps Hwgs Hchc Hchk Hchd
     Hcnt Hlog Hclk Hcld Hdr Husc Huso Husi Hulog Hutc Huti Huto Hut0
     Hd0 Hd1].

Lemma fan_nspawned_le pc : pc_ok stages pc → nspawned stages pc ≤ 2 + 2 * N.
Proof. destruct pc; simpl; lia. Qed.

Lemma fan_inv_length pc ws d :
  fan_inv pc ws d → length ws = nspawned stages pc.
Proof.
  intros Hinv. fields Hinv.
  apply (f_equal length) in Hsp. rewrite length_fmap, length_take in Hsp.
  pose proof (fan_nspawned_le _ Hpc). rewrite fan_specs_length in Hsp. lia.
Qed.

Lemma fan_inv_spec pc ws d j sp st :
  fan_inv pc ws d → ws !! j = Some (sp, st) →
  specs !! j = Some sp ∧ j < length ws.
Proof.
  intros Hinv Hj. fields Hinv.
  apply (f_equal (λ l, l !! j)) in Hsp.
  rewrite list_lookup_fmap, Hj in Hsp. simpl in Hsp. symmetry in Hsp.
  apply lookup_take_Some in Hsp as [Hsp' Hlt]. split; [done|].
  by eapply lookup_lt_Some.
Qed.

Lemma fan_inv_wvalid pc ws d j sp st :
  fan_inv pc ws d → ws !! j = Some (sp, st) → wvalid (sp, st).
Proof.
  intros Hinv Hj. fields Hinv. by eapply (Forall_lookup_1 _ _ _ _ Hval).
Qed.

Lemma fan_inv_in_inj pc ws d i j spi sti spj stj :
  fan_inv pc ws d →
  ws !! i = Some (spi, sti) → ws !! j = Some (spj, stj) →
  ws_in spi = ws_in spj → i = j.
Proof.
  intros Hinv Hi Hj.
  destruct (fan_inv_spec _ _ _ _ _ _ Hinv Hi) as [Hspi _].
  destruct (fan_inv_spec _ _ _ _ _ _ Hinv Hj) as [Hspj _].
  by eapply fan_in_inj.
Qed.

Lemma elem_of_sends (a : action E) v (l : list nat) :
  a ∈ map (λ procInput, ASend procInput v) (Chan <$> l) →
  ∃ c, c ∈ l ∧ a = ASend (Chan c) v.
Proof.
  induction l as [|b l IH]; [by intros ?%elem_of_nil|].
  cbn [map fmap list_fmap]. intros [->|Hin]%elem_of_cons.
  - exists b. split; [left|done].
  - destruct (IH Hin) as (c & Hc & ->). exists c. split; [by right|done].
Qed.

(** Who sends where. *)
Lemma fan_spec_send j sp (a : action E) v :
  specs !! j = Some sp → a ∈ ws_body sp v →
  (∃ h, a = AHook h) ∨
  ∃ c v', a = ASend (Chan c) v' ∧
    ((j = 0 ∧ c = 1) ∨ (∃ k, k < N ∧ j = 1 + 2 * k ∧ c = cout k) ∨
     (∃ k, k < N ∧ j = 2 + 2 * k ∧ c = 2) ∨ (j = 1 + 2 * N ∧ c ∈ ins)).
Proof.
  intros Hj Ha.
  apply fan_specs_cases in Hj
    as [[-> ->]|[(k & st & Hk & -> & ->)|[(k & Hk & -> & ->)|[-> ->]]]].
  - cbn [FanModel.collector_spec ws_body] in Ha.
    apply elem_of_cons in Ha as [->|Ha]; [left; eauto|].
    apply list_elem_of_singleton in Ha as ->. right.
    eexists _, _. split; [done|]. by left.
  - cbn [FanModel.kid_spec ws_body] in Ha.
    apply list_elem_of_singleton in Ha as ->. right.
    eexists _, _. split; [done|]. right. left. exists k.
    split; [|done]. rewrite fan_N_stages. by eapply lookup_lt_Some.
  - cbn [FanModel.merge_spec ws_body] in Ha.
    apply list_elem_of_singleton in Ha as ->. right.
    eexists _, _. split; [done|]. right. right. left. by exists k.
  - cbn [FanModel.disp_spec ws_body] in Ha.
    apply elem_of_cons in Ha as [->|Ha]; [left; eauto|].
    apply elem_of_sends in Ha as (c & Hc & ->). right.
    eexists _, _. split; [done|]. by do 3 right.
Qed.

Lemma fan_body_head pc ws d i sp a rem :
  fan_inv pc ws d → ws !! i = Some (sp, WBody (a :: rem)) →
  (∃ h, a = AHook h) ∨
  ∃ c v, a = ASend (Chan c) v ∧
    ((i = 0 ∧ c = 1) ∨ (∃ k, k < N ∧ i = 1 + 2 * k ∧ c = cout k) ∨
     (∃ k, k < N ∧ i = 2 + 2 * k ∧ c = 2) ∨ (i = 1 + 2 * N ∧ c ∈ ins)).
Proof.
  intros Hinv Hi. destruct (fan_inv_spec _ _ _ _ _ _ Hinv Hi) as [Hsp _].
  pose proof (fan_inv_wvalid _ _ _ _ _ _ Hinv Hi) as Hv.
  destruct Hv as [_ [v' Hsuf]]. cbn [fst snd] in Hsuf.
  assert (a ∈ ws_body sp v') as Hin.
  { destruct Hsuf as [k ->]. apply elem_of_app. right. left. }
  by eapply fan_spec_send.
Qed.

Lemma fan_sender pc ws d i sp c v rem :
  fan_inv pc ws d →
  ws !! i = Some (sp, WBody (ASend (Chan c) v :: rem)) →
  (i = 0 ∧ c = 1) ∨ (∃ k, k < N ∧ i = 1 + 2 * k ∧ c = cout k) ∨
  (∃ k, k < N ∧ i = 2 + 2 * k ∧ c = 2) ∨ (i = 1 + 2 * N ∧ c ∈ ins).
Proof.
  intros Hinv Hi.
  destruct (fan_body_head _ _ _ _ _ _ _ Hinv Hi)
    as [[h ?]|(c' & v' & [= -> ->] & Hc)]; done.
Qed.

(** The tail of every worker. *)
Lemma fan_spec_tail j sp t :
  specs !! j = Some sp → t ∈ ws_tail sp →
  (t = TDone 1 ∧ j = 0) ∨ (t = TDone 0 ∧ 1 ≤ j) ∨
  (∃ k, k < N ∧ j = 1 + 2 * k ∧ t = TClose (cout k)) ∨
  (∃ c, j = 1 + 2 * N ∧ c ∈ ins ∧ t = TClose c).
Proof.
  intros Hj Ht.
  apply fan_specs_cases in Hj
    as [[-> ->]|[(k & st & Hk & -> & ->)|[(k & Hk & -> & ->)|[-> ->]]]].
  - apply list_elem_of_singleton in Ht as ->. by left.
  - cbn [FanModel.kid_spec ws_tail] in Ht.
    apply elem_of_cons in Ht as [->|Ht].
    + right. right. left. exists k. split; [|done].
      rewrite fan_N_stages. by eapply lookup_lt_Some.
    + apply list_elem_of_singleton in Ht as ->. right. left.
      split; [done|lia].
  - apply list_elem_of_singleton in Ht as ->. right. left.
    split; [done|lia].
  - cbn [FanModel.disp_spec ws_tail] in Ht.
    apply elem_of_app in Ht as [Ht|Ht].
    + apply list_elem_of_fmap in Ht as (c & -> & Hc). do 3 right.
      by exists c.
    + apply list_elem_of_singleton in Ht as ->. right. left.
      split; [done|lia].
Qed.

Lemma fan_tail_head pc ws d i sp t rem :
  fan_inv pc ws d → ws !! i = Some (sp, WTail (t :: rem)) →
  (t = TDone 1 ∧ i = 0) ∨ (t = TDone 0 ∧ 1 ≤ i) ∨
  (∃ k, k < N ∧ i = 1 + 2 * k ∧ t = TClose (cout k)) ∨
  (∃ c, i = 1 + 2 * N ∧ c ∈ ins ∧ t = TClose c).
Proof.
  intros Hinv Hi. destruct (fan_inv_spec _ _ _ _ _ _ Hinv Hi) as [Hsp _].
  pose proof (fan_inv_wvalid _ _ _ _ _ _ Hinv Hi) as Hv.
  unfold wvalid in Hv. cbn [fst snd] in Hv.
  assert (t ∈ ws_tail sp) as Hin.
  { destruct Hv as [k ->]. apply elem_of_app. right. left. }
  by eapply fan_spec_tail.
Qed.

Lemma fan_closer pc ws d i sp c rem :
  fan_inv pc ws d → ws !! i = Some (sp, WTail (TClose c :: rem)) →
  (∃ k, k < N ∧ i = 1 + 2 * k ∧ c = cout k) ∨ (i = 1 + 2 * N ∧ c ∈ ins).
Proof.
  intros Hinv Hi.
  destruct (fan_tail_head _ _ _ _ _ _ _ Hinv Hi)
    as [[? _]|[[? _]|[(k & Hk & -> & [= ->])|(c' & -> & Hc & [= ->])]]];
    try done.
  - left. by exists k.
  - by right.
Qed.

Lemma fan_doner pc ws d i sp w rem :
  fan_inv pc ws d → ws !! i = Some (sp, WTail (TDone w :: rem)) →
  (i = 0 ∧ w = 1) ∨ (1 ≤ i ∧ w = 0).
Proof.
  intros Hinv Hi.
  destruct (fan_tail_head _ _ _ _ _ _ _ Hinv Hi)
    as [[[= ->] ->]|[[[= ->] ?]|[(k & _ & _ & ?)|(c' & _ & _ & ?)]]];
    try done.
  - by left.
  - by right.
Qed.

(** With a worker started, both wait groups exist. *)
Lemma fan_wgs_started pc ws d :
  fan_inv pc ws d → ws ≠ [] →
  d_wgs d = [dones_left 0 ws + pending0 pc; dones_left 1 ws + pending1 pc].
Proof.
  intros Hinv Hne. fields Hinv.
  pose proof (fan_inv_length _ _ _ Hinv) as Hlen.
  rewrite Hwgs. unfold wgs_of.
  destruct pc; try done; simpl in Hlen; by destruct ws.
Qed.

(** No step of the workers panics. *)
Lemma fan_no_crash pc ws d ws' d' :
  fan_inv pc ws d → wtrans ws d ws' d' → d_crashed d' = false.
Proof.
  intros Hinv Htr. fields Hinv.
  destruct Htr as [a spa ch v rest Ha Hch Hbuf|a spa ch Ha Hch Hbuf Hcl
                 |a spa h rem Ha
                 |a spa c0 v rem ch Ha Hch Hcl Hroom
                 |a spa c0 v rem ch Ha Hch Hcl
                 |a b spa spb c0 v rem ch Ha Hb' Hin Hab Hch Hcap Hcl
                 |a spa c0 rem ch Ha Hch Hcl
                 |a spa c0 rem ch Ha Hch Hcl
                 |a spa w0 rem n Ha Hw
                 |a spa w0 rem Ha Hw]; try done; exfalso.
  - (* send on a closed channel *)
    destruct (fan_inv_spec _ _ _ _ _ _ Hinv Ha) as [_ Hlt].
    destruct (fan_sender _ _ _ _ _ _ _ _ Hinv Ha)
      as [[-> ->]|[(k & Hk & -> & ->)|[(k & Hk & -> & ->)|[-> Hc]]]].
    + destruct Hout as [outq Ho]. rewrite Ho in Hch. injection Hch as <-.
      simpl in Hcl. apply bool_decide_eq_true in Hcl as ->.
      by pose proof (Hd1 eq_refl _ _ Ha).
    + pose proof (Hclk k Hk Hlt _ _ Ha) as Hcb.
      rewrite (closed_lookup _ _ _ Hch) in Hcb.
      by apply Hcb in Hcl as (r & ? & _).
    + destruct (Hcol _ Hch) as [_ Hc]. rewrite Hcl in Hc.
      assert (after_wait0 pc = true) as Haw by (by destruct pc).
      by pose proof (Hd0 Haw (2 + 2 * k) _ _ ltac:(lia) Ha).
    + apply fan_ins_elem in Hc as (k & Hk & ->).
      pose proof (Hcld k Hk Hlt _ _ Ha) as Hcb.
      rewrite (closed_lookup _ _ _ Hch) in Hcb.
      by apply Hcb in Hcl as (r & ? & _).
  - (* close of a closed channel *)
    destruct (fan_inv_spec _ _ _ _ _ _ Hinv Ha) as [_ Hlt].
    destruct (fan_closer _ _ _ _ _ _ _ Hinv Ha)
      as [(k & Hk & -> & ->)|[-> Hc]].
    + pose proof (Hclk k Hk Hlt _ _ Ha) as Hcb.
      rewrite (closed_lookup _ _ _ Hch) in Hcb.
      apply Hcb in Hcl as (r & [= <-] & Hr). apply Hr. left.
    + apply fan_ins_elem in Hc as (k & Hk & ->).
      pose proof (Hcld k Hk Hlt _ _ Ha) as Hcb.
      rewrite (closed_lookup _ _ _ Hch) in Hcb.
      apply Hcb in Hcl as (r & [= <-] & Hr). apply Hr. left.
  - (* negative counter *)
    assert (ws ≠ []) as Hne by (intros ->; done).
    rewrite (fan_wgs_started _ _ _ Hinv Hne) in Hw.
    destruct (fan_doner _ _ _ _ _ _ _ Hinv Ha) as [[-> ->]|[Hi ->]].
    + injection Hw as Hw.
      pose proof (dones_of_le 1 _ _ _ Ha) as Hle.
      rewrite dones_of_tail_done in Hle. simpl in Hle. lia.
    + injection Hw as Hw.
      pose proof (dones_of_le 0 _ _ _ Ha) as Hle.
      rewrite dones_of_tail_done in Hle. simpl in Hle. lia.
Qed.

(** *** The invariant holds after every step of the workers *)

Lemma fan_cout_not_in k : cout k ∉ ins.
Proof. intros (k' & _ & Hk)%fan_ins_elem. chans. Qed.

Lemma fan_low_not_in c : c ≤ 2 → c ∉ ins.
Proof. intros Hc (k' & _ & Hk)%fan_ins_elem. chans. Qed.

Lemma fan_inv_wtrans pc ws d ws' d' :
  fan_inv pc ws d → wtrans ws d ws' d' → fan_inv pc ws' d'.
Proof.
  intros Hinv Htr. fields Hinv.
  pose proof (fan_no_crash _ _ _ _ _ Hinv Htr) as Hcrash.
  pose proof (wtrans_length _ _ _ _ Htr) as Hlen.
  pose proof (wtrans_chans_length _ _ _ _ Htr) as Hclen.
  assert (ws ≠ []) as Hne.
  { destruct (wtrans_active _ _ _ _ Htr) as (j & sp & st & Hj & _).
    by intros ->. }
  assert (2 ≤ nchans stages pc) as Hn2 by (destruct pc; simpl; lia).
  assert (∀ i sp v rem c,
            ws !! i = Some (sp, WBody (ASend (Chan c) v :: rem)) →
            c ≠ 0) as Hsend0.
  { intros i sp v rem c Hi ->.
    destruct (fan_sender _ _ _ _ _ _ _ _ Hinv Hi)
      as [[_ ?]|[(k & _ & _ & ?)|[(k & _ & _ & ?)|[_ Hc]]]];
      try chans. by apply (fan_low_not_in 0) in Hc; [|lia]. }
  assert (∀ i sp rem c,
            ws !! i = Some (sp, WTail (TClose c :: rem)) → 3 ≤ c)
    as Hclose3.
  { intros i sp rem c Hi.
    destruct (fan_closer _ _ _ _ _ _ _ Hinv Hi)
      as [(k & _ & _ & ->)|[_ (k & _ & ->)%fan_ins_elem]]; chans. }
  assert (∀ i sp st, ws !! i = Some (sp, st) → ws_in sp ≠ 1) as Hread1.
  { intros i sp st Hi.
    destruct (fan_inv_spec _ _ _ _ _ _ Hinv Hi) as [Hspi _].
    destruct (fan_spec_in _ _ Hspi)
      as [[_ ->]|[(k & _ & _ & ->)|[(k & _ & _ & ->)|[_ ->]]]]; chans. }
  constructor.
  - done.
  - done.
  - by rewrite (wtrans_specs _ _ _ _ Htr).
  - by eapply wtrans_valid.
  - by eapply wtrans_bounded.
  - by rewrite Hclen.
  - (* the input *)
    destruct Hinp as (tin & inq & Hch & Hxs).
    exists (taken d' 0), (queued d' 0).
    rewrite (lookup_chan d' 0) by lia.
    rewrite (wtrans_capacity _ _ _ _ 0 Htr).
    rewrite (wtrans_closed_mono _ _ _ _ 0 Htr)
      by (by rewrite (closed_lookup _ _ _ Hch)).
    unfold capacity. rewrite Hch. simpl. split; [done|].
    change (taken d' 0 ++ queued d' 0) with (sent d' 0).
    rewrite (wtrans_sent_same _ _ _ _ 0 Htr Hbd).
    + by rewrite (sent_lookup _ _ _ Hch).
    + intros i sp v rem Hi. by eapply Hsend0.
  - (* the output *)
    destruct Hout as (outq & Hch).
    exists (queued d' 1).
    rewrite (lookup_chan d' 1) by lia.
    rewrite (wtrans_capacity _ _ _ _ 1 Htr).
    rewrite (wtrans_taken_same _ _ _ _ 1 Htr)
      by (intros i sp Hi; by eapply Hread1).
    rewrite (wtrans_closed_same _ _ _ _ 1 Htr)
      by (intros i sp rem Hi; apply Hclose3 in Hi; lia).
    unfold capacity, taken, closed. by rewrite Hch.
  - (* the collector channel *)
    intros ch Hch.
    pose proof (lookup_lt_Some _ _ _ Hch) as Hlt. rewrite Hclen in Hlt.
    destruct (lookup_lt_is_Some_2 _ _ Hlt) as [ch0 Hch0].
    destruct (Hcol _ Hch0) as [Hcap Hcl].
    pose proof (wtrans_capacity _ _ _ _ 2 Htr) as Hcap'.
    unfold capacity in Hcap'. rewrite Hch, Hch0 in Hcap'.
    pose proof (wtrans_closed_same _ _ _ _ 2 Htr) as Hcl'.
    rewrite (closed_lookup _ _ _ Hch), (closed_lookup _ _ _ Hch0) in Hcl'.
    rewrite Hcap', Hcl'; [done|].
    intros i sp rem Hi. apply Hclose3 in Hi. lia.
  - (* the buffered channels *)
    intros c ch Hc Hch.
    pose proof (wtrans_capacity _ _ _ _ c Htr) as Hcap.
    unfold capacity in Hcap. rewrite Hch in Hcap.
    pose proof (lookup_lt_Some _ _ _ Hch) as Hlt. rewrite Hclen in Hlt.
    destruct (lookup_lt_is_Some_2 _ _ Hlt) as [ch0 Hch0].
    rewrite Hch0 in Hcap. rewrite Hcap. by eapply Hcaps.
  - (* the wait groups *)
    pose proof (fan_wgs_started _ _ _ Hinv Hne) as Hwg.
    assert (nwgs pc = 2) as Hn.
    { pose proof (fan_inv_length _ _ _ Hinv) as Hl.
      destruct pc; try done; simpl in Hl; by destruct ws. }
    unfold wgs_of. rewrite Hn.
    pose proof (wtrans_wgs_length _ _ _ _ Htr) as Hwl.
    rewrite Hwg in Hwl. simpl in Hwl.
    destruct (d_wgs d') as [|x [|y [|]]] eqn:Hd'; try done.
    destruct (wtrans_dones _ _ _ _ 0 Htr) as [[Hd Hw]|(n & Hw & Hw' & Hd)];
      destruct (wtrans_dones _ _ _ _ 1 Htr)
        as [[Hdc Hwc]|(m & Hwc & Hwc' & Hdc)];
      rewrite Hwg in *; rewrite Hd' in *; simplify_eq/=; f_equal; try lia;
      f_equal; lia.
  - (* what the collector has sent *)
    intros Hj. rewrite Hlen in Hj.
    eapply chain_eq_step; [done|done| | | |by apply Hchc].
    + intros i sp v rem Hi.
      destruct (fan_sender _ _ _ _ _ _ _ _ Hinv Hi)
        as [[? _]|[(k & _ & _ & ?)|[(k & _ & _ & ?)|[_ Hc]]]];
        try chans. by apply (fan_low_not_in 1) in Hc; [|lia].
    + intros i spi sti spj stj Hi Hj'. by eapply fan_inv_in_inj.
    + intros sp st Hj'. destruct (fan_inv_spec _ _ _ _ _ _ Hinv Hj') as [Hs _].
      rewrite fan_specs_collector in Hs. by injection Hs as <-.
  - (* what each child has sent *)
    intros k Hk Hj. rewrite Hlen in Hj.
    eapply chain_eq_step; [done|done| | | |by apply Hchk].
    + intros i sp v rem Hi.
      destruct (fan_sender _ _ _ _ _ _ _ _ Hinv Hi)
        as [[_ ?]|[(k' & _ & ? & ?)|[(k' & _ & _ & ?)|[_ Hc]]]];
        try chans. by apply fan_cout_not_in in Hc.
    + intros i spi sti spj stj Hi Hj'. by eapply fan_inv_in_inj.
    + intros sp st Hj'. destruct (fan_inv_spec _ _ _ _ _ _ Hinv Hj') as [Hs _].
      destruct (fan_stage_at k Hk) as [stg Hstg].
      rewrite (fan_specs_kid _ _ Hstg) in Hs. injection Hs as <-.
      cbn [FanModel.kid_spec ws_in]. chans.
  - (* what the dispatcher has sent to each child *)
    intros k Hk Hj. rewrite Hlen in Hj.
    eapply chain_eq_step; [done|done| | | |by apply Hchd].
    + intros i sp v rem Hi.
      destruct (fan_sender _ _ _ _ _ _ _ _ Hinv Hi)
        as [[_ ?]|[(k' & _ & ? & ?)|[(k' & _ & _ & ?)|[? _]]]];
        chans.
    + intros i spi sti spj stj Hi Hj'. by eapply fan_inv_in_inj.
    + intros sp st Hj'. destruct (fan_inv_spec _ _ _ _ _ _ Hinv Hj') as [Hs _].
      rewrite fan_specs_disp in Hs. injection Hs as <-.
      cbn [FanModel.disp_spec ws_in]. chans.
  - (* the count on the collector channel *)
    eapply count_eq_step; [done|done| |done].
    intros i j spi sti spj stj Hi Hj'. by eapply fan_inv_in_inj.
  - (* the order of the dispatcher's sends *)
    eapply log_eq_step; [done| | | |done].
    + intros i sp c v rem Hi Hc.
      destruct (fan_sender _ _ _ _ _ _ _ _ Hinv Hi)
        as [[_ ->]|[(k' & _ & _ & ->)|[(k' & _ & _ & ->)|[? _]]]];
        try done.
      * by apply (fan_low_not_in 1) in Hc; [|lia].
      * by apply fan_cout_not_in in Hc.
      * by apply (fan_low_not_in 2) in Hc; [|lia].
    + intros sp c v rem Hi.
      destruct (fan_sender _ _ _ _ _ _ _ _ Hinv Hi)
        as [[? _]|[(k' & ? & ? & _)|[(k' & ? & ? & _)|[_ ?]]]];
        try lia. done.
    + intros i spi sti spj stj Hi Hj'. by eapply fan_inv_in_inj.
  - (* which child has closed its output *)
    intros k Hk Hj. rewrite Hlen in Hj.
    eapply closed_by_step; [done| | |by apply Hclk].
    + intros i sp rem Hi.
      destruct (fan_closer _ _ _ _ _ _ _ Hinv Hi)
        as [(k' & _ & ? & ?)|[_ Hc]]; [chans|].
      by apply fan_cout_not_in in Hc.
    + intros sp st Hj'.
      destruct (fan_inv_spec _ _ _ _ _ _ Hinv Hj') as [Hs _].
      split; [by eapply fan_inv_wvalid|].
      destruct (fan_stage_at k Hk) as [stg Hstg].
      rewrite (fan_specs_kid _ _ Hstg) in Hs. injection Hs as <-.
      cbn [FanModel.kid_spec ws_tail]. split.
      * apply NoDup_cons. split; [|apply NoDup_singleton].
        by intros ?%list_elem_of_singleton.
      * left.
  - (* which inputs the dispatcher has closed *)
    intros k Hk Hj. rewrite Hlen in Hj.
    eapply closed_by_step; [done| | |by apply Hcld].
    + intros i sp rem Hi.
      destruct (fan_closer _ _ _ _ _ _ _ Hinv Hi)
        as [(k' & _ & ? & ?)|[? _]]; [chans|done].
    + intros sp st Hj'.
      destruct (fan_inv_spec _ _ _ _ _ _ Hinv Hj') as [Hs _].
      split; [by eapply fan_inv_wvalid|].
      rewrite fan_specs_disp in Hs. injection Hs as <-.
      split; [apply fan_disp_tail_NoDup|].
      apply fan_disp_tail_close, fan_ins_elem. by exists k.
  - by eapply tail_drained_step.
  - intros ->. by destruct ws.
  - (* outputs of children not started *)
    intros k Hk Hj. rewrite Hlen in Hj.
    destruct (Huso k Hk Hj) as [Hs Hc]. split.
    + rewrite (wtrans_sent_same _ _ _ _ _ Htr Hbd); [done|].
      intros i sp v rem Hi.
      destruct (fan_inv_spec _ _ _ _ _ _ Hinv Hi) as [_ Hlt].
      destruct (fan_sender _ _ _ _ _ _ _ _ Hinv Hi)
        as [[_ ?]|[(k' & _ & ? & ?)|[(k' & _ & _ & ?)|[_ Hc']]]];
        try chans. by apply fan_cout_not_in in Hc'.
    + rewrite (wtrans_closed_same _ _ _ _ _ Htr); [done|].
      intros i sp rem Hi.
      destruct (fan_inv_spec _ _ _ _ _ _ Hinv Hi) as [_ Hlt].
      destruct (fan_closer _ _ _ _ _ _ _ Hinv Hi)
        as [(k' & _ & ? & ?)|[_ Hc']]; [chans|].
      by apply fan_cout_not_in in Hc'.
  - (* inputs of the children before the dispatcher *)
    intros k Hk Hj. rewrite Hlen in Hj.
    destruct (Husi k Hk Hj) as [Hs Hc]. split.
    + rewrite (wtrans_sent_same _ _ _ _ _ Htr Hbd); [done|].
      intros i sp v rem Hi.
      destruct (fan_inv_spec _ _ _ _ _ _ Hinv Hi) as [_ Hlt].
      destruct (fan_sender _ _ _ _ _ _ _ _ Hinv Hi)
        as [[_ ?]|[(k' & _ & ? & ?)|[(k' & _ & _ & ?)|[? _]]]];
        chans.
    + rewrite (wtrans_closed_same _ _ _ _ _ Htr); [done|].
      intros i sp rem Hi.
      destruct (fan_inv_spec _ _ _ _ _ _ Hinv Hi) as [_ Hlt].
      destruct (fan_closer _ _ _ _ _ _ _ Hinv Hi)
        as [(k' & _ & ? & ?)|[? _]]; [chans|lia].
  - (* the history before the dispatcher *)
    intros Hj. rewrite Hlen in Hj.
    destruct (wtrans_log _ _ _ _ Htr)
      as [->|(i & sp & c & v & rem & Hi & _ & ->)]; [by apply Hulog|].
    rewrite filter_snoc_False; [by apply Hulog|]. cbn [fst]. intros Hc.
    destruct (fan_inv_spec _ _ _ _ _ _ Hinv Hi) as [_ Hlt].
    destruct (fan_sender _ _ _ _ _ _ _ _ Hinv Hi)
      as [[_ ->]|[(k' & _ & _ & ->)|[(k' & _ & _ & ->)|[? _]]]].
    + by apply (fan_low_not_in 1) in Hc; [|lia].
    + by apply fan_cout_not_in in Hc.
    + by apply (fan_low_not_in 2) in Hc; [|lia].
    + lia.
  - intros ->. by destruct ws.
  - (* inputs of children not started *)
    intros k Hk Hj. rewrite Hlen in Hj.
    rewrite (wtrans_taken_same _ _ _ _ _ Htr); [by apply Huti|].
    intros i sp Hi.
    destruct (fan_inv_spec _ _ _ _ _ _ Hinv Hi) as [Hs Hlt].
    destruct (fan_spec_in _ _ Hs)
      as [[_ ->]|[(k' & _ & ? & ->)|[(k' & _ & _ & ->)|[_ ->]]]]; chans.
  - (* outputs of children whose merger is not started *)
    intros k Hk Hj. rewrite Hlen in Hj.
    rewrite (wtrans_taken_same _ _ _ _ _ Htr); [by apply Huto|].
    intros i sp Hi.
    destruct (fan_inv_spec _ _ _ _ _ _ Hinv Hi) as [Hs Hlt].
    destruct (fan_spec_in _ _ Hs)
      as [[_ ->]|[(k' & _ & ? & ->)|[(k' & _ & ? & ->)|[_ ->]]]]; chans.
  - (* the input before the dispatcher *)
    intros Hj. rewrite Hlen in Hj.
    rewrite (wtrans_taken_same _ _ _ _ _ Htr); [by apply Hut0|].
    intros i sp Hi.
    destruct (fan_inv_spec _ _ _ _ _ _ Hinv Hi) as [Hs Hlt].
    destruct (fan_spec_in _ _ Hs)
      as [[_ ->]|[(k' & _ & ? & ->)|[(k' & _ & ? & ->)|[? _]]]]; chans.
  - (* after the first join only the collector moves *)
    intros Haw j sp st Hj1 Hj.
    destruct (wtrans_spec_at _ _ _ _ _ _ _ Htr Hj) as [st0 Hj0].
    pose proof (Hd0 Haw _ _ _ Hj1 Hj0) as ->.
    rewrite (wtrans_returned _ _ _ _ _ _ Htr Hj0) in Hj. by injection Hj.
  - (* after the second join nothing moves *)
    intros Haw. exfalso.
    destruct (wtrans_active _ _ _ _ Htr) as (j & sp & st & Hj & Hst).
    destruct j as [|j].
    + by pose proof (Hd1 Haw _ _ Hj).
    + assert (after_wait0 pc = true) as Haw0 by (by destruct pc).
      by pose proof (Hd0 Haw0 (S j) _ _ ltac:(lia) Hj).
Qed.

(** *** The invariant under the steps of the main goroutine *)

(** Steps that touch neither a channel nor a worker. *)
Lemma fan_inv_same_chans pc pc' ws d d' :
  fan_inv pc ws d → d_chans d' = d_chans d → d_log d' = d_log d →
  d_crashed d' = false →
  pc_ok stages pc' → nspawned stages pc' = nspawned stages pc →
  nchans stages pc' = nchans stages pc → pc ≠ FRet → pc' ≠ FRet →
  after_close pc' = after_close pc →
  d_wgs d' = wgs_of pc' ws →
  (after_wait0 pc' = true →
   ∀ j sp st, 1 ≤ j → ws !! j = Some (sp, st) → st = WTail []) →
  (after_wait1 pc' = true →
   ∀ sp st, ws !! 0 = Some (sp, st) → st = WTail []) →
  fan_inv pc' ws d'.
Proof.
  intros Hinv Hch Hlg Hcr' Hok Hns Hnc Hne Hne' Hac Hwg Hdone0 Hdone1.
  destruct d as [chs wg cr lg], d' as [chs' wg' cr' lg'].
  simpl in Hch, Hcr', Hwg, Hlg. subst chs' cr' lg'.
  fields Hinv.
  constructor; try done.
  - by rewrite Hns.
  - simpl in *. by rewrite Hnc.
  - destruct Hout as [outq Ho]. exists outq.
    rewrite bool_decide_eq_false_2 in Ho by done.
    by rewrite bool_decide_eq_false_2 by done.
  - intros ch Hc. rewrite Hac. by apply Hcol.
Qed.

Lemma fan_spec_dones j sp :
  specs !! j = Some sp →
  dones_of 0 (sp, WHead) = (if decide (j = 0) then 0 else 1) ∧
  dones_of 1 (sp, WHead) = (if decide (j = 0) then 1 else 0).
Proof.
  intros Hj. unfold dones_of, rtail. cbn [fst snd].
  apply fan_specs_cases in Hj
    as [[-> ->]|[(k & st & Hk & -> & ->)|[(k & Hk & -> & ->)|[-> ->]]]];
    try done.
  cbn [FanModel.disp_spec ws_tail]. rewrite !filter_app, !length_app.
  assert (∀ w l, filter (λ t, t = TDone w) (TClose <$> l) = []) as Hno.
  { intros w l. induction l as [|a l IH]; [done|].
    cbn [fmap list_fmap]. by rewrite filter_cons_False. }
  rewrite !Hno. pose proof fan_N_pos. by rewrite decide_False by lia.
Qed.

(** The channel a worker about to be started will read is untouched,
    and nothing is owed to the collector on its account. *)
Lemma fan_fresh_owed pc ws d sp :
  fan_inv pc ws d → specs !! length ws = Some sp → owed 2 d sp = 0.
Proof.
  intros Hinv Hsp'. fields Hinv.
  destruct (fan_specs_cases _ _ Hsp')
    as [[Hl ->]|[(k & st & Hk & Hl & ->)|[(k & Hk & Hl & ->)|[Hl ->]]]].
  - by apply owed_no_sends.
  - by apply owed_no_sends.
  - apply owed_untaken. cbn [FanModel.merge_spec ws_in].
    apply Huto; [done|lia].
  - apply owed_untaken. cbn [FanModel.disp_spec ws_in].
    apply Hut0. lia.
Qed.

(** [go]: the next goroutine is started. *)
Lemma fan_inv_spawn pc pc' ws d sp :
  fan_inv pc ws d → specs !! (length ws) = Some sp →
  pc_ok stages pc' → nspawned stages pc' = S (nspawned stages pc) →
  nchans stages pc' = nchans stages pc → pc ≠ FRet → pc' ≠ FRet →
  nwgs pc = 2 → nwgs pc' = 2 →
  after_close pc = false → after_wait0 pc' = false →
  dones_of 0 (sp, WHead) + pending0 pc' = pending0 pc →
  dones_of 1 (sp, WHead) + pending1 pc' = pending1 pc →
  fan_inv pc' (ws ++ [(sp, WHead)]) d.
Proof.
  intros Hinv Hsp' Hok Hns Hnc Hne Hne' Hw Hw' Hac Haw Hp0 Hp1.
  fields Hinv.
  pose proof (fan_inv_length _ _ _ Hinv) as Hlen.
  pose proof (lookup_lt_Some _ _ _ Hsp') as HltN.
  rewrite fan_specs_length in HltN.
  assert (after_close pc' = false) as Hac' by (by destruct pc').
  assert (after_wait1 pc' = false) as Haw1 by (by destruct pc').
  constructor.
  - done.
  - done.
  - rewrite fmap_app, Hns, Hsp. cbn [fmap list_fmap fst].
    rewrite Hlen in Hsp'. by rewrite (take_S_r _ _ _ Hsp').
  - apply Forall_app. split; [done|]. by apply Forall_singleton.
  - done.
  - by rewrite Hnc.
  - done.
  - destruct Hout as [outq Ho]. exists outq.
    rewrite bool_decide_eq_false_2 in Ho by done.
    by rewrite bool_decide_eq_false_2 by done.
  - intros ch Hc. rewrite Hac', <- Hac. by apply Hcol.
  - done.
  - rewrite Hwgs. unfold wgs_of. rewrite Hw, Hw'.
    rewrite !dones_left_app_one. f_equal; [lia|]. f_equal. lia.
  - intros _. apply chain_eq_spawn.
    + done.
    + intros Hl. rewrite <- Hl, fan_specs_collector in Hsp'.
      injection Hsp' as <-.
      assert (ws = []) as Hnil by (by destruct ws).
      split; [by apply Husc|by apply Hutc].
  - intros k Hk _. apply chain_eq_spawn.
    + by apply Hchk.
    + intros Hl. destruct (fan_stage_at k Hk) as [st Hst].
      rewrite <- Hl, (fan_specs_kid _ _ Hst) in Hsp'. injection Hsp' as <-.
      split; [apply Huso; [done|lia]|apply Huti; [done|lia]].
  - intros k Hk _. apply chain_eq_spawn.
    + by apply Hchd.
    + intros Hl. rewrite <- Hl, fan_specs_disp in Hsp'.
      injection Hsp' as <-.
      split; [apply Husi; [done|lia]|apply Hut0; lia].
  - apply count_eq_spawn; [done|]. by eapply fan_fresh_owed.
  - apply log_eq_spawn.
    + intros _. done.
    + intros Hl. rewrite <- Hl, fan_specs_disp in Hsp'.
      injection Hsp' as <-.
      split; [apply Hulog; lia|apply Hut0; lia].
  - intros k Hk _. apply closed_by_spawn.
    + by apply Hclk.
    + intros Hl. apply Huso; [done|lia].
  - intros k Hk _. apply closed_by_spawn.
    + by apply Hcld.
    + intros Hl. apply Husi; [done|lia].
  - by apply tail_drained_spawn.
  - intros Habs. by destruct ws.
  - intros k Hk Hl. rewrite length_app in Hl. apply Huso; [done|lia].
  - intros k Hk Hl. rewrite length_app in Hl. apply Husi; [done|lia].
  - intros Hl. rewrite length_app in Hl. apply Hulog. lia.
  - intros Habs. by destruct ws.
  - intros k Hk Hl. rewrite length_app in Hl. apply Huti; [done|lia].
  - intros k Hk Hl. rewrite length_app in Hl. apply Huto; [done|lia].
  - intros Hl. rewrite length_app in Hl. apply Hut0. lia.
  - by rewrite Haw.
  - by rewrite Haw1.
Qed.

(** [make(chan E, cap)]: one more channel. *)
Lemma fan_inv_alloc_chan pc pc' ws d cap :
  fan_inv pc ws d → pc_ok stages pc' →
  nspawned stages pc' = nspawned stages pc →
  nchans stages pc' = S (nchans stages pc) →
  cap = (if decide (nchans stages pc = 2) then 0 else 200) →
  pc ≠ FRet → pc' ≠ FRet →
  wgs_of pc' ws = wgs_of pc ws → after_close pc = false →
  after_wait0 pc' = false →
  fan_inv pc' ws (d_alloc_chan cap d).
Proof.
  intros Hinv Hok Hns Hnc Hcap Hne Hne' Hw Hac Haw.
  fields Hinv.
  assert (2 ≤ nchans stages pc) as Hn2 by (destruct pc; simpl; lia).
  assert (after_close pc' = false) as Hac' by (by destruct pc').
  assert (after_wait1 pc' = false) as Haw1 by (by destruct pc').
  constructor.
  - done.
  - done.
  - by rewrite Hns.
  - done.
  - by apply bounded_alloc.
  - cbn [d_alloc_chan d_chans]. rewrite length_app, Hnc, Hnch. simpl. lia.
  - destruct Hinp as (tin & inq & Hch & Hxs).
    exists tin, inq. split; [|done]. cbn [d_alloc_chan d_chans].
    by rewrite lookup_app_l by lia.
  - destruct Hout as [outq Ho]. exists outq.
    cbn [d_alloc_chan d_chans]. rewrite lookup_app_l by lia.
    rewrite bool_decide_eq_false_2 in Ho by done.
    by rewrite bool_decide_eq_false_2 by done.
  - intros ch Hch. cbn [d_alloc_chan d_chans] in Hch. rewrite Hac'.
    apply lookup_app_Some in Hch as [Hch|[Hge Hch]].
    + rewrite <- Hac. by apply Hcol.
    + apply list_lookup_singleton_Some in Hch as [Hl <-].
      rewrite decide_True in Hcap by lia. by subst cap.
  - intros c ch Hc Hch. cbn [d_alloc_chan d_chans] in Hch.
    apply lookup_app_Some in Hch as [Hch|[Hge Hch]].
    + by apply (Hcaps c).
    + apply list_lookup_singleton_Some in Hch as [Hl <-].
      rewrite decide_False in Hcap by lia. by subst cap.
  - by rewrite Hw.
  - intros Hl. by apply chain_eq_alloc, Hchc.
  - intros k Hk Hl. by apply chain_eq_alloc, Hchk.
  - intros k Hk Hl. by apply chain_eq_alloc, Hchd.
  - by apply count_eq_alloc.
  - by apply log_eq_alloc.
  - intros k Hk Hl. by apply closed_by_alloc, Hclk.
  - intros k Hk Hl. by apply closed_by_alloc, Hcld.
  - by apply tail_drained_alloc.
  - intros Hl. rewrite sent_alloc_chan. by apply Husc.
  - intros k Hk Hl. rewrite sent_alloc_chan, closed_alloc_chan.
    by apply Huso.
  - intros k Hk Hl. rewrite sent_alloc_chan, closed_alloc_chan.
    by apply Husi.
  - done.
  - intros Hl. rewrite taken_alloc_chan. by apply Hutc.
  - intros k Hk Hl. rewrite taken_alloc_chan. by apply Huti.
  - intros k Hk Hl. rewrite taken_alloc_chan. by apply Huto.
  - intros Hl. rewrite taken_alloc_chan. by apply Hut0.
  - by rewrite Haw.
  - by rewrite Haw1.
Qed.

(** [close(fanoutCollector)] and [close(output)]. *)
Lemma fan_inv_close pc pc' ws d c ch :
  fan_inv pc ws d → d_chans d !! c = Some ch →
  (c = 2 ∧ pc = FCloseC ∧ pc' = FWaitC) ∨
  (c = 1 ∧ pc = FClose ∧ pc' = FRet) →
  fan_inv pc' ws (d_set_chan c (ch_close ch) d).
Proof.
  intros Hinv Hch Hcase. fields Hinv.
  pose proof (fan_inv_length _ _ _ Hinv) as Hlen.
  assert (c = 1 ∨ c = 2) as Hc12 by (destruct Hcase as [[? _]|[? _]]; lia).
  assert (nspawned stages pc = 2 + 2 * N ∧
          nspawned stages pc' = 2 + 2 * N ∧
          nchans stages pc' = nchans stages pc ∧
          wgs_of pc' ws = wgs_of pc ws ∧ after_wait0 pc = true ∧
          (after_wait1 pc' = true → after_wait1 pc = true))
    as (Hns & Hns' & Hnc & Hw & Haw0 & Haw1).
  { by destruct Hcase as [(_ & -> & ->)|(_ & -> & ->)]. }
  rewrite Hns in Hlen.
  constructor.
  - done.
  - by destruct Hcase as [(_ & -> & ->)|(_ & -> & ->)].
  - by rewrite Hns', <- Hns.
  - done.
  - by apply bounded_close.
  - cbn [d_set_chan d_chans]. by rewrite length_insert, Hnc.
  - destruct Hinp as (tin & inq & Hi & Hxs).
    exists tin, inq. split; [|done].
    by rewrite lookup_set_chan_ne by lia.
  - destruct Hout as [outq Ho]. exists outq.
    destruct Hcase as [(-> & -> & ->)|(-> & -> & ->)].
    + by rewrite lookup_set_chan_ne by lia.
    + rewrite (lookup_set_chan_eq _ _ _ _ Hch).
      rewrite Hch in Ho. by injection Ho as ->.
  - intros ch' Hc'.
    destruct Hcase as [(-> & -> & ->)|(-> & -> & ->)].
    + rewrite (lookup_set_chan_eq _ _ _ _ Hch) in Hc'.
      injection Hc' as <-. destruct (Hcol _ Hch) as [Hcap _]. done.
    + rewrite lookup_set_chan_ne in Hc' by lia. by apply Hcol.
  - intros c' ch' Hc' Hch'. rewrite lookup_set_chan_ne in Hch' by lia.
    by apply (Hcaps c').
  - by rewrite Hw.
  - intros Hl. by apply chain_eq_close, Hchc.
  - intros k Hk Hl. by apply chain_eq_close, Hchk.
  - intros k Hk Hl. by apply chain_eq_close, Hchd.
  - by apply count_eq_close.
  - by apply log_eq_close.
  - intros k Hk Hl. apply closed_by_close; [done|chans|by apply Hclk].
  - intros k Hk Hl. apply closed_by_close; [done|chans|by apply Hcld].
  - by apply tail_drained_close.
  - intros ->. simpl in Hlen. lia.
  - intros k Hk Hl. lia.
  - intros k Hk Hl. lia.
  - intros Hl. lia.
  - intros ->. simpl in Hlen. lia.
  - intros k Hk Hl. lia.
  - intros k Hk Hl. lia.
  - intros Hl. lia.
  - intros _. by apply Hd0.
  - intros Haw. by apply Hd1, Haw1.
Qed.

(** *** The code of the main goroutine, position by position *)

Lemma fan_ins_after_length k : k ≤ N → length (ins_after k) = N.
Proof.
  intros Hk. unfold FanModel.ins_after.
  rewrite length_app, !length_fmap, length_seq, length_replicate. lia.
Qed.

Lemma fan_outs_after_length k : k ≤ N → length (outs_after k) = N.
Proof.
  intros Hk. unfold FanModel.outs_after.
  rewrite length_app, !length_fmap, length_seq, length_replicate. lia.
Qed.

Lemma fan_ins_after_0 : ins_after 0 = make_slice N.
Proof.
  unfold FanModel.ins_after, make_slice. simpl. by rewrite Nat.sub_0_r.
Qed.

Lemma fan_outs_after_0 : outs_after 0 = make_slice N.
Proof.
  unfold FanModel.outs_after, make_slice. simpl. by rewrite Nat.sub_0_r.
Qed.

Lemma fan_ins_after_N : ins_after N = Chan <$> ins.
Proof.
  unfold FanModel.ins_after, FanModel.ins.
  by rewrite Nat.sub_diag, app_nil_r.
Qed.

Lemma fan_slice_set_ins k :
  k < N → slice_set (ins_after k) k (Chan (cin k)) = Some (ins_after (S k)).
Proof.
  intros Hk. unfold slice_set.
  rewrite decide_True by (rewrite fan_ins_after_length; lia). f_equal.
  unfold FanModel.ins_after.
  rewrite insert_app_r_alt by (rewrite !length_fmap, length_seq; lia).
  rewrite !length_fmap, length_seq, Nat.sub_diag.
  replace (N - k) with (S (N - S k)) by lia.
  rewrite seq_S, !fmap_app, <- app_assoc. done.
Qed.

Lemma fan_slice_set_outs k :
  k < N →
  slice_set (outs_after k) k (Chan (cout k)) = Some (outs_after (S k)).
Proof.
  intros Hk. unfold slice_set.
  rewrite decide_True by (rewrite fan_outs_after_length; lia). f_equal.
  unfold FanModel.outs_after.
  rewrite insert_app_r_alt by (rewrite !length_fmap, length_seq; lia).
  rewrite !length_fmap, length_seq, Nat.sub_diag.
  replace (N - k) with (S (N - S k)) by lia.
  rewrite seq_S, !fmap_app, <- app_assoc. done.
Qed.

Lemma fan_leaf_at_stage k st :
  stages !! k = Some st → leaf_at stages k = leaf st.
Proof.
  intros Hk. unfold FanModel.leaf_at. apply nth_lookup_Some with (d := NilProcessor).
  unfold FanModel.leaves. by rewrite list_lookup_fmap, Hk.
Qed.

Lemma fan_leaves_drop k :
  k < N → drop k leaves = leaf_at stages k :: drop (S k) leaves.
Proof.
  intros Hk. destruct (fan_stage_at k Hk) as [st Hst].
  rewrite (fan_leaf_at_stage _ _ Hst). apply drop_S.
  unfold FanModel.leaves. by rewrite list_lookup_fmap, Hst.
Qed.

Lemma fan_loop_from_next k : k < N → loop_from k = main_prog (FIn k).
Proof.
  intros Hk. unfold FanModel.loop_from.
  by rewrite (fan_leaves_drop k Hk).
Qed.

Lemma fan_entry_loop : entry_loop ctx chain stages = main_prog (FIn 0).
Proof.
  rewrite <- (fan_loop_from_next 0 fan_N_pos).
  unfold FanModel.loop_from, FanModel.entry_loop.
  by rewrite drop_0, fan_ins_after_0, fan_outs_after_0.
Qed.

Lemma fan_loop_from_end : loop_from N = main_prog FAddDisp.
Proof.
  unfold FanModel.loop_from.
  rewrite drop_ge by (by unfold FanModel.N). done.
Qed.

Lemma fan_loop_from_after_merge k :
  k < N → loop_from (S k) = main_prog (after_merge k).
Proof.
  intros Hk. unfold FanModel.after_merge. case_decide.
  - by apply fan_loop_from_next.
  - assert (S k = N) as -> by lia. apply fan_loop_from_end.
Qed.

Lemma fan_iteration_step k :
  k < N →
  fanout_iteration (exec ctx) 0 (Chan 2) (leaf_at stages k) k
    (ins_after k) (outs_after k) (rest_of_iteration ctx chain stages k)
    (Chan (cin k)) (Chan (cout k))
  = main_prog (FAddKid k).
Proof.
  intros Hk. unfold fanout_iteration.
  by rewrite fan_slice_set_ins, fan_slice_set_outs.
Qed.

Lemma fan_collector_wprog :
  collector_call chain = wprog (collector_spec, WHead).
Proof. done. Qed.

Lemma fan_child_wprog k st :
  stages !! k = Some st →
  child_call ctx stages k = wprog (kid_spec k st.2, WHead).
Proof.
  intros Hk. unfold FanModel.child_call.
  by rewrite (fan_leaf_at_stage _ _ Hk).
Qed.

Lemma fan_merge_wprog k : merge_call k = wprog (merge_spec k, WHead).
Proof. done. Qed.

Lemma fan_close_all (l : list nat) (k : prog E) :
  close_all (Chan <$> l) k = foldr run_tact k (TClose <$> l).
Proof. induction l as [|a l IH]; [done|]. cbn. by rewrite <- IH. Qed.

Lemma fan_disp_wprog : disp_call chain stages = wprog (disp_spec, WHead).
Proof.
  unfold FanModel.disp_call, fanout_dispatcher.
  rewrite fan_ins_after_N, fan_close_all.
  unfold wprog, wloop, tail_prog. cbn [fst snd FanModel.disp_spec ws_in ws_body ws_tail].
  by rewrite foldr_app.
Qed.

Lemma fan_main_new_wg :
  main_prog FNewWg = NewWaitGroup (λ wg,
    NewWaitGroup (λ collectorWg,
    MakeChan 0 (λ fanoutCollector,
    WgAdd collectorWg 1
    (Go (forward_tracked (self chain) collectorWg fanoutCollector output)
    (fanout_spawn (exec ctx) wg fanoutCollector leaves 0
       (make_slice N) (make_slice N)
       (fanout_finish (self chain) wg collectorWg fanoutCollector
          input output Ret)))))).
Proof.
  cbn [FanModel.main_prog]. unfold FanModel.after_hooks.
  rewrite decide_False; [done|]. pose proof fan_N_pos as HN.
  unfold FanModel.N in HN. lia.
Qed.

(** *** One step of the main goroutine *)

Local Abbreviation measure := (FanModel.measure stages).
Local Abbreviation wt := (FanModel.wt stages).

Lemma suffix_snoc_cases {A} (rem l : list A) x :
  rem `suffix_of` (l ++ [x]) → rem = [] ∨ x ∈ rem.
Proof.
  intros [k Hk]. destruct rem as [|y rem _] using rev_ind; [by left|].
  right. rewrite app_assoc in Hk. apply app_inj_tail in Hk as [_ ->].
  apply elem_of_app. right. left.
Qed.

Lemma fan_spec_tail_last j sp :
  specs !! j = Some sp →
  ∃ l, ws_tail sp = l ++ [TDone (if decide (j = 0) then 1 else 0)].
Proof.
  intros Hj. pose proof fan_N_pos.
  apply fan_specs_cases in Hj
    as [[-> ->]|[(k & st & Hk & -> & ->)|[(k & Hk & -> & ->)|[-> ->]]]].
  - by exists [].
  - by exists [TClose (cout k)].
  - by exists [].
  - exists (TClose <$> ins). by rewrite decide_False by lia.
Qed.

(** A worker that owes no [Done()] to its wait group has returned. *)
Lemma fan_no_dones pc ws d j sp st :
  fan_inv pc ws d → ws !! j = Some (sp, st) →
  dones_left (if decide (j = 0) then 1 else 0) ws = 0 →
  st = WTail [].
Proof.
  intros Hinv Hj H0.
  pose proof (dones_of_le (if decide (j = 0) then 1 else 0) _ _ _ Hj)
    as Hle.
  rewrite H0 in Hle.
  destruct (fan_inv_spec _ _ _ _ _ _ Hinv Hj) as [Hsp _].
  destruct (fan_spec_dones _ _ Hsp) as [Hd0 Hd1].
  pose proof (fan_inv_wvalid _ _ _ _ _ _ Hinv Hj) as Hv.
  destruct st as [|r|rem].
  - case_decide; lia.
  - change (dones_of ?w (sp, WBody r)) with (dones_of w (sp, WHead)) in Hle.
    case_decide; lia.
  - unfold wvalid in Hv. cbn [fst snd] in Hv.
    destruct (fan_spec_tail_last _ _ Hsp) as [l Hl]. rewrite Hl in Hv.
    apply suffix_snoc_cases in Hv as [->|Hin]; [done|]. exfalso.
    unfold dones_of, rtail in Hle. cbn [fst snd] in Hle.
    assert (TDone (if decide (j = 0) then 1 else 0)
            ∈ filter (λ t, t = TDone (if decide (j = 0) then 1 else 0))
                rem) as Hf by (by apply list_elem_of_filter).
    destruct (filter _ rem); [by apply elem_of_nil in Hf|].
    simpl in Hle. lia.
Qed.

Lemma fan_main_step pc ws d s' :
  fan_inv pc ws d →
  local_step 0 (main_prog pc) (conc (main_prog pc) ws d) = Some s' →
  ∃ pc' ws' d',
    s' = conc (main_prog pc') ws' d' ∧ fan_inv pc' ws' d' ∧
    measure pc' ws' d' < measure pc ws d.
Proof.
  intros Hinv Hstep. fields Hinv.
  pose proof (fan_inv_length _ _ _ Hinv) as Hlen.
  pose proof fan_N_pos as HN.
  unfold FanModel.measure.
  destruct pc as [| | | | | | |k|k|k|k|k|k| | | | | | | |];
    unfold wgs_of in Hwgs;
    cbn [nwgs pending0 pending1 nchans nspawned pc_ok]
      in Hwgs, Hnch, Hlen, Hpc.
  - (* Log *)
    change (main_prog FLog)
      with (Hook (HLog (self chain) "starting") (main_prog FTrack))
      in Hstep.
    rewrite main_step_hook in Hstep. injection Hstep as <-.
    exists FTrack, ws, d. split; [done|]. split.
    + apply (fan_inv_same_chans _ _ _ _ _ Hinv); try done.
    + cbn [main_measure]. lia.
  - (* TrackStarted *)
    change (main_prog FTrack)
      with (Hook (HTrackStarted (self chain)) (main_prog FNewWg)) in Hstep.
    rewrite main_step_hook in Hstep. injection Hstep as <-.
    exists FNewWg, ws, d. split; [done|]. split.
    + apply (fan_inv_same_chans _ _ _ _ _ Hinv); try done.
    + cbn [main_measure]. lia.
  - (* wg := sync.WaitGroup{} *)
    rewrite fan_main_new_wg, main_step_new_wg, Hwgs in Hstep.
    injection Hstep as <-.
    exists FNewCwg, ws, (d_alloc_wg d). split; [done|]. split.
    + apply (fan_inv_same_chans _ _ _ _ _ Hinv); try done.
      cbn [d_alloc_wg d_wgs]. by rewrite Hwgs.
    + rewrite net_measure_alloc_wg. cbn [main_measure]. lia.
  - (* collectorWg := sync.WaitGroup{} *)
    cbn [FanModel.main_prog] in Hstep.
    rewrite main_step_new_wg, Hwgs in Hstep.
    injection Hstep as <-.
    exists FCollector, ws, (d_alloc_wg d). split; [done|]. split.
    + apply (fan_inv_same_chans _ _ _ _ _ Hinv); try done.
      cbn [d_alloc_wg d_wgs]. rewrite Hwgs. by destruct ws.
    + rewrite net_measure_alloc_wg. cbn [main_measure]. lia.
  - (* fanoutCollector := make(chan E) *)
    cbn [FanModel.main_prog] in Hstep.
    rewrite main_step_make_chan, Hnch in Hstep.
    injection Hstep as <-.
    exists FAddC, ws, (d_alloc_chan 0 d). split; [done|]. split.
    + apply (fan_inv_alloc_chan _ _ _ _ _ Hinv); try done.
    + rewrite net_measure_alloc_chan. cbn [main_measure]. lia.
  - (* collectorWg.Add(1) *)
    cbn [FanModel.main_prog] in Hstep.
    rewrite (main_step_wg_add _ _ _ 1 (dones_left 1 ws + 0)) in Hstep
      by (by rewrite Hwgs).
    injection Hstep as <-.
    exists FGoC, ws, (d_set_wg 1 (dones_left 1 ws + 0 + 1) d).
    split; [done|]. split.
    + apply (fan_inv_same_chans _ _ _ _ _ Hinv); try done.
      cbn [d_set_wg d_wgs]. rewrite Hwgs. unfold wgs_of.
      cbn. do 2 f_equal. lia.
    + rewrite net_measure_set_wg. cbn [main_measure]. lia.
  - (* go collector *)
    cbn [FanModel.main_prog] in Hstep.
    rewrite fan_collector_wprog, fan_entry_loop, main_step_go in Hstep.
    injection Hstep as <-.
    exists (FIn 0), (ws ++ [(collector_spec, WHead)]), d.
    split; [done|]. split.
    + assert (specs !! length ws = Some collector_spec) as Hspec
        by (by rewrite Hlen).
      apply (fan_inv_spawn _ _ _ _ _ Hinv Hspec); try done.
    + rewrite net_measure_spawn. cbn [FanModel.collector_spec ws_tail length].
      cbn [main_measure]. lia.
  - (* procInput := make(chan E, 200) *)
    cbn [FanModel.main_prog] in Hstep.
    rewrite main_step_make_chan, Hnch in Hstep.
    injection Hstep as <-.
    exists (FOut k), ws, (d_alloc_chan 200 d). split; [done|]. split.
    + apply (fan_inv_alloc_chan _ _ _ _ _ Hinv); try done; simpl;
        first [lia|by rewrite decide_False by lia].
    + rewrite net_measure_alloc_chan. cbn [main_measure]. lia.
  - (* procOutput := make(chan E, 200) *)
    cbn [FanModel.main_prog] in Hstep.
    rewrite main_step_make_chan, Hnch in Hstep.
    change (Chan (4 + 2 * k)) with (Chan (cout k)) in Hstep.
    rewrite (fan_iteration_step k Hpc) in Hstep.
    injection Hstep as <-.
    exists (FAddKid k), ws, (d_alloc_chan 200 d). split; [done|]. split.
    + apply (fan_inv_alloc_chan _ _ _ _ _ Hinv); try done; simpl;
        first [lia|by rewrite decide_False by lia].
    + rewrite net_measure_alloc_chan. cbn [main_measure]. lia.
  - (* wg.Add(1) for the child *)
    change (main_prog (FAddKid k)) with (WgAdd 0 1 (main_prog (FGoKid k)))
      in Hstep.
    rewrite (main_step_wg_add _ _ _ 0 (dones_left 0 ws + 0)) in Hstep
      by (by rewrite Hwgs).
    injection Hstep as <-.
    exists (FGoKid k), ws, (d_set_wg 0 (dones_left 0 ws + 0 + 1) d).
    split; [done|]. split.
    + apply (fan_inv_same_chans _ _ _ _ _ Hinv); try done.
      cbn [d_set_wg d_wgs]. rewrite Hwgs. unfold wgs_of.
      cbn. f_equal. lia.
    + rewrite net_measure_set_wg. cbn [main_measure]. lia.
  - (* go child *)
    destruct (fan_stage_at k Hpc) as [st Hst].
    change (main_prog (FGoKid k))
      with (Go (child_call ctx stages k) (main_prog (FAddMerge k)))
      in Hstep.
    rewrite (fan_child_wprog _ _ Hst), main_step_go in Hstep.
    injection Hstep as <-.
    exists (FAddMerge k), (ws ++ [(kid_spec k st.2, WHead)]), d.
    split; [done|]. split.
    + assert (specs !! length ws = Some (kid_spec k st.2)) as Hspec
        by (rewrite Hlen; by apply fan_specs_kid).
      apply (fan_inv_spawn _ _ _ _ _ Hinv Hspec); try done;
        simpl; lia.
    + rewrite net_measure_spawn. cbn [FanModel.kid_spec ws_tail length].
      cbn [main_measure]. lia.
  - (* wg.Add(1) for the merger *)
    change (main_prog (FAddMerge k))
      with (WgAdd 0 1 (main_prog (FGoMerge k))) in Hstep.
    rewrite (main_step_wg_add _ _ _ 0 (dones_left 0 ws + 0)) in Hstep
      by (by rewrite Hwgs).
    injection Hstep as <-.
    exists (FGoMerge k), ws, (d_set_wg 0 (dones_left 0 ws + 0 + 1) d).
    split; [done|]. split.
    + apply (fan_inv_same_chans _ _ _ _ _ Hinv); try done.
      cbn [d_set_wg d_wgs]. rewrite Hwgs. unfold wgs_of.
      cbn. f_equal. lia.
    + rewrite net_measure_set_wg. cbn [main_measure]. lia.
  - (* go merger *)
    cbn [FanModel.main_prog] in Hstep.
    rewrite fan_merge_wprog, (fan_loop_from_after_merge k Hpc) in Hstep.
    rewrite main_step_go in Hstep. injection Hstep as <-.
    exists (after_merge k), (ws ++ [(merge_spec k, WHead)]), d.
    split; [done|]. split.
    + assert (specs !! length ws = Some (merge_spec k)) as Hspec
        by (rewrite Hlen; by apply fan_specs_merge).
      unfold FanModel.after_merge.
      destruct (decide (S k < N));
        apply (fan_inv_spawn _ _ _ _ _ Hinv Hspec); try done;
        simpl; lia.
    + rewrite net_measure_spawn. cbn [FanModel.merge_spec ws_tail length].
      unfold FanModel.after_merge.
      destruct (decide (S k < N)); cbn [main_measure]; lia.
  - (* wg.Add(1) for the dispatcher *)
    change (main_prog FAddDisp) with (WgAdd 0 1 (main_prog FGoDisp))
      in Hstep.
    rewrite (main_step_wg_add _ _ _ 0 (dones_left 0 ws + 0)) in Hstep
      by (by rewrite Hwgs).
    injection Hstep as <-.
    exists FGoDisp, ws, (d_set_wg 0 (dones_left 0 ws + 0 + 1) d).
    split; [done|]. split.
    + apply (fan_inv_same_chans _ _ _ _ _ Hinv); try done.
      cbn [d_set_wg d_wgs]. rewrite Hwgs. unfold wgs_of.
      cbn. f_equal. lia.
    + rewrite net_measure_set_wg. cbn [main_measure]. lia.
  - (* go dispatcher *)
    change (main_prog FGoDisp)
      with (Go (disp_call chain stages) (main_prog FWait)) in Hstep.
    rewrite fan_disp_wprog, main_step_go in Hstep.
    injection Hstep as <-.
    exists FWait, (ws ++ [(disp_spec, WHead)]), d.
    split; [done|]. split.
    + assert (specs !! length ws = Some disp_spec) as Hspec
        by (rewrite Hlen; apply fan_specs_disp).
      destruct (fan_spec_dones _ _ fan_specs_disp) as [Hdd0 Hdd1].
      rewrite decide_False in Hdd0, Hdd1 by lia.
      apply (fan_inv_spawn _ _ _ _ _ Hinv Hspec); try done;
        first [by rewrite Hdd0|by rewrite Hdd1|simpl; lia].
    + rewrite net_measure_spawn. cbn [FanModel.disp_spec ws_tail].
      rewrite length_app, length_fmap, fan_ins_length.
      cbn [length main_measure]. lia.
  - (* wg.Wait() *)
    change (main_prog FWait) with (WgWait 0 (main_prog FCloseC)) in Hstep.
    apply main_step_wait in Hstep as [Hw ->].
    rewrite Hwgs in Hw. injection Hw as Hw.
    exists FCloseC, ws, d. split; [done|]. split.
    + apply (fan_inv_same_chans _ _ _ _ _ Hinv); try done.
      intros _ j sp st Hj1 Hj.
      eapply (fan_no_dones _ _ _ j); [done|done|].
      rewrite decide_False by lia. lia.
    + cbn [main_measure]. lia.
  - (* close(fanoutCollector) *)
    assert (2 < length (d_chans d)) as Hlt by (rewrite Hnch; lia).
    destruct (lookup_lt_is_Some_2 _ _ Hlt) as [ch Hch].
    destruct (Hcol _ Hch) as [_ Hcl].
    change (main_prog FCloseC) with (Close (Chan 2) (main_prog FWaitC))
      in Hstep.
    rewrite (main_step_close _ _ _ _ _ _ Hch) in Hstep by done.
    injection Hstep as <-.
    eexists FWaitC, ws, _. split; [done|]. split.
    + apply (fan_inv_close _ _ _ _ _ _ Hinv Hch). by left.
    + rewrite (net_measure_close _ _ _ _ _ Hch). cbn [main_measure]. lia.
  - (* collectorWg.Wait() *)
    change (main_prog FWaitC) with (WgWait 1 (main_prog FTrackFinished))
      in Hstep.
    apply main_step_wait in Hstep as [Hw ->].
    rewrite Hwgs in Hw. injection Hw as Hw.
    exists FTrackFinished, ws, d. split; [done|]. split.
    + apply (fan_inv_same_chans _ _ _ _ _ Hinv); try done.
      intros _ sp st Hj.
      eapply (fan_no_dones _ _ _ 0); [done|done|].
      rewrite decide_True by done. lia.
    + cbn [main_measure]. lia.
  - (* TrackFinished *)
    change (main_prog FTrackFinished)
      with (Hook (HTrackFinished (self chain)) (main_prog FClose))
      in Hstep.
    rewrite main_step_hook in Hstep. injection Hstep as <-.
    exists FClose, ws, d. split; [done|]. split.
    + apply (fan_inv_same_chans _ _ _ _ _ Hinv); done.
    + cbn [main_measure]. lia.
  - (* close(output) *)
    destruct Hout as [outq Ho].
    change (main_prog FClose) with (Close (Chan 1) (main_prog FRet))
      in Hstep.
    rewrite (main_step_close _ _ _ _ _ _ Ho) in Hstep by done.
    injection Hstep as <-.
    eexists FRet, ws, _. split; [done|]. split.
    + apply (fan_inv_close _ _ _ _ _ _ Hinv Ho). by right.
    + rewrite (net_measure_close _ _ _ _ _ Ho). cbn [main_measure]. lia.
  - done.
Qed.

(** *** Every step keeps the invariant and lowers the measure *)

Lemma fan_quiet pc : quiet (main_prog pc) = true.
Proof. destruct pc; try done. by rewrite fan_main_new_wg. Qed.

Lemma fan_wt_internal c : 3 ≤ c → wt c = 4 + 2 * (2 * N + 3 - c).
Proof. by destruct c as [|[|[|c]]]; [lia|lia|lia|]. Qed.

Lemma fan_disp_cost (v : E) (l : list nat) :
  (∀ c, c ∈ l → 3 ≤ c) →
  body_cost wt (map (λ procInput, ASend procInput v) (Chan <$> l))
  ≤ length l * (5 + 4 * N).
Proof.
  induction l as [|a l IH]; intros Hl; [done|].
  cbn [map fmap list_fmap length]. rewrite body_cost_cons.
  cbn [act_cost].
  change (list_fmap nat chan Chan l) with (Chan <$> l).
  rewrite fan_wt_internal by (apply Hl; left).
  assert (∀ c, c ∈ l → 3 ≤ c) as Hl' by (intros c Hc; apply Hl; by right).
  specialize (IH Hl'). assert (3 ≤ a) by (apply Hl; left). nia.
Qed.

Lemma fan_costs_ok pc ws d : fan_inv pc ws d → costs_ok wt ws.
Proof.
  intros Hinv j sp st v Hj.
  destruct (fan_inv_spec _ _ _ _ _ _ Hinv Hj) as [Hsp _].
  apply fan_specs_cases in Hsp
    as [[-> ->]|[(k & st' & Hk & -> & ->)|[(k & Hk & -> & ->)|[-> ->]]]].
  - cbn [FanModel.collector_spec ws_body ws_in].
    rewrite !body_cost_cons. change (body_cost wt []) with 0.
    cbn [act_cost]. change (wt 1) with 0. change (wt 2) with 3. lia.
  - apply lookup_lt_Some in Hk. rewrite <- fan_N_stages in Hk.
    cbn [FanModel.kid_spec ws_body ws_in].
    rewrite body_cost_cons. change (body_cost wt []) with 0.
    cbn [act_cost]. rewrite !fan_wt_internal by chans. chans.
  - cbn [FanModel.merge_spec ws_body ws_in].
    rewrite body_cost_cons. change (body_cost wt []) with 0.
    cbn [act_cost]. rewrite (fan_wt_internal (cout k)) by chans.
    change (wt 2) with 3. chans.
  - cbn [FanModel.disp_spec ws_body ws_in].
    rewrite body_cost_cons. cbn [act_cost].
    pose proof (fan_disp_cost v ins) as Hc. rewrite fan_ins_length in Hc.
    change (wt 0) with (2 + N * (5 + 4 * N)).
    assert (∀ c, c ∈ ins → 3 ≤ c) as Hins
      by (intros c (k & _ & ->)%fan_ins_elem; chans).
    specialize (Hc Hins). lia.
Qed.

Lemma fan_step pc ws d s' :
  fan_inv pc ws d → step (conc (main_prog pc) ws d) s' →
  ∃ pc' ws' d',
    s' = conc (main_prog pc') ws' d' ∧ fan_inv pc' ws' d' ∧
    measure pc' ws' d' < measure pc ws d.
Proof.
  intros Hinv Hs.
  apply net_step in Hs as [Hm|(ws' & d' & -> & Htr)].
  - by eapply fan_main_step.
  - exists pc, ws', d'. split; [done|].
    split; [by eapply fan_inv_wtrans|].
    pose proof (wtrans_measure wt _ _ _ _ Htr (fan_costs_ok _ _ _ Hinv)
                  (fi_crashed _ _ _ _ _ _ _ Hinv)
                  (fan_no_crash _ _ _ _ _ Hinv Htr)).
    unfold FanModel.measure. lia.
  - apply fan_quiet.
  - eapply wvalid_not_empty_body, Hinv.
Qed.

Lemma fan_init :
  init (composite chain stages) ctx xs out_cap
  = conc (main_prog FLog) [] (d0 xs out_cap).
Proof. done. Qed.

Lemma fan_inv_init : fan_inv FLog [] (d0 xs out_cap).
Proof.
  constructor; try done.
  - intros [|[|c]] ch Hc; simplify_eq/=; lia.
  - by exists [], xs.
  - by exists [].
  - intros c ch Hc Hch. by destruct c as [|[|c]]; [lia|lia|].
Qed.

Lemma fan_measure_init :
  measure FLog [] (d0 xs out_cap) = run_bound stages xs.
Proof.
  unfold FanModel.measure, net_measure, queue_measure, FanModel.run_bound.
  cbn [main_measure d0 d_chans imap sum_list sum_list_with fmap list_fmap].
  cbn [input_of new_chan ch_buf length]. unfold FanModel.wt. simpl. lia.
Qed.

(** A run of [n] steps ends in a state of the invariant, [n] lower in
    the measure. *)
Lemma fan_run n pc ws d s' :
  fan_inv pc ws d → steps n (conc (main_prog pc) ws d) s' →
  ∃ pc' ws' d',
    s' = conc (main_prog pc') ws' d' ∧ fan_inv pc' ws' d' ∧
    n + measure pc' ws' d' ≤ measure pc ws d.
Proof.
  revert pc ws d. induction n as [|n IH]; intros pc ws d Hinv Hrun.
  - inversion Hrun; subst. exists pc, ws, d. split; [done|].
    split; [done|lia].
  - inversion Hrun as [|? ? s1 ? Hs Hrest]; subst.
    destruct (fan_step _ _ _ _ Hinv Hs) as (pc1 & ws1 & d1 & -> & H1 & Hm).
    destruct (IH _ _ _ H1 Hrest) as (pc2 & ws2 & d2 & -> & H2 & Hm2).
    exists pc2, ws2, d2. split; [done|]. split; [done|lia].
Qed.

Lemma fan_run_start n s :
  steps n (init (composite chain stages) ctx xs out_cap) s →
  ∃ pc ws d,
    s = conc (main_prog pc) ws d ∧ fan_inv pc ws d ∧
    n + measure pc ws d ≤ run_bound stages xs.
Proof.
  intros Hrun. rewrite fan_init in Hrun.
  apply (fan_run _ _ _ _ _ fan_inv_init) in Hrun.
  by rewrite fan_measure_init in Hrun.
Qed.

(** *** What flows through the channels *)

Lemma fan_input_taken pc ws d :
  fan_inv pc ws d → taken d 0 `prefix_of` xs.
Proof.
  intros Hinv. fields Hinv. destruct Hinp as (tin & inq & Hch & Hxs).
  rewrite (taken_lookup _ _ _ Hch). simpl. by exists inq.
Qed.

Lemma fan_flat_id (l : list E) (g : E → list E) :
  (∀ v, g v = [v]) → flat_map g l = l.
Proof.
  intros Hg. rewrite (flat_map_one id g l Hg). apply list_fmap_id.
Qed.

(** What the dispatcher has sent to child [k], with the item in its
    hands, is what it has taken from the input. *)
Lemma fan_disp_chain pc ws d k sp st :
  fan_inv pc ws d → k < N → ws !! (1 + 2 * N) = Some (sp, st) →
  sent d (cin k) ++ pend_to (cin k) st = taken d 0.
Proof.
  intros Hinv Hk Hj. fields Hinv.
  destruct (fan_inv_spec _ _ _ _ _ _ Hinv Hj) as [Hs Hlt].
  rewrite fan_specs_disp in Hs. injection Hs as <-.
  rewrite (Hchd k Hk Hlt _ _ Hj). cbn [FanModel.disp_spec ws_in].
  apply fan_flat_id. intros v. rewrite fan_disp_sends.
  rewrite decide_True; [done|]. apply fan_ins_elem. by exists k.
Qed.

Lemma fan_child_sent pc ws d k :
  fan_inv pc ws d → k < N → sent d (cin k) `prefix_of` xs.
Proof.
  intros Hinv Hk. fields Hinv.
  destruct (decide (1 + 2 * N < length ws)) as [Hlt|Hnlt].
  - destruct (lookup_lt_is_Some_2 _ _ Hlt) as [[sp st] Hj].
    etrans; [|by eapply fan_input_taken].
    rewrite <- (fan_disp_chain _ _ _ k _ _ Hinv Hk Hj). by eexists.
  - destruct (Husi k Hk) as [-> _]; [lia|]. apply prefix_nil.
Qed.

(** Every child receives the items of the input, in their order. *)
Lemma fan_child_taken pc ws d k :
  fan_inv pc ws d → k < N → taken d (cin k) `prefix_of` xs.
Proof.
  intros Hinv Hk. etrans; [|by eapply fan_child_sent].
  unfold sent. by eexists.
Qed.

(** What child [k] has sent, with the item in its hands, is the image of
    what it has taken. *)
Lemma fan_kid_chain pc ws d k stg sp st :
  fan_inv pc ws d → stages !! k = Some stg →
  ws !! (1 + 2 * k) = Some (sp, st) →
  sent d (cout k) ++ pend_to (cout k) st = stg.2 <$> taken d (cin k).
Proof.
  intros Hinv Hstg Hj. fields Hinv.
  destruct (fan_inv_spec _ _ _ _ _ _ Hinv Hj) as [Hs Hlt].
  rewrite (fan_specs_kid _ _ Hstg) in Hs. injection Hs as <-.
  pose proof (lookup_lt_Some _ _ _ Hstg) as Hk.
  rewrite <- fan_N_stages in Hk.
  rewrite (Hchk k Hk Hlt _ _ Hj). cbn [FanModel.kid_spec ws_in ws_body].
  apply flat_map_one. intros v.
  by rewrite sends_to_send, decide_True.
Qed.

Lemma fan_out_taken_le pc ws d k :
  fan_inv pc ws d → k < N → length (taken d (cout k)) ≤ length xs.
Proof.
  intros Hinv Hk. fields Hinv.
  destruct (fan_stage_at k Hk) as [stg Hstg].
  destruct (decide (1 + 2 * k < length ws)) as [Hlt|Hnlt].
  - destruct (lookup_lt_is_Some_2 _ _ Hlt) as [[sp st] Hj].
    pose proof (fan_kid_chain _ _ _ _ _ _ _ Hinv Hstg Hj) as Hc.
    apply (f_equal length) in Hc.
    rewrite length_app, length_fmap in Hc.
    pose proof (prefix_length _ _ (fan_child_taken _ _ _ k Hinv Hk)).
    unfold sent in Hc. rewrite length_app in Hc. lia.
  - rewrite Huto; [simpl; lia|done|lia].
Qed.

(** The collector forwards what it takes. *)
Lemma fan_col_chain pc ws d sp st :
  fan_inv pc ws d → ws !! 0 = Some (sp, st) →
  sent d 1 ++ pend_to 1 st = taken d 2.
Proof.
  intros Hinv Hj. fields Hinv.
  destruct (fan_inv_spec _ _ _ _ _ _ Hinv Hj) as [Hs Hlt].
  rewrite fan_specs_collector in Hs. injection Hs as <-.
  rewrite (Hchc Hlt _ _ Hj). cbn [FanModel.collector_spec ws_in ws_body].
  by apply fan_flat_id.
Qed.

(** *** Counting on the collector channel *)

Lemma fan_sum_pairs (g : wspec E → nat) k0 (sts : list (string * (E → E))) :
  (∀ k f, g (kid_spec k f) = 0) →
  sum_list (g <$> pairs_from k0 sts)
  = sum_list ((λ k, g (merge_spec k)) <$> seq k0 (length sts)).
Proof.
  intros Hkid. revert k0. induction sts as [|st sts IH]; intros k0; [done|].
  cbn [pairs_from length seq]. csimpl. rewrite Hkid, IH. lia.
Qed.

Lemma fan_sum_specs (g : wspec E → nat) :
  (∀ k f, g (kid_spec k f) = 0) → g collector_spec = 0 → g disp_spec = 0 →
  sum_list (g <$> specs)
  = sum_list ((λ k, g (merge_spec k)) <$> seq 0 N).
Proof.
  intros Hkid Hcol Hdisp. unfold FanModel.specs. csimpl.
  rewrite fmap_app, sum_list_with_app, (fan_sum_pairs g 0 stages Hkid).
  csimpl. rewrite Hcol, Hdisp, fan_N_stages. lia.
Qed.

Lemma sum_list_seq_le (h : nat → nat) a n M :
  (∀ k, a ≤ k → k < a + n → h k ≤ M) →
  sum_list (h <$> seq a n) ≤ n * M.
Proof.
  revert a. induction n as [|n IH]; intros a Hh; [done|].
  csimpl. specialize (IH (S a)).
  assert (∀ k, S a ≤ k → k < S a + n → h k ≤ M) as Hh'
    by (intros k ? ?; apply Hh; lia).
  specialize (IH Hh'). pose proof (Hh a). lia.
Qed.

Lemma sum_list_seq_eq (h : nat → nat) a n M :
  (∀ k, a ≤ k → k < a + n → h k = M) →
  sum_list (h <$> seq a n) = n * M.
Proof.
  revert a. induction n as [|n IH]; intros a Hh; [done|].
  csimpl. specialize (IH (S a)).
  assert (∀ k, S a ≤ k → k < S a + n → h k = M) as Hh'
    by (intros k ? ?; apply Hh; lia).
  specialize (IH Hh'). pose proof (Hh a). lia.
Qed.

Lemma sum_list_take_le (l : list nat) n :
  sum_list (take n l) ≤ sum_list l.
Proof.
  revert n. induction l as [|a l IH]; intros [|n]; simpl; try lia.
  specialize (IH n). lia.
Qed.

Lemma fan_owed_merge d k :
  owed 2 d (merge_spec k) = length (taken d (cout k)).
Proof.
  unfold owed. cbn [FanModel.merge_spec ws_in ws_body].
  rewrite (flat_map_one id); [by rewrite length_fmap|]. intros v.
  by rewrite sends_to_send, decide_True.
Qed.

Lemma fan_owed_specs d :
  sum_list (owed 2 d <$> specs)
  = sum_list ((λ k, length (taken d (cout k))) <$> seq 0 N).
Proof.
  rewrite (fan_sum_specs (owed 2 d)).
  - f_equal. apply list_fmap_ext. intros i k _. apply fan_owed_merge.
  - intros k f. by apply owed_no_sends.
  - by apply owed_no_sends.
  - apply owed_no_sends. intros v. rewrite fan_disp_sends.
    rewrite decide_False; [done|]. by apply fan_low_not_in.
Qed.

Lemma fan_owed_workers pc ws d :
  fan_inv pc ws d →
  sum_list ((λ w, owed 2 d w.1) <$> ws)
  = sum_list (take (nspawned stages pc) (owed 2 d <$> specs)).
Proof.
  intros Hinv. fields Hinv.
  rewrite <- fmap_take, <- Hsp, <- list_fmap_compose. done.
Qed.

(** Never more than [N] times the input is sent to the collector. *)
Lemma fan_collected_le pc ws d :
  fan_inv pc ws d → length (sent d 2) ≤ N * length xs.
Proof.
  intros Hinv. fields Hinv. unfold count_eq in Hcnt.
  rewrite (fan_owed_workers _ _ _ Hinv) in Hcnt.
  pose proof (sum_list_take_le (owed 2 d <$> specs) (nspawned stages pc))
    as Hle.
  rewrite fan_owed_specs in Hle.
  pose proof (sum_list_seq_le (λ k, length (taken d (cout k))) 0 N
                (length xs)) as Hb.
  assert (∀ k, 0 ≤ k → k < 0 + N →
               length (taken d (cout k)) ≤ length xs) as Hall
    by (intros k _ Hk; by eapply fan_out_taken_le).
  specialize (Hb Hall). lia.
Qed.



(** *** After the joins *)

Lemma fan_final_worker pc ws d j :
  fan_inv pc ws d → after_wait1 pc = true → j < 2 + 2 * N →
  ∃ sp, ws !! j = Some (sp, WTail []) ∧ specs !! j = Some sp.
Proof.
  intros Hinv Haw Hj. fields Hinv.
  assert (after_wait0 pc = true) as Haw0 by (by destruct pc).
  assert (j < length ws) as Hlt.
  { rewrite (fan_inv_length _ _ _ Hinv). by destruct pc. }
  destruct (lookup_lt_is_Some_2 _ _ Hlt) as [[sp st] Hw].
  destruct (fan_inv_spec _ _ _ _ _ _ Hinv Hw) as [Hs _].
  exists sp. split; [|done]. destruct j as [|j].
  - by rewrite (Hd1 Haw _ _ Hw) in Hw.
  - by rewrite (Hd0 Haw0 (S j) _ _ ltac:(lia) Hw) in Hw.
Qed.

Lemma fan_final_drained pc ws d j sp :
  fan_inv pc ws d → after_wait1 pc = true → j < 2 + 2 * N →
  specs !! j = Some sp → taken d (ws_in sp) = sent d (ws_in sp).
Proof.
  intros Hinv Haw Hj Hs. fields Hinv.
  destruct (fan_final_worker _ _ _ j Hinv Haw Hj) as (sp' & Hw & Hs').
  rewrite Hs in Hs'. injection Hs' as <-.
  destruct (Hdr _ _ _ Hw) as [_ Hq]. unfold sent.
  by rewrite Hq, app_nil_r.
Qed.

Lemma fan_final_input pc ws d :
  fan_inv pc ws d → after_wait1 pc = true → taken d 0 = xs.
Proof.
  intros Hinv Haw.
  pose proof (fan_final_drained _ _ _ (1 + 2 * N) _ Hinv Haw
                ltac:(lia) fan_specs_disp) as Hd.
  cbn [FanModel.disp_spec ws_in] in Hd. rewrite Hd.
  fields Hinv. destruct Hinp as (tin & inq & Hch & Hxs).
  by rewrite (sent_lookup _ _ _ Hch).
Qed.

(** Every child has received the whole input, in order. *)
Lemma fan_final_child pc ws d k :
  fan_inv pc ws d → after_wait1 pc = true → k < N →
  taken d (cin k) = xs.
Proof.
  intros Hinv Haw Hk. destruct (fan_stage_at k Hk) as [stg Hstg].
  pose proof (fan_final_drained _ _ _ (1 + 2 * k) _ Hinv Haw
                ltac:(lia) (fan_specs_kid _ _ Hstg)) as Hd.
  cbn [FanModel.kid_spec ws_in] in Hd. rewrite Hd.
  destruct (fan_final_worker _ _ _ (1 + 2 * N) Hinv Haw ltac:(lia))
    as (sp & Hw & _).
  pose proof (fan_disp_chain _ _ _ k _ _ Hinv Hk Hw) as Hc.
  cbn [pend_to] in Hc. rewrite app_nil_r in Hc.
  by rewrite Hc, (fan_final_input _ _ _ Hinv Haw).
Qed.

Lemma fan_final_out pc ws d k stg :
  fan_inv pc ws d → after_wait1 pc = true → stages !! k = Some stg →
  taken d (cout k) = stg.2 <$> xs.
Proof.
  intros Hinv Haw Hstg. pose proof (lookup_lt_Some _ _ _ Hstg) as Hk.
  rewrite <- fan_N_stages in Hk.
  pose proof (fan_final_drained _ _ _ (2 + 2 * k) _ Hinv Haw
                ltac:(lia) (fan_specs_merge _ Hk)) as Hd.
  cbn [FanModel.merge_spec ws_in] in Hd. rewrite Hd.
  destruct (fan_final_worker _ _ _ (1 + 2 * k) Hinv Haw ltac:(lia))
    as (sp & Hw & _).
  pose proof (fan_kid_chain _ _ _ _ _ _ _ Hinv Hstg Hw) as Hc.
  cbn [pend_to] in Hc. rewrite app_nil_r in Hc.
  by rewrite Hc, (fan_final_child _ _ _ _ Hinv Haw Hk).
Qed.

Lemma fan_final_holding pc ws d c :
  fan_inv pc ws d → after_wait1 pc = true →
  sum_list (holding c <$> ws) = 0.
Proof.
  intros Hinv Haw. fields Hinv.
  assert (after_wait0 pc = true) as Haw0 by (by destruct pc).
  destruct (decide (sum_list (holding c <$> ws) = 0)) as [?|Hne]; [done|].
  apply sum_list_pos in Hne as (j & [sp st] & Hj & Hh). exfalso.
  apply Hh. destruct j as [|j].
  - by rewrite (Hd1 Haw _ _ Hj).
  - by rewrite (Hd0 Haw0 (S j) _ _ ltac:(lia) Hj).
Qed.

Lemma fan_final_collected pc ws d :
  fan_inv pc ws d → after_wait1 pc = true →
  length (sent d 2) = N * length xs.
Proof.
  intros Hinv Haw. fields Hinv. unfold count_eq in Hcnt.
  rewrite (fan_final_holding _ _ _ 2 Hinv Haw) in Hcnt.
  rewrite (fan_owed_workers _ _ _ Hinv) in Hcnt.
  rewrite take_ge in Hcnt
    by (rewrite length_fmap, fan_specs_length; by destruct pc).
  rewrite fan_owed_specs in Hcnt.
  rewrite (sum_list_seq_eq _ 0 N (length xs)) in Hcnt; [lia|].
  intros k _ Hk. destruct (fan_stage_at k Hk) as [stg Hstg].
  by rewrite (fan_final_out _ _ _ _ _ Hinv Haw Hstg), length_fmap.
Qed.



Lemma fan_final_finished ws d :
  fan_inv FRet ws d → finished (conc (main_prog FRet) ws d) = true.
Proof.
  intros Hinv. fields Hinv. unfold finished. cbn [crashed conc threads].
  rewrite Hcr. cbn [negb andb forallb is_Ret].
  apply forallb_forall. intros q Hq. apply in_map_iff in Hq.
  destruct Hq as ([sp st] & <- & Hin). apply list_elem_of_In in Hin.
  apply list_elem_of_lookup in Hin as [j Hj]. destruct j as [|j].
  - by rewrite (Hd1 eq_refl _ _ Hj).
  - by rewrite (Hd0 eq_refl (S j) _ _ ltac:(lia) Hj).
Qed.

(** *** No deadlock *)

Lemma fan_all_chan pc ws d c :
  fan_inv pc ws d → length ws = 2 + 2 * N → c < 3 + 2 * N →
  ∃ ch, d_chans d !! c = Some ch.
Proof.
  intros Hinv Hall Hc. fields Hinv. apply lookup_lt_is_Some_2.
  rewrite Hnch. rewrite (fan_inv_length _ _ _ Hinv) in Hall.
  destruct pc; simpl in *; lia.
Qed.

Lemma fan_all_worker pc ws d j :
  fan_inv pc ws d → length ws = 2 + 2 * N → j < 2 + 2 * N →
  ∃ sp st, ws !! j = Some (sp, st) ∧ specs !! j = Some sp.
Proof.
  intros Hinv Hall Hj.
  destruct (lookup_lt_is_Some_2 ws j) as [[sp st] Hw]; [lia|].
  destruct (fan_inv_spec _ _ _ _ _ _ Hinv Hw) as [Hs _]. eauto.
Qed.

Lemma fan_tail_can_move pc ws d j sp t rem :
  fan_inv pc ws d → length ws = 2 + 2 * N →
  ws !! j = Some (sp, WTail (t :: rem)) → can_move ws d.
Proof.
  intros Hinv Hall Hj. fields Hinv.
  destruct (fan_inv_spec _ _ _ _ _ _ Hinv Hj) as [_ Hlt].
  destruct t as [c|w].
  - assert (∃ ch, d_chans d !! c = Some ch ∧ ch_closed ch = false)
      as (ch & Hch & Hcl).
    { destruct (fan_closer _ _ _ _ _ _ _ Hinv Hj)
        as [(k & Hk & -> & ->)|[-> (k & Hk & ->)%fan_ins_elem]].
      - destruct (fan_all_chan _ _ _ (cout k) Hinv Hall) as [ch Hch];
          [chans|].
        exists ch. split; [done|]. apply not_true_is_false. intros Hcl.
        pose proof (Hclk k Hk Hlt _ _ Hj) as Hcb.
        rewrite (closed_lookup _ _ _ Hch) in Hcb.
        apply Hcb in Hcl as (r & [= <-] & Hr). apply Hr. left.
      - destruct (fan_all_chan _ _ _ (cin k) Hinv Hall) as [ch Hch];
          [chans|].
        exists ch. split; [done|]. apply not_true_is_false. intros Hcl.
        pose proof (Hcld k Hk Hlt _ _ Hj) as Hcb.
        rewrite (closed_lookup _ _ _ Hch) in Hcb.
        apply Hcb in Hcl as (r & [= <-] & Hr). apply Hr. left. }
    eexists _, _. by eapply wt_close.
  - assert (ws ≠ []) as Hne by (intros ->; done).
    pose proof (fan_wgs_started _ _ _ Hinv Hne) as Hwg.
    pose proof (dones_of_le w _ _ _ Hj) as Hle.
    rewrite dones_of_tail_done, decide_True in Hle by done.
    destruct (fan_doner _ _ _ _ _ _ _ Hinv Hj) as [[-> ->]|[Hi ->]].
    + destruct (dones_left 1 ws) as [|n] eqn:Hn; [simpl in Hle; lia|].
      eexists _, _. eapply wt_done; [done|]. by rewrite Hwg.
    + destruct (dones_left 0 ws) as [|n] eqn:Hn; [simpl in Hle; lia|].
      eexists _, _. eapply wt_done; [done|]. by rewrite Hwg.
Qed.

(** The collector, inside its loop body or its tail. *)
Lemma fan_col_can_move pc ws d sp st :
  fan_inv pc ws d → length ws = 2 + 2 * N →
  ws !! 0 = Some (sp, st) → st ≠ WHead → st ≠ WTail [] → can_move ws d.
Proof.
  intros Hinv Hall Hj Hh Ht. fields Hinv.
  destruct st as [|[|a rem]|[|t rem]]; try done.
  - by destruct (fan_inv_wvalid _ _ _ _ _ _ Hinv Hj) as [? _].
  - destruct (fan_body_head _ _ _ _ _ _ _ Hinv Hj)
      as [[h ->]|(c & v & -> & Hc)].
    { eexists _, _. by eapply wt_hook. }
    assert (c = 1) as ->.
    { destruct Hc as [[_ ?]|[(k & _ & ? & _)|[(k & _ & ? & _)|[? _]]]];
        [done|lia..]. }
    destruct Hout as [outq Ho].
    assert (pc ≠ FRet) as Hpc'.
    { intros ->. by pose proof (Hd1 eq_refl _ _ Hj). }
    rewrite bool_decide_eq_false_2 in Ho by done.
    pose proof (fan_col_chain _ _ _ _ _ Hinv Hj) as Hch.
    cbn [pend_to] in Hch. rewrite sends_to_send, decide_True in Hch by done.
    apply (f_equal length) in Hch.
    rewrite (sent_lookup _ _ _ Ho), !length_app in Hch. simpl in Hch.
    pose proof (fan_collected_le _ _ _ Hinv) as Hle.
    unfold sent in Hle. rewrite length_app in Hle.
    eexists _, _. eapply (wt_send _ _ _ _ _ _ _ _ Hj Ho); [done|].
    simpl. lia.
  - by eapply fan_tail_can_move.
Qed.

Lemma fan_collector_open pc ws d j sp a rem :
  fan_inv pc ws d → 1 ≤ j → ws !! j = Some (sp, WBody (a :: rem)) →
  after_close pc = false.
Proof.
  intros Hinv Hj1 Hj. fields Hinv. apply not_true_is_false. intros Hac.
  assert (after_wait0 pc = true) as Haw by (by destruct pc).
  by pose proof (Hd0 Haw _ _ _ Hj1 Hj).
Qed.

(** A merger with an item in its hands. *)
Lemma fan_merge_busy pc ws d k sp a rem :
  fan_inv pc ws d → length ws = 2 + 2 * N → k < N →
  ws !! (2 + 2 * k) = Some (sp, WBody (a :: rem)) → can_move ws d.
Proof.
  intros Hinv Hall Hk Hj. fields Hinv.
  destruct (fan_body_head _ _ _ _ _ _ _ Hinv Hj)
    as [[h ->]|(c & v & -> & Hc)].
  { eexists _, _. by eapply wt_hook. }
  assert (c = 2) as ->.
  { destruct Hc as [[? _]|[(k' & _ & ? & _)|[(k' & _ & _ & ?)|[? _]]]];
      [lia|lia|done|lia]. }
  destruct (fan_all_chan _ _ _ 2 Hinv Hall) as [ch Hch]; [lia|].
  destruct (Hcol _ Hch) as [Hcap Hcl].
  rewrite (fan_collector_open _ _ _ (2 + 2 * k) _ _ _ Hinv ltac:(lia) Hj)
    in Hcl.
  destruct (fan_all_worker _ _ _ 0 Hinv Hall) as (sp0 & st0 & Hw0 & Hs0);
    [lia|].
  rewrite fan_specs_collector in Hs0. injection Hs0 as <-.
  destruct st0 as [|[|a0 r0]|[|t0 r0]].
  - eexists _, _. by eapply (wt_sync _ _ _ _ _ _ _ _ _ _ Hj Hw0).
  - by destruct (fan_inv_wvalid _ _ _ _ _ _ Hinv Hw0) as [? _].
  - by eapply (fan_col_can_move _ _ _ _ _ Hinv Hall Hw0).
  - destruct (Hdr _ _ _ Hw0) as [Hc0 _].
    cbn [FanModel.collector_spec ws_in] in Hc0.
    rewrite (closed_lookup _ _ _ Hch) in Hc0. congruence.
  - by eapply (fan_col_can_move _ _ _ _ _ Hinv Hall Hw0).
Qed.

(** A step on a buffered channel that is open: the sender if there is
    room, the receiver otherwise. *)
Lemma fan_buffered pc ws d i j spi spj stj c v rem ch :
  fan_inv pc ws d → 3 ≤ c →
  ws !! i = Some (spi, WBody (ASend (Chan c) v :: rem)) →
  d_chans d !! c = Some ch → ch_closed ch = false →
  ws !! j = Some (spj, stj) → ws_in spj = c →
  (∀ a r, stj = WBody (a :: r) → can_move ws d) →
  can_move ws d.
Proof.
  intros Hinv Hc Hi Hch Hcl Hj Hin Hbusy. fields Hinv.
  destruct (decide (length (ch_buf ch) < ch_cap ch)) as [Hroom|Hfull].
  { eexists _, _. by eapply wt_send. }
  rewrite (Hcaps _ _ Hc Hch) in Hfull.
  destruct stj as [|[|a r]|r].
  - destruct (ch_buf ch) as [|v' rest] eqn:Hbuf; [simpl in Hfull; lia|].
    rewrite <- Hin in Hch. eexists _, _.
    by eapply (wt_recv _ _ _ _ _ _ _ Hj Hch).
  - by destruct (fan_inv_wvalid _ _ _ _ _ _ Hinv Hj) as [? _].
  - by eapply Hbusy.
  - destruct (Hdr _ _ _ Hj) as [Hc0 _].
    rewrite Hin, (closed_lookup _ _ _ Hch) in Hc0. congruence.
Qed.

(** A child with an item in its hands. *)
Lemma fan_kid_busy pc ws d k sp a rem :
  fan_inv pc ws d → length ws = 2 + 2 * N → k < N →
  ws !! (1 + 2 * k) = Some (sp, WBody (a :: rem)) → can_move ws d.
Proof.
  intros Hinv Hall Hk Hj. fields Hinv.
  destruct (fan_body_head _ _ _ _ _ _ _ Hinv Hj)
    as [[h ->]|(c & v & -> & Hc)].
  { eexists _, _. by eapply wt_hook. }
  assert (c = cout k) as ->.
  { destruct Hc as [[? _]|[(k' & _ & ? & ->)|[(k' & _ & ? & _)|[? _]]]];
      [lia| |lia|lia]. f_equal. lia. }
  destruct (fan_all_chan _ _ _ (cout k) Hinv Hall) as [ch Hch]; [chans|].
  assert (ch_closed ch = false) as Hcl.
  { apply not_true_is_false. intros Hcl.
    pose proof (Hclk k Hk ltac:(lia) _ _ Hj) as Hcb.
    rewrite (closed_lookup _ _ _ Hch) in Hcb.
    by apply Hcb in Hcl as (r & ? & _). }
  destruct (fan_all_worker _ _ _ (2 + 2 * k) Hinv Hall)
    as (spm & stm & Hwm & Hsm); [lia|].
  rewrite (fan_specs_merge _ Hk) in Hsm. injection Hsm as <-.
  assert (3 ≤ cout k) as Hc3 by chans.
  eapply (fan_buffered _ _ _ _ _ _ _ _ _ _ _ _ Hinv Hc3
            Hj Hch Hcl Hwm eq_refl).
  intros a' r' ->. by eapply fan_merge_busy.
Qed.

(** The dispatcher, wherever it is. *)
Lemma fan_disp_can_move pc ws d sp st :
  fan_inv pc ws d → length ws = 2 + 2 * N →
  ws !! (1 + 2 * N) = Some (sp, st) → st ≠ WTail [] → can_move ws d.
Proof.
  intros Hinv Hall Hj Ht. fields Hinv.
  destruct (fan_inv_spec _ _ _ _ _ _ Hinv Hj) as [Hs _].
  rewrite fan_specs_disp in Hs. injection Hs as <-.
  destruct st as [|[|a rem]|[|t rem]]; try done.
  - destruct Hinp as (tin & inq & Hch & Hxs). destruct inq as [|v rest].
    + eexists _, _. by eapply (wt_exit _ _ _ _ _ Hj Hch).
    + eexists _, _. by eapply (wt_recv _ _ _ _ _ _ _ Hj Hch).
  - by destruct (fan_inv_wvalid _ _ _ _ _ _ Hinv Hj) as [? _].
  - destruct (fan_body_head _ _ _ _ _ _ _ Hinv Hj)
      as [[h ->]|(c & v & -> & Hc)].
    { eexists _, _. by eapply wt_hook. }
    assert (∃ k, k < N ∧ c = cin k) as (k & Hk & ->).
    { destruct Hc as [[? _]|[(k' & ? & ? & _)|[(k' & ? & ? & _)|[_ Hc]]]];
        [lia|lia|lia|]. by apply fan_ins_elem. }
    destruct (fan_all_chan _ _ _ (cin k) Hinv Hall) as [ch Hch]; [chans|].
    assert (ch_closed ch = false) as Hcl.
    { apply not_true_is_false. intros Hcl.
      pose proof (Hcld k Hk ltac:(lia) _ _ Hj) as Hcb.
      rewrite (closed_lookup _ _ _ Hch) in Hcb.
      by apply Hcb in Hcl as (r & ? & _). }
    destruct (fan_stage_at k Hk) as [stg Hstg].
    destruct (fan_all_worker _ _ _ (1 + 2 * k) Hinv Hall)
      as (spk & stk & Hwk & Hsk); [lia|].
    rewrite (fan_specs_kid _ _ Hstg) in Hsk. injection Hsk as <-.
    assert (3 ≤ cin k) as Hc3 by chans.
    eapply (fan_buffered _ _ _ _ _ _ _ _ _ _ _ _ Hinv Hc3
              Hj Hch Hcl Hwk eq_refl).
    intros a' r' ->. by eapply fan_kid_busy.
  - by eapply fan_tail_can_move.
Qed.

(** A worker waiting on an empty open buffered channel can count on the
    channel's writer. *)
Lemma fan_head_can_move pc ws d j sp :
  fan_inv pc ws d → ws !! j = Some (sp, WHead) →
  (∀ ch, d_chans d !! ws_in sp = Some ch → ch_buf ch = [] →
         ch_closed ch = false → can_move ws d) →
  (ws_in sp < length (d_chans d)) →
  can_move ws d.
Proof.
  intros Hinv Hj Hwriter Hlt.
  destruct (lookup_lt_is_Some_2 _ _ Hlt) as [ch Hch].
  destruct (ch_buf ch) as [|v rest] eqn:Hbuf.
  - destruct (ch_closed ch) eqn:Hcl.
    + eexists _, _. by eapply (wt_exit _ _ _ _ _ Hj Hch).
    + by eapply Hwriter.
  - eexists _, _. by eapply (wt_recv _ _ _ _ _ _ _ Hj Hch).
Qed.

Lemma fan_kid_can_move pc ws d k sp st :
  fan_inv pc ws d → length ws = 2 + 2 * N → k < N →
  ws !! (1 + 2 * k) = Some (sp, st) → st ≠ WTail [] → can_move ws d.
Proof.
  intros Hinv Hall Hk Hj Ht. fields Hinv.
  destruct (fan_stage_at k Hk) as [stg Hstg].
  destruct (fan_inv_spec _ _ _ _ _ _ Hinv Hj) as [Hs _].
  rewrite (fan_specs_kid _ _ Hstg) in Hs. injection Hs as <-.
  destruct st as [|[|a rem]|[|t rem]]; try done.
  - eapply (fan_head_can_move _ _ _ _ _ Hinv Hj).
    + cbn [FanModel.kid_spec ws_in]. intros ch Hch Hbuf Hcl.
      destruct (fan_all_worker _ _ _ (1 + 2 * N) Hinv Hall)
        as (spd & std & Hwd & _); [lia|].
      eapply (fan_disp_can_move _ _ _ _ _ Hinv Hall Hwd). intros ->.
      pose proof (Hcld k Hk ltac:(lia) _ _ Hwd) as Hcb.
      rewrite (closed_lookup _ _ _ Hch), Hcl in Hcb.
      destruct Hcb as [_ Hcb]. assert (false = true) as Habs; [|done].
      apply Hcb. exists []. split; [done|]. by intros ?%elem_of_nil.
    + cbn [FanModel.kid_spec ws_in].
      destruct (fan_all_chan _ _ _ (cin k) Hinv Hall) as [ch Hch];
        [chans|]. by eapply lookup_lt_Some.
  - by destruct (fan_inv_wvalid _ _ _ _ _ _ Hinv Hj) as [? _].
  - by eapply fan_kid_busy.
  - by eapply fan_tail_can_move.
Qed.

Lemma fan_merge_can_move pc ws d k sp st :
  fan_inv pc ws d → length ws = 2 + 2 * N → k < N →
  ws !! (2 + 2 * k) = Some (sp, st) → st ≠ WTail [] → can_move ws d.
Proof.
  intros Hinv Hall Hk Hj Ht. fields Hinv.
  destruct (fan_inv_spec _ _ _ _ _ _ Hinv Hj) as [Hs _].
  rewrite (fan_specs_merge _ Hk) in Hs. injection Hs as <-.
  destruct st as [|[|a rem]|[|t rem]]; try done.
  - eapply (fan_head_can_move _ _ _ _ _ Hinv Hj).
    + cbn [FanModel.merge_spec ws_in]. intros ch Hch Hbuf Hcl.
      destruct (fan_all_worker _ _ _ (1 + 2 * k) Hinv Hall)
        as (spk & stk & Hwk & _); [lia|].
      eapply (fan_kid_can_move _ _ _ _ _ _ Hinv Hall Hk Hwk). intros ->.
      pose proof (Hclk k Hk ltac:(lia) _ _ Hwk) as Hcb.
      rewrite (closed_lookup _ _ _ Hch), Hcl in Hcb.
      destruct Hcb as [_ Hcb]. assert (false = true) as Habs; [|done].
      apply Hcb. exists []. split; [done|]. by intros ?%elem_of_nil.
    + cbn [FanModel.merge_spec ws_in].
      destruct (fan_all_chan _ _ _ (cout k) Hinv Hall) as [ch Hch];
        [chans|]. by eapply lookup_lt_Some.
  - by destruct (fan_inv_wvalid _ _ _ _ _ _ Hinv Hj) as [? _].
  - by eapply fan_merge_busy.
  - by eapply fan_tail_can_move.
Qed.

(** The collector owes nothing to [wg]. *)
Lemma fan_col_dones pc ws d sp st :
  fan_inv pc ws d → ws !! 0 = Some (sp, st) → dones_of 0 (sp, st) = 0.
Proof.
  intros Hinv Hj.
  destruct (fan_inv_spec _ _ _ _ _ _ Hinv Hj) as [Hs _].
  rewrite fan_specs_collector in Hs. injection Hs as <-.
  pose proof (fan_inv_wvalid _ _ _ _ _ _ Hinv Hj) as Hv.
  destruct st as [| |rem]; try done.
  unfold wvalid in Hv. cbn [fst snd FanModel.collector_spec ws_tail] in Hv.
  destruct Hv as [k Hk].
  by destruct k as [|? [|]]; simplify_eq/=.
Qed.

(** While [wg.Wait()] blocks, some worker can move. *)
Lemma fan_wait_can_move ws d :
  fan_inv FWait ws d → dones_left 0 ws ≠ 0 → can_move ws d.
Proof.
  intros Hinv Hd.
  pose proof (fan_inv_length _ _ _ Hinv) as Hall. cbn [nspawned] in Hall.
  rewrite dones_left_eq in Hd.
  apply sum_list_pos in Hd as (j & [sp st] & Hj & Hdj).
  assert (st ≠ WTail []) as Ht by (by intros ->).
  destruct (fan_inv_spec _ _ _ _ _ _ Hinv Hj) as [Hs _].
  destruct (fan_spec_in _ _ Hs)
    as [[-> _]|[(k & Hk & -> & _)|[(k & Hk & -> & _)|[-> _]]]].
  - by rewrite (fan_col_dones _ _ _ _ _ Hinv Hj) in Hdj.
  - by eapply fan_kid_can_move.
  - by eapply fan_merge_can_move.
  - by eapply fan_disp_can_move.
Qed.

(** While [collectorWg.Wait()] blocks, the collector can move. *)
Lemma fan_wait_collector_can_move ws d :
  fan_inv FWaitC ws d → dones_left 1 ws ≠ 0 → can_move ws d.
Proof.
  intros Hinv Hd. fields Hinv.
  pose proof (fan_inv_length _ _ _ Hinv) as Hall. cbn [nspawned] in Hall.
  rewrite dones_left_eq in Hd.
  apply sum_list_pos in Hd as (j & [sp st] & Hj & Hdj).
  assert (st ≠ WTail []) as Ht by (by intros ->).
  destruct j as [|j].
  2:{ by pose proof (Hd0 eq_refl (S j) _ _ ltac:(lia) Hj). }
  destruct st as [|r|r];
    [|by eapply (fan_col_can_move _ _ _ _ _ Hinv Hall Hj)..].
  destruct (fan_inv_spec _ _ _ _ _ _ Hinv Hj) as [Hs _].
  rewrite fan_specs_collector in Hs. injection Hs as <-.
  destruct (fan_all_chan _ _ _ 2 Hinv Hall) as [ch Hch]; [lia|].
  destruct (Hcol _ Hch) as [Hcap Hcl].
  pose proof (bounded_unbuffered _ _ _ Hbd Hch Hcap) as Hbuf.
  eexists _, _. by eapply (wt_exit _ _ _ _ _ Hj Hch).
Qed.

(** Away from the two joins the main goroutine can move. *)
Lemma fan_main_enabled pc ws d :
  fan_inv pc ws d → pc ≠ FRet →
  (pc = FWait → dones_left 0 ws = 0) →
  (pc = FWaitC → dones_left 1 ws = 0) →
  ∃ s', local_step 0 (main_prog pc) (conc (main_prog pc) ws d) = Some s'.
Proof.
  intros Hinv Hne Hw0 Hw1. fields Hinv.
  pose proof (fan_inv_length _ _ _ Hinv) as Hlen.
  destruct pc as [| | | | | | |k|k|k|k|k|k| | | | | | | |];
    unfold wgs_of in Hwgs;
    cbn [nwgs pending0 pending1 nchans nspawned] in Hwgs, Hnch, Hlen;
    try (eexists; reflexivity).
  - rewrite fan_main_new_wg. eexists. reflexivity.
  - cbn [FanModel.main_prog].
    eexists. apply main_step_wg_add. by rewrite Hwgs.
  - change (main_prog (FAddKid k)) with (WgAdd 0 1 (main_prog (FGoKid k))).
    eexists. apply main_step_wg_add. by rewrite Hwgs.
  - change (main_prog (FAddMerge k))
      with (WgAdd 0 1 (main_prog (FGoMerge k))).
    eexists. apply main_step_wg_add. by rewrite Hwgs.
  - change (main_prog FAddDisp) with (WgAdd 0 1 (main_prog FGoDisp)).
    eexists. apply main_step_wg_add. by rewrite Hwgs.
  - change (main_prog FWait) with (WgWait 0 (main_prog FCloseC)).
    eexists. apply main_step_wait_zero. by rewrite Hwgs, Hw0.
  - assert (2 < length (d_chans d)) as Hlt by (rewrite Hnch; lia).
    destruct (lookup_lt_is_Some_2 _ _ Hlt) as [ch Hch].
    destruct (Hcol _ Hch) as [_ Hcl].
    change (main_prog FCloseC) with (Close (Chan 2) (main_prog FWaitC)).
    eexists. by apply (main_step_close _ _ _ _ _ _ Hch).
  - change (main_prog FWaitC) with (WgWait 1 (main_prog FTrackFinished)).
    eexists. apply main_step_wait_zero. by rewrite Hwgs, Hw1.
  - destruct Hout as [outq Ho].
    change (main_prog FClose) with (Close (Chan 1) (main_prog FRet)).
    eexists. by apply (main_step_close _ _ _ _ _ _ Ho).
  - done.
Qed.

(** Until [Execute] has returned, the program can take a step. *)
Lemma fan_progress pc ws d :
  fan_inv pc ws d → pc ≠ FRet → ∃ s', step (conc (main_prog pc) ws d) s'.
Proof.
  intros Hinv Hne.
  pose proof (fi_crashed _ _ _ _ _ _ _ Hinv) as Hcr.
  destruct (decide (pc = FWait ∧ dones_left 0 ws ≠ 0)) as [[-> Hd]|Hno0].
  { destruct (fan_wait_can_move _ _ Hinv Hd) as (ws' & d' & Htr).
    eexists. by apply wtrans_step. }
  destruct (decide (pc = FWaitC ∧ dones_left 1 ws ≠ 0)) as [[-> Hd]|Hno1].
  { destruct (fan_wait_collector_can_move _ _ Hinv Hd) as (ws' & d' & Htr).
    eexists. by apply wtrans_step. }
  destruct (fan_main_enabled _ _ _ Hinv Hne) as [s' Hs].
  - intros ->. destruct (decide (dones_left 0 ws = 0)); [done|].
    by destruct Hno0.
  - intros ->. destruct (decide (dones_left 1 ws = 0)); [done|].
    by destruct Hno1.
  - exists s'. by apply main_step_is_step.
Qed.

(** From every state of the invariant some run reaches the end. *)
Lemma fan_completes m pc ws d :
  fan_inv pc ws d → measure pc ws d ≤ m →
  ∃ ws' d',
    reachable (conc (main_prog pc) ws d) (conc (main_prog FRet) ws' d')
    ∧ fan_inv FRet ws' d'.
Proof.
  revert pc ws d. induction m as [|m IH]; intros pc ws d Hinv Hm;
    (destruct (decide (pc = FRet)) as [->|Hne];
     [exists ws, d; split; [apply rtc_refl|done]|]);
    destruct (fan_progress _ _ _ Hinv Hne) as [s' Hs];
    destruct (fan_step _ _ _ _ Hinv Hs) as (pc1 & ws1 & d1 & -> & H1 & Hlt).
  - lia.
  - destruct (IH _ _ _ H1) as (ws' & d' & Hr & Hf); [lia|].
    exists ws', d'. split; [|done]. by eapply rtc_l.
Qed.

(** *** Capacity 200 *)



(** *** Runs from the start *)



(** *** When every goroutine has returned *)

(** Only the last position of the main goroutine is a return. *)
Lemma fan_finished_main pc ws d :
  finished (conc (main_prog pc) ws d) = true → pc = FRet.
Proof.
  unfold finished. cbn [conc threads forallb]. intros Hf.
  apply andb_prop in Hf as [_ Hf]. apply andb_prop in Hf as [Hf _].
  destruct pc; try done. by rewrite fan_main_new_wg in Hf.
Qed.

Lemma fan_final_dones pc ws d w :
  fan_inv pc ws d → after_wait1 pc = true → dones_left w ws = 0.
Proof.
  intros Hinv Haw. fields Hinv.
  assert (after_wait0 pc = true) as Haw0 by (by destruct pc).
  destruct (decide (dones_left w ws = 0)) as [?|Hne]; [done|].
  rewrite dones_left_eq in Hne.
  apply sum_list_pos in Hne as (j & [sp st] & Hj & Hh). exfalso.
  apply Hh. destruct j as [|j].
  - by rewrite (Hd1 Haw _ _ Hj).
  - by rewrite (Hd0 Haw0 (S j) _ _ ltac:(lia) Hj).
Qed.

Lemma fan_final_counts ws d :
  fan_inv FRet ws d →
  length (threads (conc (main_prog FRet) ws d)) = 3 + 2 * N ∧
  length (d_chans d) = 3 + 2 * N ∧ d_wgs d = [0; 0].
Proof.
  intros Hinv. fields Hinv. split; [|split].
  - cbn [conc threads length].
    rewrite length_fmap, (fan_inv_length _ _ _ Hinv). simpl. lia.
  - by rewrite Hnch.
  - rewrite Hwgs. unfold wgs_of. cbn [nwgs pending0 pending1].
    by rewrite !(fan_final_dones _ _ _ _ Hinv eq_refl).
Qed.

(** Every channel but the output is the input of one worker. *)
Lemma fan_reader c :
  c < 3 + 2 * N → c ≠ 1 →
  ∃ j sp, j < 2 + 2 * N ∧ specs !! j = Some sp ∧ ws_in sp = c.
Proof.
  intros Hc Hc1.
  destruct (decide (c = 0)) as [->|H0].
  { exists (1 + 2 * N), disp_spec. split; [lia|].
    split; [apply fan_specs_disp|done]. }
  destruct (decide (c = 2)) as [->|H2].
  { exists 0, collector_spec. split; [lia|]. done. }
  pose proof (Nat.div_mod_eq (c - 3) 2) as Hdm.
  pose proof (Nat.mod_upper_bound (c - 3) 2 ltac:(lia)) as Hm.
  set (k := (c - 3) / 2) in *.
  assert (k < N) as Hk by lia.
  destruct (decide ((c - 3) mod 2 = 0)) as [He|Ho].
  - destruct (fan_stage_at k Hk) as [st Hst].
    exists (1 + 2 * k), (kid_spec k st.2). split; [lia|].
    split; [by apply fan_specs_kid|].
    cbn [ws_in FanModel.kid_spec]. unfold cin. lia.
  - exists (2 + 2 * k), (merge_spec k). split; [lia|].
    split; [by apply fan_specs_merge|].
    cbn [ws_in FanModel.merge_spec]. unfold cout. lia.
Qed.

(** Every channel is closed, and every channel but the output is
    empty. *)
Lemma fan_final_chan ws d c ch :
  fan_inv FRet ws d → d_chans d !! c = Some ch →
  ch_closed ch = true ∧ (c ≠ 1 → ch_buf ch = []).
Proof.
  intros Hinv Hc. fields Hinv.
  pose proof (lookup_lt_Some _ _ _ Hc) as Hlt.
  rewrite Hnch in Hlt. cbn [nchans] in Hlt.
  destruct (decide (c = 1)) as [->|Hc1].
  { destruct Hout as [outq Ho]. rewrite Ho in Hc. injection Hc as <-.
    by split. }
  destruct (fan_reader c Hlt Hc1) as (j & sp & Hj & Hs & Hin).
  destruct (fan_final_worker _ _ _ j Hinv eq_refl Hj) as (sp' & Hw & Hs').
  rewrite Hs in Hs'. injection Hs' as <-.
  destruct (Hdr _ _ _ Hw) as [Hcl Hq]. rewrite Hin in Hcl, Hq.
  rewrite (closed_lookup _ _ _ Hc) in Hcl.
  rewrite (queued_lookup _ _ _ Hc) in Hq.
  by split.
Qed.

(** What the merger of child [k] has taken is the start of what the
    child makes of its own input. *)
Lemma fan_kid_link pc ws d k stg :
  fan_inv pc ws d → stages !! k = Some stg →
  taken d (cout k) `prefix_of` (stg.2 <$> taken d (cin k)).
Proof.
  intros Hinv Hstg. fields Hinv.
  pose proof (lookup_lt_Some _ _ _ Hstg) as Hk.
  rewrite <- fan_N_stages in Hk.
  destruct (decide (1 + 2 * k < length ws)) as [Hlt|Hnlt].
  - destruct (lookup_lt_is_Some_2 _ _ Hlt) as [[sp st] Hj].
    rewrite <- (fan_kid_chain _ _ _ _ _ _ _ Hinv Hstg Hj).
    unfold sent. rewrite <- app_assoc. by eexists.
  - rewrite Huto; [apply prefix_nil|done|lia].
Qed.

(** The collector has taken one item per child and input item. *)
Lemma fan_final_taken_col pc ws d :
  fan_inv pc ws d → after_wait1 pc = true →
  length (taken d 2) = N * length xs.
Proof.
  intros Hinv Haw.
  pose proof (fan_final_drained _ _ _ 0 _ Hinv Haw ltac:(lia)
                fan_specs_collector) as Hd.
  cbn [FanModel.collector_spec ws_in] in Hd. rewrite Hd.
  by apply (fan_final_collected pc ws d).
Qed.

(** Some run reaches a state in which every goroutine has returned. *)
Lemma fan_reaches_end :
  ∃ n s,
    steps n (init (composite chain stages) ctx xs out_cap) s ∧
    finished s = true.
Proof.
  destruct (fan_completes _ FLog [] (d0 xs out_cap) fan_inv_init (le_n _))
    as (ws' & d' & Hr & Hf).
  rewrite <- fan_init in Hr. apply rtc_nsteps_1 in Hr as [n Hn].
  exists n, (conc (main_prog FRet) ws' d').
  split; [done|]. by apply fan_final_finished.
Qed.

Lemma fan_clean_end n s :
  steps n (init (composite chain stages) ctx xs out_cap) s →
  finished s = true →
  length (threads s) = 3 + 2 * N ∧
  length (chans s) = 3 + 2 * N ∧
  wgs s = [0; 0] ∧
  (∀ c ch, chan_at s c = Some ch →
           ch_closed ch = true ∧ (c ≠ 1 → ch_buf ch = [])) ∧
  (∀ ch, chan_at s 2 = Some ch → ch_cap ch = 0).
Proof.
  intros Hrun Hfin.
  destruct (fan_run_start n s Hrun) as (pc & ws & d & -> & Hinv & _).
  apply fan_finished_main in Hfin as ->.
  destruct (fan_final_counts _ _ Hinv) as (Hth & Hch & Hwg).
  split; [exact Hth|]. split; [exact Hch|]. split; [exact Hwg|]. split.
  - intros c ch Hc. by apply (fan_final_chan ws d).
  - intros ch Hc. fields Hinv. by apply Hcol.
Qed.

Lemma fan_children_link n s :
  steps n (init (composite chain stages) ctx xs out_cap) s →
  (∀ k st, stages !! k = Some st →
           taken_from s (cout k)
           `prefix_of` (st.2 <$> taken_from s (cin k))) ∧
  (finished s = true →
   (∀ k st, stages !! k = Some st →
            taken_from s (cout k) = st.2 <$> xs) ∧
   length (taken_from s 2) = N * length xs).
Proof.
  intros Hrun.
  destruct (fan_run_start n s Hrun) as (pc & ws & d & -> & Hinv & _).
  change (taken_from (conc (main_prog pc) ws d)) with (taken d).
  split.
  - intros k st Hst. by eapply fan_kid_link.
  - intros Hfin. apply fan_finished_main in Hfin as ->. split.
    + intros k st Hst. by eapply fan_final_out.
    + by eapply fan_final_taken_col.
Qed.

End Model.



(** When a Fanout over map leaves has come to rest (every goroutine has
    returned) it has left nothing behind.  It has started two goroutines
    per child, the child and its merger, and two more, the collector and
    the dispatcher; it has made two channels per child and the
    unbuffered collector channel; both wait groups are back at 0; every
    channel is closed, and the input and the channels it made are
    empty. *)
Theorem Fanout_shuts_down_cleanly {E : Type} (ctx : Context)
    (chain : string) (stages : list (string * (E → E))) (xs : list E)
    (out_cap : nat) :
  stages ≠ [] → N stages * length xs ≤ out_cap →
  ∀ n s,
    steps n (init (composite chain stages) ctx xs out_cap) s →
    finished s = true →
    length (threads s) = 3 + 2 * N stages ∧
    length (chans s) = 3 + 2 * N stages ∧
    wgs s = [0; 0] ∧
    (∀ c ch, chan_at s c = Some ch →
             ch_closed ch = true ∧ (c ≠ 1 → ch_buf ch = [])) ∧
    (∀ ch, chan_at s 2 = Some ch → ch_cap ch = 0).
Proof.
  intros Hne Hroom n s.
  by apply (fan_clean_end ctx chain stages xs out_cap Hne Hroom).
Qed.

Lemma Fanout_shuts_down_cleanly_witness :
  let s0 := init (composite "copy" pass_stages) Background [1; 2; 3]%Z 6 in
  ∃ n s,
    steps n s0 s ∧ finished s = true ∧
    length (threads s) = 7 ∧ length (chans s) = 7 ∧ wgs s = [0; 0].
Proof.
  intros s0.
  assert (pass_stages ≠ []) as Hne by done.
  assert (N pass_stages * length [1; 2; 3]%Z ≤ 6) as Hroom by (simpl; lia).
  destruct (fan_reaches_end Background "copy" pass_stages [1; 2; 3]%Z 6
              Hne Hroom) as (n & s & Hrun & Hfin).
  exists n, s. split; [exact Hrun|]. split; [exact Hfin|].
  destruct (Fanout_shuts_down_cleanly Background "copy" pass_stages
              [1; 2; 3]%Z 6 Hne Hroom n s Hrun Hfin)
    as (H1 & H2 & H3 & _).
  split; [exact H1|]. split; [exact H2|exact H3].
Defined.

(** In a Fanout over map leaves every child's results reach its merger in
    the order of the input.  In every state a run can reach, what the
    merger of child [k] has taken from the child's output channel is the
    start of the image, under the child's function, of what the child has
    taken from its input channel.  When every goroutine has returned,
    the merger of child [k] has taken the image of the whole input, and
    the collector has taken one item per child and input item. *)
Theorem Fanout_children_map_in_order {E : Type} (ctx : Context)
    (chain : string) (stages : list (string * (E → E))) (xs : list E)
    (out_cap : nat) :
  stages ≠ [] → N stages * length xs ≤ out_cap →
  ∀ n s,
    steps n (init (composite chain stages) ctx xs out_cap) s →
    (∀ k st, stages !! k = Some st →
             taken_from s (cout k)
             `prefix_of` (st.2 <$> taken_from s (cin k))) ∧
    (finished s = true →
     (∀ k st, stages !! k = Some st →
              taken_from s (cout k) = st.2 <$> xs) ∧
     length (taken_from s 2) = N stages * length xs).
Proof.
  intros Hne Hroom n s.
  by apply (fan_children_link ctx chain stages xs out_cap Hne Hroom).
Qed.

Lemma Fanout_children_map_in_order_witness :
  let s0 := init (composite "copy" pass_stages) Background [1; 2; 3]%Z 6 in
  ∃ n s,
    steps n s0 s ∧ finished s = true ∧
    taken_from s 4 = [1; 2; 3]%Z ∧ taken_from s 6 = [1; 2; 3]%Z ∧
    length (taken_from s 2) = 6.
Proof.
  intros s0.
  assert (pass_stages ≠ []) as Hne by done.
  assert (N pass_stages * length [1; 2; 3]%Z ≤ 6) as Hroom by (simpl; lia).
  destruct (fan_reaches_end Background "copy" pass_stages [1; 2; 3]%Z 6
              Hne Hroom) as (n & s & Hrun & Hfin).
  exists n, s. split; [exact Hrun|]. split; [exact Hfin|].
  destruct (Fanout_children_map_in_order Background "copy" pass_stages
              [1; 2; 3]%Z 6 Hne Hroom n s Hrun) as [_ Hend].
  destruct (Hend Hfin) as [Hk Hcol].
  split; [exact (Hk 0 ("a", id) eq_refl)|].
  split; [exact (Hk 1 ("b", id) eq_refl)|exact Hcol].
Defined.

End FanFacts.

(** ** The context decorators, together *)

Module ContextFacts.
Import Ctx Logging Traces Stats Cancel.

Lemma Value_WithValue_ne ctx k k' v :
  k' ≠ k → Value (WithValue ctx k' v) k = Value ctx k.
Proof. intros Hne. unfold WithValue. cbn [Value]. by rewrite decide_False. Qed.

Lemma Log_same_level ctx ctx' name msg out :
  Value ctx' PipeLineLogLevel = Value ctx PipeLineLogLevel →
  Log ctx' name msg out = Log ctx name msg out.
Proof. intros Hv. unfold Log. by rewrite Hv. Qed.

Lemma store_of_same ctx ctx' elem :
  Value ctx' PipelineStatDB = Value ctx PipelineStatDB →
  store_of elem ctx' = store_of elem ctx.
Proof. intros Hv. unfold store_of. by rewrite Hv. Qed.

(** [WithLogLevel], [WithTraces] and [WithStats] use three different
    keys, so none of them changes what the readers of the other two see:
    [HasTracesEnabled] is the same before and after a log level or a
    store is added, the store the hooks find is the same before and after
    traces or a log level are added, and [Log] prints the same before and
    after traces or a store are added. *)
Theorem decorators_do_not_interfere :
  ∀ ctx level elem sdb,
    HasTracesEnabled (WithLogLevel ctx level) = HasTracesEnabled ctx ∧
    HasTracesEnabled (WithStats elem ctx sdb) = HasTracesEnabled ctx ∧
    (∀ elem', store_of elem' (WithTraces ctx) = store_of elem' ctx) ∧
    (∀ elem', store_of elem' (WithLogLevel ctx level) = store_of elem' ctx) ∧
    (∀ name msg out,
       Log (WithTraces ctx) name msg out = Log ctx name msg out) ∧
    (∀ name msg out,
       Log (WithStats elem ctx sdb) name msg out = Log ctx name msg out).
Proof.
  intros ctx level elem sdb.
  split; [|split; [|split; [|split; [|split]]]].
  - unfold HasTracesEnabled, WithLogLevel.
    by rewrite Value_WithValue_ne.
  - unfold HasTracesEnabled, WithStats.
    by rewrite Value_WithValue_ne.
  - intros elem'. apply store_of_same. unfold WithTraces.
    by rewrite Value_WithValue_ne.
  - intros elem'. apply store_of_same. unfold WithLogLevel.
    by rewrite Value_WithValue_ne.
  - intros name msg out. apply Log_same_level. unfold WithTraces.
    by rewrite Value_WithValue_ne.
  - intros name msg out. apply Log_same_level. unfold WithStats.
    by rewrite Value_WithValue_ne.
Qed.

(** The innermost setting is the one that counts.  A second log level
    replaces the first: a level other than 0 on top of level 0 silences
    [Log], and level 0 on top of any level makes it print.  A second
    store replaces the first, and does so even when it is a store for
    another item type: then the hooks of this item type find no store at
    all, and [TrackInput] returns without touching any store. *)
Theorem innermost_setting_wins :
  ∀ ctx name msg out level elem elem' a b p now h,
    (level ≠ 0 →
     Log (WithLogLevel (WithLogLevel ctx 0) level) name msg out = out) ∧
    Log (WithLogLevel (WithLogLevel ctx level) 0) name msg out
    = out ++ ["[" +:+ name +:+ "] " +:+ msg] ∧
    store_of elem (WithStats elem (WithStats elem ctx a) b) = Some b ∧
    (elem' ≠ elem →
     store_of elem (WithStats elem' (WithStats elem ctx a) b) = None ∧
     TrackInput elem (WithStats elem' (WithStats elem ctx a) b) p now h
     = Returned h).
Proof.
  intros ctx name msg out level elem elem' a b p now h.
  split; [|split; [|split]].
  - intros Hl. unfold Log, WithLogLevel.
    rewrite LoggingFacts.Value_WithValue_eq.
    rewrite decide_False; [done|].
    unfold PipelineLogLevelDebug, iota. simpl. intros [= Heq]. by apply Hl.
  - apply LoggingFacts.Log_enabled. unfold WithLogLevel.
    apply LoggingFacts.Value_WithValue_eq.
  - unfold store_of, WithStats.
    rewrite LoggingFacts.Value_WithValue_eq. by rewrite decide_True.
  - intros Hne.
    assert (store_of elem (WithStats elem' (WithStats elem ctx a) b) = None)
      as Hs.
    { unfold store_of, WithStats.
      rewrite LoggingFacts.Value_WithValue_eq. by rewrite decide_False. }
    split; [done|]. unfold TrackInput.
    by apply StatsFacts.with_store_absent.
Qed.

Lemma innermost_setting_wins_witness :
  Log (WithLogLevel (WithLogLevel Background 0) 1) "p" "hello" [] = []
  ∧ store_of "Item"
      (WithStats "Other" (WithStats "Item" Background (Some 1%positive))
         (Some 2%positive))
    = None.
Proof.
  pose proof (innermost_setting_wins Background "p" "hello" [] 1 "Item"
                "Other" (Some 1%positive) (Some 2%positive)
                {| proc_addr := 1; proc_name := "p" |} 0 ∅)
    as (H1 & _ & _ & H4).
  split.
  - apply H1. lia.
  - apply H4. done.
Defined.

(** [Cancelled] returns true exactly when [ctx.Err()] is not nil.  It
    prints nothing when the context is not cancelled, and nothing when
    the level stored in the context is not the integer 0 (so a context
    that was never given a level is silent).  When the context is
    cancelled and the level is 0, the value of both
    [PipelineLogLevelDebug] and [PipelineLogLevelDisabled], it prints one
    line that names the processor twice and ends with the error. *)
Theorem Cancelled_reports_and_logs :
  ∀ ctx err name out,
    (Cancelled ctx err name out).1 = bool_decide (err ≠ None) ∧
    (err = None → (Cancelled ctx err name out).2 = out) ∧
    (Value ctx PipeLineLogLevel ≠ Some (VInt 0) →
     (Cancelled ctx err name out).2 = out) ∧
    (∀ e, err = Some e →
          (Cancelled (WithLogLevel ctx PipelineLogLevelDisabled)
             err name out).2
          = out ++ ["[" +:+ name
                    +:+ "] pipeline has been cancelled, stopping "
                    +:+ name +:+ ". reason: " +:+ e]).
Proof.
  intros ctx err name out. split; [|split; [|split]].
  - by destruct err.
  - by intros ->.
  - intros Hv. destruct err as [e|]; [|done]. simpl.
    by apply LoggingFacts.Log_disabled.
  - intros e ->. simpl. rewrite LoggingFacts.Log_enabled.
    + done.
    + unfold WithLogLevel. apply LoggingFacts.Value_WithValue_eq.
Qed.

Lemma Cancelled_reports_and_logs_witness :
  (Cancelled Background None "Fanout/a" []).2 = []
  ∧ (Cancelled Background (Some "context canceled") "Fanout/a" []).2 = []
  ∧ (Cancelled (WithLogLevel Background PipelineLogLevelDisabled)
       (Some "context canceled") "Fanout/a" []).2
    = ["[Fanout/a] pipeline has been cancelled, stopping Fanout/a. reason: context canceled"].
Proof.
  pose proof (Cancelled_reports_and_logs Background None "Fanout/a" [])
    as (_ & H2 & _ & _).
  pose proof (Cancelled_reports_and_logs Background
                (Some "context canceled") "Fanout/a" [])
    as (_ & _ & H3 & H4).
  split; [by apply H2|]. split; [by apply H3|].
  by apply (H4 "context canceled").
Defined.

End ContextFacts.

(** ** Sequences of hook calls *)

Module StatsCallsFacts.
Import Ctx Traces Stats StatsCalls.

Section Calls.
Context {Item : Type} `{!Traceable Item}.
Implicit Types (c : call Item) (cs pre : list (call Item * Time))
  (h : Heap) (db : StatDB) (q a : positive).

Local Open Scope Z_scope.

Lemma do_call_with_store elem ctx c now h :
  do_call elem ctx c now h
  = with_store elem ctx (db_track (upd_of c)) (callee c) now h.
Proof.
  destruct c; try done; simpl;
    unfold TrackOutput, TrackPassthrough;
    by destruct (with_store _ _ _ _ _ _).
Qed.



Lemma run_calls_snoc elem ctx pre c now h :
  run_calls elem ctx (pre ++ [(c, now)]) h
  = match run_calls elem ctx pre h with
    | Returned h' => do_call elem ctx c now h'
    | Panicked h' => Panicked h'
    end.
Proof.
  revert h. induction pre as [|[c' now'] pre IH]; intros h; simpl.
  - by destruct (do_call elem ctx c now h).
  - destruct (do_call elem ctx c' now' h); [apply IH|done].
Qed.










(** *** The time fields *)














End Calls.







(** A nil store registered with [WithStats(ctx, nil)] passes the type
    assertion of every hook, so every hook panics on its first use of the
    store, and no store is changed.  [TrackOutput] has added its trace
    to the item by then when traces are enabled. *)
Theorem nil_store_panics :
  ∀ (Item : Type) (T : Traceable Item) elem ctx
    (c : call Item) now (h : Heap) p (obj : Item),
    do_call elem (WithStats elem ctx None) c now h = Panicked h
    ∧ TrackOutput elem (WithTraces (WithStats elem ctx None)) p obj now h
      = Panicked (AddTrace (proc_name p) obj, h).
Proof.
  intros Item T elem ctx c now h p obj.
  assert (∀ ctx', Value ctx' PipelineStatDB
                  = Some (VStatDB elem None) →
                  store_of elem ctx' = Some None) as Hnil.
  { intros ctx' Hv. unfold store_of. rewrite Hv. by rewrite decide_True. }
  split.
  - rewrite do_call_with_store. unfold with_store.
    rewrite Hnil; [done|]. apply LoggingFacts.Value_WithValue_eq.
  - unfold TrackOutput.
    rewrite StatsFacts.HasTracesEnabled_WithTraces.
    unfold with_store. rewrite Hnil; [done|].
    unfold WithTraces. rewrite ContextFacts.Value_WithValue_ne by done.
    apply LoggingFacts.Value_WithValue_eq.
Qed.

End StatsCallsFacts.

(** ** What the builder builds *)

Module ShapeFacts.
Import Ctx Runtime Pipeline Builder Shape.

Section Induction.
Context {Config : Type} (P : SerializedPipeline Config → Prop).
Hypothesis node :
  ∀ type name cfg procs,
    Forall P procs → P (Descriptor type name cfg procs).

(** Induction on a descriptor, with the hypothesis for every child. *)
Fixpoint descriptor_rect (sp : SerializedPipeline Config) : P sp :=
  match sp with
  | Descriptor type name cfg procs =>
      node type name cfg procs
        ((fix children (l : list (SerializedPipeline Config))
            : Forall P l :=
            match l with
            | [] => @List.Forall_nil _ P
            | x :: rest =>
                @List.Forall_cons _ P x rest (descriptor_rect x) (children rest)
            end) procs)
  end.
End Induction.

Section Build.
Context {E : Type} {Config : Type}.
Implicit Types (f : option (@ProcessorFactory E Config)) (cfg : Config)
  (sp : SerializedPipeline Config)
  (procs : list (SerializedPipeline Config))
  (p q : Processor E) (ps qs acc : list (Processor E)).

Lemma composite_kind_cases type :
  composite_kind type = true →
  type = "fanout" ∨ type = "parallel" ∨ type = "sequential".
Proof.
  unfold composite_kind. intros H.
  apply orb_prop in H as [H|H]; [apply orb_prop in H as [H|H]|];
    apply String.eqb_eq in H; auto.
Qed.

Lemma Pipeline_leaf f type name cfg procs :
  composite_kind type = false →
  Pipeline f (Descriptor type name cfg procs)
  = if String.eqb type "processor" then
      match f with
      | None => (NilFactoryPanic, [])
      | Some factory =>
          match factory name cfg with
          | (_, Some _) =>
              (Err (name +:+ ": " +:+ ErrInvalidType), [name])
          | (proc, None) => (Ok proc, [name])
          end
      end
    else (Err ErrInvalidType, []).
Proof.
  unfold composite_kind. intros H.
  apply orb_false_elim in H as [H H3].
  apply orb_false_elim in H as [H1 H2].
  cbn [Pipeline]. by rewrite H1, H2, H3.
Qed.

(** The loop over the children: what it appends and what it calls. *)
Lemma build_children_ok f procs acc ps calls :
  build_children (Pipeline f) procs acc = (Ok ps, calls) →
  ∃ qs, ps = acc ++ qs
        ∧ Forall2 (λ sp q, (Pipeline f sp).1 = Ok q) procs qs
        ∧ calls = flat_map (λ sp, (Pipeline f sp).2) procs.
Proof.
  revert acc ps calls.
  induction procs as [|sp procs IH]; intros acc ps calls Hb.
  - simpl in Hb. injection Hb as <- <-. exists [].
    by rewrite app_nil_r.
  - simpl in Hb. destruct (Pipeline f sp) as [[q|e|] c] eqn:Hsp;
      [|done..].
    destruct (build_children (Pipeline f) procs (acc ++ [q]))
      as [r c'] eqn:Hrest.
    injection Hb as -> <-.
    destruct (IH _ _ _ Hrest) as (qs & -> & Hqs & ->).
    exists (q :: qs). rewrite <- app_assoc. split; [done|].
    split; [|by simpl; rewrite Hsp].
    constructor; [by rewrite Hsp|done].
Qed.

Lemma build_children_calls f procs acc r calls :
  Forall (λ sp, ∀ r c, Pipeline f sp = (r, c) →
                       c `prefix_of` leaf_names sp
                       ∧ ((∃ p, r = Ok p) → c = leaf_names sp)) procs →
  build_children (Pipeline f) procs acc = (r, calls) →
  calls `prefix_of` flat_map leaf_names procs
  ∧ ((∃ ps, r = Ok ps) → calls = flat_map leaf_names procs).
Proof.
  intros Hall. revert acc r calls.
  induction Hall as [|sp procs Hsp Hall IH]; intros acc r calls Hb.
  - simpl in Hb. by injection Hb as <- <-.
  - simpl in Hb. destruct (Pipeline f sp) as [r0 c] eqn:Hp.
    destruct (Hsp r0 c eq_refl) as [Hpre Hok].
    destruct r0 as [q|e|].
    + destruct (build_children (Pipeline f) procs (acc ++ [q]))
        as [r' c'] eqn:Hrest.
      injection Hb as <- <-.
      destruct (IH _ _ _ Hrest) as [Hpre' Hok'].
      rewrite (Hok (ex_intro _ q eq_refl)). simpl. split.
      * by apply prefix_app.
      * intros Hr. by rewrite Hok'.
    + injection Hb as <- <-. split.
      * simpl. by apply prefix_app_r.
      * by intros [? ?].
    + injection Hb as <- <-. split.
      * simpl. by apply prefix_app_r.
      * by intros [? ?].
Qed.

Lemma wrap_calls mk (r : result (list (Processor E))) calls r' calls' :
  wrap mk (r, calls) = (r', calls') →
  calls' = calls ∧ ((∃ p, r' = Ok p) → ∃ ps, r = Ok ps).
Proof.
  destruct r; simpl; intros [= <- <-]; split; try done.
  - intros _. by eexists.
  - by intros [? ?].
  - by intros [? ?].
Qed.

Lemma Pipeline_calls f sp :
  ∀ r c, Pipeline f sp = (r, c) →
         c `prefix_of` leaf_names sp
         ∧ ((∃ p, r = Ok p) → c = leaf_names sp).
Proof.
  induction sp as [type name cfg procs IH] using descriptor_rect.
  intros r c Hp. cbn [leaf_names].
  destruct (composite_kind type) eqn:Hk.
  - destruct (BuilderFacts.Pipeline_composite f type name cfg procs Hk)
      as [mk Hmk].
    rewrite Hmk in Hp.
    destruct (build_children (Pipeline f) procs []) as [r0 c0] eqn:Hb.
    apply wrap_calls in Hp as [-> Hok].
    destruct (build_children_calls f procs [] r0 c0 IH Hb) as [H1 H2].
    split; [done|]. intros Hr. apply H2. by apply Hok.
  - rewrite Pipeline_leaf in Hp by done.
    destruct (String.eqb type "processor").
    + destruct f as [factory|].
      * destruct (factory name cfg) as [proc [e|]];
          by injection Hp as <- <-.
      * injection Hp as <- <-. split; [apply prefix_nil|].
        by intros [? ?].
    + injection Hp as <- <-. split; [done|]. by intros [? ?].
Qed.


End Build.

(** [Pipeline] calls the factory once for every [processor] node it
    reaches, depth first and the children of a node from left to right:
    when it succeeds, the names it called the factory with are the leaf
    names of the descriptor in that order; when it fails or panics, they
    are a prefix of them, so that nothing is built after the failure. *)
Theorem factory_called_in_descriptor_order :
  ∀ (E Config : Type) (f : option (@ProcessorFactory E Config))
    (sp : SerializedPipeline Config) r calls,
    Pipeline f sp = (r, calls) →
    calls `prefix_of` leaf_names sp
    ∧ ((∃ p, r = Ok p) → calls = leaf_names sp).
Proof. intros E Config f sp r calls. apply Pipeline_calls. Qed.

Lemma factory_called_in_descriptor_order_witness :
  let sp :=
    Descriptor "sequential" "chain" tt
      [Descriptor "processor" "double" tt [];
       Descriptor "fanout" "f" tt [Descriptor "processor" "n2" tt []];
       Descriptor "processor" "double" tt []] in
  Pipeline (Some BuilderFacts.sample_factory) sp
  = (Err "n2: invalid pipeline type", ["double"; "n2"])
  ∧ ["double"; "n2"] `prefix_of` leaf_names sp.
Proof.
  intros sp. split; [reflexivity|].
  apply (factory_called_in_descriptor_order Z unit
           (Some BuilderFacts.sample_factory) sp
           (Err "n2: invalid pipeline type") ["double"; "n2"]).
  reflexivity.
Defined.

(** A composite node that [Pipeline] builds mirrors its descriptor: it
    is the composite of the descriptor's kind, its [ChainName] is the
    descriptor's name, its children are what [Pipeline] builds from the
    descriptor's children, one for one and in their order, and the
    factory calls are those of the children one after the other.  A
    Parallel comes out with a nil [procChans]. *)
Theorem Pipeline_mirrors_descriptor :
  ∀ (E Config : Type) (f : option (@ProcessorFactory E Config))
    type name cfg procs p calls,
    composite_kind type = true →
    Pipeline f (Descriptor type name cfg procs) = (Ok p, calls) →
    kind_word p = type ∧ chain_name p = name
    ∧ Forall2 (λ sp q, (Pipeline f sp).1 = Ok q) procs (children p)
    ∧ calls = flat_map (λ sp, (Pipeline f sp).2) procs
    ∧ (∀ chain ps chans, p = Parallel chain ps chans → chans = []).
Proof.
  intros E Config f type name cfg procs p calls Hk Hp.
  assert (∃ mk, Pipeline f (Descriptor type name cfg procs)
                = wrap mk (build_children (Pipeline f) procs [])
                ∧ ∀ ps, kind_word (mk ps) = type
                        ∧ chain_name (mk ps) = name
                        ∧ children (mk ps) = ps
                        ∧ ∀ chain ps' chans,
                            mk ps = Parallel chain ps' chans → chans = [])
    as (mk & Hmk & Hfields).
  { destruct (composite_kind_cases type Hk) as [->|[->| ->]].
    - exists (Fanout name). split; [done|]. by intros ps.
    - exists (λ ps, Parallel name ps []). split; [done|].
      intros ps. repeat split. by intros chain ps' chans [= _ _ <-].
    - exists (Sequential name). split; [done|]. by intros ps. }
  rewrite Hmk in Hp.
  destruct (build_children (Pipeline f) procs []) as [[ps|e|] c] eqn:Hb;
    simpl in Hp; [|done..].
  injection Hp as <- <-.
  destruct (build_children_ok f procs [] ps c Hb) as (qs & -> & Hqs & ->).
  destruct (Hfields ([] ++ qs)) as (H1 & H2 & H3 & H4).
  rewrite H3. simpl. done.
Qed.

Lemma Pipeline_mirrors_descriptor_witness :
  let sp :=
    Descriptor "parallel" "workers" tt
      [Descriptor "processor" "double" tt [];
       Descriptor "sequential" "s" tt []] in
  ∃ p, Pipeline (Some BuilderFacts.sample_factory) sp
       = (Ok p, ["double"])
       ∧ kind_word p = "parallel" ∧ chain_name p = "workers"
       ∧ length (children p) = 2%nat.
Proof.
  intros sp.
  exists (Parallel "workers"
            [MapLeaf "double" (λ x, 2 * x); Sequential "s" []] []).
  split; [reflexivity|].
  destruct (Pipeline_mirrors_descriptor Z unit
              (Some BuilderFacts.sample_factory)
              "parallel" "workers" tt
              [Descriptor "processor" "double" tt [];
               Descriptor "sequential" "s" tt []]
              (Parallel "workers"
                 [MapLeaf "double" (λ x, 2 * x); Sequential "s" []] [])
              ["double"] eq_refl eq_refl) as (H1 & H2 & H3 & _).
  split; [exact H1|]. split; [exact H2|].
  symmetry. exact (Forall2_length _ _ _ H3).
Defined.



End ShapeFacts.

(** ** Processor trees *)

Module TreeFacts.
Import Ctx Runtime Pipeline.

Section Induction.
Context {E : Type} (P : Processor E → Prop).
Hypothesis nil_case : P NilProcessor.
Hypothesis leaf_case : ∀ name exec, P (Leaf name exec).
Hypothesis fanout_case :
  ∀ chain ps, Forall P ps → P (Fanout chain ps).
Hypothesis sequential_case :
  ∀ chain ps, Forall P ps → P (Sequential chain ps).
Hypothesis parallel_case :
  ∀ chain ps chans, Forall P ps → P (Parallel chain ps chans).

(** Induction on a processor tree, with the hypothesis for every
    child. *)
Fixpoint processor_tree_ind (p : Processor E) : P p :=
  let children :=
    fix children (l : list (Processor E)) : Forall P l :=
      match l with
      | [] => @List.Forall_nil _ P
      | x :: rest =>
          @List.Forall_cons _ P x rest (processor_tree_ind x)
            (children rest)
      end in
  match p with
  | NilProcessor => nil_case
  | Leaf name exec => leaf_case name exec
  | Fanout chain ps => fanout_case chain ps (children ps)
  | Sequential chain ps => sequential_case chain ps (children ps)
  | Parallel chain ps chans => parallel_case chain ps chans (children ps)
  end.
End Induction.

Lemma append_assoc (s1 s2 s3 : string) :
  (s1 +:+ s2) +:+ s3 = s1 +:+ (s2 +:+ s3).
Proof.
  induction s1 as [|a s1 IH]; [done|].
  change (String a ((s1 +:+ s2) +:+ s3) = String a (s1 +:+ s2 +:+ s3)).
  by f_equal.
Qed.

Lemma append_nil_r (s : string) : s +:+ EmptyString = s.
Proof.
  induction s as [|a s IH]; [done|].
  change (String a (s +:+ EmptyString) = String a s). by f_equal.
Qed.

End TreeFacts.

(** ** Marshalling *)

Module MarshalFacts.
Import Ctx Runtime Pipeline Builder Shape Marshal TreeFacts.
Local Open Scope nat_scope.

Section Marshal.
Context {E : Type} (json_Marshal : Processor E → string * option string).
Implicit Types (p q : Processor E) (ps ls : list (Processor E))
  (r : encoded).

Local Abbreviation ok := (λ l, leaf_ok json_Marshal l = true).
Local Abbreviation enc := (encode json_Marshal).

Lemma ends_as_app_ok ls1 ls2 r :
  Forall ok ls1 → ends_as json_Marshal ls2 r →
  ends_as json_Marshal (ls1 ++ ls2) r.
Proof.
  intros H1. destruct r as [t|err|]; simpl.
  - intros H2. by apply Forall_app.
  - intros (pre & bad & post & -> & Hpre & Hbad & Herr).
    exists (ls1 ++ pre), bad, post. rewrite <- app_assoc.
    split; [done|]. split; [by apply Forall_app|done].
  - intros (pre & post & -> & Hpre).
    exists (ls1 ++ pre), post. rewrite <- app_assoc.
    split; [done|]. by apply Forall_app.
Qed.

Lemma ends_as_app_bad ls1 ls2 r :
  (∀ t, r ≠ Bytes t) → ends_as json_Marshal ls1 r →
  ends_as json_Marshal (ls1 ++ ls2) r.
Proof.
  intros Hr. destruct r as [t|err|]; simpl.
  - by destruct (Hr t).
  - intros (pre & bad & post & -> & Hpre & Hbad & Herr).
    exists pre, bad, (post ++ ls2). by rewrite <- app_assoc.
  - intros (pre & post & -> & Hpre).
    exists pre, (post ++ ls2). by rewrite <- app_assoc.
Qed.

Lemma write_processors_ends total ps pos w :
  Forall (λ p, ends_as json_Marshal (leaves p) (enc p)) ps →
  ends_as json_Marshal (flat_map leaves ps)
    (write_processors enc total ps pos w).
Proof.
  intros Hall. revert pos w.
  induction Hall as [|p ps Hp _ IH]; intros pos w; simpl.
  - done.
  - destruct (enc p) as [t|err|] eqn:Hep.
    + apply ends_as_app_ok; [exact Hp|apply IH].
    + by apply ends_as_app_bad.
    + by apply ends_as_app_bad.
Qed.

Lemma component_ends name typename ps :
  Forall (λ p, ends_as json_Marshal (leaves p) (enc p)) ps →
  ends_as json_Marshal (flat_map leaves ps)
    (marshalPipelineComponent enc name typename ps).
Proof.
  intros Hall. unfold marshalPipelineComponent.
  pose proof (write_processors_ends (length ps) ps 0
                (EmptyString +:+ "{" +:+ name_field name
                 +:+ type_field typename +:+ processors_open) Hall)
    as Hw.
  revert Hw. cbn zeta.
  match goal with
  | |- ends_as _ _ ?x → ends_as _ _ (match ?y with _ => _ end) =>
      replace y with x; [by destruct x|]
  end.
  f_equal. by rewrite !append_assoc.
Qed.

Lemma encode_ends p : ends_as json_Marshal (leaves p) (enc p).
Proof.
  induction p as [|name exec|chain ps IH|chain ps IH|chain ps chans IH]
    using processor_tree_ind; cbn [encode leaves].
  - exists [], []. by split.
  - unfold marshal_leaf, ends_as.
    destruct (json_Marshal (Leaf name exec)) as [cfg [err|]] eqn:Hj.
    + exists [], (Leaf name exec), []. simpl. by rewrite Hj.
    + constructor; [|done]. simpl. by rewrite Hj.
  - by apply component_ends.
  - by apply component_ends.
  - by apply component_ends.
Qed.

(** The text the loop writes. *)
Lemma write_processors_text total ps pos w t :
  pos + length ps = total →
  write_processors enc total ps pos w = Bytes t →
  ∃ encs, Forall2 (λ q e, enc q = Bytes e) ps encs
          ∧ t = w +:+ String.concat "," encs.
Proof.
  revert pos w. induction ps as [|p ps IH]; intros pos w Hlen Hw.
  - simpl in Hw. injection Hw as <-. exists []. split; [done|].
    simpl. by rewrite append_nil_r.
  - simpl in Hw, Hlen. destruct (enc p) as [e|?|] eqn:Hp; [|done..].
    apply IH in Hw as (encs & Hencs & ->); [|lia].
    exists (e :: encs). split; [by constructor|].
    destruct ps as [|p' ps].
    + apply Forall2_nil_inv_l in Hencs as ->. simpl in *.
      rewrite decide_False by lia. by rewrite append_nil_r.
    + apply Forall2_cons_inv_l in Hencs as (e' & encs' & _ & _ & ->).
      simpl in Hlen. rewrite decide_True by lia.
      change (String.concat "," (e :: e' :: encs'))
        with (e +:+ "," +:+ String.concat "," (e' :: encs')).
      by rewrite !append_assoc.
Qed.

Lemma component_text name typename ps t :
  marshalPipelineComponent enc name typename ps = Bytes t →
  ∃ encs, Forall2 (λ q e, enc q = Bytes e) ps encs
          ∧ t = "{" +:+ name_field name +:+ type_field typename
                +:+ processors_open +:+ String.concat "," encs
                +:+ "]}".
Proof.
  unfold marshalPipelineComponent. cbn zeta.
  destruct (write_processors _ _ _ _ _) as [w|?|] eqn:Hw; [|done..].
  intros [= <-].
  apply write_processors_text in Hw as (encs & Hencs & ->); [|done].
  exists encs. split; [done|].
  rewrite !append_assoc. done.
Qed.

End Marshal.

(** [MarshalJSON] on a tree walks the leaves depth first, the children of
    a node from left to right, and stops at the first leaf it cannot
    marshal.  It yields bytes exactly when no leaf is nil and
    [json.Marshal] accepts every leaf; it returns the error of
    [json.Marshal] on the first leaf that is refused, when all leaves
    before it were accepted; and it panics (a method called on a nil
    processor) when the first leaf that is not accepted is nil. *)
Theorem MarshalJSON_stops_at_first_bad_leaf :
  ∀ (E : Type) (json_Marshal : Processor E → string * option string)
    (p : Processor E),
    match encode json_Marshal p with
    | Bytes _ => Forall (λ l, leaf_ok json_Marshal l = true) (leaves p)
    | Failed err =>
        ∃ pre bad post,
          leaves p = pre ++ bad :: post
          ∧ Forall (λ l, leaf_ok json_Marshal l = true) pre
          ∧ bad ≠ NilProcessor ∧ (json_Marshal bad).2 = Some err
    | Panics =>
        ∃ pre post,
          leaves p = pre ++ NilProcessor :: post
          ∧ Forall (λ l, leaf_ok json_Marshal l = true) pre
    end.
Proof. intros E json_Marshal p. apply encode_ends. Qed.

(** A composite that [Pipeline] has built from a descriptor marshals to
    the descriptor's own name and kind: when [MarshalJSON] yields bytes,
    they are an object whose [name] field is the descriptor's name, whose
    [type] field is the descriptor's kind word, and whose [processors]
    field lists the encodings of the children that [Pipeline] built from
    the descriptor's children, in their order, separated by single commas
    with none after the last. *)
Theorem MarshalJSON_restores_descriptor_fields :
  ∀ (E Config : Type) (f : option (@ProcessorFactory E Config))
    (json_Marshal : Processor E → string * option string)
    type name cfg procs p calls text,
    composite_kind type = true →
    Pipeline f (Descriptor type name cfg procs) = (Ok p, calls) →
    encode json_Marshal p = Bytes text →
    ∃ built encs,
      Forall2 (λ sp q, (Pipeline f sp).1 = Ok q) procs built
      ∧ Forall2 (λ q e, encode json_Marshal q = Bytes e) built encs
      ∧ text = "{" +:+ name_field name +:+ type_field type
               +:+ processors_open +:+ String.concat "," encs +:+ "]}".
Proof.
  intros E Config f json_Marshal type name cfg procs p calls text Hk Hp He.
  assert (∃ mk, Pipeline f (Descriptor type name cfg procs)
                = wrap mk (build_children (Pipeline f) procs [])
                ∧ ∀ ps, encode json_Marshal (mk ps)
                        = marshalPipelineComponent (encode json_Marshal)
                            name type ps) as (mk & Hmk & Henc).
  { destruct (ShapeFacts.composite_kind_cases type Hk) as [->|[->| ->]].
    - by exists (Fanout name).
    - by exists (λ ps, Parallel name ps []).
    - by exists (Sequential name). }
  rewrite Hmk in Hp.
  destruct (build_children (Pipeline f) procs []) as [[ps|e|] c] eqn:Hb;
    simpl in Hp; [|done..].
  injection Hp as <- <-.
  destruct (ShapeFacts.build_children_ok f procs [] ps c Hb)
    as (qs & -> & Hqs & ->).
  rewrite Henc in He.
  apply component_text in He as (encs & Hencs & ->).
  by exists ([] ++ qs), encs.
Qed.

Lemma MarshalJSON_restores_descriptor_fields_witness :
  let jm : Processor Z → string * option string := λ _, ("{}", None) in
  let sp :=
    Descriptor "sequential" "chain" tt
      [Descriptor "processor" "double" tt [];
       Descriptor "fanout" "f" tt []] in
  ∃ p text,
    Pipeline (Some BuilderFacts.sample_factory) sp = (Ok p, ["double"])
    ∧ encode jm p = Bytes text
    ∧ ∃ encs,
        text = "{" +:+ name_field "chain" +:+ type_field "sequential"
               +:+ processors_open +:+ String.concat "," encs +:+ "]}"
        ∧ length encs = 2%nat.
Proof.
  intros jm sp.
  destruct (Pipeline (Some BuilderFacts.sample_factory) sp)
    as [r calls] eqn:Hp.
  vm_compute in Hp. injection Hp as <- <-.
  destruct (encode jm
              (Sequential "chain"
                 [MapLeaf "double" (λ x, 2 * x)%Z; Fanout "f" []]))
    as [text| |] eqn:He; [|by vm_compute in He..].
  eexists _, text. split; [reflexivity|]. split; [exact He|].
  destruct (MarshalJSON_restores_descriptor_fields Z unit
              (Some BuilderFacts.sample_factory) jm
              "sequential" "chain" tt
              [Descriptor "processor" "double" tt [];
               Descriptor "fanout" "f" tt []]
              _ ["double"] text eq_refl eq_refl He)
    as (built & encs & Hb & Hencs & Ht).
  exists encs. split; [exact Ht|].
  rewrite <- (Forall2_length _ _ _ Hencs).
  rewrite <- (Forall2_length _ _ _ Hb). reflexivity.
Defined.

End MarshalFacts.

(** ** The processor graph *)

Module GraphFacts.
Import Ctx Runtime Pipeline Marshal Graph TreeFacts.
Local Open Scope nat_scope.

Section Graph.
Context {E : Type} (rand_Int : nat → Z).
Implicit Types (node p : Processor E) (ps : list (Processor E))
  (drawn : nat) (lines added : list string) (ids : list string).

Local Ltac arith := simpl in *; unfold fmap in *; lia.

Local Abbreviation visit := (processInternal rand_Int).
Local Abbreviation ids_from := (ids_drawn rand_Int).

Lemma elem_of_ids_drawn x a n :
  x ∈ ids_from a n ↔ ∃ i, a ≤ i < a + n ∧ x = fmt_d (rand_Int i).
Proof.
  unfold ids_drawn. rewrite list_elem_of_fmap. split.
  - intros (i & -> & Hi%elem_of_seq). by exists i.
  - intros (i & Hi & ->). exists i. split; [done|]. by apply elem_of_seq.
Qed.

Lemma ids_drawn_mono a n a' n' x :
  a' ≤ a → a + n ≤ a' + n' → x ∈ ids_from a n → x ∈ ids_from a' n'.
Proof.
  intros Ha Hn (i & Hi & ->)%elem_of_ids_drawn.
  apply elem_of_ids_drawn. exists i. split; [lia|done].
Qed.

Lemma ids_drawn_at a n i :
  a ≤ i < a + n → fmt_d (rand_Int i) ∈ ids_from a n.
Proof. intros Hi. apply elem_of_ids_drawn. by exists i. Qed.

Lemma well_formed_mono ids ids' l :
  (∀ x, x ∈ ids → x ∈ ids') → well_formed ids l → well_formed ids' l.
Proof.
  intros Hsub [(id & label & Hid & ->)|(a & b & arrow & Ha & Hb & Harr & ->)].
  - left. exists id, label. auto.
  - right. exists a, b, arrow. auto.
Qed.

Lemma well_formed_node ids id label :
  id ∈ ids → well_formed ids (id +:+ "[" +:+ label +:+ "]").
Proof. intros Hid. left. by exists id, label. Qed.

Lemma well_formed_decl ids id pre chain post :
  id ∈ ids →
  well_formed ids (id +:+ "[" +:+ pre +:+ chain +:+ post +:+ "]").
Proof.
  intros Hid. left. exists id, (pre +:+ chain +:+ post).
  split; [done|]. by rewrite !append_assoc.
Qed.

Lemma well_formed_solid ids a b :
  a ∈ ids → b ∈ ids → well_formed ids (a +:+ " --> " +:+ b).
Proof. intros Ha Hb. right. exists a, b, " --> ". auto. Qed.

Lemma well_formed_arrow ids arrow a b :
  arrow = " --> " ∨ arrow = " -.-> " →
  a ∈ ids → b ∈ ids → well_formed ids (a +:+ arrow +:+ b).
Proof. intros Harr Ha Hb. right. exists a, b, arrow. auto. Qed.

(** The loop of a Fanout or of a Parallel. *)
Lemma star_loop_walked arrow entry exit ps d0 drawn lines :
  arrow = " --> " ∨ arrow = " -.-> " →
  d0 ≤ drawn →
  entry ∈ ids_from d0 (drawn - d0) → exit ∈ ids_from d0 (drawn - d0) →
  Forall (λ p, ∀ drawn lines, walked rand_Int p drawn lines
                                (visit p drawn lines)) ps →
  match star_loop visit arrow entry exit ps drawn lines with
  | None => existsb has_nil ps = true
  | Some (_, drawn', lines') =>
      existsb has_nil ps = false
      ∧ drawn' = drawn + sum_list (node_ids <$> ps)
      ∧ ∃ added,
          lines' = lines ++ added
          ∧ length added = sum_list ((λ p, node_lines p + 2) <$> ps)
          ∧ Forall (well_formed (ids_from d0 (drawn' - d0))) added
  end.
Proof.
  intros Harr Hd0 Hentry Hexit Hall. revert drawn lines Hd0 Hentry Hexit.
  induction Hall as [|p ps Hp _ IH]; intros drawn lines Hd0 Hentry Hexit.
  - simpl. split; [done|]. split; [arith|].
    exists []. by rewrite app_nil_r.
  - simpl. specialize (Hp drawn lines).
    destruct (visit p drawn lines) as [[[[ne no] d1] l1]|]; simpl in Hp.
    + destruct Hp as (Hnil & -> & Hne & Hno & addp & -> & Hlen & Hwf).
      specialize (IH (drawn + node_ids p)
                    (((lines ++ addp) ++ [entry +:+ arrow +:+ ne])
                     ++ [no +:+ arrow +:+ exit])).
      destruct (star_loop _ _ _ _ ps _ _) as [[[[] d2] l2]|].
      * destruct IH as (Hnil' & -> & addr & -> & Hlen' & Hwf');
          [arith|eapply ids_drawn_mono; [..|exact Hentry]; arith
          |eapply ids_drawn_mono; [..|exact Hexit]; arith|].
        rewrite Hnil, Hnil'. split; [done|]. split; [arith|].
        exists (addp ++ [entry +:+ arrow +:+ ne; no +:+ arrow +:+ exit]
                ++ addr).
        split; [by rewrite <- !app_assoc|].
        split; [rewrite !length_app; simpl; arith|].
        apply Forall_app. split.
        { eapply Forall_impl; [exact Hwf|]. intros l.
          apply well_formed_mono. intros x.
          apply ids_drawn_mono; arith. }
        apply Forall_app. split; [|done].
        constructor; [|constructor; [|constructor]].
        -- apply well_formed_arrow; [done|..].
           ++ eapply ids_drawn_mono; [..|exact Hentry]; arith.
           ++ eapply ids_drawn_mono; [..|exact Hne]; arith.
        -- apply well_formed_arrow; [done|..].
           ++ eapply ids_drawn_mono; [..|exact Hno]; arith.
           ++ eapply ids_drawn_mono; [..|exact Hexit]; arith.
      * rewrite IH; [by rewrite orb_true_r|arith|..].
        -- eapply ids_drawn_mono; [..|exact Hentry]; arith.
        -- eapply ids_drawn_mono; [..|exact Hexit]; arith.
    + by rewrite Hp.
Qed.

(** The loop of a Sequential. *)
Lemma chain_loop_walked prev ps d0 drawn lines :
  d0 ≤ drawn →
  prev ∈ ids_from d0 (drawn - d0) →
  Forall (λ p, ∀ drawn lines, walked rand_Int p drawn lines
                                (visit p drawn lines)) ps →
  match chain_loop visit ps prev drawn lines with
  | None => existsb has_nil ps = true
  | Some (prev', drawn', lines') =>
      existsb has_nil ps = false
      ∧ drawn' = drawn + sum_list (node_ids <$> ps)
      ∧ prev' ∈ ids_from d0 (drawn' - d0)
      ∧ ∃ added,
          lines' = lines ++ added
          ∧ length added = sum_list ((λ p, node_lines p + 1) <$> ps)
          ∧ Forall (well_formed (ids_from d0 (drawn' - d0))) added
  end.
Proof.
  intros Hd0 Hprev Hall. revert prev drawn lines Hd0 Hprev.
  induction Hall as [|p ps Hp _ IH]; intros prev drawn lines Hd0 Hprev.
  - simpl. split; [done|]. split; [arith|].
    split; [eapply ids_drawn_mono; [..|exact Hprev]; arith|].
    exists []. by rewrite app_nil_r.
  - simpl. specialize (Hp drawn lines).
    destruct (visit p drawn lines) as [[[[ne no] d1] l1]|]; simpl in Hp.
    + destruct Hp as (Hnil & -> & Hne & Hno & addp & -> & Hlen & Hwf).
      specialize (IH no (drawn + node_ids p)
                    ((lines ++ addp) ++ [prev +:+ " --> " +:+ ne])).
      destruct (chain_loop _ ps _ _ _) as [[[prev' d2] l2]|].
      * destruct IH as (Hnil' & -> & Hprev' & addr & -> & Hlen' & Hwf');
          [arith|eapply ids_drawn_mono; [..|exact Hno]; arith|].
        rewrite Hnil, Hnil'. split; [done|]. split; [arith|].
        split; [eapply ids_drawn_mono; [..|exact Hprev']; arith|].
        exists (addp ++ [prev +:+ " --> " +:+ ne] ++ addr).
        split; [by rewrite <- !app_assoc|].
        split; [rewrite !length_app; simpl; arith|].
        apply Forall_app. split.
        { eapply Forall_impl; [exact Hwf|]. intros l.
          apply well_formed_mono. intros x.
          apply ids_drawn_mono; arith. }
        apply Forall_app. split; [|done].
        constructor; [|constructor].
        apply well_formed_solid.
        -- eapply ids_drawn_mono; [..|exact Hprev]; arith.
        -- eapply ids_drawn_mono; [..|exact Hne]; arith.
      * rewrite IH; [by rewrite orb_true_r|arith|].
        eapply ids_drawn_mono; [..|exact Hno]; arith.
    + by rewrite Hp.
Qed.

Lemma Forall_well_formed_mono ids ids' added :
  (∀ x, x ∈ ids → x ∈ ids') →
  Forall (well_formed ids) added → Forall (well_formed ids') added.
Proof.
  intros Hsub H. eapply Forall_impl; [exact H|].
  intros l. by apply well_formed_mono.
Qed.

Lemma processInternal_walked node :
  ∀ drawn lines, walked rand_Int node drawn lines (visit node drawn lines).
Proof.
  induction node as [|name exec|chain ps IH|chain ps IH|chain ps chans IH]
    using processor_tree_ind; intros drawn lines.
  - done.
  - cbn. split; [done|]. split; [lia|].
    assert (fmt_d (rand_Int drawn) ∈ ids_from drawn 1) as Hid
      by (apply ids_drawn_at; lia).
    split; [done|]. split; [done|].
    eexists. split; [done|]. split; [done|].
    constructor; [|constructor]. by apply well_formed_node.
  - cbn [processInternal randomID].
    pose proof (star_loop_walked " --> " (fmt_d (rand_Int drawn))
                  (fmt_d (rand_Int (S drawn))) ps drawn (S (S drawn))
                  ((lines
                    ++ [fmt_d (rand_Int drawn) +:+ "[/FanOut/" +:+ chain
                        +:+ "\]"])
                   ++ [fmt_d (rand_Int (S drawn)) +:+ "[\FanOut/"
                       +:+ chain +:+ "/end/]"])) as Hloop.
    destruct (star_loop _ _ _ _ ps _ _) as [[[[] d2] l2]|].
    + destruct Hloop as (Hnil & -> & added & -> & Hlen & Hwf);
        [by left|lia|apply ids_drawn_at; lia|apply ids_drawn_at; lia
        |done|].
      cbn [walked has_nil node_ids node_lines].
      split; [done|]. split; [lia|].
      split; [apply ids_drawn_at; lia|].
      split; [apply ids_drawn_at; lia|].
      exists ([fmt_d (rand_Int drawn) +:+ "[/FanOut/" +:+ chain +:+ "\]";
               fmt_d (rand_Int (S drawn)) +:+ "[\FanOut/" +:+ chain
               +:+ "/end/]"] ++ added).
      split; [by rewrite <- !app_assoc|].
      split; [rewrite length_app; simpl; lia|].
      apply Forall_app. split.
      * constructor; [|constructor; [|constructor]].
        -- refine (well_formed_decl _ (fmt_d (rand_Int drawn)) "/FanOut/" chain
                     backslash _).
           apply ids_drawn_at. lia.
        -- refine (well_formed_decl _ (fmt_d (rand_Int (S drawn))) "\FanOut/" chain
                     "/end/" _).
           apply ids_drawn_at. lia.
      * eapply Forall_well_formed_mono; [|exact Hwf].
        intros x. apply ids_drawn_mono; lia.
    + cbn [walked has_nil]. apply Hloop; [by left|lia|..|done];
        apply ids_drawn_at; lia.
  - cbn [processInternal randomID].
    pose proof (chain_loop_walked (fmt_d (rand_Int drawn)) ps drawn
                  (S (S drawn))
                  ((lines
                    ++ [fmt_d (rand_Int drawn) +:+ "[/Sequential/"
                        +:+ chain +:+ "\]"])
                   ++ [fmt_d (rand_Int (S drawn)) +:+ "[\Sequential/"
                       +:+ chain +:+ "/end/]"])) as Hloop.
    destruct (chain_loop _ ps _ _ _) as [[[prev d2] l2]|].
    + destruct Hloop as (Hnil & -> & Hprev & added & -> & Hlen & Hwf);
        [lia|apply ids_drawn_at; lia|done|].
      cbn [walked has_nil node_ids node_lines].
      split; [done|]. split; [lia|].
      split; [apply ids_drawn_at; lia|].
      split; [apply ids_drawn_at; lia|].
      exists ([fmt_d (rand_Int drawn) +:+ "[/Sequential/" +:+ chain
               +:+ "\]";
               fmt_d (rand_Int (S drawn)) +:+ "[\Sequential/" +:+ chain
               +:+ "/end/]"] ++ added
              ++ [prev +:+ " --> " +:+ fmt_d (rand_Int (S drawn))]).
      split; [by rewrite <- !app_assoc|].
      split; [rewrite !length_app; simpl; lia|].
      apply Forall_app. split; [|apply Forall_app; split].
      * constructor; [|constructor; [|constructor]].
        -- refine (well_formed_decl _ (fmt_d (rand_Int drawn)) "/Sequential/" chain
                     backslash _).
           apply ids_drawn_at. lia.
        -- refine (well_formed_decl _ (fmt_d (rand_Int (S drawn)))
                     "\Sequential/" chain "/end/" _).
           apply ids_drawn_at. lia.
      * eapply Forall_well_formed_mono; [|exact Hwf].
        intros x. apply ids_drawn_mono; lia.
      * constructor; [|constructor]. apply well_formed_solid.
        -- eapply ids_drawn_mono; [..|exact Hprev]; lia.
        -- apply ids_drawn_at. lia.
    + cbn [walked has_nil]. apply Hloop; [lia|..|done].
      apply ids_drawn_at; lia.
  - cbn [processInternal randomID].
    pose proof (star_loop_walked " -.-> " (fmt_d (rand_Int drawn))
                  (fmt_d (rand_Int (S drawn))) ps drawn (S (S drawn))
                  ((lines
                    ++ [fmt_d (rand_Int drawn) +:+ "[/Parallel/" +:+ chain
                        +:+ "\]"])
                   ++ [fmt_d (rand_Int (S drawn)) +:+ "[\Parallel/"
                       +:+ chain +:+ "/end/]"])) as Hloop.
    destruct (star_loop _ _ _ _ ps _ _) as [[[[] d2] l2]|].
    + destruct Hloop as (Hnil & -> & added & -> & Hlen & Hwf);
        [by right|lia|apply ids_drawn_at; lia|apply ids_drawn_at; lia
        |done|].
      cbn [walked has_nil node_ids node_lines].
      split; [done|]. split; [lia|].
      split; [apply ids_drawn_at; lia|].
      split; [apply ids_drawn_at; lia|].
      exists ([fmt_d (rand_Int drawn) +:+ "[/Parallel/" +:+ chain +:+ "\]";
               fmt_d (rand_Int (S drawn)) +:+ "[\Parallel/" +:+ chain
               +:+ "/end/]"] ++ added).
      split; [by rewrite <- !app_assoc|].
      split; [rewrite length_app; simpl; lia|].
      apply Forall_app. split.
      * constructor; [|constructor; [|constructor]].
        -- refine (well_formed_decl _ (fmt_d (rand_Int drawn)) "/Parallel/" chain
                     backslash _).
           apply ids_drawn_at. lia.
        -- refine (well_formed_decl _ (fmt_d (rand_Int (S drawn))) "\Parallel/" chain
                     "/end/" _).
           apply ids_drawn_at. lia.
      * eapply Forall_well_formed_mono; [|exact Hwf].
        intros x. apply ids_drawn_mono; lia.
    + cbn [walked has_nil]. apply Hloop; [by right|lia|..|done];
        apply ids_drawn_at; lia.
Qed.

(** [process] on a graph that has not been processed. *)
Lemma process_new p drawn :
  match process rand_Int (NewProcessorGraph p) drawn with
  | None => has_nil p = true
  | Some (g, drawn') =>
      has_nil p = false
      ∧ drawn' = drawn + 2 + node_ids p
      ∧ processed g = true ∧ root g = p
      ∧ ∃ middle entry exit,
          lines g
          = ["graph TD"; fmt_d (rand_Int drawn) +:+ "[Input]";
             fmt_d (rand_Int (S drawn)) +:+ "[Output]"]
            ++ middle
            ++ [fmt_d (rand_Int drawn) +:+ " --> " +:+ entry;
                exit +:+ " --> " +:+ fmt_d (rand_Int (S drawn))]
          ∧ length middle = node_lines p
          ∧ entry ∈ ids_from (drawn + 2) (node_ids p)
          ∧ exit ∈ ids_from (drawn + 2) (node_ids p)
          ∧ Forall (well_formed (ids_from (drawn + 2) (node_ids p)))
              middle
  end.
Proof.
  unfold process, NewProcessorGraph. cbn [processed root lines randomID].
  pose proof (processInternal_walked p (S (S drawn))
                ((["graph TD"] ++ [fmt_d (rand_Int drawn) +:+ "[Input]"])
                 ++ [fmt_d (rand_Int (S drawn)) +:+ "[Output]"]))
    as Hw.
  destruct (visit p _ _) as [[[[entry exit] d2] l2]|]; [|exact Hw].
  destruct Hw as (Hnil & -> & Hentry & Hexit & middle & -> & Hlen & Hwf).
  cbn [processed root lines].
  split; [done|]. split; [lia|]. split; [done|]. split; [done|].
  exists middle, entry, exit.
  replace (drawn + 2) with (S (S drawn)) by lia.
  split; [by rewrite <- !app_assoc|]. done.
Qed.

Lemma process_processed (g : ProcessorGraph E) drawn g' drawn' :
  process rand_Int g drawn = Some (g', drawn') → processed g' = true.
Proof.
  unfold process. destruct (processed g) eqn:Hp.
  - by intros [= <- <-].
  - cbn [randomID].
    destruct (visit (root g) _ _) as [[[[entry exit] d2] l2]|];
      [|done].
    by intros [= <- <-].
Qed.

Lemma process_again (g : ProcessorGraph E) drawn :
  processed g = true → process rand_Int g drawn = Some (g, drawn).
Proof. intros Hp. unfold process. by rewrite Hp. Qed.

End Graph.

(** [String] on a new graph panics exactly when the tree holds a nil
    processor.  Otherwise it draws two identifiers for the Input and
    Output nodes and, for the tree, one for every leaf and two for every
    composite; and its text has the header line, the two lines of Input
    and Output, the lines of the tree (one for a leaf; for a Fanout or a
    Parallel two and two more for every child; for a Sequential three and
    one more for every child) and two closing edges. *)
Theorem String_size_follows_the_tree :
  ∀ (E : Type) (rand_Int : nat → Z) (p : Processor E) (drawn : nat),
    match String_ rand_Int (NewProcessorGraph p) drawn with
    | None => has_nil p = true
    | Some (text, g, drawn') =>
        has_nil p = false
        ∧ drawn' = drawn + 2 + node_ids p
        ∧ length (lines g) = 5 + node_lines p
        ∧ text = String.concat newline (lines g)
        ∧ processed g = true ∧ root g = p
    end.
Proof.
  intros E rand_Int p drawn. unfold String_.
  pose proof (process_new rand_Int p drawn) as Hp.
  destruct (process _ _ _) as [[g d']|]; [|exact Hp].
  destruct Hp as (Hnil & -> & Hpr & Hroot & middle & entry & exit & Hl
                  & Hlen & _).
  split; [done|]. split; [done|].
  split; [rewrite Hl, !length_app; simpl; lia|]. done.
Qed.



(** Once [String] has returned, the graph is fixed: [process] has set
    [processed], so every later [String], [Write] and [WriteHTML] on the
    graph draws no identifier, leaves the graph as it is and works with
    the same text.  [Write] hands that text to the writer, [WriteHTML]
    hands it over between the two fixed parts of its template, and both
    return the writer's error as it is. *)
Theorem graph_is_fixed_once_processed :
  ∀ (E : Type) (rand_Int : nat → Z) (W : Type) (Wr : Writer W)
    (g : ProcessorGraph E) drawn text g' drawn',
    String_ rand_Int g drawn = Some (text, g', drawn') →
    ∀ drawn2 (dest : W),
      String_ rand_Int g' drawn2 = Some (text, g', drawn2)
      ∧ Write rand_Int g' dest drawn2
        = Some ((io_Write dest text).2, g', (io_Write dest text).1, drawn2)
      ∧ WriteHTML rand_Int g' dest drawn2
        = Some ((io_Write dest (html_head +:+ text +:+ html_tail)).2, g',
                (io_Write dest (html_head +:+ text +:+ html_tail)).1,
                drawn2).
Proof.
  intros E rand_Int W Wr g drawn text g' drawn' Hs drawn2 dest.
  unfold String_ in Hs.
  destruct (process rand_Int g drawn) as [[g0 d0]|] eqn:Hp; [|done].
  injection Hs as <- <- <-.
  apply process_processed in Hp.
  assert (String_ rand_Int g0 drawn2
          = Some (String.concat newline (lines g0), g0, drawn2)) as Hagain.
  { unfold String_. by rewrite process_again. }
  split; [done|]. unfold Write, WriteHTML. rewrite Hagain.
  split; by destruct (io_Write dest _).
Qed.

Lemma graph_is_fixed_once_processed_witness :
  let rand_Int : nat → Z := λ k, (100 + Z.of_nat k)%Z in
  let g := NewProcessorGraph (MapLeaf (E := Z) "a" id) in
  ∃ text g' d,
    String_ rand_Int g 0 = Some (text, g', d)
    ∧ String_ rand_Int g' 7 = Some (text, g', 7)
    ∧ Write rand_Int g' ([] : list string) 7 = Some (None, g', [text], 7).
Proof.
  intros rand_Int g.
  destruct (String_ rand_Int g 0) as [[[text g'] d]|] eqn:Hs;
    [|by vm_compute in Hs].
  exists text, g', d. split; [reflexivity|].
  destruct (graph_is_fixed_once_processed Z rand_Int (list string) _
              g 0 text g' d Hs 7 []) as (H1 & H2 & _).
  split; [exact H1|exact H2].
Defined.

End GraphFacts.
